(** * encrypted-pouch: a shallow embedding of [encryption.ts] and
    [encryptedPouch.ts], and the properties of the specification
    checked against it.

    Conventions of the embedding.
    - A JavaScript string is the list of its UTF-16 code units ([N]).
    - A [Uint8Array] is a [list byte].
    - An [async] method is a computation in the monad [M]: it threads the
      mutable state of the instance and of its environment ([World]) and
      ends either with a value or with a thrown exception ([exn]); a
      [try]/[catch] is [try_catch].
    - What the class consumes from outside (WebCrypto, the PouchDB
      database, the listener callbacks, [JSON]) is a record of functions
      the development is parameterised over.  Platform functions with a
      fixed standard meaning ([TextEncoder], [TextDecoder], [parseInt],
      [String.prototype.split], ...) are written out in [Module JS]. *)

From Stdlib Require Import List NArith ZArith Lia Bool String Ascii DecimalString.
From Stdlib.Strings Require Import Byte.
Import ListNotations.

Ltac Zify.zify_post_hook ::= Z.to_euclidean_division_equations.

Local Open Scope N_scope.

(* ================================================================= *)
(** ** JavaScript strings and byte arrays *)

Abbreviation jsstring := (list N).
Abbreviation bytes := (list byte).

(** The string literal [s] of the source, as a JavaScript string. *)
Definition js (s : string) : jsstring :=
  map N_of_ascii (list_ascii_of_string s).

Definition jsstring_eqb (a b : jsstring) : bool :=
  if list_eq_dec N.eq_dec a b then true else false.

(** [ToUint8]: the conversion applied to every element stored into a
    [Uint8Array]; [None] stands for [NaN]. *)
Definition u8 (n : N) : byte :=
  match Byte.of_N (n mod 256) with
  | Some b => b
  | None => x00
  end.

Definition ToUint8 (v : option Z) : byte :=
  match v with
  | None => x00
  | Some z => u8 (Z.to_N (z mod 256)%Z)
  end.

Module JS.

(** *** Character classes *)

(** LineTerminator: LF, CR, LS, PS.  The [.] of a regular expression
    without the [s] flag matches every code unit but these. *)
Definition isLineTerminator (c : N) : bool :=
  (c =? 0x0A) || (c =? 0x0D) || (c =? 0x2028) || (c =? 0x2029).

(** StrWhiteSpaceChar: WhiteSpace or LineTerminator. *)
Definition isStrWhiteSpace (c : N) : bool :=
  (c =? 0x09) || (c =? 0x0B) || (c =? 0x0C) || (c =? 0x20) || (c =? 0xA0)
  || (c =? 0xFEFF) || (c =? 0x1680) || ((0x2000 <=? c) && (c <=? 0x200A))
  || (c =? 0x202F) || (c =? 0x205F) || (c =? 0x3000) || isLineTerminator c.

(** Value of a radix-16 digit. *)
Definition hexDigitValue (c : N) : option N :=
  if (0x30 <=? c) && (c <=? 0x39) then Some (c - 0x30)
  else if (0x61 <=? c) && (c <=? 0x66) then Some (c - 0x61 + 10)
  else if (0x41 <=? c) && (c <=? 0x46) then Some (c - 0x41 + 10)
  else None.

(** *** [String.prototype.split] on a one-character separator *)

Fixpoint split_go (sep : N) (cur : jsstring) (s : jsstring) : list jsstring :=
  match s with
  | [] => [rev cur]
  | c :: t => if c =? sep then rev cur :: split_go sep [] t
              else split_go sep (c :: cur) t
  end.

Definition split (sep : N) (s : jsstring) : list jsstring := split_go sep [] s.

(** *** [s.match(/.{1,2}/g)]

    Successive greedy matches of one or two code units that are not line
    terminators; a line terminator is skipped.  [None] is the [null] that
    [match] returns when there is no match at all. *)
Fixpoint dot_1_2_matches (s : jsstring) : list jsstring :=
  match s with
  | [] => []
  | c :: t =>
      if isLineTerminator c then dot_1_2_matches t
      else match t with
           | [] => [[c]]
           | c2 :: r =>
               if isLineTerminator c2 then [c] :: dot_1_2_matches t
               else [c; c2] :: dot_1_2_matches r
           end
  end.

Definition match_dot_1_2 (s : jsstring) : option (list jsstring) :=
  match dot_1_2_matches s with
  | [] => None
  | ms => Some ms
  end.

(** *** [parseInt(s, 16)] *)

Fixpoint trimStart (s : jsstring) : jsstring :=
  match s with
  | c :: t => if isStrWhiteSpace c then trimStart t else s
  | [] => []
  end.

(** Accumulates the longest prefix of radix-16 digits; [None] when the
    prefix is empty. *)
Fixpoint hexDigits (acc : option N) (s : jsstring) : option N :=
  match s with
  | [] => acc
  | c :: t =>
      match hexDigitValue c with
      | Some d => hexDigits (Some (match acc with Some a => a * 16 + d | None => d end)) t
      | None => acc
      end
  end.

Definition parseInt16 (s : jsstring) : option Z :=
  let S1 := trimStart s in
  let '(sign, S2) :=
    match S1 with
    | 0x2D :: t => ((-1)%Z, t)
    | 0x2B :: t => (1%Z, t)
    | _ => (1%Z, S1)
    end in
  let S3 :=
    match S2 with
    | 0x30 :: 0x78 :: t => t
    | 0x30 :: 0x58 :: t => t
    | _ => S2
    end in
  match hexDigits None S3 with
  | None => None
  | Some n => Some (sign * Z.of_N n)%Z
  end.

(** *** [Number.prototype.toString(16)] on a byte and [padStart] *)

Definition hexDigitChar (d : N) : N :=
  if d <? 10 then 0x30 + d else 0x61 + (d - 10).

Definition toString16 (b : byte) : jsstring :=
  let n := Byte.to_N b in
  if n <? 16 then [hexDigitChar n]
  else [hexDigitChar (n / 16); hexDigitChar (n mod 16)].

Definition padStart (len : nat) (fill : N) (s : jsstring) : jsstring :=
  repeat fill (len - List.length s) ++ s.

(** *** [startsWith], [indexOf] of one character, [slice] *)

Fixpoint startsWith (s prefix : jsstring) : bool :=
  match prefix, s with
  | [], _ => true
  | p :: ps, c :: t => (c =? p) && startsWith t ps
  | _ :: _, [] => false
  end.

Fixpoint indexOf (c : N) (s : jsstring) : option nat :=
  match s with
  | [] => None
  | x :: t => if x =? c then Some O
              else match indexOf c t with
                   | Some i => Some (S i)
                   | None => None
                   end
  end.

Definition slice (from : nat) (to : option nat) (s : jsstring) : jsstring :=
  match to with
  | Some j => firstn (j - from) (skipn from s)
  | None => skipn from s
  end.

(** *** [TextEncoder.prototype.encode]: UTF-8 of the string's scalar values *)

Definition isHighSurrogate (c : N) : bool := (0xD800 <=? c) && (c <=? 0xDBFF).
Definition isLowSurrogate (c : N) : bool := (0xDC00 <=? c) && (c <=? 0xDFFF).

(** Conversion of a string to its scalar values; a surrogate that is not
    part of a pair becomes U+FFFD. *)
Fixpoint scalarValues (s : jsstring) : list N :=
  match s with
  | [] => []
  | c :: t =>
      if isHighSurrogate c then
        match t with
        | d :: r =>
            if isLowSurrogate d
            then (0x10000 + (c - 0xD800) * 0x400 + (d - 0xDC00)) :: scalarValues r
            else 0xFFFD :: scalarValues t
        | [] => [0xFFFD]
        end
      else if isLowSurrogate c then 0xFFFD :: scalarValues t
      else c :: scalarValues t
  end.

Definition utf8EncodeOne (cp : N) : bytes :=
  if cp <=? 0x7F then [u8 cp]
  else if cp <=? 0x7FF then
    [u8 (0xC0 + cp / 64); u8 (0x80 + cp mod 64)]
  else if cp <=? 0xFFFF then
    [u8 (0xE0 + cp / 4096); u8 (0x80 + (cp / 64) mod 64); u8 (0x80 + cp mod 64)]
  else
    [u8 (0xF0 + cp / 262144); u8 (0x80 + (cp / 4096) mod 64);
     u8 (0x80 + (cp / 64) mod 64); u8 (0x80 + cp mod 64)].

Definition TextEncoder_encode (s : jsstring) : bytes :=
  flat_map utf8EncodeOne (scalarValues s).

(** *** [new TextDecoder().decode]: the UTF-8 decoder of the Encoding
    Standard, in replacement mode, with the byte order mark removed *)

Record utf8State := {
  code_point : N;
  bytes_seen : N;
  bytes_needed : N;
  lower_boundary : N;
  upper_boundary : N
}.

Definition utf8Init : utf8State :=
  {| code_point := 0; bytes_seen := 0; bytes_needed := 0;
     lower_boundary := 0x80; upper_boundary := 0xBF |}.

(** A lead byte, read in the initial state. *)
Definition utf8Lead (b : N) : list N * utf8State :=
  if b <=? 0x7F then ([b], utf8Init)
  else if (0xC2 <=? b) && (b <=? 0xDF) then
    ([], {| code_point := b mod 32; bytes_seen := 0; bytes_needed := 1;
            lower_boundary := 0x80; upper_boundary := 0xBF |})
  else if (0xE0 <=? b) && (b <=? 0xEF) then
    ([], {| code_point := b mod 16; bytes_seen := 0; bytes_needed := 2;
            lower_boundary := if b =? 0xE0 then 0xA0 else 0x80;
            upper_boundary := if b =? 0xED then 0x9F else 0xBF |})
  else if (0xF0 <=? b) && (b <=? 0xF4) then
    ([], {| code_point := b mod 8; bytes_seen := 0; bytes_needed := 3;
            lower_boundary := if b =? 0xF0 then 0x90 else 0x80;
            upper_boundary := if b =? 0xF4 then 0x8F else 0xBF |})
  else ([0xFFFD], utf8Init).

(** One byte of input: the code points emitted and the next state.  A byte
    outside the expected range ends the sequence with U+FFFD and is read
    again as a lead byte. *)
Definition utf8Step (st : utf8State) (b : N) : list N * utf8State :=
  if bytes_needed st =? 0 then utf8Lead b
  else if (b <? lower_boundary st) || (upper_boundary st <? b) then
    let '(out, st') := utf8Lead b in (0xFFFD :: out, st')
  else
    let cp := code_point st * 64 + b mod 64 in
    if bytes_seen st + 1 =? bytes_needed st then ([cp], utf8Init)
    else ([], {| code_point := cp; bytes_seen := bytes_seen st + 1;
                 bytes_needed := bytes_needed st;
                 lower_boundary := 0x80; upper_boundary := 0xBF |}).

Fixpoint utf8Decode (st : utf8State) (bs : bytes) : list N :=
  match bs with
  | [] => if bytes_needed st =? 0 then [] else [0xFFFD]
  | b :: t => let '(out, st') := utf8Step st (Byte.to_N b) in
              out ++ utf8Decode st' t
  end.

(** With [ignoreBOM] false (the default), a leading U+FEFF is dropped. *)
Definition stripBOM (cps : list N) : list N :=
  match cps with
  | 0xFEFF :: t => t
  | _ => cps
  end.

Definition codeUnits (cp : N) : jsstring :=
  if cp <? 0x10000 then [cp]
  else [0xD800 + (cp - 0x10000) / 0x400; 0xDC00 + (cp - 0x10000) mod 0x400].

Definition TextDecoder_decode (bs : bytes) : jsstring :=
  flat_map codeUnits (stripBOM (utf8Decode utf8Init bs)).

End JS.

(* ================================================================= *)
(** ** Exceptions, settled promises, and the monad of async methods *)

(** What a [throw] carries.  [OtherError] is any other subclass of
    [Error] (a [DOMException] of WebCrypto, an error of the store);
    [NonError] is a thrown value that is not an [Error], kept as the
    string [String(e)] gives. *)
Inductive exn :=
| Error (message : jsstring)
| DecryptionError (message : jsstring)
| TypeError (message : jsstring)
| SyntaxError (message : jsstring)
| OtherError (name message : jsstring)
| NonError (text : jsstring).

(** [e instanceof Error ? e.message : String(e)] *)
Definition describe (e : exn) : jsstring :=
  match e with
  | Error m | DecryptionError m | TypeError m | SyntaxError m => m
  | OtherError _ m => m
  | NonError t => t
  end.


(** A settled promise, or the outcome of a call that may throw. *)
Definition result (A : Type) := (exn + A)%type.

Definition bindR {A B} (r : result A) (k : A -> result B) : result B :=
  match r with
  | inl e => inl e
  | inr a => k a
  end.

(** [xs.map(f)] where [f] may throw: the first exception ends the map. *)
Fixpoint mapR {A B} (f : A -> result B) (xs : list A) : result (list B) :=
  match xs with
  | [] => inr []
  | x :: t => bindR (f x) (fun y => bindR (mapR f t) (fun ys => inr (y :: ys)))
  end.

(** An async method over the mutable state [S]: the state it leaves and
    the value it resolves with or the exception it rejects with.  State
    changes made before a [throw] stay. *)
Definition M (S A : Type) := S -> S * result A.

Definition ret {S A} (a : A) : M S A := fun s => (s, inr a).
Definition throw {S A} (e : exn) : M S A := fun s => (s, inl e).
Definition await {S A} (r : result A) : M S A := fun s => (s, r).

Definition bind {S A B} (m : M S A) (k : A -> M S B) : M S B :=
  fun s => match m s with
           | (s', inr a) => k a s'
           | (s', inl e) => (s', inl e)
           end.

Definition try_catch {S A} (m : M S A) (handler : exn -> M S A) : M S A :=
  fun s => match m s with
           | (s', inl e) => handler e s'
           | (s', inr a) => (s', inr a)
           end.

Definition gets {S A} (f : S -> A) : M S A := fun s => (s, inr (f s)).
Definition modify {S} (f : S -> S) : M S unit := fun s => (f s, inr tt).

Declare Scope async_scope.
Delimit Scope async_scope with async.
Notation "x <- c1 ;; c2" := (bind c1 (fun x => c2))
  (at level 100, c1 at next level, right associativity) : async_scope.
Notation "c1 ;; c2" := (bind c1 (fun _ => c2))
  (at level 100, right associativity) : async_scope.
Notation "x <-? r ;; k" := (bindR r (fun x => k))
  (at level 100, r at next level, right associativity) : async_scope.
Local Open Scope async_scope.

(** A loop [for (const x of xs) body] over a state. *)
Fixpoint forEach {S A} (xs : list A) (body : A -> M S unit) : M S unit :=
  match xs with
  | [] => ret tt
  | x :: t => body x ;; forEach t body
  end.

(* ================================================================= *)
(** ** [encryption.ts] *)

(** *** [CryptoInterface] *)

Record CryptoKey := {
  key_algorithm : jsstring;
  key_data : bytes;
  key_extractable : bool;
  key_usages : list jsstring
}.

Record Pbkdf2Params := {
  salt : bytes;
  iterations : N;
  hash : jsstring
}.

(** The members of [CryptoInterface].  A promise-returning member gives
    the way its promise settles.  [subtle_encrypt] and [subtle_decrypt]
    take the [iv] of their [{name: "AES-GCM", iv}] argument; the data of
    [subtle_decrypt] is [None] when the caller passes [undefined].
    [getRandomValues d n] is the content of an [n]-byte array after the
    [d]-th call. *)
Record CryptoInterface := {
  subtle_digest : jsstring -> bytes -> result bytes;
  subtle_importKey :
    jsstring -> bytes -> jsstring -> bool -> list jsstring -> result CryptoKey;
  subtle_encrypt : bytes -> CryptoKey -> bytes -> result bytes;
  subtle_decrypt : bytes -> CryptoKey -> option bytes -> result bytes;
  subtle_deriveBits : Pbkdf2Params -> CryptoKey -> N -> result bytes;
  getRandomValues : nat -> nat -> bytes
}.

(** *** [class EncryptionHelper] *)

Inductive PassphraseMode := derive | raw.

(** The [readonly] fields. *)
Record EncryptionHelper := {
  passphrase : jsstring;
  crypto : CryptoInterface;
  passphraseMode : PassphraseMode
}.

(** The mutable part: [keyPromise] ([None] is [null]; a promise is kept
    by the way it settles) and the number of random draws made so far. *)
Record HelperState := {
  keyPromise : option (result CryptoKey);
  draws : nat
}.

Definition newHelperState : HelperState :=
  {| keyPromise := None; draws := 0 |}.

(** The body of the async function whose promise [getKey] caches. *)
Definition deriveKey (h : EncryptionHelper) : result CryptoKey :=
  let pwUtf8 := JS.TextEncoder_encode (passphrase h) in
  keyMaterial <-?
    match passphraseMode h with
    | derive =>
        baseKey <-? subtle_importKey (crypto h) (js "raw") pwUtf8 (js "PBKDF2")
                      false [js "deriveBits"] ;;
        subtle_deriveBits (crypto h)
          {| salt := pwUtf8; iterations := 100000; hash := js "SHA-256" |}
          baseKey 256
    | raw => subtle_digest (crypto h) (js "SHA-256") pwUtf8
    end ;;
  subtle_importKey (crypto h) (js "raw") keyMaterial (js "AES-GCM") true
    [js "encrypt"; js "decrypt"].

Definition getKey (h : EncryptionHelper) : M HelperState CryptoKey :=
  fun s =>
    match keyPromise s with
    | Some p => (s, p)
    | None =>
        let p := deriveKey h in
        ({| keyPromise := Some p; draws := draws s |}, p)
    end.

Definition fromHexString (hexString : jsstring) : result bytes :=
  match JS.match_dot_1_2 hexString with
  | None => inl (TypeError (js "Cannot read properties of null (reading 'map')"))
  | Some ms => inr (map (fun byte => ToUint8 (JS.parseInt16 byte)) ms)
  end.

Definition toHexString (bs : bytes) : jsstring :=
  fold_left (fun str byte => str ++ JS.padStart 2 0x30 (JS.toString16 byte)) bs [].

Definition randomBytes (h : EncryptionHelper) (n : nat) : M HelperState bytes :=
  fun s => ({| keyPromise := keyPromise s; draws := S (draws s) |},
            inr (getRandomValues (crypto h) (draws s) n)).

Definition encrypt (h : EncryptionHelper) (data : jsstring) : M HelperState jsstring :=
  key <- getKey h ;;
  let encoded := JS.TextEncoder_encode data in
  iv <- randomBytes h 12 ;;
  ciphertext <- await (subtle_encrypt (crypto h) iv key encoded) ;;
  ret (toHexString iv ++ js "|" ++ toHexString ciphertext).

Definition decrypt (h : EncryptionHelper) (data : jsstring) : M HelperState jsstring :=
  try_catch
    (key <- getKey h ;;
     parts <- await (mapR fromHexString (JS.split 0x7C data)) ;;
     match parts with
     | [] => throw (TypeError (js "iv is undefined"))
     | iv :: rest =>
         let ciphertext := hd_error rest in
         decrypted <- await (subtle_decrypt (crypto h) iv key ciphertext) ;;
         ret (JS.TextDecoder_decode decrypted)
     end)
    (fun e => throw (DecryptionError (js "Could not decrypt: " ++ describe e))).

(* ================================================================= *)
(** ** [encryptedPouch.ts]: data *)

(** *** JavaScript values and plain objects

    A plain object is the list of its own enumerable properties, in the
    order [Object.entries] lists them (insertion order; the precedence of
    integer-like keys is not modelled).  Numbers are the integers. *)
#[local] Set Warnings "-register-all".
Inductive jsvalue :=
| JUndefined
| JNull
| JBool (b : bool)
| JNum (n : Z)
| JStr (s : jsstring)
| JArr (items : list jsvalue)
| JObj (props : list (jsstring * jsvalue)).

Abbreviation object := (list (jsstring * jsvalue)).

Definition truthy (v : jsvalue) : bool :=
  match v with
  | JUndefined | JNull => false
  | JBool b => b
  | JNum n => negb (n =? 0)%Z
  | JStr [] => false
  | JStr (_ :: _) | JArr _ | JObj _ => true
  end.

(** [o[k]] on own properties; [None] is [undefined] for a missing one. *)
Fixpoint getProp (k : jsstring) (o : object) : option jsvalue :=
  match o with
  | [] => None
  | (k', v) :: t => if jsstring_eqb k k' then Some v else getProp k t
  end.

Definition propValue (k : jsstring) (o : object) : jsvalue :=
  match getProp k o with
  | Some v => v
  | None => JUndefined
  end.

(** [k in o] *)
Definition hasProp (k : jsstring) (o : object) : bool :=
  match getProp k o with
  | Some _ => true
  | None => false
  end.

(** Definition of an own property, as an object literal or a spread does:
    an existing property keeps its place. *)
Fixpoint defineProp (k : jsstring) (v : jsvalue) (o : object) : object :=
  match o with
  | [] => [(k, v)]
  | (k', v') :: t =>
      if jsstring_eqb k k' then (k, v) :: t else (k', v') :: defineProp k v t
  end.

(** The assignment [o[k] = v] on an ordinary object: the key
    ["__proto__"] reaches the accessor of [Object.prototype] and creates
    no own property. *)
Definition setProp (k : jsstring) (v : jsvalue) (o : object) : object :=
  if jsstring_eqb k (js "__proto__") then o else defineProp k v o.

Definition indexKey (i : nat) : jsstring :=
  js (NilEmpty.string_of_uint (Nat.to_uint i)).

(** The own enumerable properties that [...v] copies. *)
Definition ownProperties (v : jsvalue) : object :=
  match v with
  | JObj props => props
  | JArr items => map (fun '(i, x) => (indexKey i, x)) (combine (seq 0 (List.length items)) items)
  | JStr s => map (fun '(i, c) => (indexKey i, JStr [c])) (combine (seq 0 (List.length s)) s)
  | _ => []
  end.

(** [{...o, ...v}] *)
Definition spread (o : object) (v : jsvalue) : object :=
  fold_left (fun acc '(k, x) => defineProp k x acc) (ownProperties v) o.

Fixpoint join (sep : jsstring) (parts : list jsstring) : jsstring :=
  match parts with
  | [] => []
  | [x] => x
  | x :: t => x ++ sep ++ join sep t
  end.

(** [String(v)], as a template literal applies it. *)
Fixpoint ToString (v : jsvalue) : jsstring :=
  match v with
  | JUndefined => js "undefined"
  | JNull => js "null"
  | JBool true => js "true"
  | JBool false => js "false"
  | JNum n => js (NilZero.string_of_int (Z.to_int n))
  | JStr s => s
  | JArr items =>
      join (js ",")
        (map (fun x => match x with
                       | JUndefined | JNull => []
                       | _ => ToString x
                       end) items)
  | JObj _ => js "[object Object]"
  end.

(** *** The interfaces of the module *)

(** [EncryptedDoc & { _conflicts?: string[] }]: a record of the store as
    the code reads it.  A missing field is [None]. *)
Record EncryptedDoc := {
  _id : jsstring;
  _rev : option jsstring;
  d : option jsstring;
  _conflicts : option (list jsstring)
}.

Record ConflictInfo := {
  ci_docId : jsstring;
  ci_table : jsstring;
  ci_id : jsstring;
  ci_currentRev : option jsstring;
  ci_conflictRevs : list jsstring;
  ci_winner : object;
  ci_losers : list object
}.

Record DecryptionErrorEvent := {
  ev_docId : jsstring;
  ev_error : exn;
  ev_rawDoc : EncryptedDoc
}.

Inductive Direction := push | pull | both.

Record SyncStats := {
  docs_read : option N;
  docs_written : option N;
  doc_write_failures : option N
}.

Record SyncInfo := {
  direction : Direction;
  change : SyncStats
}.

(** A batch [{ table, docs }] of an [onChange] or [onDelete] call. *)
Record Batch := {
  table : jsstring;
  docs : list object
}.

(** A callback gives [None] when it returns and [Some e] when it throws
    [e].  The optional callbacks are [None] when not registered. *)
Record PouchListener := {
  onChange : list Batch -> option exn;
  onDelete : list Batch -> option exn;
  onConflict : option (list ConflictInfo -> option exn);
  onSync : option (SyncInfo -> option exn);
  onError : option (list DecryptionErrorEvent -> option exn)
}.

(** [{ onChange: () => {}, onDelete: () => {} }] *)
Definition defaultListener : PouchListener :=
  {| onChange := fun _ => None; onDelete := fun _ => None;
     onConflict := None; onSync := None; onError := None |}.

(** *** The store

    A row of [allDocs], a change of the live feed, and the store itself
    as the answers it gives while one method runs. *)
Record Row := {
  row_id : jsstring;
  row_rev : jsstring;
  row_doc : option EncryptedDoc
}.

Record Change := {
  change_id : jsstring;
  change_deleted : bool;
  change_doc : option EncryptedDoc
}.

Record SyncComplete := {
  complete_push : option SyncStats;
  complete_pull : option SyncStats
}.

(** What a sync handle emits. *)
Inductive SyncEvent :=
| sync_active
| sync_change (info : SyncInfo)
| sync_error (err : exn).

Record Database := {
  (** [allDocs({ include_docs, conflicts: true })] *)
  db_allDocs : bool -> result (list Row);
  (** [get(id, { conflicts: true })] and [get(id, { rev })] *)
  db_get : jsstring -> option jsstring -> result EncryptedDoc;
  (** [put(doc)]: the revision of the response *)
  db_put : object -> result jsstring;
  (** [bulkDocs(deletions)] *)
  db_bulkDocs : list (jsstring * jsstring) -> result unit;
  (** What the handle of [sync(url, { live, retry })] emits, in order,
      within the five seconds [connectRemote] waits *)
  db_sync_events : jsstring -> list SyncEvent;
  (** The one-shot [sync(url, { live: false, retry: false })] *)
  db_sync_once : jsstring -> result SyncComplete;
  (** What the connected handle emits within the thirty seconds
      [deleteAllAndSync] waits *)
  db_push_events : list SyncEvent
}.

(** *** Observable effects, in the order they happen *)
Inductive Event :=
| called_onChange (changes : list Batch)
| called_onDelete (deletions : list Batch)
| called_onConflict (conflicts : list ConflictInfo)
| called_onSync (info : SyncInfo)
| called_onError (errors : list DecryptionErrorEvent)
| console_error (text : jsstring) (e : exn)
| store_put (doc : object)
| store_bulkDocs (deletions : list (jsstring * jsstring))
| store_changes (handle : nat)
| store_sync (url : jsstring) (live retry : bool) (handle : nat)
| handle_cancel (handle : nat).

(** *** [class EncryptedPouch] *)

(** The fields set by the constructor. *)
Record EncryptedPouch := {
  db : Database;
  encryptionHelper : EncryptionHelper;
  listener : PouchListener
}.

(** The mutable fields, the state of the helper, the counters of the
    identifiers and handles handed out, and the effects so far. *)
Record World := {
  helperState : HelperState;
  changesHandler : option nat;
  syncHandler : option nat;
  remoteUrl : option jsstring;
  generated : nat;
  handles : nat;
  trace : list Event
}.

Definition newWorld : World :=
  {| helperState := newHelperState; changesHandler := None; syncHandler := None;
     remoteUrl := None; generated := 0; handles := 0; trace := [] |}.

Definition set_helperState (f : HelperState -> HelperState) (w : World) : World :=
  {| helperState := f (helperState w); changesHandler := changesHandler w;
     syncHandler := syncHandler w; remoteUrl := remoteUrl w;
     generated := generated w; handles := handles w; trace := trace w |}.

Definition set_changesHandler (v : option nat) (w : World) : World :=
  {| helperState := helperState w; changesHandler := v;
     syncHandler := syncHandler w; remoteUrl := remoteUrl w;
     generated := generated w; handles := handles w; trace := trace w |}.

Definition set_syncHandler (v : option nat) (w : World) : World :=
  {| helperState := helperState w; changesHandler := changesHandler w;
     syncHandler := v; remoteUrl := remoteUrl w;
     generated := generated w; handles := handles w; trace := trace w |}.

Definition set_remoteUrl (v : option jsstring) (w : World) : World :=
  {| helperState := helperState w; changesHandler := changesHandler w;
     syncHandler := syncHandler w; remoteUrl := v;
     generated := generated w; handles := handles w; trace := trace w |}.

Definition set_generated (v : nat) (w : World) : World :=
  {| helperState := helperState w; changesHandler := changesHandler w;
     syncHandler := syncHandler w; remoteUrl := remoteUrl w;
     generated := v; handles := handles w; trace := trace w |}.

Definition set_handles (v : nat) (w : World) : World :=
  {| helperState := helperState w; changesHandler := changesHandler w;
     syncHandler := syncHandler w; remoteUrl := remoteUrl w;
     generated := generated w; handles := v; trace := trace w |}.

Definition log (e : Event) (w : World) : World :=
  {| helperState := helperState w; changesHandler := changesHandler w;
     syncHandler := syncHandler w; remoteUrl := remoteUrl w;
     generated := generated w; handles := handles w; trace := trace w ++ [e] |}.

(** A method of the helper, run on the helper of the instance. *)
Definition onHelper {A} (m : M HelperState A) : M World A :=
  fun w => let '(st, r) := m (helperState w) in (set_helperState (fun _ => st) w, r).

(** An effect that is observed and may throw: a call of a callback, of
    the store, of the console. *)
Definition emit (e : Event) : M World unit := modify (log e).

Definition call (e : Event) (outcome : option exn) : M World unit :=
  emit e ;;
  match outcome with
  | None => ret tt
  | Some err => throw err
  end.

(** Code that also works on local variables [L] of the method. *)
Definition onWorld {W L A} (m : M W A) : M (W * L) A :=
  fun s => let '(w, r) := m (fst s) in ((w, snd s), r).

Definition onLocals {W L} (f : L -> L) : M (W * L) unit :=
  fun s => ((fst s, f (snd s)), inr tt).

Definition withLocals {W L} (init : L) (m : M (W * L) unit) : M W L :=
  fun w => match m (w, init) with
           | ((w', l), inr _) => (w', inr l)
           | ((w', _), inl e) => (w', inl e)
           end.

(** [error instanceof Error ? error : new Error(String(error))] *)
Definition toError (e : exn) : exn :=
  match e with
  | NonError t => Error t
  | _ => e
  end.

Definition nonEmpty {A} (l : list A) : bool :=
  match l with
  | [] => false
  | _ :: _ => true
  end.

(** [revs && revs.length > 0] *)
Definition hasConflicts (revs : option (list jsstring)) : bool :=
  match revs with
  | Some (_ :: _) => true
  | _ => false
  end.

Definition conflictsOf (revs : option (list jsstring)) : list jsstring :=
  match revs with
  | Some l => l
  | None => []
  end.

(* ================================================================= *)
(** ** [encryptedPouch.ts]: methods *)

(** The local variables of the scanning methods: [docsByTable] (a [Map],
    kept as its entries in insertion order), [docs] or [losers],
    [errors], [conflicts]. *)
Record Locals := {
  docsByTable : list Batch;
  found : list object;
  errors : list DecryptionErrorEvent;
  conflicts : list ConflictInfo
}.

Definition noLocals : Locals :=
  {| docsByTable := []; found := []; errors := []; conflicts := [] |}.

(** [if (!m.has(t)) m.set(t, []); m.get(t)!.push(doc)] *)
Fixpoint pushByTable (t : jsstring) (doc : object) (m : list Batch) : list Batch :=
  match m with
  | [] => [{| table := t; docs := [doc] |}]
  | b :: rest =>
      if jsstring_eqb t (table b)
      then {| table := table b; docs := docs b ++ [doc] |} :: rest
      else b :: pushByTable t doc rest
  end.

Definition push_docsByTable (t : jsstring) (doc : object) (l : Locals) : Locals :=
  {| docsByTable := pushByTable t doc (docsByTable l); found := found l;
     errors := errors l; conflicts := conflicts l |}.

Definition push_found (doc : object) (l : Locals) : Locals :=
  {| docsByTable := docsByTable l; found := found l ++ [doc];
     errors := errors l; conflicts := conflicts l |}.

Definition push_errors (e : DecryptionErrorEvent) (l : Locals) : Locals :=
  {| docsByTable := docsByTable l; found := found l;
     errors := errors l ++ [e]; conflicts := conflicts l |}.

Definition push_conflicts (c : ConflictInfo) (l : Locals) : Locals :=
  {| docsByTable := docsByTable l; found := found l;
     errors := errors l; conflicts := conflicts l ++ [c] |}.

Record ParsedId := {
  parsed_table : jsstring;
  parsed_id : jsstring
}.

Definition parseFullId (fullId : jsstring) : option ParsedId :=
  match JS.indexOf 0x5F fullId with
  | None => None
  | Some idx =>
      Some {| parsed_table := JS.slice 0 (Some idx) fullId;
              parsed_id := JS.slice (idx + 1) None fullId |}
  end.

(** [id.startsWith("_design/")] *)
Definition isDesign (id : jsstring) : bool := JS.startsWith id (js "_design/").

(** [encryptedDoc.d] as a condition. *)
Definition hasPayload (doc : EncryptedDoc) : bool :=
  match d doc with
  | Some (_ :: _) => true
  | _ => false
  end.

Definition optString (s : option jsstring) : jsvalue :=
  match s with
  | Some x => JStr x
  | None => JUndefined
  end.

(** [helper.decrypt(encryptedDoc.d)].  Where the field is missing,
    [data.split] throws a [TypeError] inside the [try] of [decrypt]. *)
Definition decryptField (h : EncryptionHelper) (data : option jsstring)
  : M HelperState jsstring :=
  match data with
  | Some s => decrypt h s
  | None =>
      try_catch
        (key <- getKey h ;;
         throw (TypeError (js "Cannot read properties of undefined (reading 'split')")))
        (fun e => throw (DecryptionError (js "Could not decrypt: " ++ describe e)))
  end.

Section Methods.

(** The globals the class uses: [JSON], and the identifier that
    [crypto.randomUUID?.() || `${Date.now()}-...`] gives at the [n]-th
    request. *)
Variable JSON_parse : jsstring -> result jsvalue.
Variable JSON_stringify : jsvalue -> jsstring.
Variable generateId : nat -> jsstring.

Variable this : EncryptedPouch.

Definition decryptDoc (encryptedDoc : EncryptedDoc) : M World object :=
  match parseFullId (_id encryptedDoc) with
  | None => throw (Error (js "Invalid ID format: " ++ _id encryptedDoc))
  | Some parsed =>
      plaintext <- onHelper (decryptField (encryptionHelper this) (d encryptedDoc)) ;;
      decrypted <- await (JSON_parse plaintext) ;;
      ret (spread [(js "_id", JStr (parsed_id parsed));
                   (js "_rev", optString (_rev encryptedDoc))] decrypted)
  end.

(** One turn of the loop of [encryptDoc] over [Object.entries(doc)], on
    the pair of [data] and [rootFields]. *)
Definition partitionStep (acc : object * object) (entry : jsstring * jsvalue)
  : object * object :=
  let '(data, rootFields) := acc in
  let '(key, value) := entry in
  if jsstring_eqb key (js "_id") || jsstring_eqb key (js "_rev")
  then (data, rootFields)
  else if JS.startsWith key (js "_")
       then (data, setProp key value rootFields)
       else (setProp key value data, rootFields).

Definition partitionFields (doc : object) (fullId : jsstring) : object * object :=
  fold_left partitionStep doc ([], [(js "_id", JStr fullId)]).

Definition encryptDoc (doc : object) (fullId : jsstring) : M World object :=
  let '(data, rootFields) := partitionFields doc fullId in
  payload <- onHelper (encrypt (encryptionHelper this) (JSON_stringify (JObj data))) ;;
  ret (setProp (js "d") (JStr payload) rootFields).

Definition freshId : M World jsstring :=
  fun w => (set_generated (S (generated w)) w, inr (generateId (generated w))).

Definition put (tbl : jsstring) (doc : object) : M World object :=
  doc <- (if negb (truthy (propValue (js "_id") doc))
          then id <- freshId ;; ret (setProp (js "_id") (JStr id) doc)
          else ret doc) ;;
  let fullId := tbl ++ js "_" ++ ToString (propValue (js "_id") doc) in
  encryptedDoc <- encryptDoc doc fullId ;;
  let encryptedDoc :=
    if hasProp (js "_rev") doc && truthy (propValue (js "_rev") doc)
    then setProp (js "_rev") (propValue (js "_rev") doc) encryptedDoc
    else encryptedDoc in
  emit (store_put encryptedDoc) ;;
  rev <- await (db_put (db this) encryptedDoc) ;;
  ret (defineProp (js "_rev") (JStr rev)
         (defineProp (js "_id") (propValue (js "_id") doc) doc)).

(** [if (errors.length > 0 && this.listener.onError) this.listener.onError(errors)] *)
Definition reportErrors (errs : list DecryptionErrorEvent) : M World unit :=
  match onError (listener this) with
  | Some callback =>
      if nonEmpty errs then call (called_onError errs) (callback errs) else ret tt
  | None => ret tt
  end.

Definition reportConflicts (cs : list ConflictInfo) : M World unit :=
  match onConflict (listener this) with
  | Some callback =>
      if nonEmpty cs then call (called_onConflict cs) (callback cs) else ret tt
  | None => ret tt
  end.

(** The body of the loop of [buildConflictInfo]. *)
Definition buildConflictInfo_rev (fullId rev : jsstring) : M (World * Locals) unit :=
  try_catch
    (conflictDoc <- onWorld (await (db_get (db this) fullId (Some rev))) ;;
     decrypted <- onWorld (decryptDoc conflictDoc) ;;
     onLocals (push_found decrypted))
    (fun error =>
       onLocals
         (push_errors
            {| ev_docId := fullId ++ js "@" ++ rev;
               ev_error := toError error;
               ev_rawDoc := {| _id := fullId; _rev := Some rev;
                               d := None; _conflicts := None |} |})).

Definition buildConflictInfo (fullId : jsstring) (currentRev : option jsstring)
    (conflictRevs : list jsstring) (winnerDoc : object) : M World ConflictInfo :=
  match parseFullId fullId with
  | None => throw (Error (js "Invalid ID format: " ++ fullId))
  | Some parsed =>
      l <- withLocals noLocals (forEach conflictRevs (buildConflictInfo_rev fullId)) ;;
      reportErrors (errors l) ;;
      ret {| ci_docId := fullId;
             ci_table := parsed_table parsed;
             ci_id := parsed_id parsed;
             ci_currentRev := currentRev;
             ci_conflictRevs := conflictRevs;
             ci_winner := winnerDoc;
             ci_losers := found l |}
  end.

Definition errorEvent (encryptedDoc : EncryptedDoc) (error : exn) : DecryptionErrorEvent :=
  {| ev_docId := _id encryptedDoc; ev_error := toError error; ev_rawDoc := encryptedDoc |}.

Definition setupSubscription : M World unit :=
  fun w =>
    let h := handles w in
    (log (store_changes h) (set_changesHandler (Some h) (set_handles (S h) w)), inr tt).

(** The body of the loop of [loadAll]. *)
Definition loadAll_row (row : Row) : M (World * Locals) unit :=
  match row_doc row with
  | None => ret tt
  | Some encryptedDoc =>
      if isDesign (row_id row) then ret tt
      else if hasPayload encryptedDoc then
        try_catch
          (doc <- onWorld (decryptDoc encryptedDoc) ;;
           match parseFullId (_id encryptedDoc) with
           | Some parsed => onLocals (push_docsByTable (parsed_table parsed) doc)
           | None => ret tt
           end ;;
           if hasConflicts (_conflicts encryptedDoc) then
             conflictInfo <- onWorld (buildConflictInfo (_id encryptedDoc) (_rev encryptedDoc)
                                        (conflictsOf (_conflicts encryptedDoc)) doc) ;;
             onLocals (push_conflicts conflictInfo)
           else ret tt)
          (fun error => onLocals (push_errors (errorEvent encryptedDoc error)))
      else ret tt
  end.

Definition loadAll : M World unit :=
  try_catch
    (rows <- await (db_allDocs (db this) true) ;;
     l <- withLocals noLocals (forEach rows loadAll_row) ;;
     (if nonEmpty (docsByTable l)
      then call (called_onChange (docsByTable l)) (onChange (listener this) (docsByTable l))
      else ret tt) ;;
     reportErrors (errors l) ;;
     reportConflicts (conflicts l))
    (fun error => emit (console_error (js "[EncryptedPouch] loadAll failed:") error)) ;;
  setupSubscription.

(** [get]: [None] is [null]. *)
Definition get (tbl id : jsstring) : M World (option object) :=
  try_catch
    (let fullId := tbl ++ js "_" ++ id in
     encryptedDoc <- await (db_get (db this) fullId None) ;;
     doc <- decryptDoc encryptedDoc ;;
     match onConflict (listener this) with
     | Some callback =>
         if hasConflicts (_conflicts encryptedDoc) then
           conflictInfo <- buildConflictInfo (_id encryptedDoc) (_rev encryptedDoc)
                             (conflictsOf (_conflicts encryptedDoc)) doc ;;
           call (called_onConflict [conflictInfo]) (callback [conflictInfo])
         else ret tt
     | None => ret tt
     end ;;
     ret (Some doc))
    (fun _ => ret None).

Definition getConflictInfo (tbl id : jsstring) : M World (option ConflictInfo) :=
  try_catch
    (let fullId := tbl ++ js "_" ++ id in
     encryptedDoc <- await (db_get (db this) fullId None) ;;
     if negb (hasConflicts (_conflicts encryptedDoc)) then ret None
     else
       doc <- decryptDoc encryptedDoc ;;
       info <- buildConflictInfo (_id encryptedDoc) (_rev encryptedDoc)
                 (conflictsOf (_conflicts encryptedDoc)) doc ;;
       ret (Some info))
    (fun _ => ret None).

(** The body of the loop of [getAll]; [tbl] is [None] or empty when no
    table is asked for. *)
Definition getAll_row (tbl : option jsstring) (row : Row) : M (World * Locals) unit :=
  match row_doc row with
  | None => ret tt
  | Some encryptedDoc =>
      if isDesign (row_id row) then ret tt
      else if hasPayload encryptedDoc then
        try_catch
          (doc <- onWorld (decryptDoc encryptedDoc) ;;
           match parseFullId (_id encryptedDoc) with
           | Some parsed =>
               if match tbl with
                  | None | Some [] => true
                  | Some t => jsstring_eqb (parsed_table parsed) t
                  end
               then onLocals (push_found doc)
               else ret tt
           | None => ret tt
           end)
          (fun error => onLocals (push_errors (errorEvent encryptedDoc error)))
      else ret tt
  end.

Definition getAll (tbl : option jsstring) : M World (list object) :=
  rows <- await (db_allDocs (db this) true) ;;
  l <- withLocals noLocals (forEach rows (getAll_row tbl)) ;;
  reportErrors (errors l) ;;
  ret (found l).

(** The document of a change that is not a deletion: the negation of
    [change.deleted || !encryptedDoc?.d]. *)
Definition upserted (change : Change) : option EncryptedDoc :=
  if change_deleted change then None
  else match change_doc change with
       | Some encryptedDoc => if hasPayload encryptedDoc then Some encryptedDoc else None
       | None => None
       end.

Definition handleChange (change : Change) : M World unit :=
  if isDesign (change_id change) then ret tt
  else
    match upserted change with
    | None =>
        match parseFullId (change_id change) with
        | Some parsed =>
            let deletions :=
              [{| table := parsed_table parsed;
                  docs := [[(js "_id", JStr (parsed_id parsed))]] |}] in
            call (called_onDelete deletions) (onDelete (listener this) deletions)
        | None => ret tt
        end
    | Some encryptedDoc =>
        l <- withLocals noLocals
               (try_catch
                  (doc <- onWorld (decryptDoc encryptedDoc) ;;
                   (if hasConflicts (_conflicts encryptedDoc) then
                      conflictInfo <- onWorld (buildConflictInfo (_id encryptedDoc)
                                                 (_rev encryptedDoc)
                                                 (conflictsOf (_conflicts encryptedDoc)) doc) ;;
                      onLocals (push_conflicts conflictInfo)
                    else ret tt) ;;
                   match parseFullId (_id encryptedDoc) with
                   | Some parsed =>
                       let changes := [{| table := parsed_table parsed; docs := [doc] |}] in
                       onWorld (call (called_onChange changes)
                                  (onChange (listener this) changes))
                   | None => ret tt
                   end)
                  (fun error => onLocals (push_errors (errorEvent encryptedDoc error)))) ;;
        reportErrors (errors l) ;;
        reportConflicts (conflicts l)
    end.

(** *** Sync *)

Definition disconnectRemote : M World unit :=
  fun w =>
    let w1 := match syncHandler w with
              | Some h => set_syncHandler None (log (handle_cancel h) w)
              | None => w
              end in
    (set_remoteUrl None w1, inr tt).

Definition newHandle : M World nat :=
  fun w => (set_handles (S (handles w)) w, inr (handles w)).

(** [if (this.listener.onSync) this.listener.onSync(info)]: the call
    throws what the callback throws. *)
Definition notifySync (info : SyncInfo) : M World unit :=
  match onSync (listener this) with
  | Some callback => call (called_onSync info) (callback info)
  | None => ret tt
  end.

(** The listeners of one emission run in the event emitter, in the order
    they were registered: what one of them throws ends the emission and
    goes to the emitter, not to the method that waits.  [handled m] tells
    whether the listeners [m] all returned. *)
Definition handled (m : M World unit) : M World bool :=
  try_catch (m ;; ret true) (fun _ => ret false).

(** The promise [connectRemote] returns, over what the handle emits
    before the timeout: ["active"] or the timeout resolve it, ["error"]
    rejects it.  The handler of ["change"] is the one [connectRemote]
    registers when [onSync] is given. *)
Fixpoint connectWait (events : list SyncEvent) : M World unit :=
  match events with
  | [] => ret tt
  | sync_active :: _ => ret tt
  | sync_change info :: rest => handled (notifySync info) ;; connectWait rest
  | sync_error err :: _ =>
      match onSync (listener this) with
      | Some _ => emit (console_error (js "[EncryptedPouch] sync error:") err)
      | None => ret tt
      end ;;
      throw err
  end.

(** [options.live ?? true] and [options.retry ?? true] are given as
    [live] and [retry]. *)
Definition connectRemote (url : jsstring) (live retry : bool) : M World unit :=
  disconnectRemote ;;
  modify (set_remoteUrl (Some url)) ;;
  h <- newHandle ;;
  emit (store_sync url live retry h) ;;
  modify (set_syncHandler (Some h)) ;;
  connectWait (db_sync_events (db this) url).

Definition notifyComplete (dir : Direction) (stats : option SyncStats) : M World unit :=
  match stats with
  | Some st =>
      match docs_written st with
      | Some _ => notifySync {| direction := dir; change := st |}
      | None => ret tt
      end
  | None => ret tt
  end.

(** The promise [syncNow] returns has no timeout: it is [fulfilled] by
    the handler of ["complete"], rejected by the handler of ["error"],
    and stays [pending] when the handler of ["complete"] throws before
    it comes to [resolve()]. *)
Inductive Settlement := fulfilled | pending.

Definition syncNow : M World Settlement :=
  url <- gets remoteUrl ;;
  match url with
  | None | Some [] =>
      throw (Error (js "No remote connection configured. Call connectRemote() first."))
  | Some url =>
      h <- newHandle ;;
      emit (store_sync url false false h) ;;
      match db_sync_once (db this) url with
      | inr info =>
          resolved <- handled (notifyComplete push (complete_push info) ;;
                               notifyComplete pull (complete_pull info)) ;;
          ret (if resolved then fulfilled else pending)
      | inl err =>
          emit (console_error (js "[EncryptedPouch] syncNow error:") err) ;;
          throw err
      end
  end.

(** The rows to delete: [{ _id: row.id, _rev: row.value.rev, _deleted: true }]. *)
Definition docsToDelete (rows : list Row) : list (jsstring * jsstring) :=
  map (fun row => (row_id row, row_rev row))
      (filter (fun row => negb (isDesign (row_id row))) rows).

(** The promise [deleteAllAndSync] returns after the bulk deletion, over
    what the handle emits before the timeout.  On ["change"] the handler
    of [connectRemote] comes first and [changeHandler] second: a change
    on which [onSync] throws does not reach [changeHandler]. *)
Fixpoint pushWait (events : list SyncEvent) (changeCount : N) (total : nat) : M World unit :=
  match events with
  | [] => throw (Error (js "Timeout waiting for deletions to sync to remote"))
  | sync_active :: rest => pushWait rest changeCount total
  | sync_change info :: rest =>
      reached <- handled (notifySync info) ;;
      if reached then
        match direction info with
        | push =>
            let changeCount :=
              changeCount + match docs_written (change info) with
                            | Some n => n
                            | None => 0
                            end in
            if N.of_nat total <=? changeCount then ret tt
            else pushWait rest changeCount total
        | _ => pushWait rest changeCount total
        end
      else pushWait rest changeCount total
  | sync_error err :: _ =>
      match onSync (listener this) with
      | Some _ => emit (console_error (js "[EncryptedPouch] sync error:") err)
      | None => ret tt
      end ;;
      throw err
  end.

Definition deleteAllAndSync : M World unit :=
  handler <- gets syncHandler ;;
  match handler with
  | None =>
      throw (Error (js "Sync is not connected. Call connectRemote() first or use deleteAllLocal() instead."))
  | Some _ =>
      rows <- await (db_allDocs (db this) false) ;;
      match docsToDelete rows with
      | [] => ret tt
      | deletions =>
          emit (store_bulkDocs deletions) ;;
          await (db_bulkDocs (db this) deletions) ;;
          pushWait (db_push_events (db this)) 0 (List.length deletions)
      end
  end.

Definition deleteAllLocal : M World unit :=
  disconnectRemote ;;
  rows <- await (db_allDocs (db this) false) ;;
  match docsToDelete rows with
  | [] => ret tt
  | deletions =>
      emit (store_bulkDocs deletions) ;;
      await (db_bulkDocs (db this) deletions)
  end.

End Methods.

(** *** [delete], [resolveConflict], [reconnect]

    What [delete] and [resolveConflict] ask of the store and no other
    method does, and what they add to the observable effects: the calls
    of [remove] and the warnings on the console.  These go to a log of
    their own, next to the [World]. *)
Record Remover := {
  (** [get(id)] *)
  db_get_plain : jsstring -> result EncryptedDoc;
  (** [remove(doc)] *)
  db_remove : EncryptedDoc -> result unit;
  (** [remove(id, rev)] *)
  db_remove_rev : jsstring -> jsstring -> result unit
}.

Inductive Removal :=
| store_remove (doc : EncryptedDoc)
| store_remove_rev (id rev : jsstring)
| console_warn (text : jsstring) (e : exn).

Definition note {W} (r : Removal) : M (W * list Removal) unit :=
  onLocals (fun l => l ++ [r]).

Section Removing.

Variable JSON_stringify : jsvalue -> jsstring.
Variable generateId : nat -> jsstring.
Variable this : EncryptedPouch.
Variable remover : Remover.

Definition delete (tbl id : jsstring) : M (World * list Removal) unit :=
  let fullId := tbl ++ js "_" ++ id in
  try_catch
    (doc <- await (db_get_plain remover fullId) ;;
     note (store_remove doc) ;;
     await (db_remove remover doc))
    (fun error =>
       note (console_warn (js "[EncryptedPouch] Could not delete " ++ fullId ++ js ":") error)).

(** The body of the loop of [resolveConflict]. *)
Definition removeConflict (fullId rev : jsstring) : M (World * list Removal) unit :=
  try_catch
    (note (store_remove_rev fullId rev) ;;
     await (db_remove_rev remover fullId rev))
    (fun error =>
       note (console_warn (js "Failed to remove conflict " ++ fullId ++ js "@" ++ rev ++ js ":")
               error)).

Definition resolveConflict (tbl id : jsstring) (winningDoc : object)
  : M (World * list Removal) unit :=
  let fullId := tbl ++ js "_" ++ id in
  doc <- onWorld (await (db_get (db this) fullId None)) ;;
  if negb (hasConflicts (_conflicts doc))
  then throw (Error (js "No conflicts found for " ++ fullId))
  else
    onWorld (put JSON_stringify generateId this tbl winningDoc) ;;
    forEach (conflictsOf (_conflicts doc)) (removeConflict fullId).

End Removing.

Definition reconnect : M World unit :=
  fun w =>
    let w1 := match changesHandler w with
              | Some h => set_changesHandler None (log (handle_cancel h) w)
              | None => w
              end in
    setupSubscription w1.

(** *** A small [CryptoInterface] to run the code on

    A stand-in with the shape of WebCrypto: fixed-length key material, a
    keyed stream, and a keyed one-byte tag that decryption checks. *)
Module Toy.

Definition sum (bs : bytes) : N := fold_left (fun a b => a + Byte.to_N b) bs 0.

Definition stretch (seed : N) : bytes :=
  map (fun i => u8 (seed + 7 * N.of_nat i)) (seq 0 32).

Definition tag (k : N) (m : bytes) : byte := u8 (k * 31 + sum m + 1).

Definition stream (key : CryptoKey) (iv : bytes) : N :=
  (sum (key_data key) + sum iv) mod 256.

Definition importKey (format : jsstring) (data : bytes) (alg : jsstring)
    (extractable : bool) (usages : list jsstring) : result CryptoKey :=
  inr {| key_algorithm := alg; key_data := data;
         key_extractable := extractable; key_usages := usages |}.

Definition seal (iv : bytes) (key : CryptoKey) (m : bytes) : result bytes :=
  let k := stream key iv in
  inr (map (fun b => u8 (Byte.to_N b + k)) m ++ [tag k m]).

Definition open (iv : bytes) (key : CryptoKey) (data : option bytes) : result bytes :=
  match data with
  | None => inl (TypeError (js "data is not a BufferSource"))
  | Some c =>
      let k := stream key iv in
      match rev c with
      | [] => inl (OtherError (js "OperationError") (js "ciphertext too short"))
      | t :: body =>
          let m := map (fun b => u8 (Byte.to_N b + 256 - k)) (rev body) in
          if Byte.eqb t (tag k m) then inr m
          else inl (OtherError (js "OperationError") (js "authentication failed"))
      end
  end.

Definition subtle : CryptoInterface :=
  {| subtle_digest := fun _ data => inr (stretch (sum data));
     subtle_importKey := importKey;
     subtle_encrypt := seal;
     subtle_decrypt := open;
     subtle_deriveBits := fun p _ _ => inr (stretch (3 * sum (salt p) + 1));
     getRandomValues := fun d n => map (fun i => u8 (N.of_nat (17 * d + i))) (seq 0 n) |}.

Definition helper (pass : string) (mode : PassphraseMode) : EncryptionHelper :=
  {| passphrase := js pass; crypto := subtle; passphraseMode := mode |}.

End Toy.

(* ================================================================= *)
(** ** Predicates the statements use *)

(** [String.prototype.isWellFormed]: every code unit is below 2^16 and
    every surrogate is half of a pair. *)
Fixpoint isWellFormed (s : jsstring) : bool :=
  match s with
  | [] => true
  | c :: t =>
      if JS.isHighSurrogate c then
        match t with
        | d :: r => JS.isLowSurrogate d && isWellFormed r
        | [] => false
        end
      else negb (JS.isLowSurrogate c) && (c <? 0x10000) && isWellFormed t
  end.

(** The string starts with U+FEFF, the byte order mark. *)
Definition startsWithBOM (s : jsstring) : bool :=
  match s with
  | 0xFEFF :: _ => true
  | _ => false
  end.

(** A Unicode scalar value. *)
Definition isScalarValue (cp : N) : bool :=
  (cp <? 0x110000) && negb ((0xD800 <=? cp) && (cp <=? 0xDFFF)).

(** The two characters [toHexString] writes for one byte. *)
Definition hexPair (b : byte) : jsstring := JS.padStart 2 0x30 (JS.toString16 b).

Definition isHexChar (c : N) : bool :=
  ((0x30 <=? c) && (c <=? 0x39)) || ((0x61 <=? c) && (c <=? 0x66)).

(** The decoder state in the middle of a sequence. *)
Definition utf8Pending (cp seen needed : N) : JS.utf8State :=
  {| JS.code_point := cp; JS.bytes_seen := seen; JS.bytes_needed := needed;
     JS.lower_boundary := 0x80; JS.upper_boundary := 0xBF |}.

(** The states an [EncryptionHelper] can be in: no key requested yet, or
    the promise of [getKey] cached. *)
Definition keyCached (h : EncryptionHelper) (st : HelperState) : Prop :=
  keyPromise st = None \/ keyPromise st = Some (deriveKey h).

(** What is assumed of the AES-GCM behind the [CryptoInterface] of [h]:
    key derivation gives [key]; [getRandomValues] fills the whole array;
    under a 12-byte [iv], encryption gives a ciphertext that is not empty
    (it ends with the tag) and that decryption under the same [iv] and
    key opens. *)
Definition cipherWorks (h : EncryptionHelper) (key : CryptoKey) : Prop :=
  deriveKey h = inr key
  /\ (forall d n, List.length (getRandomValues (crypto h) d n) = n)
  /\ (forall iv m, List.length iv = 12%nat ->
        exists ct, subtle_encrypt (crypto h) iv key m = inr ct
                   /\ ct <> []
                   /\ subtle_decrypt (crypto h) iv key (Some ct) = inr m).



(** [await helper.decrypt(await helper.encrypt(data))] *)
Definition decrypt_encrypt (h : EncryptionHelper) (data : jsstring) : M HelperState jsstring :=
  c <- encrypt h data ;; decrypt h c.

(* ================================================================= *)
(** ** The processing chain of [setupSubscription]

    [handleChange] above runs from its call to its end in one piece.  To
    state what the chain of promises does when calls take time, this
    section follows the promises themselves: a promise is a number; a
    reaction registered by [then] or [catch] fires, as a microtask, some
    time after its source has settled; a call of [handleChange] that has
    begun works for as long as its awaits take and then settles, either
    way.  Any enabled step may be taken next: the scheduler and the
    latencies are not fixed. *)

Module EventLoop.

Inductive settled :=
| fulfilled
| rejected (reason : exn).

(** The two callbacks of the listener of ["change"]:
    [() => this.handleChange(change)], for the change emitted at
    position [index], and [(err) => console.error(..., err)]. *)
Inductive callback :=
| callHandleChange (index : nat) (change : Change)
| consoleError.

(** [derived = source.then(onFulfilled, onRejected)], not fired yet. *)
Record reaction := {
  source : nat;
  onFulfilled : option callback;
  onRejected : option callback;
  derived : nat
}.

(** A call of [handleChange] that has begun; [inv_promise] is the promise
    resolved with what the call returned, which settles as the call does. *)
Record invocation := {
  inv_index : nat;
  inv_change : Change;
  inv_promise : nat
}.

(** What is observed: a call of [handleChange] begins, resumes after an
    await, ends; the console gets an error. *)
Inductive obs :=
| began (index : nat) (change : Change)
| worked (index : nat)
| ended (index : nat) (outcome : settled)
| logged (reason : exn).

Record loop := {
  promises : nat -> option settled;
  fresh : nat;
  reactions : list reaction;
  invocations : list invocation;
  processingChain : nat;
  emitted : nat;
  observed : list obs
}.

(** [processingChain = Promise.resolve()] *)
Definition start : loop :=
  {| promises := fun p => if Nat.eqb p 0 then Some fulfilled else None;
     fresh := 1;
     reactions := [];
     invocations := [];
     processingChain := 0;
     emitted := 0;
     observed := [] |}.

Definition register (r : reaction) (l : loop) : loop :=
  {| promises := promises l; fresh := S (fresh l);
     reactions := reactions l ++ [r]; invocations := invocations l;
     processingChain := processingChain l; emitted := emitted l;
     observed := observed l |}.

(** [p.then(f)] and [p.catch(g)]: the new promise and the loop with the
    reaction registered. *)
Definition then_ (p : nat) (f : callback) (l : loop) : nat * loop :=
  (fresh l,
   register {| source := p; onFulfilled := Some f; onRejected := None;
               derived := fresh l |} l).

Definition catch_ (p : nat) (g : callback) (l : loop) : nat * loop :=
  (fresh l,
   register {| source := p; onFulfilled := None; onRejected := Some g;
               derived := fresh l |} l).

(** The listener of ["change"]:
    [this.processingChain = this.processingChain.then(() =>
    this.handleChange(change)).catch((err) => console.error(..., err))]. *)
Definition onChangeEvent (change : Change) (l : loop) : loop :=
  let '(q, l1) := then_ (processingChain l) (callHandleChange (emitted l) change) l in
  let '(r, l2) := catch_ q consoleError l1 in
  {| promises := promises l2; fresh := fresh l2; reactions := reactions l2;
     invocations := invocations l2; processingChain := r;
     emitted := S (emitted l2); observed := observed l2 |}.

Definition observe (o : obs) (l : loop) : loop :=
  {| promises := promises l; fresh := fresh l; reactions := reactions l;
     invocations := invocations l; processingChain := processingChain l;
     emitted := emitted l; observed := observed l ++ [o] |}.

Definition settle (p : nat) (s : settled) (l : loop) : loop :=
  {| promises := fun x => if Nat.eqb x p then Some s else promises l x;
     fresh := fresh l; reactions := reactions l; invocations := invocations l;
     processingChain := processingChain l; emitted := emitted l;
     observed := observed l |}.

Definition with_reactions (rs : list reaction) (l : loop) : loop :=
  {| promises := promises l; fresh := fresh l; reactions := rs;
     invocations := invocations l; processingChain := processingChain l;
     emitted := emitted l; observed := observed l |}.

Definition with_invocations (calls : list invocation) (l : loop) : loop :=
  {| promises := promises l; fresh := fresh l; reactions := reactions l;
     invocations := calls; processingChain := processingChain l;
     emitted := emitted l; observed := observed l |}.

(** A callback is called with the outcome of the source, for the promise
    [target]: [handleChange] begins, and [target] will settle as the call
    does; [console.error] logs and returns, which fulfils [target]. *)
Definition runCallback (cb : callback) (s : settled) (target : nat) (l : loop) : loop :=
  match cb with
  | callHandleChange index change =>
      observe (began index change)
        (with_invocations
           (invocations l ++ [{| inv_index := index; inv_change := change;
                                 inv_promise := target |}]) l)
  | consoleError =>
      settle target fulfilled
        (observe (logged match s with
                         | rejected reason => reason
                         | fulfilled => NonError (js "undefined")
                         end) l)
  end.

(** A reaction fires on the outcome [s] of its source: its callback for
    that outcome is called, or, without one, the outcome passes to the
    derived promise. *)
Definition fire (r : reaction) (s : settled) (l : loop) : loop :=
  match match s with
        | fulfilled => onFulfilled r
        | rejected _ => onRejected r
        end with
  | Some cb => runCallback cb s (derived r) l
  | None => settle (derived r) s l
  end.

(** One step of the loop, other than an emission. *)
Inductive step : loop -> loop -> Prop :=
| step_fire l before r after s :
    reactions l = before ++ r :: after ->
    promises l (source r) = Some s ->
    step l (fire r s (with_reactions (before ++ after) l))
| step_work l i :
    In i (invocations l) ->
    step l (observe (worked (inv_index i)) l)
| step_end l before i after s :
    invocations l = before ++ i :: after ->
    step l (settle (inv_promise i) s
              (observe (ended (inv_index i) s)
                 (with_invocations (before ++ after) l))).

Inductive steps : loop -> loop -> Prop :=
| steps_refl l : steps l l
| steps_more l l1 l2 : step l l1 -> steps l1 l2 -> steps l l2.

(** The loop after the store emitted [changes], in this order, with any
    steps in between and after. *)
Inductive run : list Change -> loop -> Prop :=
| run_start : run [] start
| run_emit changes l change :
    run changes l -> run (changes ++ [change]) (onChangeEvent change l)
| run_step changes l l1 :
    run changes l -> step l l1 -> run changes l1.

(** What the claim asks of what is observed.  The calls of [handleChange]
    come one after the other, in the order of emission: [Idle n] before
    the call for the change at position [n] begins, [Busy n] while it
    works, and, when it ends rejected, [Failing n e] until the error is
    logged. *)
Inductive phase :=
| Idle (next : nat)
| Busy (index : nat)
| Failing (index : nat) (reason : exn).

Inductive serial (changes : list Change) : list obs -> phase -> Prop :=
| serial_nil : serial changes [] (Idle 0)
| serial_began tr n change :
    serial changes tr (Idle n) -> nth_error changes n = Some change ->
    serial changes (tr ++ [began n change]) (Busy n)
| serial_worked tr n :
    serial changes tr (Busy n) -> serial changes (tr ++ [worked n]) (Busy n)
| serial_ended tr n :
    serial changes tr (Busy n) ->
    serial changes (tr ++ [ended n fulfilled]) (Idle (S n))
| serial_failed tr n reason :
    serial changes tr (Busy n) ->
    serial changes (tr ++ [ended n (rejected reason)]) (Failing n reason)
| serial_logged tr n reason :
    serial changes tr (Failing n reason) ->
    serial changes (tr ++ [logged reason]) (Idle (S n)).

(** Where the loop is with the change at position [n]: its reaction not
    fired yet, its call at work, its call ended with the second reaction
    not fired yet. *)
Inductive stage :=
| Ready (n : nat)
| Running (n : nat)
| Settled (n : nat) (s : settled).

Definition frontier (st : stage) : nat :=
  match st with
  | Ready n | Running n | Settled n _ => n
  end.

Definition phaseOf (st : stage) : phase :=
  match st with
  | Ready n => Idle n
  | Running n => Busy n
  | Settled n fulfilled => Idle (S n)
  | Settled n (rejected reason) => Failing n reason
  end.

(** The reactions that the listener registers for the change at position
    [k]. *)
Definition thenReaction (k : nat) (change : Change) : reaction :=
  {| source := 2 * k; onFulfilled := Some (callHandleChange k change);
     onRejected := None; derived := 2 * k + 1 |}.

Definition catchReaction (k : nat) : reaction :=
  {| source := 2 * k + 1; onFulfilled := None; onRejected := Some consoleError;
     derived := 2 * k + 2 |}.

(** The first position of which the [then] reaction has not fired. *)
Definition unfired (st : stage) : nat :=
  match st with
  | Ready n => n
  | Running n | Settled n _ => S n
  end.

(** The loop after the emission of [changes], at stage [st]. *)
Record invariant (changes : list Change) (st : stage) (l : loop) : Prop := {
  inv_frontier : (unfired st <= List.length changes)%nat;
  inv_fresh : fresh l = (2 * List.length changes + 1)%nat;
  inv_chain : processingChain l = (2 * List.length changes)%nat;
  inv_emitted : emitted l = List.length changes;
  inv_reactions :
    forall r, In r (reactions l) <->
              (exists k change, (unfired st <= k)%nat /\ nth_error changes k = Some change
                                /\ r = thenReaction k change)
              \/ (exists k, (frontier st <= k < List.length changes)%nat
                            /\ r = catchReaction k);
  inv_nodup : NoDup (reactions l);
  inv_even :
    forall k, promises l (2 * k)
              = if (k <=? frontier st)%nat then Some fulfilled else None;
  inv_odd :
    forall k, (k < frontier st)%nat -> exists s, promises l (2 * k + 1) = Some s;
  inv_current :
    promises l (2 * frontier st + 1)
    = match st with
      | Settled _ s => Some s
      | _ => None
      end;
  inv_later :
    forall k, (frontier st < k)%nat -> promises l (2 * k + 1) = None;
  inv_invocations :
    invocations l
    = match st with
      | Running n =>
          match nth_error changes n with
          | Some change => [{| inv_index := n; inv_change := change;
                               inv_promise := 2 * n + 1 |}]
          | None => []
          end
      | _ => []
      end;
  inv_serial : serial changes (observed l) (phaseOf st)
}.

(** The work still registered in the loop. *)
Definition backlog (l : loop) : nat :=
  2 * List.length (reactions l) + List.length (invocations l).

End EventLoop.

(* ================================================================= *)
(** ** A small [JSON], store and listener to run the code on *)

Module Demo.

(** *** [JSON]: objects of strings, integers and literals *)

Definition quote (s : jsstring) : jsstring :=
  0x22 :: flat_map (fun c => if (c =? 0x22) || (c =? 0x5C) then [0x5C; c] else [c]) s ++ [0x22].

Definition isUndefined (v : jsvalue) : bool :=
  match v with
  | JUndefined => true
  | _ => false
  end.

Fixpoint stringify (v : jsvalue) : jsstring :=
  match v with
  | JUndefined | JNull => js "null"
  | JBool true => js "true"
  | JBool false => js "false"
  | JNum n => js (NilZero.string_of_int (Z.to_int n))
  | JStr s => quote s
  | JArr items => js "[" ++ join (js ",") (map stringify items) ++ js "]"
  | JObj props =>
      js "{"
      ++ join (js ",")
           (flat_map (fun p => match p with
                               | (k, x) =>
                                   if isUndefined x then []
                                   else [quote k ++ js ":" ++ stringify x]
                               end) props)
      ++ js "}"
  end.

(** The parser reads [{"k":v,...}] with [v] a string without escapes, a
    natural number, [true], [false] or [null]; anything else is a
    [SyntaxError]. *)
Inductive pstate :=
| Start
| KeyOrEnd
| Key
| InKey (k : jsstring)
| Colon (k : jsstring)
| Value (k : jsstring)
| InStr (k v : jsstring)
| InNum (k : jsstring) (n : Z)
| InWord (k w : jsstring)
| AfterValue
| Done
| Fail.

Definition word (w : jsstring) : option jsvalue :=
  if jsstring_eqb w (js "true") then Some (JBool true)
  else if jsstring_eqb w (js "false") then Some (JBool false)
  else if jsstring_eqb w (js "null") then Some JNull
  else None.

Definition isDigit (c : N) : bool := (0x30 <=? c) && (c <=? 0x39).
Definition isLetter (c : N) : bool := (0x61 <=? c) && (c <=? 0x7A).

(** After a value that needs a delimiter to end: [c] is that delimiter. *)
Definition close (acc : object) (k : jsstring) (v : option jsvalue) (c : N)
  : pstate * object :=
  match v with
  | None => (Fail, acc)
  | Some x =>
      if c =? 0x2C then (Key, defineProp k x acc)
      else if c =? 0x7D then (Done, defineProp k x acc)
      else (Fail, acc)
  end.

Definition pstep (st : pstate * object) (c : N) : pstate * object :=
  let '(p, acc) := st in
  match p with
  | Start => if c =? 0x7B then (KeyOrEnd, acc) else (Fail, acc)
  | KeyOrEnd =>
      if c =? 0x22 then (InKey [], acc)
      else if c =? 0x7D then (Done, acc) else (Fail, acc)
  | Key => if c =? 0x22 then (InKey [], acc) else (Fail, acc)
  | InKey k =>
      if c =? 0x22 then (Colon k, acc)
      else if c =? 0x5C then (Fail, acc) else (InKey (k ++ [c]), acc)
  | Colon k => if c =? 0x3A then (Value k, acc) else (Fail, acc)
  | Value k =>
      if c =? 0x22 then (InStr k [], acc)
      else if isDigit c then (InNum k (Z.of_N (c - 0x30)), acc)
      else if isLetter c then (InWord k [c], acc)
      else (Fail, acc)
  | InStr k v =>
      if c =? 0x22 then (AfterValue, defineProp k (JStr v) acc)
      else if c =? 0x5C then (Fail, acc) else (InStr k (v ++ [c]), acc)
  | InNum k n =>
      if isDigit c then (InNum k (n * 10 + Z.of_N (c - 0x30))%Z, acc)
      else close acc k (Some (JNum n)) c
  | InWord k w =>
      if isLetter c then (InWord k (w ++ [c]), acc)
      else close acc k (word w) c
  | AfterValue =>
      if c =? 0x2C then (Key, acc)
      else if c =? 0x7D then (Done, acc) else (Fail, acc)
  | Done | Fail => (Fail, acc)
  end.

Definition parse (text : jsstring) : result jsvalue :=
  match fold_left pstep text (Start, []) with
  | (Done, acc) => inr (JObj acc)
  | _ => inl (SyntaxError (js "Unexpected token in JSON"))
  end.

Definition generateId (n : nat) : jsstring :=
  js "id-" ++ js (NilEmpty.string_of_uint (Nat.to_uint n)).

(** *** The instance: passphrase ["p1"], the stand-in cipher *)

Definition helper : EncryptionHelper := Toy.helper "p1" derive.

(** The payload [encrypt] gives for the user data [data] at the [n]-th draw. *)
Definition payload (n : nat) (data : object) : option jsstring :=
  match snd (encrypt helper (stringify (JObj data)) {| keyPromise := None; draws := n |}) with
  | inr c => Some c
  | inl _ => None
  end.

Definition stored (id rev : string) (data : option jsstring)
    (conflictRevs : option (list jsstring)) : EncryptedDoc :=
  {| _id := js id; _rev := Some (js rev); d := data; _conflicts := conflictRevs |}.

Definition row (doc : EncryptedDoc) : Row :=
  {| row_id := _id doc;
     row_rev := match _rev doc with Some r => r | None => [] end;
     row_doc := Some doc |}.

(** Two tables.  [expenses_dinner] has two competing revisions, of which
    ["2-b"] decrypts and ["2-c"] is missing; [tasks_t1] has one, whose
    payload is of another passphrase; [tasks_bad] has a payload that is
    not a ciphertext; [notes_empty] has no payload; the last is a
    design document. *)
Definition lunch : EncryptedDoc :=
  Eval vm_compute in stored "expenses_lunch" "1-a" (payload 0 [(js "amount", JNum 15)]) None.
Definition dinner : EncryptedDoc :=
  Eval vm_compute in
    stored "expenses_dinner" "2-a" (payload 1 [(js "amount", JNum 40)]) (Some [js "2-b"; js "2-c"]).
Definition dinner_b : EncryptedDoc :=
  Eval vm_compute in stored "expenses_dinner" "2-b" (payload 2 [(js "amount", JNum 41)]) None.
Definition t1 : EncryptedDoc :=
  Eval vm_compute in
    stored "tasks_t1" "2-x" (payload 3 [(js "title", JStr (js "call"))]) (Some [js "2-y"]).
Definition t1_y : EncryptedDoc :=
  Eval vm_compute in
    stored "tasks_t1" "2-y"
      (match snd (encrypt (Toy.helper "p2" derive) (js "{}") newHelperState) with
       | inr c => Some c
       | inl _ => None
       end) None.
Definition bad : EncryptedDoc :=
  Eval vm_compute in stored "tasks_bad" "1-z" (Some (js "not a ciphertext")) None.
Definition empty : EncryptedDoc :=
  Eval vm_compute in stored "notes_empty" "1-e" None None.
Definition design : EncryptedDoc :=
  Eval vm_compute in stored "_design/views" "1-d" None None.

Definition documents : list EncryptedDoc := [lunch; dinner; t1; bad; empty; design].
Definition revisions : list EncryptedDoc := [dinner_b; t1_y].

Definition notFound : exn := OtherError (js "not_found") (js "missing").

Definition lookup (docs : list EncryptedDoc) (id : jsstring) (rev : option jsstring)
  : result EncryptedDoc :=
  match find (fun doc => jsstring_eqb (_id doc) id
                         && match rev with
                            | Some r => match _rev doc with
                                        | Some r' => jsstring_eqb r r'
                                        | None => false
                                        end
                            | None => true
                            end) docs with
  | Some doc => inr doc
  | None => inl notFound
  end.

Definition database (docs : list EncryptedDoc) (connect : list SyncEvent) : Database :=
  {| db_allDocs := fun include_docs =>
       inr (map (fun doc => {| row_id := _id doc;
                               row_rev := match _rev doc with Some r => r | None => [] end;
                               row_doc := if include_docs then Some doc else None |}) docs);
     db_get := fun id rev =>
       match rev with
       | None => lookup docs id None
       | Some _ => lookup revisions id rev
       end;
     db_put := fun _ => inr (js "1-new");
     db_bulkDocs := fun _ => inr tt;
     db_sync_events := fun _ => connect;
     db_sync_once := fun _ => inr {| complete_push := None; complete_pull := None |};
     db_push_events := [] |}.

(** A listener with every callback registered, all returning. *)
Definition fullListener : PouchListener :=
  {| onChange := fun _ => None; onDelete := fun _ => None;
     onConflict := Some (fun _ => None); onSync := Some (fun _ => None);
     onError := Some (fun _ => None) |}.

Definition pouch (docs : list EncryptedDoc) (l : PouchListener) : EncryptedPouch :=
  {| db := database docs []; encryptionHelper := helper; listener := l |}.

(** A store whose [allDocs] fails, and a remote that answers the first
    connection with an error. *)
Definition unavailable : exn := OtherError (js "unknown_error") (js "Database is closed").

Definition broken : EncryptedPouch :=
  {| db := {| db_allDocs := fun _ => inl unavailable;
              db_get := fun _ _ => inl unavailable;
              db_put := fun _ => inl unavailable;
              db_bulkDocs := fun _ => inl unavailable;
              db_sync_events := fun _ => [];
              db_sync_once := fun _ => inl unavailable;
              db_push_events := [] |};
     encryptionHelper := helper; listener := fullListener |}.

Definition refused : exn := OtherError (js "unauthorized") (js "Name or password is incorrect.").

Definition refusing : EncryptedPouch :=
  {| db := database [] [sync_error refused]; encryptionHelper := helper;
     listener := defaultListener |}.

(** Two live changes in quick succession: the second is emitted while
    [handleChange] still works on the first, whose call then rejects. *)
Definition changed (doc : EncryptedDoc) : Change :=
  {| change_id := _id doc; change_deleted := false; change_doc := Some doc |}.

Definition liveChanges : list Change := [changed bad; changed lunch].

Definition firstEmitted : EventLoop.loop := EventLoop.onChangeEvent (changed bad) EventLoop.start.

Definition firstBegun : EventLoop.loop :=
  EventLoop.fire (EventLoop.thenReaction 0 (changed bad)) EventLoop.fulfilled
    (EventLoop.with_reactions ([] ++ [EventLoop.catchReaction 0]) firstEmitted).

Definition secondEmitted : EventLoop.loop := EventLoop.onChangeEvent (changed lunch) firstBegun.

Definition firstRejected : EventLoop.loop :=
  EventLoop.settle 1 (EventLoop.rejected unavailable)
    (EventLoop.observe (EventLoop.ended 0 (EventLoop.rejected unavailable))
       (EventLoop.with_invocations ([] ++ []) secondEmitted)).

(** The key of [helper], and what the cipher gives for ["hi"] under the
    first draw. *)
Definition key : CryptoKey :=
  Eval vm_compute in
    match deriveKey helper with
    | inr k => k
    | inl _ => {| key_algorithm := []; key_data := []; key_extractable := false;
                  key_usages := [] |}
    end.

Definition sealed : bytes :=
  Eval vm_compute in
    match subtle_encrypt (crypto helper) (getRandomValues (crypto helper) 0 12) key
            (JS.TextEncoder_encode (js "hi")) with
    | inr ct => ct
    | inl _ => []
    end.

(** A platform without PBKDF2: the key of a helper in ["derive"] mode
    cannot be derived. *)
Definition noKey : exn := OtherError (js "NotSupportedError") (js "Unrecognized name.").

Definition keyless : EncryptionHelper :=
  {| passphrase := js "p1";
     crypto := {| subtle_digest := subtle_digest Toy.subtle;
                  subtle_importKey := fun format data alg extractable usages =>
                    if jsstring_eqb alg (js "PBKDF2") then inl noKey
                    else subtle_importKey Toy.subtle format data alg extractable usages;
                  subtle_encrypt := subtle_encrypt Toy.subtle;
                  subtle_decrypt := subtle_decrypt Toy.subtle;
                  subtle_deriveBits := subtle_deriveBits Toy.subtle;
                  getRandomValues := getRandomValues Toy.subtle |};
     passphraseMode := derive |}.

(** A listener whose [onChange] throws. *)
Definition thrown : exn := TypeError (js "Cannot read properties of undefined").

Definition throwingListener : PouchListener :=
  {| onChange := fun _ => Some thrown; onDelete := fun _ => None;
     onConflict := Some (fun _ => None); onSync := Some (fun _ => None);
     onError := Some (fun _ => None) |}.

(** A store with two documents and a remote that takes the pushes one
    document at a time. *)
Definition stats (written : N) : SyncStats :=
  {| docs_read := Some written; docs_written := Some written;
     doc_write_failures := Some 0 |}.

Definition pushOf (written : N) : SyncEvent :=
  sync_change {| direction := push; change := stats written |}.

Definition pullOf (written : N) : SyncEvent :=
  sync_change {| direction := pull; change := stats written |}.

Definition remote : Database :=
  {| db_allDocs := db_allDocs (database [lunch; dinner] []);
     db_get := db_get (database [lunch; dinner] []);
     db_put := fun _ => inr (js "1-new");
     db_bulkDocs := fun _ => inr tt;
     db_sync_events := fun _ => [pullOf 2; sync_active];
     db_sync_once := fun _ =>
       inr {| complete_push := Some (stats 2);
              complete_pull := Some {| docs_read := Some 0; docs_written := None;
                                       doc_write_failures := None |} |};
     db_push_events := [pullOf 5; pushOf 1; pushOf 1; sync_error refused] |}.

Definition synced : EncryptedPouch :=
  {| db := remote; encryptionHelper := helper; listener := fullListener |}.

Definition address : jsstring := js "https://remote/db".

Definition connected : World := fst (connectRemote synced address true true newWorld).

(** A store that removes what it is asked to, but for the revision
    ["2-c"], which it does not have. *)
Definition remover : Remover :=
  {| db_get_plain := fun id => lookup documents id None;
     db_remove := fun _ => inr tt;
     db_remove_rev := fun _ rev =>
       if jsstring_eqb rev (js "2-c") then inl notFound else inr tt |}.

(** A listener whose [onConflict] throws. *)
Definition conflictThrowingListener : PouchListener :=
  {| onChange := fun _ => None; onDelete := fun _ => None;
     onConflict := Some (fun _ => Some thrown); onSync := None;
     onError := Some (fun _ => None) |}.

(** A listener whose [onError] throws. *)
Definition errorThrowingListener : PouchListener :=
  {| onChange := fun _ => None; onDelete := fun _ => None;
     onConflict := None; onSync := None;
     onError := Some (fun _ => Some thrown) |}.

(** A listener whose [onSync] throws on what is pushed, and the instance
    [synced] with this listener. *)
Definition pushThrowingListener : PouchListener :=
  {| onChange := fun _ => None; onDelete := fun _ => None;
     onConflict := None;
     onSync := Some (fun info => match direction info with
                                 | push => Some thrown
                                 | _ => None
                                 end);
     onError := None |}.

Definition unheard : EncryptedPouch :=
  {| db := remote; encryptionHelper := helper; listener := pushThrowingListener |}.

End Demo.

(* ================================================================= *)
(** ** Outcomes, as functions of the store and the key

    Once the key promise is cached, what [decrypt] and [decryptDoc]
    resolve or reject with no longer depends on the state.  These
    functions give that outcome; [decrypt_run] and [decryptDoc_run] below
    relate them to the methods. *)

(** The state of the helper after [getKey]. *)
Definition cacheKey (h : EncryptionHelper) (st : HelperState) : HelperState :=
  {| keyPromise := Some (deriveKey h); draws := draws st |}.

Definition decryptionError (e : exn) : exn :=
  DecryptionError (js "Could not decrypt: " ++ describe e).

Definition decryptOutcome (h : EncryptionHelper) (data : jsstring) : result jsstring :=
  match deriveKey h with
  | inl e => inl (decryptionError e)
  | inr key =>
      match mapR fromHexString (JS.split 0x7C data) with
      | inl e => inl (decryptionError e)
      | inr [] => inl (decryptionError (TypeError (js "iv is undefined")))
      | inr (iv :: rest) =>
          match subtle_decrypt (crypto h) iv key (hd_error rest) with
          | inl e => inl (decryptionError e)
          | inr m => inr (JS.TextDecoder_decode m)
          end
      end
  end.

Definition decryptFieldOutcome (h : EncryptionHelper) (data : option jsstring)
  : result jsstring :=
  match data with
  | Some s => decryptOutcome h s
  | None =>
      match deriveKey h with
      | inl e => inl (decryptionError e)
      | inr _ =>
          inl (decryptionError
                 (TypeError (js "Cannot read properties of undefined (reading 'split')")))
      end
  end.

Definition decryptDocOutcome (JSON_parse : jsstring -> result jsvalue)
    (this : EncryptedPouch) (encryptedDoc : EncryptedDoc) : result object :=
  match parseFullId (_id encryptedDoc) with
  | None => inl (Error (js "Invalid ID format: " ++ _id encryptedDoc))
  | Some parsed =>
      plaintext <-? decryptFieldOutcome (encryptionHelper this) (d encryptedDoc) ;;
      decrypted <-? JSON_parse plaintext ;;
      inr (spread [(js "_id", JStr (parsed_id parsed));
                   (js "_rev", optString (_rev encryptedDoc))] decrypted)
  end.

(** A world [w'] reached from [w] by a method that emitted [evs]: the
    trace grew by [evs], the key stays cached, the rest is as it was. *)
Definition reaches (this : EncryptedPouch) (w : World) (evs : list Event) (w' : World) : Prop :=
  trace w' = trace w ++ evs
  /\ keyCached (encryptionHelper this) (helperState w')
  /\ changesHandler w' = changesHandler w
  /\ syncHandler w' = syncHandler w
  /\ remoteUrl w' = remoteUrl w
  /\ generated w' = generated w
  /\ handles w' = handles w.

(** Every registered callback returns. *)
Definition listenerReturns (l : PouchListener) : Prop :=
  (forall x, onChange l x = None)
  /\ (forall x, onDelete l x = None)
  /\ (forall callback, onConflict l = Some callback -> forall x, callback x = None)
  /\ (forall callback, onError l = Some callback -> forall x, callback x = None).

(** The call [reportErrors] makes, if any. *)
Definition errorNotice (this : EncryptedPouch) (errs : list DecryptionErrorEvent) : list Event :=
  match onError (listener this) with
  | Some _ => if nonEmpty errs then [called_onError errs] else []
  | None => []
  end.

(** What that call throws, when it is made and throws. *)
Definition reportThrows (this : EncryptedPouch) (errs : list DecryptionErrorEvent)
  : option exn :=
  match onError (listener this) with
  | Some callback => if nonEmpty errs then callback errs else None
  | None => None
  end.

Definition conflictNotice (this : EncryptedPouch) (cs : list ConflictInfo) : list Event :=
  match onConflict (listener this) with
  | Some _ => if nonEmpty cs then [called_onConflict cs] else []
  | None => []
  end.

Section Outcomes.

Variable JSON_parse : jsstring -> result jsvalue.
Variable this : EncryptedPouch.

(** Fetching the competing revision [rev] of [fullId] and decrypting it. *)
Definition revisionOutcome (fullId rev : jsstring) : result object :=
  conflictDoc <-? db_get (db this) fullId (Some rev) ;;
  decryptDocOutcome JSON_parse this conflictDoc.

Definition lostRevision (fullId rev : jsstring) (error : exn) : DecryptionErrorEvent :=
  {| ev_docId := fullId ++ js "@" ++ rev;
     ev_error := toError error;
     ev_rawDoc := {| _id := fullId; _rev := Some rev; d := None; _conflicts := None |} |}.

(** The competing revisions that decrypt, and those that do not. *)
Definition recoveredLosers (fullId : jsstring) (revs : list jsstring) : list object :=
  flat_map (fun rev => match revisionOutcome fullId rev with
                       | inr doc => [doc]
                       | inl _ => []
                       end) revs.

Definition lostRevisions (fullId : jsstring) (revs : list jsstring)
  : list DecryptionErrorEvent :=
  flat_map (fun rev => match revisionOutcome fullId rev with
                       | inr _ => []
                       | inl e => [lostRevision fullId rev e]
                       end) revs.

Definition conflictStep (fullId : jsstring) (l : Locals) (rev : jsstring) : Locals :=
  match revisionOutcome fullId rev with
  | inr doc => push_found doc l
  | inl e => push_errors (lostRevision fullId rev e) l
  end.

Definition conflictInfoOf (encryptedDoc : EncryptedDoc) (parsed : ParsedId)
    (winnerDoc : object) : ConflictInfo :=
  {| ci_docId := _id encryptedDoc;
     ci_table := parsed_table parsed;
     ci_id := parsed_id parsed;
     ci_currentRev := _rev encryptedDoc;
     ci_conflictRevs := conflictsOf (_conflicts encryptedDoc);
     ci_winner := winnerDoc;
     ci_losers := recoveredLosers (_id encryptedDoc) (conflictsOf (_conflicts encryptedDoc)) |}.

(** The record a scan looks at in a row: there, not a design document,
    with a payload. *)
Definition scanned (row : Row) : option EncryptedDoc :=
  match row_doc row with
  | Some encryptedDoc =>
      if isDesign (row_id row) then None
      else if hasPayload encryptedDoc then Some encryptedDoc else None
  | None => None
  end.

(** What one turn of the loop of [loadAll] does to the local variables,
    and what it emits (the report of [buildConflictInfo]). *)
Definition loadStep (l : Locals) (row : Row) : Locals :=
  match scanned row with
  | None => l
  | Some encryptedDoc =>
      match decryptDocOutcome JSON_parse this encryptedDoc with
      | inl e => push_errors (errorEvent encryptedDoc e) l
      | inr doc =>
          match parseFullId (_id encryptedDoc) with
          | Some parsed =>
              let l1 := push_docsByTable (parsed_table parsed) doc l in
              if hasConflicts (_conflicts encryptedDoc)
              then push_conflicts (conflictInfoOf encryptedDoc parsed doc) l1
              else l1
          | None => l
          end
      end
  end.

Definition loadEvents (row : Row) : list Event :=
  match scanned row with
  | None => []
  | Some encryptedDoc =>
      match decryptDocOutcome JSON_parse this encryptedDoc with
      | inl _ => []
      | inr _ =>
          if hasConflicts (_conflicts encryptedDoc)
          then errorNotice this (lostRevisions (_id encryptedDoc)
                                   (conflictsOf (_conflicts encryptedDoc)))
          else []
      end
  end.

(** The documents of a scan that decrypt, each with its table; those that
    do not, as the error events made of them; and the conflicts of those
    that decrypt. *)
Definition decryptable (row : Row) : list (jsstring * object) :=
  match scanned row with
  | None => []
  | Some encryptedDoc =>
      match decryptDocOutcome JSON_parse this encryptedDoc, parseFullId (_id encryptedDoc) with
      | inr doc, Some parsed => [(parsed_table parsed, doc)]
      | _, _ => []
      end
  end.

Definition undecryptable (row : Row) : list DecryptionErrorEvent :=
  match scanned row with
  | None => []
  | Some encryptedDoc =>
      match decryptDocOutcome JSON_parse this encryptedDoc with
      | inl e => [errorEvent encryptedDoc e]
      | inr _ => []
      end
  end.

Definition conflicted (row : Row) : list ConflictInfo :=
  match scanned row with
  | None => []
  | Some encryptedDoc =>
      match decryptDocOutcome JSON_parse this encryptedDoc, parseFullId (_id encryptedDoc) with
      | inr doc, Some parsed =>
          if hasConflicts (_conflicts encryptedDoc)
          then [conflictInfoOf encryptedDoc parsed doc] else []
      | _, _ => []
      end
  end.

End Outcomes.

(** The calls of each callback in a trace, by their arguments. *)
Definition changeCalls (evs : list Event) : list (list Batch) :=
  flat_map (fun e => match e with called_onChange c => [c] | _ => [] end) evs.

Definition deleteCalls (evs : list Event) : list (list Batch) :=
  flat_map (fun e => match e with called_onDelete c => [c] | _ => [] end) evs.

Definition errorCalls (evs : list Event) : list (list DecryptionErrorEvent) :=
  flat_map (fun e => match e with called_onError c => [c] | _ => [] end) evs.

Definition conflictCalls (evs : list Event) : list (list ConflictInfo) :=
  flat_map (fun e => match e with called_onConflict c => [c] | _ => [] end) evs.

(** The number of documents in the batches. *)
Definition documentCount (batches : list Batch) : nat :=
  list_sum (map (fun b => List.length (docs b)) batches).

(** The distinct tables of a list of documents with their tables. *)
Definition distinctTables (l : list (jsstring * object)) : list jsstring :=
  nodup (list_eq_dec N.eq_dec) (map fst l).

(** [m.get(t).push(doc)] for a pair of a table and a document. *)
Definition pushPair (m : list Batch) (p : jsstring * object) : list Batch :=
  pushByTable (fst p) (snd p) m.

(** [doc] is in the batch of table [t]. *)
Definition delivered (t : jsstring) (doc : object) (m : list Batch) : Prop :=
  exists b, In b m /\ table b = t /\ In doc (docs b).

(** The call of [onChange] that [loadAll] makes, if any. *)
Definition changeNotice (batches : list Batch) : list Event :=
  if nonEmpty batches then [called_onChange batches] else [].

(** The competing revision can be fetched and decrypted. *)
Definition revisionDecrypts (JSON_parse : jsstring -> result jsvalue) (this : EncryptedPouch)
    (fullId rev : jsstring) : bool :=
  match revisionOutcome JSON_parse this fullId rev with
  | inr _ => true
  | inl _ => false
  end.

(** A world reached by adding to the trace, the handle counter kept; a
    method that only does that, whether it returns or throws. *)
Definition grows (w w' : World) : Prop :=
  (exists evs, trace w' = trace w ++ evs) /\ handles w' = handles w.

Definition steady {A} (m : M World A) : Prop := forall w, grows w (fst (m w)).

Definition steadyL {A} (m : M (World * Locals) A) : Prop :=
  forall w l, grows w (fst (fst (m (w, l)))).

(** The user data of a document: what [encryptDoc] puts in [data]. *)
Definition userData (doc : object) : object := fst (partitionFields doc []).

(** A key of user data, and a key passed through. *)
Definition isUserKey (key : jsstring) : bool := negb (JS.startsWith key (js "_")).

Definition isPassedKey (key : jsstring) : bool :=
  JS.startsWith key (js "_")
  && negb (jsstring_eqb key (js "_id")) && negb (jsstring_eqb key (js "_rev"))
  && negb (jsstring_eqb key (js "__proto__")).

(** The errors of the guards of [syncNow] and [deleteAllAndSync]. *)
Definition notConnected_syncNow : exn :=
  Error (js "No remote connection configured. Call connectRemote() first.").

Definition notConnected_deleteAllAndSync : exn :=
  Error (js "Sync is not connected. Call connectRemote() first or use deleteAllLocal() instead.").

(** No call of [connectRemote] since the instance was made or last
    disconnected: no handle and no remote address. *)
Definition neverConnected (w : World) : Prop :=
  syncHandler w = None /\ remoteUrl w = None.

(** The state in which [connectRemote] starts to wait. *)
Definition connecting (url : jsstring) (live retry : bool) (w : World) : World :=
  let w0 := set_remoteUrl (Some url) (fst (disconnectRemote w)) in
  set_syncHandler (Some (handles w0))
    (log (store_sync url live retry (handles w0)) (set_handles (S (handles w0)) w0)).

(* ================================================================= *)
(** ** What the further statements use *)

(** The optional callbacks return when they are called. *)
Definition onErrorReturns (l : PouchListener) : Prop :=
  forall callback, onError l = Some callback -> forall x, callback x = None.

Definition onConflictReturns (l : PouchListener) : Prop :=
  forall callback, onConflict l = Some callback -> forall x, callback x = None.

(** [!table || parsed.table === table], the filter of [getAll]. *)
Definition wanted (tbl : option jsstring) (t : jsstring) : bool :=
  match tbl with
  | None | Some [] => true
  | Some x => jsstring_eqb t x
  end.

(** What one turn of the loop of [getAll] does to the local variables. *)
Definition getStep (JSON_parse : jsstring -> result jsvalue) (this : EncryptedPouch)
    (tbl : option jsstring) (l : Locals) (row : Row) : Locals :=
  match scanned row with
  | None => l
  | Some encryptedDoc =>
      match decryptDocOutcome JSON_parse this encryptedDoc with
      | inl e => push_errors (errorEvent encryptedDoc e) l
      | inr doc =>
          match parseFullId (_id encryptedDoc) with
          | Some parsed => if wanted tbl (parsed_table parsed) then push_found doc l else l
          | None => l
          end
      end
  end.

(** The documents of the batch of table [t], if there is one. *)
Definition docsOf (t : jsstring) (m : list Batch) : list object :=
  match find (fun b => jsstring_eqb t (table b)) m with
  | Some b => docs b
  | None => []
  end.

(** The tables of a list, each once, in the order in which they first
    appear: the order of the keys of the [Map] of [loadAll]. *)
Definition firstSeen (ts : list jsstring) : list jsstring :=
  fold_left (fun acc t => if existsb (jsstring_eqb t) acc then acc else acc ++ [t]) ts [].

(** *** Sync *)

Definition isChangeEvent (ev : SyncEvent) : bool :=
  match ev with
  | sync_change _ => true
  | _ => false
  end.

Definition isErrorEvent (ev : SyncEvent) : bool :=
  match ev with
  | sync_error _ => true
  | _ => false
  end.

(** The calls of [onSync] for the changes among [events], when the
    callback is registered. *)
Definition syncNotice (this : EncryptedPouch) (events : list SyncEvent) : list Event :=
  match onSync (listener this) with
  | Some _ =>
      flat_map (fun ev => match ev with
                          | sync_change info => [called_onSync info]
                          | _ => []
                          end) events
  | None => []
  end.

(** The line written to the console for an error of the handle, when
    [onSync] is registered. *)
Definition syncErrorNotice (this : EncryptedPouch) (err : exn) : list Event :=
  match onSync (listener this) with
  | Some _ => [console_error (js "[EncryptedPouch] sync error:") err]
  | None => []
  end.

(** The call of [onSync] that [syncNow] makes for one direction. *)
Definition completeNotice (this : EncryptedPouch) (dir : Direction) (stats : option SyncStats)
  : list Event :=
  match onSync (listener this), stats with
  | Some _, Some st =>
      match docs_written st with
      | Some _ => [called_onSync {| direction := dir; change := st |}]
      | None => []
      end
  | _, _ => []
  end.

(** What [disconnectRemote] adds to the trace. *)
Definition cancelNotice (w : World) : list Event :=
  match syncHandler w with
  | Some old => [handle_cancel old]
  | None => []
  end.

(** The documents written by the pushes among [events], added to
    [count]. *)
Definition pushed (count : N) (events : list SyncEvent) : N :=
  fold_left (fun n ev =>
               match ev with
               | sync_change info =>
                   match direction info with
                   | push => n + match docs_written (change info) with
                                 | Some k => k
                                 | None => 0
                                 end
                   | _ => n
                   end
               | _ => n
               end) events count.

(** The change reaches the handlers registered after the one of
    [connectRemote]: [onSync] is not registered, or returns on it. *)
Definition heard (this : EncryptedPouch) (ev : SyncEvent) : bool :=
  match ev, onSync (listener this) with
  | sync_change info, Some callback =>
      match callback info with
      | None => true
      | Some _ => false
      end
  | _, _ => true
  end.

(** What the call of [onSync] that [syncNow] makes for one direction
    throws, when it is made and throws. *)
Definition completeThrows (this : EncryptedPouch) (dir : Direction) (stats : option SyncStats)
  : option exn :=
  match onSync (listener this), stats with
  | Some callback, Some st =>
      match docs_written st with
      | Some _ => callback {| direction := dir; change := st |}
      | None => None
      end
  | _, _ => None
  end.

(** *** Subscriptions and removals *)

Definition isCancel (e : Event) : bool :=
  match e with
  | handle_cancel _ => true
  | _ => false
  end.

(** *** The processing chain: what the statements count *)

Module Chain.
Import EventLoop.

(** The calls of [handleChange] that began, the reasons of those that
    ended rejected, and the reasons written to the console, in order. *)
Definition begun (tr : list obs) : list (nat * Change) :=
  flat_map (fun o => match o with
                     | began k change => [(k, change)]
                     | _ => []
                     end) tr.

Definition failures (tr : list obs) : list exn :=
  flat_map (fun o => match o with
                     | ended _ (rejected reason) => [reason]
                     | _ => []
                     end) tr.

Definition logs (tr : list obs) : list exn :=
  flat_map (fun o => match o with
                     | logged reason => [reason]
                     | _ => []
                     end) tr.

(** The number of calls that began before a phase, and the rejection
    that is still to be logged in it. *)
Definition started (ph : phase) : nat :=
  match ph with
  | Idle n => n
  | Busy n | Failing n _ => S n
  end.

Definition unlogged (ph : phase) : list exn :=
  match ph with
  | Failing _ reason => [reason]
  | _ => []
  end.

End Chain.

(* ------ theorems ------ *)

Example split_example :
  JS.split 0x7C (js "ab|cd|") = [js "ab"; js "cd"; []].
Proof. reflexivity. Qed.

Example parseInt16_examples :
  map JS.parseInt16 [js "ff"; js "0a"; js "az"; js "zz"; js "-1"; js " f"; js "0x"; js "f"]
  = [Some 255; Some 10; Some 10; None; Some (-1); Some 15; None; Some 15]%Z.
Proof. reflexivity. Qed.

Example text_roundtrip_example :
  JS.TextDecoder_decode (JS.TextEncoder_encode (js "hello" ++ [0xE9; 0x20AC; 0xD83D; 0xDE00]))
  = js "hello" ++ [0xE9; 0x20AC; 0xD83D; 0xDE00].
Proof. vm_compute. reflexivity. Qed.

Example text_bom_example :
  JS.TextDecoder_decode (JS.TextEncoder_encode (0xFEFF :: js "a")) = js "a".
Proof. vm_compute. reflexivity. Qed.

Example text_lone_surrogate_example :
  JS.TextDecoder_decode (JS.TextEncoder_encode [0xD800]) = [0xFFFD].
Proof. vm_compute. reflexivity. Qed.


(* ================================================================= *)
(** ** Bytes and hexadecimal strings *)

Lemma to_N_u8 (n : N) : n < 256 -> Byte.to_N (u8 n) = n.
Proof.
  intros H. unfold u8. rewrite N.mod_small by exact H.
  destruct (Byte.of_N n) eqn:E.
  - now apply Byte.to_of_N.
  - apply Byte.of_N_None_iff in E. lia.
Qed.

Lemma u8_to_N (b : byte) : u8 (Byte.to_N b) = b.
Proof.
  unfold u8. rewrite N.mod_small by (pose proof (Byte.to_N_bounded b); lia).
  now rewrite Byte.of_to_N.
Qed.

Lemma hexPair_shape (b : byte) :
  exists c1 c2, hexPair b = [c1; c2] /\ isHexChar c1 = true /\ isHexChar c2 = true.
Proof. destruct b; vm_compute; eauto. Qed.

Lemma hexPair_parse (b : byte) : ToUint8 (JS.parseInt16 (hexPair b)) = b.
Proof. destruct b; vm_compute; reflexivity. Qed.

Lemma isHexChar_not_LineTerminator c : isHexChar c = true -> JS.isLineTerminator c = false.
Proof.
  unfold isHexChar, JS.isLineTerminator. intros H.
  repeat match goal with
         | |- context [?a =? ?b] => destruct (N.eqb_spec a b); [subst; vm_compute in H; discriminate|]
         end.
  reflexivity.
Qed.

Lemma isHexChar_not_bar c : isHexChar c = true -> (c =? 0x7C) = false.
Proof.
  intros H. destruct (N.eqb_spec c 0x7C); [subst; vm_compute in H; discriminate | reflexivity].
Qed.

Lemma toHexString_flat_map (bs : bytes) : toHexString bs = flat_map hexPair bs.
Proof.
  unfold toHexString.
  enough (G : forall acc, fold_left (fun str byte => str ++ JS.padStart 2 0x30 (JS.toString16 byte)) bs acc
                          = acc ++ flat_map hexPair bs) by apply (G []).
  induction bs as [|b bs IH]; intros acc; cbn [fold_left flat_map].
  - now rewrite app_nil_r.
  - rewrite IH. now rewrite <- app_assoc.
Qed.

Lemma toHexString_hex (bs : bytes) : Forall (fun c => isHexChar c = true) (toHexString bs).
Proof.
  rewrite toHexString_flat_map. induction bs as [|b bs IH]; cbn [flat_map]; [constructor|].
  destruct (hexPair_shape b) as (c1 & c2 & -> & H1 & H2). cbn. auto.
Qed.

Lemma dot_1_2_matches_hex (bs : bytes) :
  JS.dot_1_2_matches (flat_map hexPair bs) = map hexPair bs.
Proof.
  induction bs as [|b bs IH]; [reflexivity|].
  cbn [flat_map map].
  destruct (hexPair_shape b) as (c1 & c2 & E & H1 & H2). rewrite E.
  cbn [app JS.dot_1_2_matches].
  rewrite (isHexChar_not_LineTerminator _ H1), (isHexChar_not_LineTerminator _ H2).
  now rewrite IH.
Qed.

(** [fromHexString] undoes [toHexString] on every array that is not empty. *)
Lemma fromHexString_toHexString (bs : bytes) :
  bs <> [] -> fromHexString (toHexString bs) = inr bs.
Proof.
  intros Hne. unfold fromHexString, JS.match_dot_1_2.
  rewrite toHexString_flat_map, dot_1_2_matches_hex.
  destruct bs as [|b bs]; [congruence|].
  cbn [map]. f_equal. f_equal; [apply hexPair_parse|].
  rewrite map_map. rewrite <- (map_id bs) at 2. apply map_ext. intros; apply hexPair_parse.
Qed.

Lemma fromHexString_empty : exists e, fromHexString [] = inl e.
Proof. eexists. reflexivity. Qed.

(** Splitting at the separator. *)
Lemma split_go_no_sep sep cur s :
  Forall (fun c => (c =? sep) = false) s ->
  JS.split_go sep cur s = [rev cur ++ s].
Proof.
  revert cur. induction s as [|c s IH]; intros cur H; cbn [JS.split_go].
  - now rewrite app_nil_r.
  - inversion H; subst. rewrite H2. rewrite IH by assumption.
    cbn [rev]. now rewrite <- app_assoc.
Qed.

Lemma split_go_app sep cur a b :
  Forall (fun c => (c =? sep) = false) a ->
  JS.split_go sep cur (a ++ sep :: b) = (rev cur ++ a) :: JS.split_go sep [] b.
Proof.
  revert cur. induction a as [|c a IH]; intros cur H; cbn [app JS.split_go].
  - rewrite N.eqb_refl. now rewrite app_nil_r.
  - inversion H; subst. rewrite H2. rewrite IH by assumption.
    cbn [rev]. now rewrite <- app_assoc.
Qed.

Lemma split_two sep a b :
  Forall (fun c => (c =? sep) = false) a ->
  Forall (fun c => (c =? sep) = false) b ->
  JS.split sep (a ++ sep :: b) = [a; b].
Proof.
  intros Ha Hb. unfold JS.split. rewrite split_go_app by assumption.
  now rewrite split_go_no_sep by assumption.
Qed.

Lemma toHexString_no_bar bs : Forall (fun c => (c =? 0x7C) = false) (toHexString bs).
Proof.
  eapply Forall_impl; [|apply toHexString_hex]. intros; now apply isHexChar_not_bar.
Qed.

(* ================================================================= *)
(** ** UTF-8: [TextDecoder] after [TextEncoder] *)

Ltac bool_cases :=
  repeat match goal with
         | |- context [N.leb ?a ?b] => destruct (N.leb_spec a b)
         | |- context [N.ltb ?a ?b] => destruct (N.ltb_spec a b)
         | |- context [N.eqb ?a ?b] => destruct (N.eqb_spec a b)
         end.

Lemma utf8_one_byte cp rest :
  cp <= 0x7F ->
  JS.utf8Decode JS.utf8Init (u8 cp :: rest) = cp :: JS.utf8Decode JS.utf8Init rest.
Proof.
  intros H. cbn [JS.utf8Decode]. rewrite to_N_u8 by lia.
  unfold JS.utf8Step. cbn [JS.bytes_needed JS.utf8Init N.eqb].
  unfold JS.utf8Lead. destruct (N.leb_spec cp 0x7F); [reflexivity | lia].
Qed.


Lemma utf8Decode_cons st b t :
  JS.utf8Decode st (b :: t)
  = fst (JS.utf8Step st (Byte.to_N b)) ++ JS.utf8Decode (snd (JS.utf8Step st (Byte.to_N b))) t.
Proof. cbn [JS.utf8Decode]. now destruct (JS.utf8Step st (Byte.to_N b)). Qed.

(** Settles the first comparison of the goal, by arithmetic. *)
Ltac settle_test :=
  match goal with
  | |- context [N.leb ?a ?b] =>
      first [ replace (N.leb a b) with true by (symmetry; apply N.leb_le; lia)
            | replace (N.leb a b) with false by (symmetry; apply N.leb_gt; lia) ]
  | |- context [N.ltb ?a ?b] =>
      first [ replace (N.ltb a b) with true by (symmetry; apply N.ltb_lt; lia)
            | replace (N.ltb a b) with false by (symmetry; apply N.ltb_ge; lia) ]
  | |- context [N.eqb ?a ?b] =>
      first [ replace (N.eqb a b) with true by (symmetry; apply N.eqb_eq; lia)
            | replace (N.eqb a b) with false by (symmetry; apply N.eqb_neq; lia) ]
  end.

Ltac settle_tests := repeat (settle_test; cbn [andb orb negb]).

Lemma utf8Lead_ascii b : b <= 0x7F -> JS.utf8Lead b = ([b], JS.utf8Init).
Proof. intros. unfold JS.utf8Lead. now settle_tests. Qed.

Lemma utf8Lead_two b :
  0xC2 <= b <= 0xDF -> JS.utf8Lead b = ([], utf8Pending (b mod 32) 0 1).
Proof. intros. unfold JS.utf8Lead. now settle_tests. Qed.

Lemma utf8Lead_three b :
  0xE0 <= b <= 0xEF ->
  JS.utf8Lead b
  = ([], {| JS.code_point := b mod 16; JS.bytes_seen := 0; JS.bytes_needed := 2;
            JS.lower_boundary := if b =? 0xE0 then 0xA0 else 0x80;
            JS.upper_boundary := if b =? 0xED then 0x9F else 0xBF |}).
Proof. intros. unfold JS.utf8Lead. 
  do 5 (settle_test; cbn [andb orb negb]). reflexivity. Qed.

Lemma utf8Lead_four b :
  0xF0 <= b <= 0xF4 ->
  JS.utf8Lead b
  = ([], {| JS.code_point := b mod 8; JS.bytes_seen := 0; JS.bytes_needed := 3;
            JS.lower_boundary := if b =? 0xF0 then 0x90 else 0x80;
            JS.upper_boundary := if b =? 0xF4 then 0x8F else 0xBF |}).
Proof. intros. unfold JS.utf8Lead. 
  do 7 (settle_test; cbn [andb orb negb]). reflexivity. Qed.

Lemma utf8Step_init b : JS.utf8Step JS.utf8Init b = JS.utf8Lead b.
Proof. reflexivity. Qed.

Lemma utf8Step_last st b :
  JS.bytes_needed st <> 0 ->
  JS.lower_boundary st <= b <= JS.upper_boundary st ->
  JS.bytes_seen st + 1 = JS.bytes_needed st ->
  JS.utf8Step st b = ([JS.code_point st * 64 + b mod 64], JS.utf8Init).
Proof.
  intros Hn Hb Hs. unfold JS.utf8Step.
  destruct (N.eqb_spec (JS.bytes_needed st) 0); [contradiction|].
  destruct (N.ltb_spec b (JS.lower_boundary st)); [lia|].
  destruct (N.ltb_spec (JS.upper_boundary st) b); [lia|].
  cbn [orb]. destruct (N.eqb_spec (JS.bytes_seen st + 1) (JS.bytes_needed st)); [reflexivity|contradiction].
Qed.

Lemma utf8Step_more st b :
  JS.bytes_needed st <> 0 ->
  JS.lower_boundary st <= b <= JS.upper_boundary st ->
  JS.bytes_seen st + 1 <> JS.bytes_needed st ->
  JS.utf8Step st b
  = ([], utf8Pending (JS.code_point st * 64 + b mod 64) (JS.bytes_seen st + 1) (JS.bytes_needed st)).
Proof.
  intros Hn Hb Hs. unfold JS.utf8Step.
  destruct (N.eqb_spec (JS.bytes_needed st) 0); [contradiction|].
  destruct (N.ltb_spec b (JS.lower_boundary st)); [lia|].
  destruct (N.ltb_spec (JS.upper_boundary st) b); [lia|].
  cbn [orb]. destruct (N.eqb_spec (JS.bytes_seen st + 1) (JS.bytes_needed st)); [contradiction|reflexivity].
Qed.

Lemma utf8_two_bytes cp rest :
  0x80 <= cp -> cp <= 0x7FF ->
  JS.utf8Decode JS.utf8Init (u8 (0xC0 + cp / 64) :: u8 (0x80 + cp mod 64) :: rest)
  = cp :: JS.utf8Decode JS.utf8Init rest.
Proof.
  intros H1 H2.
  rewrite utf8Decode_cons, to_N_u8, utf8Step_init, utf8Lead_two by lia.
  cbn [fst snd app].
  rewrite utf8Decode_cons, to_N_u8 by lia.
  rewrite utf8Step_last; cbn [utf8Pending JS.bytes_needed JS.bytes_seen JS.code_point JS.lower_boundary JS.upper_boundary]; try lia.
  cbn [fst snd app]. f_equal. lia.
Qed.

Lemma utf8_three_bytes cp rest :
  0x800 <= cp -> cp <= 0xFFFF -> ~ (0xD800 <= cp <= 0xDFFF) ->
  JS.utf8Decode JS.utf8Init
    (u8 (0xE0 + cp / 4096) :: u8 (0x80 + (cp / 64) mod 64) :: u8 (0x80 + cp mod 64) :: rest)
  = cp :: JS.utf8Decode JS.utf8Init rest.
Proof.
  intros H1 H2 H3.
  rewrite utf8Decode_cons, to_N_u8, utf8Step_init, utf8Lead_three by lia.
  cbn [fst snd app].
  rewrite utf8Decode_cons, to_N_u8 by lia.
  rewrite utf8Step_more; cbn [utf8Pending JS.bytes_needed JS.bytes_seen JS.code_point JS.lower_boundary JS.upper_boundary]; try lia.
  2:{ destruct (N.eqb_spec (224 + cp / 4096) 224), (N.eqb_spec (224 + cp / 4096) 237); lia. }
  cbn [fst snd app].
  rewrite utf8Decode_cons, to_N_u8 by lia.
  rewrite utf8Step_last; cbn [utf8Pending JS.bytes_needed JS.bytes_seen JS.code_point JS.lower_boundary JS.upper_boundary]; try lia.
  cbn [fst snd app]. f_equal. lia.
Qed.

Lemma utf8_four_bytes cp rest :
  0x10000 <= cp -> cp < 0x110000 ->
  JS.utf8Decode JS.utf8Init
    (u8 (0xF0 + cp / 262144) :: u8 (0x80 + (cp / 4096) mod 64)
       :: u8 (0x80 + (cp / 64) mod 64) :: u8 (0x80 + cp mod 64) :: rest)
  = cp :: JS.utf8Decode JS.utf8Init rest.
Proof.
  intros H1 H2.
  rewrite utf8Decode_cons, to_N_u8, utf8Step_init, utf8Lead_four by lia.
  cbn [fst snd app].
  rewrite utf8Decode_cons, to_N_u8 by lia.
  rewrite utf8Step_more; cbn [utf8Pending JS.bytes_needed JS.bytes_seen JS.code_point JS.lower_boundary JS.upper_boundary]; try lia.
  2:{ destruct (N.eqb_spec (240 + cp / 262144) 240), (N.eqb_spec (240 + cp / 262144) 244); lia. }
  cbn [fst snd app].
  rewrite utf8Decode_cons, to_N_u8 by lia.
  rewrite utf8Step_more; cbn [utf8Pending JS.bytes_needed JS.bytes_seen JS.code_point JS.lower_boundary JS.upper_boundary]; try lia.
  cbn [fst snd app].
  rewrite utf8Decode_cons, to_N_u8 by lia.
  rewrite utf8Step_last; cbn [utf8Pending JS.bytes_needed JS.bytes_seen JS.code_point JS.lower_boundary JS.upper_boundary]; try lia.
  cbn [fst snd app]. f_equal. lia.
Qed.

Lemma utf8Decode_encodeOne cp rest :
  isScalarValue cp = true ->
  JS.utf8Decode JS.utf8Init (JS.utf8EncodeOne cp ++ rest) = cp :: JS.utf8Decode JS.utf8Init rest.
Proof.
  unfold isScalarValue. intros H.
  apply andb_prop in H as [Hlt Hns]. apply N.ltb_lt in Hlt.
  apply negb_true_iff, andb_false_iff in Hns.
  assert (Hs : ~ (0xD800 <= cp <= 0xDFFF)).
  { intros [A B]. destruct Hns as [C|C]; [apply N.leb_gt in C | apply N.leb_gt in C]; lia. }
  unfold JS.utf8EncodeOne.
  destruct (N.leb_spec cp 0x7F); [now apply utf8_one_byte|].
  destruct (N.leb_spec cp 0x7FF); [apply utf8_two_bytes; lia|].
  destruct (N.leb_spec cp 0xFFFF); [apply utf8_three_bytes; lia|].
  apply utf8_four_bytes; lia.
Qed.

Lemma utf8Decode_encode cps :
  Forall (fun cp => isScalarValue cp = true) cps ->
  JS.utf8Decode JS.utf8Init (flat_map JS.utf8EncodeOne cps) = cps.
Proof.
  induction 1 as [|cp cps H _ IH]; [reflexivity|].
  cbn [flat_map]. rewrite utf8Decode_encodeOne by exact H. now rewrite IH.
Qed.

(** Induction that follows the recursion of [scalarValues] and
    [isWellFormed]: one code unit, or a pair, at a time. *)
Lemma jsstring_pair_ind (P : jsstring -> Prop) :
  P [] ->
  (forall c, P [c]) ->
  (forall c d r, P r -> P (d :: r) -> P (c :: d :: r)) ->
  forall s, P s.
Proof.
  intros H0 H1 H2 s.
  enough (G : P s /\ forall c, P (c :: s)) by apply G.
  induction s as [|d r [IH1 IH2]]; split; auto.
Qed.

Lemma bmp_scalar c :
  JS.isHighSurrogate c = false -> JS.isLowSurrogate c = false -> (c <? 0x10000) = true ->
  isScalarValue c = true /\ JS.codeUnits c = [c].
Proof.
  unfold JS.isHighSurrogate, JS.isLowSurrogate, isScalarValue, JS.codeUnits.
  intros Hh Hl Hlt. rewrite Hlt. apply N.ltb_lt in Hlt.
  replace (c <? 0x110000) with true by (symmetry; apply N.ltb_lt; lia).
  split; [|reflexivity]. cbn [andb]. apply negb_true_iff.
  destruct (N.leb_spec 0xD800 c); [|reflexivity].
  destruct (N.leb_spec c 0xDFFF); [|reflexivity]. exfalso.
  destruct (N.leb_spec c 0xDBFF); [discriminate|].
  destruct (N.leb_spec 0xDC00 c); [discriminate|]. lia.
Qed.

Lemma pair_scalar c d :
  JS.isHighSurrogate c = true -> JS.isLowSurrogate d = true ->
  isScalarValue (0x10000 + (c - 0xD800) * 0x400 + (d - 0xDC00)) = true
  /\ JS.codeUnits (0x10000 + (c - 0xD800) * 0x400 + (d - 0xDC00)) = [c; d].
Proof.
  unfold JS.isHighSurrogate, JS.isLowSurrogate. intros Hc Hd.
  apply andb_prop in Hc as [Hc1 Hc2]. apply andb_prop in Hd as [Hd1 Hd2].
  apply N.leb_le in Hc1, Hc2, Hd1, Hd2.
  split.
  - unfold isScalarValue. settle_tests. reflexivity.
  - unfold JS.codeUnits. settle_tests. f_equal; [lia|]. f_equal. lia.
Qed.

Lemma wellFormed_text s :
  isWellFormed s = true ->
  Forall (fun cp => isScalarValue cp = true) (JS.scalarValues s)
  /\ flat_map JS.codeUnits (JS.scalarValues s) = s.
Proof.
  induction s as [| c | c d r IHr IHdr] using jsstring_pair_ind.
  - now split.
  - cbn [isWellFormed JS.scalarValues].
    destruct (JS.isHighSurrogate c) eqn:Hc; [discriminate|].
    destruct (JS.isLowSurrogate c) eqn:Hl; [discriminate|].
    cbn [negb andb]. rewrite andb_true_r. intros Hlt.
    destruct (bmp_scalar c Hc Hl Hlt) as [S U].
    split; [now repeat constructor|]. cbn [flat_map]. now rewrite U.
  - destruct (JS.isHighSurrogate c) eqn:Hc.
    + cbn [isWellFormed JS.scalarValues]. rewrite Hc.
      destruct (JS.isLowSurrogate d) eqn:Hd; cbn [andb]; [|discriminate].
      intros Hr. destruct (IHr Hr) as [F E].
      destruct (pair_scalar c d Hc Hd) as [S U].
      split; [now constructor|]. cbn [flat_map]. now rewrite U, E.
    + remember (d :: r) as t eqn:Et.
      cbn [isWellFormed JS.scalarValues]. rewrite Hc.
      destruct (JS.isLowSurrogate c) eqn:Hl; cbn [negb andb]; [discriminate|].
      destruct (c <? 0x10000) eqn:Hlt; cbn [andb]; [|discriminate].
      intros Hdr. destruct (IHdr Hdr) as [F E].
      destruct (bmp_scalar c Hc Hl Hlt) as [S U].
      split; [now constructor|]. cbn [flat_map]. now rewrite U, E.
Qed.

Lemma stripBOM_scalarValues s :
  startsWithBOM s = false -> JS.stripBOM (JS.scalarValues s) = JS.scalarValues s.
Proof.
  destruct s as [|c t]; [reflexivity|].
  intros H. cbn [JS.scalarValues].
  destruct (JS.isHighSurrogate c) eqn:Hc.
  - destruct t as [|d r]; [reflexivity|].
    destruct (JS.isLowSurrogate d) eqn:Hd; [|reflexivity].
    unfold JS.stripBOM.
    unfold JS.isHighSurrogate in Hc. unfold JS.isLowSurrogate in Hd.
    apply andb_prop in Hc as [Hc1 Hc2]. apply andb_prop in Hd as [Hd1 Hd2].
    apply N.leb_le in Hc1, Hc2, Hd1, Hd2.
    destruct (N.eq_dec (65536 + (c - 55296) * 1024 + (d - 56320)) 0xFEFF) as [E|E]; [lia|].
    destruct (65536 + (c - 55296) * 1024 + (d - 56320)) as [|p]; [reflexivity|].
    repeat (destruct p as [p|p|]; try reflexivity). congruence.
  - destruct (JS.isLowSurrogate c) eqn:Hl; [reflexivity|].
    unfold startsWithBOM in H. unfold JS.stripBOM.
    destruct c as [|p]; [reflexivity|].
    repeat (destruct p as [p|p|]; try reflexivity; try discriminate).
Qed.

(** [TextDecoder] gives back every well-formed string that does not start
    with a byte order mark. *)
Lemma TextDecoder_TextEncoder (s : jsstring) :
  isWellFormed s = true -> startsWithBOM s = false ->
  JS.TextDecoder_decode (JS.TextEncoder_encode s) = s.
Proof.
  intros Hwf Hbom. unfold JS.TextDecoder_decode, JS.TextEncoder_encode.
  destruct (wellFormed_text s Hwf) as [F E].
  rewrite utf8Decode_encode by exact F.
  rewrite stripBOM_scalarValues by exact Hbom. exact E.
Qed.

(* ================================================================= *)
(** ** [EncryptionHelper] *)

Lemma getKey_cached h key st :
  deriveKey h = inr key -> keyCached h st ->
  getKey h st = ({| keyPromise := Some (inr key); draws := draws st |}, inr key).
Proof.
  intros Hk [Hc|Hc]; unfold getKey; rewrite Hc, ?Hk; [reflexivity|].
  destruct st as [kp d]. cbn in *. now rewrite Hc, Hk.
Qed.

Lemma keyCached_after h key d :
  deriveKey h = inr key -> keyCached h {| keyPromise := Some (inr key); draws := d |}.
Proof. intros Hk. right. cbn. now rewrite Hk. Qed.

Lemma encrypt_result h key data st :
  cipherWorks h key -> keyCached h st ->
  exists ct,
    let iv := getRandomValues (crypto h) (draws st) 12 in
    subtle_encrypt (crypto h) iv key (JS.TextEncoder_encode data) = inr ct
    /\ ct <> [] /\ iv <> []
    /\ subtle_decrypt (crypto h) iv key (Some ct) = inr (JS.TextEncoder_encode data)
    /\ encrypt h data st
       = ({| keyPromise := Some (inr key); draws := S (draws st) |},
          inr (toHexString iv ++ js "|" ++ toHexString ct)).
Proof.
  intros (Hk & Hrand & Hseal) Hc.
  destruct (Hseal (getRandomValues (crypto h) (draws st) 12) (JS.TextEncoder_encode data)
              (Hrand _ _)) as (ct & He & Hne & Hd).
  exists ct. cbn zeta. repeat split; try assumption.
  - intros E. pose proof (Hrand (draws st) 12%nat) as L. rewrite E in L. discriminate.
  - unfold encrypt, bind. rewrite (getKey_cached h key st Hk Hc).
    unfold randomBytes, await, ret. cbn [keyPromise draws]. now rewrite He.
Qed.

Lemma decrypt_hex h key iv ct st :
  deriveKey h = inr key -> keyCached h st -> iv <> [] -> ct <> [] ->
  snd (decrypt h (toHexString iv ++ js "|" ++ toHexString ct) st)
  = match subtle_decrypt (crypto h) iv key (Some ct) with
    | inr m => inr (JS.TextDecoder_decode m)
    | inl e => inl (DecryptionError (js "Could not decrypt: " ++ describe e))
    end.
Proof.
  intros Hk Hc Hiv Hct. unfold decrypt, try_catch, bind.
  rewrite (getKey_cached h key st Hk Hc).
  change (js "|" ++ toHexString ct) with (0x7C :: toHexString ct).
  rewrite split_two by apply toHexString_no_bar.
  unfold await. cbn [mapR bindR].
  rewrite !fromHexString_toHexString by assumption.
  cbv beta iota delta [bindR hd_error].
  destruct (subtle_decrypt (crypto h) iv key (Some ct)); reflexivity.
Qed.

(** Whatever the string, decrypting its encryption gives what
    [TextDecoder] makes of its UTF-8 encoding. *)
Lemma decrypt_encrypt_text h key data st :
  cipherWorks h key -> keyCached h st ->
  exists c st1,
    encrypt h data st = (st1, inr c)
    /\ keyCached h st1
    /\ snd (decrypt h c st1) = inr (JS.TextDecoder_decode (JS.TextEncoder_encode data)).
Proof.
  intros Hw Hc. destruct (encrypt_result h key data st Hw Hc) as (ct & He & Hne & Hiv & Hd & Henc).
  cbn zeta in *. destruct Hw as (Hk & _).
  eexists _, _. split; [exact Henc|]. split; [now apply keyCached_after|].
  rewrite (decrypt_hex h key _ ct _ Hk (keyCached_after h key _ Hk) Hiv Hne).
  now rewrite Hd.
Qed.

(** *** The stand-in cipher is a cipher *)

Lemma to_N_u8_mod (n : N) : Byte.to_N (u8 n) = n mod 256.
Proof.
  unfold u8. destruct (Byte.of_N (n mod 256)) eqn:E.
  - now apply Byte.to_of_N.
  - apply Byte.of_N_None_iff in E. lia.
Qed.

Lemma u8_mod (n : N) : u8 (n mod 256) = u8 n.
Proof. unfold u8. now rewrite N.Div0.mod_mod. Qed.

Lemma Toy_unmask (k : N) (b : byte) :
  k < 256 -> u8 (Byte.to_N (u8 (Byte.to_N b + k)) + 256 - k) = b.
Proof.
  intros Hk. rewrite to_N_u8_mod. rewrite <- u8_mod.
  pose proof (Byte.to_N_bounded b) as Hb.
  replace (((Byte.to_N b + k) mod 256 + 256 - k) mod 256) with (Byte.to_N b) by lia.
  apply u8_to_N.
Qed.

Lemma Toy_open_seal iv key m :
  exists ct, Toy.seal iv key m = inr ct /\ ct <> []
             /\ Toy.open iv key (Some ct) = inr m.
Proof.
  unfold Toy.seal, Toy.open. eexists. split; [reflexivity|]. split.
  - intros E. apply app_eq_nil in E as [_ E]. discriminate.
  - rewrite rev_app_distr. cbn [rev app]. rewrite rev_involutive, map_map.
    assert (Hk : Toy.stream key iv < 256) by (unfold Toy.stream; lia).
    replace (map _ m) with m.
    + now rewrite (Byte.byte_dec_lb (eq_refl (Toy.tag (Toy.stream key iv) m))).
    + rewrite <- (map_id m) at 1. apply map_ext. intros b. symmetry. now apply Toy_unmask.
Qed.

Lemma Toy_cipherWorks pass mode :
  exists key, cipherWorks (Toy.helper pass mode) key.
Proof.
  assert (exists key, deriveKey (Toy.helper pass mode) = inr key) as [key Hk]
    by (destruct mode; eexists; reflexivity).
  exists key. split; [exact Hk|]. split.
  - intros d n. cbn. now rewrite length_map, length_seq.
  - intros iv m _. apply Toy_open_seal.
Qed.


(* ================================================================= *)
(** ** C1: round trip *)

(** C1, as amended.  For every [EncryptionHelper] (either passphrase
    mode) over a working cipher, and every string that is well formed
    (no unpaired surrogate) and does not start with U+FEFF: decrypting
    the result of encrypting the string, on the same instance, resolves
    with the string. *)
Theorem decrypt_encrypt_round_trip h key data st :
  cipherWorks h key -> keyCached h st ->
  isWellFormed data = true -> startsWithBOM data = false ->
  snd (decrypt_encrypt h data st) = inr data.
Proof.
  intros Hw Hc Hwf Hbom.
  destruct (decrypt_encrypt_text h key data st Hw Hc) as (c & st1 & He & _ & Hd).
  unfold decrypt_encrypt, bind. rewrite He, Hd.
  now rewrite TextDecoder_TextEncoder.
Qed.

Lemma decrypt_encrypt_round_trip_witness :
  exists key,
    cipherWorks (Toy.helper "p1" raw) key
    /\ keyCached (Toy.helper "p1" raw) newHelperState
    /\ isWellFormed (js "{}" ++ [0xE9; 0xD83D; 0xDE00]) = true
    /\ startsWithBOM (js "{}" ++ [0xE9; 0xD83D; 0xDE00]) = false
    /\ snd (decrypt_encrypt (Toy.helper "p1" raw) (js "{}" ++ [0xE9; 0xD83D; 0xDE00])
              newHelperState)
       = inr (js "{}" ++ [0xE9; 0xD83D; 0xDE00]).
Proof.
  destruct (Toy_cipherWorks "p1" raw) as [key Hw]. exists key.
  assert (Hc : keyCached (Toy.helper "p1" raw) newHelperState) by (left; reflexivity).
  assert (Hwf : isWellFormed (js "{}" ++ [0xE9; 0xD83D; 0xDE00]) = true) by reflexivity.
  assert (Hb : startsWithBOM (js "{}" ++ [0xE9; 0xD83D; 0xDE00]) = false) by reflexivity.
  repeat (split; [assumption|]).
  exact (decrypt_encrypt_round_trip _ key _ _ Hw Hc Hwf Hb).
Defined.

(** C1 as stated fails: a leading byte order mark is dropped by
    [TextDecoder], and an unpaired surrogate is replaced by U+FFFD by
    [TextEncoder]. *)
Lemma round_trip_loses_byte_order_mark :
  snd (decrypt_encrypt (Toy.helper "p1" derive) (0xFEFF :: js "a") newHelperState)
  = inr (js "a")
  /\ snd (decrypt_encrypt (Toy.helper "p1" raw) [0xD800] newHelperState)
     = inr [0xFFFD].
Proof. split; vm_compute; reflexivity. Qed.

(** The same on every instance over a working cipher. *)
Lemma decrypt_encrypt_is_the_text_codec h key data st :
  cipherWorks h key -> keyCached h st ->
  snd (decrypt_encrypt h data st)
  = inr (JS.TextDecoder_decode (JS.TextEncoder_encode data)).
Proof.
  intros Hw Hc.
  destruct (decrypt_encrypt_text h key data st Hw Hc) as (c & st1 & He & _ & Hd).
  unfold decrypt_encrypt, bind. now rewrite He, Hd.
Qed.

(* ================================================================= *)
(** ** C3: failures of [decrypt] *)





(** The cases of C3 that do fail, on the stand-in cipher: the empty
    string, another passphrase, a tampered tag. *)
Example decrypt_failures_example :
  (exists m, snd (decrypt (Toy.helper "p1" derive) [] newHelperState) = inl (DecryptionError m))
  /\ (exists m, snd (decrypt (Toy.helper "p2" derive) (js "000102030405060708090a0b|babbc0")
                       newHelperState) = inl (DecryptionError m))
  /\ (exists m, snd (decrypt (Toy.helper "p1" derive) (js "000102030405060708090a0b|babbc1")
                       newHelperState) = inl (DecryptionError m)).
Proof. repeat split; eexists; vm_compute; reflexivity. Qed.

(* ================================================================= *)
(** ** What the methods of the helper leave behind *)

Lemma getKey_run h st :
  keyCached h st -> getKey h st = (cacheKey h st, deriveKey h).
Proof.
  intros [Hc|Hc]; unfold getKey, cacheKey; rewrite Hc; [reflexivity|].
  destruct st as [kp dr]; cbn in *. now subst.
Qed.

Lemma keyCached_cacheKey h st : keyCached h (cacheKey h st).
Proof. now right. Qed.

Lemma decrypt_run h data st :
  keyCached h st -> decrypt h data st = (cacheKey h st, decryptOutcome h data).
Proof.
  intros Hc. unfold decrypt, try_catch, bind, await, throw, ret, decryptOutcome.
  rewrite (getKey_run h st Hc).
  destruct (deriveKey h) as [e|key]; [reflexivity|].
  destruct (mapR fromHexString (JS.split 0x7C data)) as [e|[|iv rest]]; [reflexivity..|].
  destruct (subtle_decrypt (crypto h) iv key (hd_error rest)); reflexivity.
Qed.

Lemma decryptField_run h data st :
  keyCached h st -> decryptField h data st = (cacheKey h st, decryptFieldOutcome h data).
Proof.
  intros Hc. destruct data as [s|]; [now apply decrypt_run|].
  unfold decryptField, try_catch, bind, throw, decryptFieldOutcome.
  rewrite (getKey_run h st Hc). destruct (deriveKey h); reflexivity.
Qed.


(* ================================================================= *)
(** ** [EncryptedPouch]: how the methods run *)

Lemma bind_ok {S A B} (m : M S A) (k : A -> M S B) s s1 a :
  m s = (s1, inr a) -> bind m k s = k a s1.
Proof. intros E. unfold bind. now rewrite E. Qed.

Lemma bind_throws {S A B} (m : M S A) (k : A -> M S B) s s1 e :
  m s = (s1, inl e) -> bind m k s = (s1, inl e).
Proof. intros E. unfold bind. now rewrite E. Qed.

Lemma try_catch_ok {S A} (m : M S A) handler s s1 a :
  m s = (s1, inr a) -> try_catch m handler s = (s1, inr a).
Proof. intros E. unfold try_catch. now rewrite E. Qed.

Lemma try_catch_throws {S A} (m : M S A) handler s s1 e :
  m s = (s1, inl e) -> try_catch m handler s = handler e s1.
Proof. intros E. unfold try_catch. now rewrite E. Qed.

Lemma onWorld_run {W L A} (m : M W A) (w w1 : W) (l : L) r :
  m w = (w1, r) -> onWorld m (w, l) = ((w1, l), r).
Proof. intros E. unfold onWorld. cbn [fst snd]. now rewrite E. Qed.

Section Runs.

Variable JSON_parse : jsstring -> result jsvalue.
Variable this : EncryptedPouch.

Let h := encryptionHelper this.

Lemma reaches_refl w : keyCached h (helperState w) -> reaches this w [] w.
Proof. intros Hk. unfold reaches. rewrite app_nil_r. auto 10. Qed.

Lemma reaches_trans w evs1 w1 evs2 w2 :
  reaches this w evs1 w1 -> reaches this w1 evs2 w2 -> reaches this w (evs1 ++ evs2) w2.
Proof.
  unfold reaches. intros (T1 & K1 & A1 & B1 & C1 & D1 & E1) (T2 & K2 & A2 & B2 & C2 & D2 & E2).
  rewrite T2, T1, app_assoc. repeat split; congruence.
Qed.

Lemma reaches_keyCached w evs w1 : reaches this w evs w1 -> keyCached h (helperState w1).
Proof. now intros (_ & K & _). Qed.

Lemma reaches_log w e : keyCached h (helperState w) -> reaches this w [e] (log e w).
Proof. intros Hk. unfold reaches. cbn. auto 10. Qed.

Lemma decryptDoc_run encryptedDoc w :
  keyCached h (helperState w) ->
  exists w1, decryptDoc JSON_parse this encryptedDoc w
             = (w1, decryptDocOutcome JSON_parse this encryptedDoc)
             /\ reaches this w [] w1.
Proof.
  intros Hk. unfold decryptDoc, decryptDocOutcome.
  destruct (parseFullId (_id encryptedDoc)) as [parsed|].
  - exists (set_helperState (fun _ => cacheKey h (helperState w)) w). split.
    + unfold bind, onHelper. fold h. rewrite (decryptField_run h _ _ Hk).
      destruct (decryptFieldOutcome h (d encryptedDoc)) as [e|plaintext]; [reflexivity|].
      cbn [bindR]. unfold await.
      destruct (JSON_parse plaintext); reflexivity.
    + unfold reaches. cbn. rewrite app_nil_r. repeat split; try reflexivity.
      apply keyCached_cacheKey.
  - exists w. split; [reflexivity | now apply reaches_refl].
Qed.

Lemma call_returns w e :
  keyCached h (helperState w) ->
  call e None w = (log e w, inr tt) /\ reaches this w [e] (log e w).
Proof. intros Hk. split; [reflexivity | now apply reaches_log]. Qed.

Lemma reportErrors_run errs w :
  listenerReturns (listener this) -> keyCached h (helperState w) ->
  exists w1, reportErrors this errs w = (w1, inr tt)
             /\ reaches this w (errorNotice this errs) w1.
Proof.
  intros (_ & _ & _ & Herr) Hk. unfold reportErrors, errorNotice.
  destruct (onError (listener this)) as [callback|] eqn:E.
  - destruct errs as [|e errs]; cbn [nonEmpty].
    + exists w. split; [reflexivity | now apply reaches_refl].
    + rewrite (Herr callback eq_refl). eexists. apply call_returns, Hk.
  - exists w. split; [reflexivity | now apply reaches_refl].
Qed.

Lemma reportConflicts_run cs w :
  listenerReturns (listener this) -> keyCached h (helperState w) ->
  exists w1, reportConflicts this cs w = (w1, inr tt)
             /\ reaches this w (conflictNotice this cs) w1.
Proof.
  intros (_ & _ & Hc & _) Hk. unfold reportConflicts, conflictNotice.
  destruct (onConflict (listener this)) as [callback|] eqn:E.
  - destruct cs as [|c cs]; cbn [nonEmpty].
    + exists w. split; [reflexivity | now apply reaches_refl].
    + rewrite (Hc callback eq_refl). eexists. apply call_returns, Hk.
  - exists w. split; [reflexivity | now apply reaches_refl].
Qed.

End Runs.

(** *** Conflict reconstruction and the bulk scan *)

Lemma jsstring_eqb_spec a b : reflect (a = b) (jsstring_eqb a b).
Proof. unfold jsstring_eqb. destruct (list_eq_dec N.eq_dec a b); now constructor. Qed.

Lemma jsstring_eqb_refl a : jsstring_eqb a a = true.
Proof. now destruct (jsstring_eqb_spec a a). Qed.

Lemma pushByTable_old t doc m :
  In t (map table m) -> map table (pushByTable t doc m) = map table m.
Proof.
  induction m as [|b m IH]; [intros []|]. cbn [pushByTable map].
  destruct (jsstring_eqb_spec t (table b)) as [->|Hne]; [reflexivity|].
  intros [E|Hin]; [congruence|]. cbn [map]. now rewrite IH.
Qed.

Lemma pushByTable_new t doc m :
  ~ In t (map table m) -> map table (pushByTable t doc m) = map table m ++ [t].
Proof.
  induction m as [|b m IH]; [reflexivity|]. cbn [pushByTable map]. intros Hn.
  destruct (jsstring_eqb_spec t (table b)) as [->|Hne]; [exfalso; apply Hn; now left|].
  cbn [map app]. rewrite IH; [reflexivity|]. intros Hin. apply Hn. now right.
Qed.

Lemma pushByTable_count t doc m :
  documentCount (pushByTable t doc m) = S (documentCount m).
Proof.
  unfold documentCount. induction m as [|b m IH]; [reflexivity|]. cbn [pushByTable].
  destruct (jsstring_eqb t (table b)); cbn [map docs];
    change (list_sum (?x :: ?l)) with (x + list_sum l)%nat.
  - rewrite length_app. cbn [List.length]. lia.
  - rewrite IH. lia.
Qed.

Lemma pushByTable_delivers t doc m : delivered t doc (pushByTable t doc m).
Proof.
  induction m as [|b m (b' & I & T & D)]; cbn [pushByTable].
  - eexists. split; [now left|]. split; [reflexivity | now left].
  - destruct (jsstring_eqb_spec t (table b)) as [->|Hne].
    + eexists. split; [now left|]. split; [reflexivity|]. cbn. apply in_or_app. right. now left.
    + exists b'. split; [now right | auto].
Qed.

Lemma pushByTable_keeps t doc t' doc' m :
  delivered t' doc' m -> delivered t' doc' (pushByTable t doc m).
Proof.
  intros (b' & I & T & D). induction m as [|b m IH]; [destruct I|]. cbn [pushByTable].
  destruct I as [->|I].
  - destruct (jsstring_eqb t (table b')).
    + eexists. split; [now left|]. split; [exact T|]. cbn. apply in_or_app. now left.
    + exists b'. split; [now left | auto].
  - destruct (IH I) as (b2 & I2 & T2 & D2).
    destruct (jsstring_eqb t (table b)).
    + exists b'. split; [now right | auto].
    + exists b2. split; [now right | auto].
Qed.

Lemma pushPair_fold xs m0 :
  NoDup (map table m0) ->
  let m := fold_left pushPair xs m0 in
  NoDup (map table m)
  /\ (forall t, In t (map table m) <-> In t (map table m0) \/ In t (map fst xs))
  /\ documentCount m = (documentCount m0 + List.length xs)%nat
  /\ (forall t doc, delivered t doc m0 \/ In (t, doc) xs -> delivered t doc m).
Proof.
  revert m0. induction xs as [|[t doc] xs IH]; intros m0 Hnd; cbn zeta.
  - cbn. repeat split; auto; try tauto; try lia; intros t doc [H|[]]; exact H.
  - cbn [fold_left]. unfold pushPair at 2 4 6 8. cbn [fst snd].
    assert (Hnd' : NoDup (map table (pushByTable t doc m0))).
    { destruct (in_dec (list_eq_dec N.eq_dec) t (map table m0)) as [Hin|Hn].
      - now rewrite pushByTable_old.
      - rewrite pushByTable_new by assumption. apply NoDup_app; auto.
        + repeat constructor. intros [].
        + intros x Hx [<-|[]]. contradiction. }
    destruct (IH _ Hnd') as (N1 & I1 & C1 & D1). cbn zeta in *.
    split; [exact N1|]. split; [|split].
    + intros x. rewrite I1. cbn [map fst In].
      destruct (in_dec (list_eq_dec N.eq_dec) t (map table m0)) as [Hin|Hn].
      * rewrite pushByTable_old by assumption. split; [tauto|].
        intros [H|[<-|H]]; auto.
      * rewrite pushByTable_new by assumption. rewrite in_app_iff. cbn [In]. tauto.
    + rewrite C1, pushByTable_count. cbn [List.length]. lia.
    + intros t' doc' [H|[E|H]]; apply D1.
      * left. now apply pushByTable_keeps.
      * inversion E; subst. left. apply pushByTable_delivers.
      * now right.
Qed.

(** The batches made of the documents [xs]: one per distinct table, and
    every document in the batch of its table. *)
Lemma batches_of xs :
  let m := fold_left pushPair xs [] in
  List.length m = List.length (distinctTables xs)
  /\ documentCount m = List.length xs
  /\ (forall t doc, In (t, doc) xs -> delivered t doc m)
  /\ (m = [] <-> xs = []).
Proof.
  destruct (pushPair_fold xs [] (NoDup_nil _)) as (Hnd & Hin & Hc & Hd). cbn zeta in *.
  split; [|split; [|split]].
  - rewrite <- (length_map table). unfold distinctTables.
    apply Nat.le_antisymm; apply NoDup_incl_length;
      try assumption; try apply NoDup_nodup; intros x Hx.
    + apply nodup_In. apply Hin in Hx. destruct Hx as [[]|Hx]. exact Hx.
    + apply Hin. right. now apply nodup_In in Hx.
  - exact Hc.
  - intros t doc H. apply Hd. now right.
  - split; intros E.
    + rewrite E in Hc. cbn in Hc. destruct xs; [reflexivity | discriminate].
    + subst. reflexivity.
Qed.

Section ConflictRuns.

Variable JSON_parse : jsstring -> result jsvalue.
Variable this : EncryptedPouch.

Let h := encryptionHelper this.

Lemma buildConflictInfo_rev_run fullId rev w l :
  keyCached h (helperState w) ->
  exists w1, buildConflictInfo_rev JSON_parse this fullId rev (w, l)
             = ((w1, conflictStep JSON_parse this fullId l rev), inr tt)
             /\ reaches this w [] w1.
Proof.
  intros Hk. unfold buildConflictInfo_rev, conflictStep, revisionOutcome.
  destruct (db_get (db this) fullId (Some rev)) as [e|conflictDoc] eqn:G.
  - exists w. split; [|now apply reaches_refl].
    unfold try_catch, bind, onWorld, await. cbn [fst snd]. reflexivity.
  - destruct (decryptDoc_run JSON_parse this conflictDoc w Hk) as (w1 & E & R).
    exists w1. split; [|exact R].
    unfold try_catch, bind, onWorld, await. cbn [fst snd bindR]. rewrite E.
    destruct (decryptDocOutcome JSON_parse this conflictDoc); reflexivity.
Qed.

Lemma conflictLoop_run fullId revs w l :
  keyCached h (helperState w) ->
  exists w1, forEach revs (buildConflictInfo_rev JSON_parse this fullId) (w, l)
             = ((w1, fold_left (conflictStep JSON_parse this fullId) revs l), inr tt)
             /\ reaches this w [] w1.
Proof.
  revert w l. induction revs as [|rev revs IH]; intros w l Hk.
  - exists w. split; [reflexivity | now apply reaches_refl].
  - destruct (buildConflictInfo_rev_run fullId rev w l Hk) as (w1 & E1 & R1).
    destruct (IH w1 (conflictStep JSON_parse this fullId l rev) (reaches_keyCached _ _ _ _ R1))
      as (w2 & E2 & R2).
    exists w2. split.
    + cbn [forEach fold_left]. now rewrite (bind_ok _ _ _ _ _ E1).
    + exact (reaches_trans _ _ _ _ _ _ R1 R2).
Qed.

Lemma conflictStep_fold fullId revs l :
  let l' := fold_left (conflictStep JSON_parse this fullId) revs l in
  found l' = found l ++ recoveredLosers JSON_parse this fullId revs
  /\ errors l' = errors l ++ lostRevisions JSON_parse this fullId revs
  /\ docsByTable l' = docsByTable l
  /\ conflicts l' = conflicts l.
Proof.
  revert l. induction revs as [|rev revs IH]; intros l; cbn zeta.
  - cbn. now rewrite !app_nil_r.
  - cbn [fold_left recoveredLosers lostRevisions flat_map].
    destruct (IH (conflictStep JSON_parse this fullId l rev)) as (F & E & D & C).
    cbn zeta in *. rewrite F, E, D, C. unfold conflictStep.
    destruct (revisionOutcome JSON_parse this fullId rev); cbn; rewrite <- ?app_assoc; auto.
Qed.

Lemma buildConflictInfo_run encryptedDoc parsed winnerDoc w :
  parseFullId (_id encryptedDoc) = Some parsed ->
  listenerReturns (listener this) ->
  keyCached h (helperState w) ->
  exists w1,
    buildConflictInfo JSON_parse this (_id encryptedDoc) (_rev encryptedDoc)
      (conflictsOf (_conflicts encryptedDoc)) winnerDoc w
    = (w1, inr (conflictInfoOf JSON_parse this encryptedDoc parsed winnerDoc))
    /\ reaches this w
         (errorNotice this (lostRevisions JSON_parse this (_id encryptedDoc)
                              (conflictsOf (_conflicts encryptedDoc)))) w1.
Proof.
  intros Hp Hl Hk. unfold buildConflictInfo. rewrite Hp.
  destruct (conflictLoop_run (_id encryptedDoc) (conflictsOf (_conflicts encryptedDoc)) w noLocals Hk)
    as (w1 & E1 & R1).
  destruct (conflictStep_fold (_id encryptedDoc) (conflictsOf (_conflicts encryptedDoc)) noLocals)
    as (F & E & _ & _). cbn zeta in F, E. cbn [noLocals found errors app] in F, E.
  destruct (reportErrors_run this (lostRevisions JSON_parse this (_id encryptedDoc)
              (conflictsOf (_conflicts encryptedDoc))) w1 Hl (reaches_keyCached _ _ _ _ R1))
    as (w2 & E2 & R2).
  exists w2. split.
  - unfold bind at 1. unfold withLocals.
    rewrite E1. rewrite E. unfold bind. rewrite E2. unfold ret, conflictInfoOf. now rewrite F.
  - exact (reaches_trans _ _ _ _ _ _ R1 R2).
Qed.

(** The same runs, whatever [onError] does. *)
Lemma reportErrors_outcome errs w :
  keyCached h (helperState w) ->
  exists w1,
    reportErrors this errs w
    = (w1, match reportThrows this errs with
           | None => inr tt
           | Some e => inl e
           end)
    /\ reaches this w (errorNotice this errs) w1.
Proof.
  intros Hk. unfold reportErrors, reportThrows, errorNotice.
  destruct (onError (listener this)) as [callback|].
  - destruct (nonEmpty errs).
    + exists (log (called_onError errs) w). split; [|now apply reaches_log].
      unfold call, bind, emit, modify. now destruct (callback errs).
    + exists w. split; [reflexivity | now apply reaches_refl].
  - exists w. split; [reflexivity | now apply reaches_refl].
Qed.

Lemma buildConflictInfo_outcome encryptedDoc parsed winnerDoc w :
  parseFullId (_id encryptedDoc) = Some parsed ->
  keyCached h (helperState w) ->
  let lost := lostRevisions JSON_parse this (_id encryptedDoc)
                (conflictsOf (_conflicts encryptedDoc)) in
  exists w1,
    buildConflictInfo JSON_parse this (_id encryptedDoc) (_rev encryptedDoc)
      (conflictsOf (_conflicts encryptedDoc)) winnerDoc w
    = (w1, match reportThrows this lost with
           | None => inr (conflictInfoOf JSON_parse this encryptedDoc parsed winnerDoc)
           | Some e => inl e
           end)
    /\ reaches this w (errorNotice this lost) w1.
Proof.
  intros Hp Hk lost. unfold buildConflictInfo. rewrite Hp.
  destruct (conflictLoop_run (_id encryptedDoc) (conflictsOf (_conflicts encryptedDoc)) w noLocals Hk)
    as (w1 & E1 & R1).
  destruct (conflictStep_fold (_id encryptedDoc) (conflictsOf (_conflicts encryptedDoc)) noLocals)
    as (F & E & _ & _). cbn zeta in F, E. cbn [noLocals found errors app] in F, E.
  destruct (reportErrors_outcome lost w1 (reaches_keyCached _ _ _ _ R1)) as (w2 & E2 & R2).
  exists w2. split.
  - unfold bind at 1. unfold withLocals.
    rewrite E1. rewrite E. fold lost. unfold bind. rewrite E2.
    destruct (reportThrows this lost); [reflexivity|].
    unfold ret, conflictInfoOf. now rewrite F.
  - exact (reaches_trans _ _ _ _ _ _ R1 R2).
Qed.



Lemma decryptDocOutcome_parsed encryptedDoc doc :
  decryptDocOutcome JSON_parse this encryptedDoc = inr doc ->
  exists parsed, parseFullId (_id encryptedDoc) = Some parsed.
Proof.
  unfold decryptDocOutcome. destruct (parseFullId (_id encryptedDoc)); [eauto | discriminate].
Qed.

Lemma loadAll_row_run row w l :
  listenerReturns (listener this) ->
  keyCached h (helperState w) ->
  exists w1, loadAll_row JSON_parse this row (w, l)
             = ((w1, loadStep JSON_parse this l row), inr tt)
             /\ reaches this w (loadEvents JSON_parse this row) w1.
Proof.
  intros Hl Hk. unfold loadAll_row, loadStep, loadEvents, scanned.
  destruct (row_doc row) as [encryptedDoc|];
    [|exists w; split; [reflexivity | now apply reaches_refl]].
  destruct (isDesign (row_id row));
    [exists w; split; [reflexivity | now apply reaches_refl]|].
  destruct (hasPayload encryptedDoc);
    [|exists w; split; [reflexivity | now apply reaches_refl]].
  destruct (decryptDoc_run JSON_parse this encryptedDoc w Hk) as (w1 & E1 & R1).
  destruct (decryptDocOutcome JSON_parse this encryptedDoc) as [e|doc] eqn:O.
  - exists w1. split; [|exact R1].
    unfold try_catch, bind. rewrite (onWorld_run _ _ _ _ _ E1). reflexivity.
  - destruct (decryptDocOutcome_parsed _ _ O) as [parsed Hp]. rewrite Hp.
    destruct (hasConflicts (_conflicts encryptedDoc)).
    + destruct (buildConflictInfo_run encryptedDoc parsed doc w1 Hp Hl
                  (reaches_keyCached _ _ _ _ R1)) as (w2 & E2 & R2).
      exists w2. split; [|exact (reaches_trans _ _ _ _ _ _ R1 R2)].
      unfold try_catch, bind. rewrite (onWorld_run _ _ _ _ _ E1).
      unfold onLocals at 1. cbn [fst snd].
      rewrite (onWorld_run _ _ _ _ _ E2). reflexivity.
    + exists w1. split; [|exact R1].
      unfold try_catch, bind. rewrite (onWorld_run _ _ _ _ _ E1). reflexivity.
Qed.

Lemma loadAll_loop_run rows w l :
  listenerReturns (listener this) ->
  keyCached h (helperState w) ->
  exists w1, forEach rows (loadAll_row JSON_parse this) (w, l)
             = ((w1, fold_left (loadStep JSON_parse this) rows l), inr tt)
             /\ reaches this w (flat_map (loadEvents JSON_parse this) rows) w1.
Proof.
  intros Hl. revert w l. induction rows as [|row rows IH]; intros w l Hk.
  - exists w. split; [reflexivity | now apply reaches_refl].
  - destruct (loadAll_row_run row w l Hl Hk) as (w1 & E1 & R1).
    destruct (IH w1 (loadStep JSON_parse this l row) (reaches_keyCached _ _ _ _ R1))
      as (w2 & E2 & R2).
    exists w2. split.
    + cbn [forEach fold_left]. now rewrite (bind_ok _ _ _ _ _ E1).
    + exact (reaches_trans _ _ _ _ _ _ R1 R2).
Qed.

Lemma loadStep_fold rows l :
  let l' := fold_left (loadStep JSON_parse this) rows l in
  docsByTable l' = fold_left pushPair (flat_map (decryptable JSON_parse this) rows) (docsByTable l)
  /\ errors l' = errors l ++ flat_map (undecryptable JSON_parse this) rows
  /\ conflicts l' = conflicts l ++ flat_map (conflicted JSON_parse this) rows
  /\ found l' = found l.
Proof.
  revert l. induction rows as [|row rows IH]; intros l; cbn zeta.
  - cbn. now rewrite !app_nil_r.
  - cbn [fold_left flat_map].
    destruct (IH (loadStep JSON_parse this l row)) as (D & E & C & F).
    cbn zeta in *. rewrite D, E, C, F. rewrite fold_left_app.
    unfold loadStep, decryptable, undecryptable, conflicted.
    destruct (scanned row) as [encryptedDoc|]; [|cbn; rewrite ?app_nil_r; auto].
    destruct (decryptDocOutcome JSON_parse this encryptedDoc) as [e|doc] eqn:O.
    + cbn. rewrite <- ?app_assoc, ?app_nil_r. auto.
    + destruct (decryptDocOutcome_parsed _ _ O) as [parsed Hp]. rewrite Hp.
      destruct (hasConflicts (_conflicts encryptedDoc)); cbn;
        rewrite <- ?app_assoc, ?app_nil_r; auto.
Qed.

End ConflictRuns.


Lemma changeCalls_app a b : changeCalls (a ++ b) = changeCalls a ++ changeCalls b.
Proof. apply flat_map_app. Qed.

Lemma errorCalls_app a b : errorCalls (a ++ b) = errorCalls a ++ errorCalls b.
Proof. apply flat_map_app. Qed.

Lemma conflictCalls_app a b : conflictCalls (a ++ b) = conflictCalls a ++ conflictCalls b.
Proof. apply flat_map_app. Qed.

Lemma deleteCalls_app a b : deleteCalls (a ++ b) = deleteCalls a ++ deleteCalls b.
Proof. apply flat_map_app. Qed.

Lemma errorNotice_calls this errs :
  changeCalls (errorNotice this errs) = []
  /\ conflictCalls (errorNotice this errs) = []
  /\ deleteCalls (errorNotice this errs) = []
  /\ errorCalls (errorNotice this errs)
     = match onError (listener this) with
       | Some _ => if nonEmpty errs then [errs] else []
       | None => []
       end.
Proof.
  unfold errorNotice. destruct (onError (listener this)); [|now repeat split].
  destruct (nonEmpty errs); now repeat split.
Qed.

Lemma conflictNotice_calls this cs :
  changeCalls (conflictNotice this cs) = []
  /\ errorCalls (conflictNotice this cs) = []
  /\ conflictCalls (conflictNotice this cs)
     = match onConflict (listener this) with
       | Some _ => if nonEmpty cs then [cs] else []
       | None => []
       end.
Proof.
  unfold conflictNotice. destruct (onConflict (listener this)); [|now repeat split].
  destruct (nonEmpty cs); now repeat split.
Qed.

Section LoadRuns.

Variable JSON_parse : jsstring -> result jsvalue.
Variable this : EncryptedPouch.

Let h := encryptionHelper this.

Lemma loadEvents_calls rows :
  changeCalls (flat_map (loadEvents JSON_parse this) rows) = []
  /\ conflictCalls (flat_map (loadEvents JSON_parse this) rows) = [].
Proof.
  induction rows as [|row rows [IH1 IH2]]; [now split|]. cbn [flat_map].
  rewrite changeCalls_app, conflictCalls_app, IH1, IH2, !app_nil_r.
  unfold loadEvents. destruct (scanned row); [|now split].
  destruct (decryptDocOutcome JSON_parse this e); [now split|].
  destruct (hasConflicts (_conflicts e)); [|now split].
  split; apply errorNotice_calls.
Qed.

Lemma setupSubscription_run w :
  keyCached h (helperState w) ->
  setupSubscription w
  = (log (store_changes (handles w))
       (set_changesHandler (Some (handles w)) (set_handles (S (handles w)) w)), inr tt).
Proof. reflexivity. Qed.

Lemma loadAll_run rows w :
  db_allDocs (db this) true = inr rows ->
  listenerReturns (listener this) ->
  keyCached h (helperState w) ->
  let l := fold_left (loadStep JSON_parse this) rows noLocals in
  exists w1,
    loadAll JSON_parse this w = (w1, inr tt)
    /\ changesHandler w1 = Some (handles w)
    /\ trace w1
       = trace w
         ++ (flat_map (loadEvents JSON_parse this) rows
             ++ changeNotice (docsByTable l)
             ++ errorNotice this (errors l)
             ++ conflictNotice this (conflicts l))
         ++ [store_changes (handles w)].
Proof.
  intros Hrows Hl Hk l.
  destruct (loadAll_loop_run JSON_parse this rows w noLocals Hl Hk) as (w1 & E1 & R1).
  fold l in E1.
  assert (exists w2, (if nonEmpty (docsByTable l)
                      then call (called_onChange (docsByTable l))
                             (onChange (listener this) (docsByTable l))
                      else ret tt) w1 = (w2, inr tt)
                     /\ reaches this w1 (changeNotice (docsByTable l)) w2) as (w2 & E2 & R2).
  { unfold changeNotice. destruct (nonEmpty (docsByTable l)).
    - destruct Hl as (Hc & _). rewrite Hc. eexists. apply (call_returns this).
      exact (reaches_keyCached _ _ _ _ R1).
    - exists w1. split; [reflexivity|]. apply reaches_refl. exact (reaches_keyCached _ _ _ _ R1). }
  destruct (reportErrors_run this (errors l) w2 Hl (reaches_keyCached _ _ _ _ R2)) as (w3 & E3 & R3).
  destruct (reportConflicts_run this (conflicts l) w3 Hl (reaches_keyCached _ _ _ _ R3))
    as (w4 & E4 & R4).
  pose proof (reaches_trans _ _ _ _ _ _ R1 (reaches_trans _ _ _ _ _ _ R2
               (reaches_trans _ _ _ _ _ _ R3 R4))) as R.
  destruct R as (T & K & _ & _ & _ & _ & Hh).
  eexists. split; [|split].
  - unfold loadAll. unfold bind at 1. 
    erewrite try_catch_ok.
    2:{ unfold bind at 1. unfold await. rewrite Hrows.
        unfold bind at 1. unfold withLocals. rewrite E1.
        unfold bind at 1. rewrite E2. unfold bind. rewrite E3. exact E4. }
    reflexivity.
  - cbn. now rewrite Hh.
  - cbn. rewrite T, Hh. now rewrite <- app_assoc.
Qed.

End LoadRuns.

Section Claims.

Variable JSON_parse : jsstring -> result jsvalue.
Variable this : EncryptedPouch.

Let h := encryptionHelper this.

Lemma revisions_split fullId revs :
  List.length (recoveredLosers JSON_parse this fullId revs)
  = List.length (filter (revisionDecrypts JSON_parse this fullId) revs)
  /\ List.length (lostRevisions JSON_parse this fullId revs)
     = (List.length revs - List.length (filter (revisionDecrypts JSON_parse this fullId) revs))%nat
  /\ (List.length (filter (revisionDecrypts JSON_parse this fullId) revs) <= List.length revs)%nat.
Proof.
  unfold recoveredLosers, lostRevisions, revisionDecrypts.
  induction revs as [|rev revs (IH1 & IH2 & IH3)]; [now repeat split|].
  cbn [flat_map filter].
  destruct (revisionOutcome JSON_parse this fullId rev); cbn [app List.length]; lia.
Qed.

Lemma losers_in_order fullId revs :
  Forall2 (fun rev loser => revisionOutcome JSON_parse this fullId rev = inr loser)
    (filter (revisionDecrypts JSON_parse this fullId) revs)
    (recoveredLosers JSON_parse this fullId revs)
  /\ Forall2 (fun rev ev =>
                exists e, revisionOutcome JSON_parse this fullId rev = inl e
                          /\ ev = {| ev_docId := fullId ++ js "@" ++ rev;
                                     ev_error := toError e;
                                     ev_rawDoc := {| _id := fullId; _rev := Some rev;
                                                     d := None; _conflicts := None |} |})
       (filter (fun rev => negb (revisionDecrypts JSON_parse this fullId rev)) revs)
       (lostRevisions JSON_parse this fullId revs).
Proof.
  unfold recoveredLosers, lostRevisions, revisionDecrypts.
  induction revs as [|rev revs [IH1 IH2]]; [split; constructor|].
  cbn [filter flat_map].
  destruct (revisionOutcome JSON_parse this fullId rev) as [e|doc] eqn:O; cbn [negb app]; split;
    try assumption; constructor; try assumption; eauto.
Qed.

Lemma reportThrows_notice errs e :
  reportThrows this errs = Some e -> errorNotice this errs = [called_onError errs].
Proof.
  unfold reportThrows, errorNotice. destruct (onError (listener this)); [|discriminate].
  destruct (nonEmpty errs); [reflexivity | discriminate].
Qed.

(** C6, as amended.  For a document whose current version decrypts (to
    [doc]) and that names [M] competing revisions of which [L] can be
    fetched and decrypted: the losers recovered are the [L] decrypted
    revisions, in the order they are named, and the [M - L] failures are
    the argument of one call of [onError], made when there is a failure
    and the callback is registered.  When that call is not made or
    returns, [buildConflictInfo] resolves with the [ConflictInfo] whose
    winner is [doc] and whose losers are these, and [getConflictInfo]
    resolves with the same.  When that call throws, [buildConflictInfo]
    rejects with what it threw -- the call is outside the [try] -- and
    [getConflictInfo] resolves with [null]. *)
Theorem conflict_info_construction encryptedDoc doc w :
  decryptDocOutcome JSON_parse this encryptedDoc = inr doc ->
  keyCached h (helperState w) ->
  let fullId := _id encryptedDoc in
  let revs := conflictsOf (_conflicts encryptedDoc) in
  let decrypts := revisionDecrypts JSON_parse this fullId in
  let L := List.length (filter decrypts revs) in
  let losers := recoveredLosers JSON_parse this fullId revs in
  let lost := lostRevisions JSON_parse this fullId revs in
  List.length losers = L
  /\ List.length lost = (List.length revs - L)%nat
  /\ Forall2 (fun rev loser => revisionOutcome JSON_parse this fullId rev = inr loser)
       (filter decrypts revs) losers
  /\ Forall2 (fun rev ev =>
                exists e, revisionOutcome JSON_parse this fullId rev = inl e
                          /\ ev = {| ev_docId := fullId ++ js "@" ++ rev;
                                     ev_error := toError e;
                                     ev_rawDoc := {| _id := fullId; _rev := Some rev;
                                                     d := None; _conflicts := None |} |})
       (filter (fun rev => negb (decrypts rev)) revs) lost
  /\ (reportThrows this lost = None ->
      exists info,
        ci_winner info = doc
        /\ ci_conflictRevs info = revs
        /\ ci_losers info = losers
        /\ (exists w1,
              buildConflictInfo JSON_parse this fullId (_rev encryptedDoc) revs doc w
              = (w1, inr info)
              /\ trace w1 = trace w ++ errorNotice this lost)
        /\ (forall tbl id,
              db_get (db this) (tbl ++ js "_" ++ id) None = inr encryptedDoc ->
              hasConflicts (_conflicts encryptedDoc) = true ->
              exists w2,
                getConflictInfo JSON_parse this tbl id w = (w2, inr (Some info))
                /\ trace w2 = trace w ++ errorNotice this lost))
  /\ (forall e,
        reportThrows this lost = Some e ->
        (exists w1,
           buildConflictInfo JSON_parse this fullId (_rev encryptedDoc) revs doc w
           = (w1, inl e)
           /\ trace w1 = trace w ++ [called_onError lost])
        /\ (forall tbl id,
              db_get (db this) (tbl ++ js "_" ++ id) None = inr encryptedDoc ->
              hasConflicts (_conflicts encryptedDoc) = true ->
              exists w2,
                getConflictInfo JSON_parse this tbl id w = (w2, inr None)
                /\ trace w2 = trace w ++ [called_onError lost])).
Proof.
  intros Hd Hk fullId revs decrypts L losers lost.
  destruct (decryptDocOutcome_parsed _ _ _ _ Hd) as [parsed Hp].
  destruct (revisions_split fullId revs) as (S1 & S2 & _).
  destruct (losers_in_order fullId revs) as (O1 & O2).
  destruct (buildConflictInfo_outcome JSON_parse this encryptedDoc parsed doc w Hp Hk)
    as (w1 & E1 & R1). cbn zeta in E1, R1. fold fullId revs lost in E1, R1.
  destruct (decryptDoc_run JSON_parse this encryptedDoc w Hk) as (w0 & E0 & R0).
  rewrite Hd in E0.
  destruct (buildConflictInfo_outcome JSON_parse this encryptedDoc parsed doc w0 Hp
              (reaches_keyCached _ _ _ _ R0)) as (w2 & E2 & R2).
  cbn zeta in E2, R2. fold fullId revs lost in E2, R2.
  assert (G : forall tbl id,
            db_get (db this) (tbl ++ js "_" ++ id) None = inr encryptedDoc ->
            hasConflicts (_conflicts encryptedDoc) = true ->
            getConflictInfo JSON_parse this tbl id w
            = (w2, inr match reportThrows this lost with
                       | None => Some (conflictInfoOf JSON_parse this encryptedDoc parsed doc)
                       | Some _ => None
                       end)).
  { intros tbl id Hg Hc. unfold getConflictInfo. cbn zeta.
    destruct (reportThrows this lost) as [e|].
    - erewrite try_catch_throws; [reflexivity|].
      unfold bind at 1. unfold await. rewrite Hg, Hc. cbn [negb].
      unfold bind at 1. rewrite E0. unfold bind. fold fullId revs. now rewrite E2.
    - erewrite try_catch_ok; [reflexivity|].
      unfold bind at 1. unfold await. rewrite Hg, Hc. cbn [negb].
      unfold bind at 1. rewrite E0. unfold bind. fold fullId revs. now rewrite E2. }
  pose proof (proj1 (reaches_trans _ _ _ _ _ _ R0 R2)) as T2. cbn [app] in T2.
  split; [exact S1|]. split; [exact S2|]. split; [exact O1|]. split; [exact O2|]. split.
  - intros Hr. rewrite Hr in E1, G.
    exists (conflictInfoOf JSON_parse this encryptedDoc parsed doc).
    split; [reflexivity|]. split; [reflexivity|]. split; [reflexivity|]. split.
    + exists w1. split; [exact E1 | apply R1].
    + intros tbl id Hg Hc. exists w2. split; [exact (G tbl id Hg Hc) | exact T2].
  - intros e Hr. rewrite (reportThrows_notice _ _ Hr) in R1, T2. rewrite Hr in E1, G. split.
    + exists w1. split; [exact E1 | apply R1].
    + intros tbl id Hg Hc. exists w2. split; [exact (G tbl id Hg Hc) | exact T2].
Qed.

End Claims.

(** *** Frame: every method only adds to the trace and keeps the handle
    counter, whether it returns or throws *)

Lemma grows_refl w : grows w w.
Proof. split; [exists []; now rewrite app_nil_r | reflexivity]. Qed.

Lemma grows_trans w1 w2 w3 : grows w1 w2 -> grows w2 w3 -> grows w1 w3.
Proof.
  intros [[e1 T1] H1] [[e2 T2] H2]. split; [|congruence].
  exists (e1 ++ e2). now rewrite T2, T1, app_assoc.
Qed.

Lemma steady_ret {A} (a : A) : steady (ret a).
Proof. intros w. apply grows_refl. Qed.

Lemma steady_throw {A} e : steady (@throw World A e).
Proof. intros w. apply grows_refl. Qed.

Lemma steady_await {A} (r : result A) : steady (await r).
Proof. intros w. apply grows_refl. Qed.

Lemma steady_bind {A B} (m : M World A) (k : A -> M World B) :
  steady m -> (forall a, steady (k a)) -> steady (bind m k).
Proof.
  intros Hm Hk w. unfold bind. specialize (Hm w).
  destruct (m w) as [w1 [e|a]]; cbn [fst] in *; [exact Hm|].
  exact (grows_trans _ _ _ Hm (Hk a w1)).
Qed.

Lemma steady_try_catch {A} (m : M World A) handler :
  steady m -> (forall e, steady (handler e)) -> steady (try_catch m handler).
Proof.
  intros Hm Hh w. unfold try_catch. specialize (Hm w).
  destruct (m w) as [w1 [e|a]]; cbn [fst] in *; [|exact Hm].
  exact (grows_trans _ _ _ Hm (Hh e w1)).
Qed.

Lemma steady_onHelper {A} (m : M HelperState A) : steady (onHelper m).
Proof.
  intros w. unfold onHelper. destruct (m (helperState w)) as [st r]. cbn.
  split; [exists []; now rewrite app_nil_r | reflexivity].
Qed.

Lemma steady_emit e : steady (emit e).
Proof. intros w. split; [now exists [e] | reflexivity]. Qed.

Lemma steady_call e o : steady (call e o).
Proof.
  unfold call. apply steady_bind; [apply steady_emit|].
  intros _. destruct o; [apply steady_throw | apply steady_ret].
Qed.

Lemma steadyL_ret {A} (a : A) : steadyL (ret a).
Proof. intros w l. apply grows_refl. Qed.

Lemma steadyL_bind {A B} (m : M (World * Locals) A) (k : A -> M (World * Locals) B) :
  steadyL m -> (forall a, steadyL (k a)) -> steadyL (bind m k).
Proof.
  intros Hm Hk w l. unfold bind. specialize (Hm w l).
  destruct (m (w, l)) as [[w1 l1] [e|a]]; cbn [fst] in *; [exact Hm|].
  exact (grows_trans _ _ _ Hm (Hk a w1 l1)).
Qed.

Lemma steadyL_try_catch {A} (m : M (World * Locals) A) handler :
  steadyL m -> (forall e, steadyL (handler e)) -> steadyL (try_catch m handler).
Proof.
  intros Hm Hh w l. unfold try_catch. specialize (Hm w l).
  destruct (m (w, l)) as [[w1 l1] [e|a]]; cbn [fst] in *; [|exact Hm].
  exact (grows_trans _ _ _ Hm (Hh e w1 l1)).
Qed.

Lemma steadyL_onWorld {A} (m : M World A) : steady m -> steadyL (onWorld m).
Proof.
  intros Hm w l. unfold onWorld. cbn [fst snd]. specialize (Hm w).
  destruct (m w) as [w1 r]. exact Hm.
Qed.

Lemma steadyL_onLocals f : steadyL (onLocals f).
Proof. intros w l. apply grows_refl. Qed.

Lemma steadyL_forEach {A} (xs : list A) body :
  (forall x, steadyL (body x)) -> steadyL (forEach xs body).
Proof.
  intros Hb. induction xs as [|x xs IH]; cbn [forEach]; [apply steadyL_ret|].
  apply steadyL_bind; auto.
Qed.

Lemma steady_withLocals init (m : M (World * Locals) unit) :
  steadyL m -> steady (withLocals init m).
Proof.
  intros Hm w. unfold withLocals. specialize (Hm w init).
  destruct (m (w, init)) as [[w1 l1] [e|a]]; exact Hm.
Qed.

Create HintDb steady.

#[local] Hint Resolve steady_ret steady_throw steady_await steady_onHelper steady_emit
  steady_call steadyL_ret steadyL_onLocals grows_refl : steady.

Section Frame.

Variable JSON_parse : jsstring -> result jsvalue.
Variable this : EncryptedPouch.

Lemma steady_decryptDoc encryptedDoc : steady (decryptDoc JSON_parse this encryptedDoc).
Proof.
  unfold decryptDoc. destruct (parseFullId (_id encryptedDoc)); auto with steady.
  apply steady_bind; [auto with steady|]. intros plaintext.
  apply steady_bind; auto with steady.
Qed.

Lemma steady_reportErrors errs : steady (reportErrors this errs).
Proof.
  unfold reportErrors. destruct (onError (listener this)); auto with steady.
  destruct (nonEmpty errs); auto with steady.
Qed.

Lemma steady_reportConflicts cs : steady (reportConflicts this cs).
Proof.
  unfold reportConflicts. destruct (onConflict (listener this)); auto with steady.
  destruct (nonEmpty cs); auto with steady.
Qed.

Lemma steady_buildConflictInfo fullId currentRev revs winnerDoc :
  steady (buildConflictInfo JSON_parse this fullId currentRev revs winnerDoc).
Proof.
  unfold buildConflictInfo. destruct (parseFullId fullId); auto with steady.
  apply steady_bind.
  - apply steady_withLocals, steadyL_forEach. intros rev. unfold buildConflictInfo_rev.
    apply steadyL_try_catch; [|auto with steady].
    apply steadyL_bind; [apply steadyL_onWorld; auto with steady|]. intros conflictDoc.
    apply steadyL_bind; [apply steadyL_onWorld, steady_decryptDoc|]. auto with steady.
  - intros l. apply steady_bind; [apply steady_reportErrors | auto with steady].
Qed.

Lemma steadyL_loadAll_row row : steadyL (loadAll_row JSON_parse this row).
Proof.
  unfold loadAll_row. destruct (row_doc row) as [encryptedDoc|]; auto with steady.
  destruct (isDesign (row_id row)); auto with steady.
  destruct (hasPayload encryptedDoc); auto with steady.
  apply steadyL_try_catch; [|auto with steady].
  apply steadyL_bind; [apply steadyL_onWorld, steady_decryptDoc|]. intros doc.
  apply steadyL_bind.
  - destruct (parseFullId (_id encryptedDoc)); auto with steady.
  - intros _. destruct (hasConflicts (_conflicts encryptedDoc)); auto with steady.
    apply steadyL_bind; [apply steadyL_onWorld, steady_buildConflictInfo | auto with steady].
Qed.

(** The [try] block of [loadAll] with its [catch]. *)
Lemma loadAll_scan_swallowed w :
  exists w1 evs,
    try_catch
      (rows <- await (db_allDocs (db this) true) ;;
       l <- withLocals noLocals (forEach rows (loadAll_row JSON_parse this)) ;;
       (if nonEmpty (docsByTable l)
        then call (called_onChange (docsByTable l)) (onChange (listener this) (docsByTable l))
        else ret tt) ;;
       reportErrors this (errors l) ;;
       reportConflicts this (conflicts l))
      (fun error => emit (console_error (js "[EncryptedPouch] loadAll failed:") error)) w
    = (w1, inr tt)
    /\ trace w1 = trace w ++ evs
    /\ handles w1 = handles w
    /\ (forall e, db_allDocs (db this) true = inl e ->
        evs = [console_error (js "[EncryptedPouch] loadAll failed:") e]).
Proof.
  match goal with |- exists w1 evs, ?m w = _ /\ _ => 
    assert (Hs : steady m); [|pose proof (Hs w) as G; destruct (m w) as [w1 r] eqn:E] end.
  { apply steady_try_catch; [|auto with steady].
    apply steady_bind; [auto with steady|]. intros rows.
    apply steady_bind; [apply steady_withLocals, steadyL_forEach, steadyL_loadAll_row|].
    intros l. apply steady_bind.
    - destruct (nonEmpty (docsByTable l)); auto with steady.
    - intros _. apply steady_bind; [apply steady_reportErrors|].
      intros _. apply steady_reportConflicts. }
  cbn [fst] in G. destruct G as [[evs T] Hh].
  assert (r = inr tt /\ (forall e, db_allDocs (db this) true = inl e ->
            w1 = log (console_error (js "[EncryptedPouch] loadAll failed:") e) w)) as [-> Hf].
  { unfold try_catch in E.
    match type of E with (match ?b with _ => _ end) = _ => destruct b as [w' [e|[]]] eqn:B end.
    - unfold emit, modify in E. inversion E; subst. split; [reflexivity|].
      intros e' He'. unfold bind, await in B. rewrite He' in B. now inversion B.
    - inversion E; subst. split; [reflexivity|].
      intros e' He'. unfold bind, await in B. rewrite He' in B. discriminate. }
  exists w1, evs. repeat split; try assumption.
  intros e He. specialize (Hf e He). subst w1. cbn in T.
  now apply app_inv_head in T.
Qed.

End Frame.

Section Claims2.

Variable JSON_parse : jsstring -> result jsvalue.
Variable this : EncryptedPouch.

(** C8.  Whatever the store answers and whatever the callbacks do,
    [loadAll] resolves, and the last thing it does is to open the live
    subscription; a failure of [allDocs] is written to the console and
    goes no further. *)
Theorem loadAll_swallows_and_subscribes w :
  exists w1 evs,
    loadAll JSON_parse this w = (w1, inr tt)
    /\ changesHandler w1 = Some (handles w)
    /\ trace w1 = trace w ++ evs ++ [store_changes (handles w)]
    /\ (forall e, db_allDocs (db this) true = inl e ->
        evs = [console_error (js "[EncryptedPouch] loadAll failed:") e]).
Proof.
  destruct (loadAll_scan_swallowed JSON_parse this w) as (w0 & evs & E & T & Hh & Hf).
  eexists _, evs. split; [|split; [|split]].
  - unfold loadAll. unfold bind at 1. rewrite E. reflexivity.
  - cbn. now rewrite Hh.
  - cbn. rewrite T, Hh. now rewrite <- app_assoc.
  - exact Hf.
Qed.

End Claims2.


Lemma errorCalls_flat_map {A} (f : A -> list Event) (xs : list A) :
  errorCalls (flat_map f xs) = flat_map (fun x => errorCalls (f x)) xs.
Proof.
  induction xs as [|x xs IH]; [reflexivity|]. cbn [flat_map].
  now rewrite errorCalls_app, IH.
Qed.

Lemma changeNotice_calls batches :
  errorCalls (changeNotice batches) = []
  /\ conflictCalls (changeNotice batches) = []
  /\ changeCalls (changeNotice batches) = if nonEmpty batches then [batches] else [].
Proof. unfold changeNotice. destruct (nonEmpty batches); now repeat split. Qed.

Section Claims3.

Variable JSON_parse : jsstring -> result jsvalue.
Variable this : EncryptedPouch.

Let h := encryptionHelper this.

(** C4, as amended.  The scan succeeding and the callbacks returning:
    [loadAll] resolves.  With [N >= 1] decryptable documents in [K]
    distinct tables it calls [onChange] exactly once, with [K] batches
    that hold [N] documents, every decryptable document in the batch of
    its table, whatever else failed to decrypt; with [N = 0] it does not
    call [onChange].  It calls [onConflict] exactly once if a decryptable
    document has conflicts and the callback is registered, and not
    otherwise.  [onError] is called once with all the documents that failed
    if there is one and the callback is registered -- and before that,
    once for each conflicted document of which a competing revision
    could not be decrypted. *)
Theorem loadAll_notifications rows w :
  db_allDocs (db this) true = inr rows ->
  listenerReturns (listener this) ->
  keyCached h (helperState w) ->
  let loaded := flat_map (decryptable JSON_parse this) rows in
  let failures := flat_map (undecryptable JSON_parse this) rows in
  let found := flat_map (conflicted JSON_parse this) rows in
  exists w1 evs,
    loadAll JSON_parse this w = (w1, inr tt)
    /\ trace w1 = trace w ++ evs
    /\ (loaded = [] -> changeCalls evs = [])
    /\ (loaded <> [] ->
        exists batches,
          changeCalls evs = [batches]
          /\ List.length batches = List.length (distinctTables loaded)
          /\ documentCount batches = List.length loaded
          /\ forall t doc, In (t, doc) loaded -> delivered t doc batches)
    /\ conflictCalls evs
       = match onConflict (listener this) with
         | Some _ => if nonEmpty found then [found] else []
         | None => []
         end
    /\ errorCalls evs
       = flat_map (fun row => errorCalls (loadEvents JSON_parse this row)) rows
         ++ match onError (listener this) with
            | Some _ => if nonEmpty failures then [failures] else []
            | None => []
            end.
Proof.
  intros Hrows Hl Hk loaded failures found.
  destruct (loadAll_run JSON_parse this rows w Hrows Hl Hk) as (w1 & E & _ & T).
  cbn zeta in T.
  destruct (loadStep_fold JSON_parse this rows noLocals) as (D & Er & C & _).
  cbn zeta in D, Er, C. cbn [noLocals docsByTable errors conflicts app] in D, Er, C.
  rewrite D, Er, C in T. fold loaded failures found in T.
  destruct (batches_of loaded) as (B1 & B2 & B3 & B4). cbn zeta in *.
  destruct (loadEvents_calls JSON_parse this rows) as (L1 & L2).
  destruct (errorNotice_calls this failures) as (N1 & N2 & _ & N3).
  destruct (conflictNotice_calls this found) as (M1 & M2 & M3).
  eexists w1, _. split; [exact E|]. split; [exact T|].
  destruct (changeNotice_calls (fold_left pushPair loaded [])) as (P1 & P2 & P3).
  rewrite !changeCalls_app, !conflictCalls_app, !errorCalls_app.
  rewrite L1, L2, N1, N2, N3, M1, M2, M3, P1, P2, P3, errorCalls_flat_map.
  cbn [app]. rewrite !app_nil_r.
  split; [|split; [|split]]; try reflexivity.
  - intros Hn. apply B4 in Hn. now rewrite Hn.
  - intros Hn. exists (fold_left pushPair loaded []).
    split; [|auto].
    destruct (fold_left pushPair loaded []) eqn:F; [|reflexivity].
    exfalso. apply Hn. now apply B4.
Qed.

(** C9, as amended.  [get] resolves, whatever the store, the cipher and
    the callbacks do.  When the document is not there, or its payload
    does not decrypt, it resolves with [null] and nothing is observed: no
    callback is called.  When the document decrypts, the error callback is
    called only by the reconstruction of its conflicts, which runs when
    the document has conflicts and [onConflict] is registered. *)
Theorem get_resolves tbl id w :
  (exists r, snd (get JSON_parse this tbl id w) = inr r)
  /\ (keyCached h (helperState w) ->
      forall e,
        (encryptedDoc <-? db_get (db this) (tbl ++ js "_" ++ id) None ;;
         decryptDocOutcome JSON_parse this encryptedDoc) = inl e ->
        exists w1,
          get JSON_parse this tbl id w = (w1, inr None) /\ trace w1 = trace w)
  /\ (keyCached h (helperState w) -> listenerReturns (listener this) ->
      forall encryptedDoc doc,
        db_get (db this) (tbl ++ js "_" ++ id) None = inr encryptedDoc ->
        decryptDocOutcome JSON_parse this encryptedDoc = inr doc ->
        exists w1 evs,
          get JSON_parse this tbl id w = (w1, inr (Some doc))
          /\ trace w1 = trace w ++ evs
          /\ errorCalls evs
             = match onConflict (listener this) with
               | Some _ =>
                   if hasConflicts (_conflicts encryptedDoc)
                   then errorCalls
                          (errorNotice this
                             (lostRevisions JSON_parse this (_id encryptedDoc)
                                (conflictsOf (_conflicts encryptedDoc))))
                   else []
               | None => []
               end).
Proof.
  split; [|split].
  - unfold get, try_catch.
    match goal with |- context [match ?b with _ => _ end] => destruct b as [w1 [e|r]] end;
      eexists; reflexivity.
  - intros Hk e He. unfold get, try_catch. cbn zeta.
    unfold bind at 1. unfold await.
    destruct (db_get (db this) (tbl ++ js "_" ++ id) None) as [e0|encryptedDoc]; [now exists w|].
    cbn [bindR] in He.
    destruct (decryptDoc_run JSON_parse this encryptedDoc w Hk) as (w1 & E1 & R1).
    rewrite He in E1. unfold bind at 1. rewrite E1. unfold ret.
    exists w1. split; [reflexivity|]. destruct R1 as (T & _). now rewrite T, app_nil_r.
  - intros Hk Hl encryptedDoc doc Hg Hd.
    destruct (decryptDoc_run JSON_parse this encryptedDoc w Hk) as (w1 & E1 & R1).
    rewrite Hd in E1.
    destruct (decryptDocOutcome_parsed _ _ _ _ Hd) as [parsed Hp].
    unfold get, try_catch. cbn zeta. unfold bind at 1. unfold await. rewrite Hg.
    unfold bind at 1. rewrite E1.
    destruct (onConflict (listener this)) as [callback|] eqn:Hc.
    + destruct (hasConflicts (_conflicts encryptedDoc)).
      * destruct (buildConflictInfo_run JSON_parse this encryptedDoc parsed doc w1 Hp Hl
                    (reaches_keyCached _ _ _ _ R1)) as (w2 & E2 & R2).
        unfold bind at 1. unfold bind at 1. rewrite E2.
        destruct Hl as (_ & _ & Hcb & _). rewrite (Hcb callback Hc).
        unfold call, bind, emit, modify, ret.
        destruct (reaches_trans _ _ _ _ _ _ R1 R2) as (T & _). cbn [app] in T.
        eexists _, _. split; [reflexivity|]. cbn [log trace]. rewrite T, <- app_assoc.
        split; [reflexivity|].
        rewrite errorCalls_app. cbn. now rewrite app_nil_r.
      * unfold bind, ret. exists w1, []. split; [reflexivity|].
        destruct R1 as (T & _). now rewrite T.
    + unfold bind, ret. exists w1, []. split; [reflexivity|].
      destruct R1 as (T & _). now rewrite T.
Qed.

(** C10, as amended.  A row whose record has no payload leaves the scans
    of [loadAll] and [getAll] as they would be without it.  In the live
    feed, a change of a record without payload that is not a design
    document calls [onDelete], with the table and the identifier, when
    its identifier has the separator, and does nothing when it has not. *)
Theorem records_without_payload encryptedDoc :
  hasPayload encryptedDoc = false ->
  (forall row before after s tbl,
     row_doc row = Some encryptedDoc ->
     forEach (before ++ row :: after) (loadAll_row JSON_parse this) s
     = forEach (before ++ after) (loadAll_row JSON_parse this) s
     /\ forEach (before ++ row :: after) (getAll_row JSON_parse this tbl) s
        = forEach (before ++ after) (getAll_row JSON_parse this tbl) s)
  /\ (forall change w,
        change_doc change = Some encryptedDoc ->
        isDesign (change_id change) = false ->
        handleChange JSON_parse this change w
        = match parseFullId (change_id change) with
          | Some parsed =>
              let deletions :=
                [{| table := parsed_table parsed;
                    docs := [[(js "_id", JStr (parsed_id parsed))]] |}] in
              call (called_onDelete deletions) (onDelete (listener this) deletions) w
          | None => (w, inr tt)
          end).
Proof.
  intros Hp. split.
  - intros row before after s tbl Hr.
    assert (L : forall s, loadAll_row JSON_parse this row s = (s, inr tt)).
    { intros s0. unfold loadAll_row. rewrite Hr, Hp. now destruct (isDesign (row_id row)). }
    assert (G : forall s, getAll_row JSON_parse this tbl row s = (s, inr tt)).
    { intros s0. unfold getAll_row. rewrite Hr, Hp. now destruct (isDesign (row_id row)). }
    split; revert s; induction before as [|r before IH]; intros s; cbn [app forEach];
      unfold bind; try rewrite L; try rewrite G; try reflexivity;
      match goal with |- context [match ?b with _ => _ end] =>
        destruct b as [s1 [e|[]]]; [reflexivity | apply IH] end.
  - intros change w Hc Hd. unfold handleChange, upserted. rewrite Hd, Hc, Hp.
    destruct (change_deleted change); destruct (parseFullId (change_id change)); reflexivity.
Qed.

End Claims3.

(* ================================================================= *)
(** ** C2: what [put] hands to the store *)

Lemma getProp_defineProp_eq k v o : getProp k (defineProp k v o) = Some v.
Proof.
  induction o as [|[k' v'] o IH]; cbn [defineProp getProp].
  - now rewrite jsstring_eqb_refl.
  - destruct (jsstring_eqb_spec k k'); cbn [getProp].
    + now rewrite jsstring_eqb_refl.
    + destruct (jsstring_eqb_spec k k'); [contradiction | exact IH].
Qed.

Lemma getProp_defineProp_ne k k' v o : k <> k' -> getProp k' (defineProp k v o) = getProp k' o.
Proof.
  intros Hne. induction o as [|[k0 v0] o IH]; cbn [defineProp getProp].
  - destruct (jsstring_eqb_spec k' k); [congruence | reflexivity].
  - destruct (jsstring_eqb_spec k k0) as [<-|Hk]; cbn [getProp].
    + destruct (jsstring_eqb_spec k' k); [congruence | reflexivity].
    + destruct (jsstring_eqb_spec k' k0); [reflexivity | exact IH].
Qed.

Lemma getProp_None_iff k o : getProp k o = None <-> ~ In k (map fst o).
Proof.
  induction o as [|[k' v'] o IH]; cbn [getProp map fst In]; [tauto|].
  destruct (jsstring_eqb_spec k k') as [->|Hne].
  - split; [discriminate | intros H; exfalso; apply H; now left].
  - rewrite IH. split; [intros H [E|I]; [congruence | contradiction] | tauto].
Qed.

Lemma partitionFields_fold doc fullId :
  partitionFields doc fullId = fold_left partitionStep doc ([], [(js "_id", JStr fullId)]).
Proof. reflexivity. Qed.

Lemma userKey_facts k :
  isUserKey k = true ->
  jsstring_eqb k (js "_id") = false /\ jsstring_eqb k (js "_rev") = false
  /\ jsstring_eqb k (js "__proto__") = false /\ JS.startsWith k (js "_") = false.
Proof.
  unfold isUserKey. intros H. apply negb_true_iff in H.
  repeat split; try assumption;
    match goal with |- jsstring_eqb k ?c = false =>
      destruct (jsstring_eqb_spec k c) as [->|]; [vm_compute in H; discriminate | reflexivity] end.
Qed.

Lemma partition_fold l data0 root0 :
  NoDup (map fst l) ->
  forall k,
    getProp k (fst (fold_left partitionStep l (data0, root0)))
    = (if isUserKey k then match getProp k l with
                           | Some v => Some v
                           | None => getProp k data0
                           end
       else getProp k data0)
    /\ getProp k (snd (fold_left partitionStep l (data0, root0)))
       = (if isPassedKey k then match getProp k l with
                                | Some v => Some v
                                | None => getProp k root0
                                end
          else getProp k root0).
Proof.
  revert data0 root0. induction l as [|[k0 v0] l IH]; intros data0 root0 Hnd k.
  - cbn. split; [now destruct (isUserKey k) | now destruct (isPassedKey k)].
  - inversion Hnd as [|? ? Hnin Hnd']; subst. cbn [fold_left].
    assert (Hk0 : getProp k0 l = None) by now apply getProp_None_iff.
    unfold partitionStep at 2 4.
    destruct (jsstring_eqb k0 (js "_id") || jsstring_eqb k0 (js "_rev")) eqn:Hskip.
    + destruct (IH data0 root0 Hnd' k) as [D R]. rewrite D, R. cbn [getProp].
      destruct (jsstring_eqb_spec k k0) as [->|Hne]; [|now split].
      rewrite Hk0. split.
      * destruct (isUserKey k0) eqn:U; [|reflexivity].
        destruct (userKey_facts _ U) as (A & B & _). now rewrite A, B in Hskip.
      * unfold isPassedKey. apply orb_true_iff in Hskip as [-> | ->];
          cbn [negb andb]; now rewrite ?andb_false_r.
    + apply orb_false_iff in Hskip as [Hid Hrev].
      destruct (JS.startsWith k0 (js "_")) eqn:Hu.
      * destruct (IH data0 (setProp k0 v0 root0) Hnd' k) as [D R]. rewrite D, R. cbn [getProp].
        destruct (jsstring_eqb_spec k k0) as [->|Hne].
        -- rewrite Hk0. split.
           ++ unfold isUserKey. now rewrite Hu.
           ++ unfold isPassedKey, setProp. rewrite Hu, Hid, Hrev. cbn [negb andb].
              destruct (jsstring_eqb k0 (js "__proto__")); cbn [negb]; [reflexivity|].
              apply getProp_defineProp_eq.
        -- split; [reflexivity|]. unfold setProp.
           destruct (jsstring_eqb k0 (js "__proto__")); [reflexivity|].
           now rewrite (getProp_defineProp_ne k0 k) by congruence.
      * destruct (IH (setProp k0 v0 data0) root0 Hnd' k) as [D R]. rewrite D, R. cbn [getProp].
        assert (U : isUserKey k0 = true) by (unfold isUserKey; now rewrite Hu).
        destruct (userKey_facts _ U) as (_ & _ & Hproto & _).
        unfold setProp. rewrite Hproto.
        destruct (jsstring_eqb_spec k k0) as [->|Hne].
        -- rewrite Hk0, U. split; [apply getProp_defineProp_eq|].
           unfold isPassedKey. now rewrite Hu.
        -- split; [|reflexivity]. now rewrite (getProp_defineProp_ne k0 k) by congruence.
Qed.

Lemma partition_ignores_id l v acc :
  fold_left partitionStep (defineProp (js "_id") v l) acc = fold_left partitionStep l acc.
Proof.
  revert acc. induction l as [|[k0 v0] l IH]; intros [data0 root0]; cbn [defineProp].
  - reflexivity.
  - destruct (jsstring_eqb_spec (js "_id") k0) as [<-|Hne]; cbn [fold_left].
    + reflexivity.
    + apply IH.
Qed.

Lemma partition_data_fold l data0 r1 r2 :
  fst (fold_left partitionStep l (data0, r1)) = fst (fold_left partitionStep l (data0, r2)).
Proof.
  revert data0 r1 r2. induction l as [|[k0 v0] l IH]; intros data0 r1 r2; [reflexivity|].
  cbn [fold_left]. unfold partitionStep at 2 4.
  destruct (jsstring_eqb k0 (js "_id") || jsstring_eqb k0 (js "_rev")); [apply IH|].
  destruct (JS.startsWith k0 (js "_")); apply IH.
Qed.

Lemma partition_data_independent l fullId :
  fst (partitionFields l fullId) = userData l.
Proof. apply partition_data_fold. Qed.

Lemma NoDup_defineProp k v o : NoDup (map fst o) -> NoDup (map fst (defineProp k v o)).
Proof.
  induction o as [|[k0 v0] o IH]; cbn [defineProp map fst]; intros Hnd.
  - repeat constructor. intros [].
  - inversion Hnd as [|? ? Hnin Hnd']; subst.
    destruct (jsstring_eqb_spec k k0) as [->|Hne]; cbn [map fst]; [exact Hnd|].
    constructor; [|now apply IH].
    intros Hin. apply Hnin. apply getProp_None_iff in Hnin.
    destruct (getProp k0 (defineProp k v o)) eqn:E.
    + rewrite getProp_defineProp_ne in E by exact Hne. congruence.
    + apply getProp_None_iff in E. contradiction.
Qed.

Section PutClaim.

Variable JSON_stringify : jsvalue -> jsstring.
Variable generateId : nat -> jsstring.
Variable this : EncryptedPouch.

Let h := encryptionHelper this.

Lemma encrypt_run key data st :
  cipherWorks h key -> keyCached h st ->
  exists payload st1,
    encrypt h data st = (st1, inr payload)
    /\ keyCached h st1
    /\ decryptOutcome h payload = inr (JS.TextDecoder_decode (JS.TextEncoder_encode data)).
Proof.
  intros Hw Hk.
  destruct (decrypt_encrypt_text h key data st Hw Hk) as (c & st1 & He & Hk1 & Hd).
  exists c, st1. split; [exact He|]. split; [exact Hk1|].
  now rewrite (decrypt_run h c st1 Hk1) in Hd.
Qed.

(** C2, as amended.  [put(table, doc)] hands one record to the store.
    Its [_id] is [table_id] ([id] being the [_id] of the document, or a
    generated one).  Its [d] is a ciphertext that decrypts to the JSON
    text of the user data, which holds every field whose name does not
    start with an underscore, whatever its name, and nothing else.  At the
    top level, no field whose name does not start with an underscore is
    there other than [d]; every field whose name starts with an underscore,
    other than [_id], [_rev] and [__proto__], is there as in the document;
    [_rev] is there when the document has a truthy one. *)
Theorem put_partitions_fields tbl doc key w :
  cipherWorks h key ->
  keyCached h (helperState w) ->
  NoDup (map fst doc) ->
  isWellFormed (JSON_stringify (JObj (userData doc))) = true ->
  startsWithBOM (JSON_stringify (JObj (userData doc))) = false ->
  exists record payload w1 r,
    put JSON_stringify generateId this tbl doc w = (w1, r)
    /\ trace w1 = trace w ++ [store_put record]
    /\ getProp (js "_id") record
       = Some (JStr (tbl ++ js "_"
                     ++ ToString (if truthy (propValue (js "_id") doc)
                                  then propValue (js "_id") doc
                                  else JStr (generateId (generated w)))))
    /\ getProp (js "d") record = Some (JStr payload)
    /\ decryptOutcome h payload = inr (JSON_stringify (JObj (userData doc)))
    /\ (forall k, getProp k (userData doc)
                  = if isUserKey k then getProp k doc else None)
    /\ (forall k, isUserKey k = true -> k <> js "d" -> getProp k record = None)
    /\ (forall k, isPassedKey k = true -> getProp k record = getProp k doc)
    /\ getProp (js "_rev") record
       = (if truthy (propValue (js "_rev") doc) then getProp (js "_rev") doc else None).
Proof.
  intros Hw Hk Hnd Hwf Hbom.
  (* the document after [doc._id = ...] *)
  set (idValue := if truthy (propValue (js "_id") doc) then propValue (js "_id") doc
                  else JStr (generateId (generated w))).
  set (doc1 := if truthy (propValue (js "_id") doc) then doc
               else setProp (js "_id") (JStr (generateId (generated w))) doc).
  set (w0 := if truthy (propValue (js "_id") doc) then w
             else set_generated (S (generated w)) w).
  assert (Hid : propValue (js "_id") doc1 = idValue).
  { unfold doc1, idValue. destruct (truthy (propValue (js "_id") doc)); [reflexivity|].
    unfold propValue, setProp. cbn [jsstring_eqb]. 
    replace (jsstring_eqb (js "_id") (js "__proto__")) with false by reflexivity.
    now rewrite getProp_defineProp_eq. }
  assert (Hother : forall k, k <> js "_id" -> getProp k doc1 = getProp k doc).
  { intros k Hne. unfold doc1. destruct (truthy (propValue (js "_id") doc)); [reflexivity|].
    unfold setProp. replace (jsstring_eqb (js "_id") (js "__proto__")) with false by reflexivity.
    apply getProp_defineProp_ne. congruence. }
  assert (Hnd1 : NoDup (map fst doc1)).
  { unfold doc1. destruct (truthy (propValue (js "_id") doc)); [exact Hnd|].
    unfold setProp. replace (jsstring_eqb (js "_id") (js "__proto__")) with false by reflexivity.
    now apply NoDup_defineProp. }
  assert (Hpart : forall fullId, partitionFields doc1 fullId = partitionFields doc fullId).
  { intros fullId. unfold doc1. destruct (truthy (propValue (js "_id") doc)); [reflexivity|].
    unfold setProp. replace (jsstring_eqb (js "_id") (js "__proto__")) with false by reflexivity.
    apply partition_ignores_id. }
  assert (Hk0 : keyCached h (helperState w0)).
  { unfold w0. now destruct (truthy (propValue (js "_id") doc)). }
  assert (Ht0 : trace w0 = trace w).
  { unfold w0. now destruct (truthy (propValue (js "_id") doc)). }
  set (fullId := tbl ++ js "_" ++ ToString idValue).
  pose proof (partition_data_independent doc fullId) as Hdata.
  destruct (partitionFields doc fullId) as [data rootFields] eqn:P. cbn [fst] in Hdata. subst data.
  pose proof (partition_fold doc [] [(js "_id", JStr fullId)] Hnd) as F.
  fold (partitionFields doc fullId) in F. rewrite P in F. cbn [fst snd] in F.
  destruct (encrypt_run key (JSON_stringify (JObj (userData doc))) (helperState w0) Hw Hk0)
    as (payload & st1 & He & Hk1 & Hd).
  rewrite TextDecoder_TextEncoder in Hd by assumption.
  set (record0 := setProp (js "d") (JStr payload) rootFields).
  set (record := if hasProp (js "_rev") doc1 && truthy (propValue (js "_rev") doc1)
                 then setProp (js "_rev") (propValue (js "_rev") doc1) record0
                 else record0).
  exists record, payload,
    (log (store_put record) (set_helperState (fun _ => st1) w0)),
    (match db_put (db this) record with
     | inl e => inl e
     | inr rev =>
         inr (defineProp (js "_rev") (JStr rev) (defineProp (js "_id") idValue doc1))
     end).
  split.
  - unfold put. unfold bind at 1.
    replace ((if negb (truthy (propValue (js "_id") doc))
              then id <- freshId generateId ;; ret (setProp (js "_id") (JStr id) doc)
              else ret doc) w) with (w0, @inr exn _ doc1)
      by (unfold w0, doc1; destruct (truthy (propValue (js "_id") doc)); reflexivity).
    rewrite Hid. fold fullId.
    unfold bind at 1. unfold encryptDoc. rewrite Hpart, P.
    unfold bind at 1. unfold onHelper. fold h. rewrite He.
    unfold ret at 1. cbv beta iota. fold record0. fold record.
    unfold bind, emit, modify, await, ret. now destruct (db_put (db this) record).
  - assert (R0 : forall k, k <> js "d" -> getProp k record0 = getProp k rootFields).
    { intros k Hne. unfold record0, setProp.
      replace (jsstring_eqb (js "d") (js "__proto__")) with false by reflexivity.
      apply getProp_defineProp_ne. congruence. }
    assert (Rd : getProp (js "d") record0 = Some (JStr payload)).
    { unfold record0, setProp.
      replace (jsstring_eqb (js "d") (js "__proto__")) with false by reflexivity.
      apply getProp_defineProp_eq. }
    assert (Hrev1 : propValue (js "_rev") doc1 = propValue (js "_rev") doc
                    /\ hasProp (js "_rev") doc1 = hasProp (js "_rev") doc).
    { unfold propValue, hasProp. rewrite Hother by discriminate. now split. }
    destruct Hrev1 as [Hrv Hrh].
    assert (R1 : forall k, k <> js "_rev" -> getProp k record = getProp k record0).
    { intros k Hne. unfold record.
      destruct (hasProp (js "_rev") doc1 && truthy (propValue (js "_rev") doc1)); [|reflexivity].
      unfold setProp.
      replace (jsstring_eqb (js "_rev") (js "__proto__")) with false by reflexivity.
      apply getProp_defineProp_ne. congruence. }
    cbn [log trace set_helperState]. rewrite Ht0.
    split; [reflexivity|]. split; [|split; [|split; [|split; [|split; [|split]]]]].
    + rewrite R1, R0 by discriminate. rewrite (proj2 (F (js "_id"))). reflexivity.
    + rewrite R1 by discriminate. exact Rd.
    + exact Hd.
    + intros k. rewrite (proj1 (F k)). destruct (isUserKey k); [|reflexivity].
      now destruct (getProp k doc).
    + intros k Hu Hne.
      destruct (userKey_facts _ Hu) as (A & B & C & D).
      assert (k <> js "_rev") by (intros ->; discriminate).
      assert (k <> js "_id") by (intros ->; discriminate).
      rewrite R1, R0 by assumption. rewrite (proj2 (F k)).
      unfold isPassedKey. rewrite D. cbn [andb getProp].
      now destruct (jsstring_eqb_spec k (js "_id")).
    + intros k Hp. unfold isPassedKey in Hp.
      apply andb_prop in Hp as [Hp Hc]. apply andb_prop in Hp as [Hp Hb].
      apply andb_prop in Hp as [Hs Ha].
      assert (k <> js "_rev") by (intros ->; discriminate).
      assert (k <> js "_id") by (intros ->; discriminate).
      assert (k <> js "d") by (intros ->; discriminate).
      rewrite R1, R0 by assumption. rewrite (proj2 (F k)).
      unfold isPassedKey. rewrite Hs, Ha, Hb, Hc. cbn [andb getProp].
      destruct (jsstring_eqb_spec k (js "_id")); [contradiction|].
      destruct (getProp k doc) eqn:G; [reflexivity|reflexivity].
    + unfold record. rewrite Hrv, Hrh. unfold hasProp, propValue.
      destruct (getProp (js "_rev") doc) as [v|] eqn:G; cbn [andb].
      * destruct (truthy v).
        -- unfold setProp.
           replace (jsstring_eqb (js "_rev") (js "__proto__")) with false by reflexivity.
           apply getProp_defineProp_eq.
        -- rewrite R0 by discriminate. now rewrite (proj2 (F (js "_rev"))).
      * cbn [truthy]. rewrite R0 by discriminate. now rewrite (proj2 (F (js "_rev"))).
Qed.

End PutClaim.

(* ================================================================= *)
(** ** C7: the guards of sync *)

Lemma disconnectRemote_neverConnected w :
  neverConnected (fst (disconnectRemote w)) /\ snd (disconnectRemote w) = inr tt.
Proof.
  unfold disconnectRemote, neverConnected. cbn [fst snd].
  destruct (syncHandler w) eqn:E; repeat split; cbn; auto.
Qed.

Lemma connectRemote_waits this url live retry w :
  connectRemote this url live retry w
  = connectWait this (db_sync_events (db this) url) (connecting url live retry w).
Proof. reflexivity. Qed.

Lemma handled_notifySync this info w :
  handled (notifySync this info) w
  = (fold_left (fun w0 e => log e w0) (syncNotice this [sync_change info]) w,
     inr (heard this (sync_change info))).
Proof.
  unfold handled, try_catch, bind, notifySync, syncNotice, heard.
  destruct (onSync (listener this)) as [callback|]; [|reflexivity].
  unfold call, bind, emit, modify. destruct (callback info); reflexivity.
Qed.

Lemma connectWait_keeps this evs w :
  syncHandler (fst (connectWait this evs w)) = syncHandler w
  /\ remoteUrl (fst (connectWait this evs w)) = remoteUrl w.
Proof.
  revert w. induction evs as [|ev evs IH]; intros w; [now split|].
  destruct ev as [|info|err]; cbn [connectWait]; [now split| |].
  - unfold bind. rewrite handled_notifySync. unfold syncNotice.
    destruct (onSync (listener this)); cbn [flat_map app fold_left].
    + destruct (IH (log (called_onSync info) w)) as [A B]. now rewrite A, B.
    + apply IH.
  - unfold bind. destruct (onSync (listener this)); now split.
Qed.

Section SyncClaim.

Variable this : EncryptedPouch.

Lemma steady_notifySync info : steady (notifySync this info).
Proof.
  unfold notifySync.
  destruct (onSync (listener this)); [apply steady_call | apply steady_ret].
Qed.

Lemma steady_handled m : steady m -> steady (handled m).
Proof.
  intros Hm. unfold handled.
  apply steady_try_catch; [|intros; apply steady_ret].
  apply steady_bind; [exact Hm | intros; apply steady_ret].
Qed.

Lemma steady_notifyComplete dir stats : steady (notifyComplete this dir stats).
Proof.
  unfold notifyComplete. destruct stats as [st|]; [|apply steady_ret].
  destruct (docs_written st); [apply steady_notifySync | apply steady_ret].
Qed.

Lemma steady_pushWait events count total : steady (pushWait this events count total).
Proof.
  revert count. induction events as [|ev events IH]; intros count; cbn [pushWait].
  - apply steady_throw.
  - destruct ev as [|info|err].
    + apply IH.
    + apply steady_bind; [apply steady_handled, steady_notifySync|].
      intros [|]; [|apply IH].
      destruct (direction info); try apply IH.
      match goal with |- context [if ?b then _ else _] => destruct b end;
        [apply steady_ret | apply IH].
    + apply steady_bind; [|intros; apply steady_throw].
      destruct (onSync (listener this)); [apply steady_emit | apply steady_ret].
Qed.

(** Past its guard, [syncNow] starts a sync to the address. *)
Lemma syncNow_starts url w :
  remoteUrl w = Some url -> url <> [] ->
  exists evs,
    trace (fst (syncNow this w))
    = trace w ++ store_sync url false false (handles w) :: evs.
Proof.
  intros Hu Hne. unfold syncNow. unfold bind at 1. unfold gets. rewrite Hu.
  destruct url as [|c url]; [congruence|].
  unfold bind at 1. unfold newHandle. unfold bind at 1. unfold emit, modify.
  match goal with |- context [fst (?m (log ?e ?w0))] =>
    assert (S : steady m); [|destruct (S (log e w0)) as [[evs T] _]] end.
  { destruct (db_sync_once (db this) (c :: url)) as [err|info].
    - apply steady_bind; [apply steady_emit | intros; apply steady_throw].
    - apply steady_bind; [|intros; apply steady_ret].
      apply steady_handled.
      apply steady_bind; [|intros]; apply steady_notifyComplete. }
  exists evs. rewrite T. cbn [log trace set_handles]. now rewrite <- app_assoc.
Qed.

(** Past its guard, [deleteAllAndSync] reads the store, and deletes
    what there is to delete. *)
Lemma deleteAllAndSync_reads handle w :
  syncHandler w = Some handle ->
  (forall e, db_allDocs (db this) false = inl e -> deleteAllAndSync this w = (w, inl e))
  /\ (forall rows,
        db_allDocs (db this) false = inr rows -> docsToDelete rows = [] ->
        deleteAllAndSync this w = (w, inr tt))
  /\ (forall rows,
        db_allDocs (db this) false = inr rows -> docsToDelete rows <> [] ->
        exists evs,
          trace (fst (deleteAllAndSync this w))
          = trace w ++ store_bulkDocs (docsToDelete rows) :: evs).
Proof.
  intros Hh. split; [|split].
  - intros e Hr. unfold deleteAllAndSync, bind, gets, await. now rewrite Hh, Hr.
  - intros rows Hr Hd. unfold deleteAllAndSync, bind, gets, await. now rewrite Hh, Hr, Hd.
  - intros rows Hr Hne. unfold deleteAllAndSync. unfold bind at 1. unfold gets. rewrite Hh.
    unfold bind at 1. unfold await at 1. rewrite Hr.
    destruct (docsToDelete rows) as [|p l] eqn:D; [congruence|].
    unfold bind at 1. unfold emit, modify.
    match goal with |- context [fst (?m (log ?e ?w0))] =>
      assert (S : steady m); [|destruct (S (log e w0)) as [[evs T] _]] end.
    { apply steady_bind; [apply steady_await | intros; apply steady_pushWait]. }
    exists evs. rewrite T. cbn [log trace]. now rewrite <- app_assoc.
Qed.

(** C7, as amended.  On an instance on which [connectRemote] was not
    called since it was made or last disconnected, [syncNow] and
    [deleteAllAndSync] reject with the [Error] that says so, and do
    nothing else.  A new instance is in that state; [disconnectRemote]
    and [deleteAllLocal] lead to it.  [connectRemote] leaves it, whether
    it then resolves or rejects: the handle and the address are set, so
    the guard of [deleteAllAndSync] passes -- it reads the store,
    rejects with the error of [allDocs] when that rejects, resolves when
    there is nothing to delete, and otherwise deletes -- and, the
    address not being the empty string, the guard of [syncNow] passes --
    it starts a sync to the address.  After [connectRemote] with the empty string
    [syncNow] still rejects as not connected.  With a handle and no
    document other than design documents in the store,
    [deleteAllAndSync] resolves without deleting and without waiting. *)
Theorem sync_guards w :
  (neverConnected w ->
   syncNow this w = (w, inl notConnected_syncNow)
   /\ deleteAllAndSync this w = (w, inl notConnected_deleteAllAndSync))
  /\ neverConnected newWorld
  /\ neverConnected (fst (disconnectRemote w))
  /\ neverConnected (fst (deleteAllLocal this w))
  /\ (forall url live retry,
        let w1 := fst (connectRemote this url live retry w) in
        syncHandler w1 = Some (handles w) /\ remoteUrl w1 = Some url
        /\ (url <> [] ->
            exists evs,
              trace (fst (syncNow this w1))
              = trace w1 ++ store_sync url false false (handles w1) :: evs)
        /\ (url = [] -> syncNow this w1 = (w1, inl notConnected_syncNow))
        /\ (forall e, db_allDocs (db this) false = inl e ->
                      deleteAllAndSync this w1 = (w1, inl e))
        /\ (forall rows,
              db_allDocs (db this) false = inr rows -> docsToDelete rows = [] ->
              deleteAllAndSync this w1 = (w1, inr tt))
        /\ (forall rows,
              db_allDocs (db this) false = inr rows -> docsToDelete rows <> [] ->
              exists evs,
                trace (fst (deleteAllAndSync this w1))
                = trace w1 ++ store_bulkDocs (docsToDelete rows) :: evs))
  /\ (forall handle rows,
        syncHandler w = Some handle ->
        db_allDocs (db this) false = inr rows ->
        docsToDelete rows = [] ->
        deleteAllAndSync this w = (w, inr tt)).
Proof.
  split; [|split; [|split; [|split; [|split]]]].
  - intros [Hh Hu]. split.
    + unfold syncNow, bind, gets. now rewrite Hu.
    + unfold deleteAllAndSync, bind, gets. now rewrite Hh.
  - now split.
  - apply disconnectRemote_neverConnected.
  - unfold deleteAllLocal. unfold bind at 1.
    pose proof (proj1 (disconnectRemote_neverConnected w)) as D.
    destruct (disconnectRemote w) as [w0 [e|[]]] eqn:E; cbn [fst] in D |- *; [exact D|].
    unfold bind at 1. unfold await.
    destruct (db_allDocs (db this) false) as [e|rows]; [exact D|].
    destruct (docsToDelete rows); [exact D|].
    unfold bind, emit, modify, await.
    destruct (db_bulkDocs (db this) (p :: l)); exact D.
  - intros url live retry. cbn zeta. rewrite connectRemote_waits.
    destruct (connectWait_keeps this (db_sync_events (db this) url) (connecting url live retry w))
      as [A B].
    set (w1 := fst (connectWait this (db_sync_events (db this) url)
                      (connecting url live retry w))) in *.
    assert (Hh : syncHandler w1 = Some (handles w)).
    { rewrite A. unfold connecting, disconnectRemote. cbn. now destruct (syncHandler w). }
    assert (Hu : remoteUrl w1 = Some url) by (rewrite B; reflexivity).
    destruct (deleteAllAndSync_reads (handles w) w1 Hh) as (D1 & D2 & D3).
    split; [exact Hh|]. split; [exact Hu|]. split; [|split; [|split; [|split]]].
    + intros Hne. exact (syncNow_starts url w1 Hu Hne).
    + intros ->. unfold syncNow, bind, gets. now rewrite Hu.
    + exact D1.
    + exact D2.
    + exact D3.
  - intros handle rows Hh Hr Hd.
    exact (proj1 (proj2 (deleteAllAndSync_reads handle w Hh)) rows Hr Hd).
Qed.

End SyncClaim.

(* ================================================================= *)
(** ** The claims on the stand-in instance *)

Lemma Demo_cipherWorks : exists key, cipherWorks Demo.helper key.
Proof. exact (Toy_cipherWorks "p1" derive). Defined.

Lemma Demo_keyCached : keyCached Demo.helper (helperState newWorld).
Proof. left. reflexivity. Defined.

Lemma fullListener_returns : listenerReturns Demo.fullListener.
Proof.
  repeat split; try reflexivity; intros callback E; injection E as <-; reflexivity.
Defined.

(** *** C2 *)

Lemma put_partitions_fields_witness :
  let doc := [(js "_id", JStr (js "x")); (js "amount", JNum 15);
              (js "secret", JStr (js "y")); (js "_deleted", JBool false)] in
  let this := Demo.pouch [] defaultListener in
  NoDup (map fst doc)
  /\ isWellFormed (Demo.stringify (JObj (userData doc))) = true
  /\ startsWithBOM (Demo.stringify (JObj (userData doc))) = false
  /\ exists record payload,
       trace (fst (put Demo.stringify Demo.generateId this (js "expenses") doc newWorld))
       = [store_put record]
       /\ getProp (js "_id") record = Some (JStr (js "expenses_x"))
       /\ getProp (js "d") record = Some (JStr payload)
       /\ decryptOutcome Demo.helper payload
          = inr (Demo.stringify (JObj [(js "amount", JNum 15); (js "secret", JStr (js "y"))]))
       /\ getProp (js "amount") record = None
       /\ getProp (js "secret") record = None
       /\ getProp (js "_deleted") record = Some (JBool false).
Proof.
  intros doc this.
  assert (Hnd : NoDup (map fst doc)).
  { repeat constructor; cbn; intros H; repeat (destruct H as [H|H]; [discriminate|]); exact H. }
  assert (Hwf : isWellFormed (Demo.stringify (JObj (userData doc))) = true) by reflexivity.
  assert (Hb : startsWithBOM (Demo.stringify (JObj (userData doc))) = false) by reflexivity.
  repeat (split; [assumption|]).
  destruct Demo_cipherWorks as [key Hw].
  destruct (put_partitions_fields Demo.stringify Demo.generateId this (js "expenses") doc key
              newWorld Hw Demo_keyCached Hnd Hwf Hb)
    as (record & payload & w1 & r & E & T & Hid & Hd & Hdec & _ & Huser & Hpass & _).
  exists record, payload. rewrite E. cbn [fst].
  split; [exact T|]. split; [exact Hid|]. split; [exact Hd|]. split; [exact Hdec|].
  split; [apply Huser; [reflexivity | discriminate]|].
  split; [apply Huser; [reflexivity | discriminate]|].
  rewrite Hpass by reflexivity. reflexivity.
Defined.

(** C2 as stated fails on a field named [d], which is at the top level of
    the record (as the ciphertext), and on a field named [__proto__],
    which is not passed through. *)
Lemma put_keeps_d_and_drops_proto :
  let doc := [(js "_id", JStr (js "x")); (js "d", JNum 1); (js "__proto__", JNull)] in
  let record := [(js "_id", JStr (js "t_x"));
                 (js "d", JStr (js "000102030405060708090a0b|cd74b6748c83cffa"))] in
  trace (fst (put Demo.stringify Demo.generateId (Demo.pouch [] defaultListener) (js "t") doc
                newWorld))
  = [store_put record]
  /\ JS.startsWith (js "d") (js "_") = false
  /\ hasProp (js "d") record = true
  /\ JS.startsWith (js "__proto__") (js "_") = true
  /\ hasProp (js "__proto__") doc = true
  /\ hasProp (js "__proto__") record = false.
Proof. repeat split; vm_compute; reflexivity. Qed.

(** *** C4 *)

Lemma loadAll_notifications_witness :
  let this := Demo.pouch Demo.documents Demo.fullListener in
  let rows := map Demo.row Demo.documents in
  db_allDocs (db this) true = inr rows
  /\ listenerReturns (listener this)
  /\ keyCached (encryptionHelper this) (helperState newWorld)
  /\ exists w1 evs batches,
       loadAll Demo.parse this newWorld = (w1, inr tt)
       /\ trace w1 = evs
       /\ changeCalls evs = [batches]
       /\ List.length batches = 2%nat
       /\ documentCount batches = 3%nat
       /\ List.length (conflictCalls evs) = 1%nat.
Proof.
  intros this rows.
  assert (H1 : db_allDocs (db this) true = inr rows) by reflexivity.
  split; [exact H1|]. split; [exact fullListener_returns|]. split; [exact Demo_keyCached|].
  destruct (loadAll_notifications Demo.parse this rows newWorld H1 fullListener_returns
              Demo_keyCached) as (w1 & evs & E & T & _ & Hc & Hx & _).
  destruct Hc as (batches & C1 & C2 & C3 & _); [vm_compute; discriminate|].
  exists w1, evs, batches.
  split; [exact E|]. split; [exact T|]. split; [exact C1|].
  split; [rewrite C2; vm_compute; reflexivity|].
  split; [rewrite C3; vm_compute; reflexivity|].
  rewrite Hx. vm_compute. reflexivity.
Defined.

(** C4 as stated fails: with no decryptable document [onChange] is not
    called; and [onError] is called once for each conflicted document
    with a competing revision that does not decrypt, besides the call for
    the documents that do not. *)
Lemma loadAll_calls_differ :
  changeCalls (trace (fst (loadAll Demo.parse (Demo.pouch [] Demo.fullListener) newWorld))) = []
  /\ changeCalls (trace (fst (loadAll Demo.parse (Demo.pouch [Demo.bad] Demo.fullListener)
                                newWorld))) = []
  /\ List.length
       (errorCalls (trace (fst (loadAll Demo.parse
                                  (Demo.pouch Demo.documents Demo.fullListener) newWorld))))
     = 3%nat
  /\ List.length
       (errorCalls (trace (fst (loadAll Demo.parse
                                  (Demo.pouch [Demo.dinner; Demo.t1] Demo.fullListener)
                                  newWorld))))
     = 2%nat.
Proof. repeat split; vm_compute; reflexivity. Qed.

(** *** C6 *)

Lemma conflict_info_construction_witness :
  let this := Demo.pouch Demo.documents Demo.fullListener in
  (exists doc, decryptDocOutcome Demo.parse this Demo.dinner = inr doc)
  /\ keyCached (encryptionHelper this) (helperState newWorld)
  /\ exists info,
       snd (getConflictInfo Demo.parse this (js "expenses") (js "dinner") newWorld)
       = inr (Some info)
       /\ List.length (ci_conflictRevs info) = 2%nat
       /\ List.length (ci_losers info) = 1%nat.
Proof.
  intros this.
  assert (Hd : decryptDocOutcome Demo.parse this Demo.dinner
               = inr [(js "_id", JStr (js "dinner")); (js "_rev", JStr (js "2-a"));
                      (js "amount", JNum 40)]) by (vm_compute; reflexivity).
  split; [eexists; exact Hd|]. split; [exact Demo_keyCached|].
  destruct (conflict_info_construction Demo.parse this Demo.dinner _ newWorld Hd
              Demo_keyCached) as (Hl & _ & _ & _ & R & _).
  destruct (R eq_refl) as (info & _ & Hr & Ho & _ & Hg).
  destruct (Hg (js "expenses") (js "dinner") eq_refl eq_refl) as (w2 & E2 & _).
  exists info. rewrite E2. cbn [snd]. split; [reflexivity|].
  split; [rewrite Hr; reflexivity | rewrite Ho, Hl; vm_compute; reflexivity].
Defined.

(** C6 as stated fails when [onError] throws: the competing revision
    ["2-c"] of the document does not decrypt, the call of [onError] for it
    throws, and the construction is aborted. *)
Lemma conflict_info_aborted_when_onError_throws :
  let this := Demo.pouch Demo.documents Demo.errorThrowingListener in
  let doc := [(js "_id", JStr (js "dinner")); (js "_rev", JStr (js "2-a"));
              (js "amount", JNum 40)] in
  decryptDocOutcome Demo.parse this Demo.dinner = inr doc
  /\ conflictsOf (_conflicts Demo.dinner) = [js "2-b"; js "2-c"]
  /\ filter (revisionDecrypts Demo.parse this (_id Demo.dinner))
       (conflictsOf (_conflicts Demo.dinner)) = [js "2-b"]
  /\ snd (buildConflictInfo Demo.parse this (_id Demo.dinner) (_rev Demo.dinner)
            (conflictsOf (_conflicts Demo.dinner)) doc newWorld)
     = inl Demo.thrown
  /\ snd (getConflictInfo Demo.parse this (js "expenses") (js "dinner") newWorld) = inr None.
Proof. repeat split; vm_compute; reflexivity. Qed.

(** *** C7 *)

Lemma sync_guards_witness :
  neverConnected newWorld
  /\ syncNow Demo.refusing newWorld = (newWorld, inl notConnected_syncNow)
  /\ deleteAllAndSync Demo.refusing newWorld = (newWorld, inl notConnected_deleteAllAndSync)
  /\ (let w1 := fst (connectRemote Demo.refusing [] true true newWorld) in
      syncHandler w1 = Some 0%nat
      /\ syncNow Demo.refusing w1 = (w1, inl notConnected_syncNow))
  /\ (let w1 := fst (connectRemote Demo.refusing Demo.address true true newWorld) in
      exists evs,
        trace (fst (syncNow Demo.refusing w1))
        = trace w1 ++ store_sync Demo.address false false 1 :: evs).
Proof.
  destruct (sync_guards Demo.refusing newWorld) as (G & N & _ & _ & C & _).
  split; [exact N|]. split; [exact (proj1 (G N))|]. split; [exact (proj2 (G N))|]. split.
  - destruct (C [] true true) as (H & _ & _ & E & _).
    split; [exact H | exact (E eq_refl)].
  - destruct (C Demo.address true true) as (_ & _ & S & _).
    assert (Hne : Demo.address <> []) by discriminate.
    exact (S Hne).
Defined.

(** C7 as stated fails after a [connectRemote] that rejected: the handle
    and the address stay, and neither guard rejects. *)
Lemma guards_pass_after_failed_connect :
  let attempt := connectRemote Demo.refusing (js "https://remote/db") true true newWorld in
  snd attempt = inl Demo.refused
  /\ snd (syncNow Demo.refusing (fst attempt)) = inr fulfilled
  /\ snd (deleteAllAndSync Demo.refusing (fst attempt)) = inr tt.
Proof. repeat split; vm_compute; reflexivity. Qed.

(** *** C8 *)

Lemma loadAll_swallows_and_subscribes_witness :
  db_allDocs (db Demo.broken) true = inl Demo.unavailable
  /\ exists w1,
       loadAll Demo.parse Demo.broken newWorld = (w1, inr tt)
       /\ changesHandler w1 = Some 0%nat
       /\ trace w1 = [console_error (js "[EncryptedPouch] loadAll failed:") Demo.unavailable;
                      store_changes 0].
Proof.
  split; [reflexivity|].
  destruct (loadAll_swallows_and_subscribes Demo.parse Demo.broken newWorld)
    as (w1 & evs & E & C & T & F).
  exists w1. split; [exact E|]. split; [exact C|].
  rewrite T, (F Demo.unavailable eq_refl). reflexivity.
Defined.

(** *** C9 *)

Lemma get_resolves_witness :
  let this := Demo.pouch Demo.documents Demo.fullListener in
  keyCached (encryptionHelper this) (helperState newWorld)
  /\ (exists e, decryptDocOutcome Demo.parse this Demo.bad = inl e)
  /\ (exists w1, get Demo.parse this (js "tasks") (js "bad") newWorld = (w1, inr None)
                 /\ trace w1 = [])
  /\ (exists w1, get Demo.parse this (js "tasks") (js "none") newWorld = (w1, inr None)
                 /\ trace w1 = []).
Proof.
  intros this. split; [exact Demo_keyCached|].
  destruct (get_resolves Demo.parse this (js "tasks") (js "bad") newWorld) as (_ & G & _).
  destruct (get_resolves Demo.parse this (js "tasks") (js "none") newWorld) as (_ & G' & _).
  split; [eexists; vm_compute; reflexivity|]. split.
  - eapply (G Demo_keyCached). vm_compute. reflexivity.
  - eapply (G' Demo_keyCached). vm_compute. reflexivity.
Defined.

(** C9 as stated fails: [get] of a document with a competing revision that
    does not decrypt, a conflict listener being registered, calls
    [onError]. *)
Lemma get_calls_onError :
  let this := Demo.pouch Demo.documents Demo.fullListener in
  let outcome := get Demo.parse this (js "tasks") (js "t1") newWorld in
  snd outcome = inr (Some [(js "_id", JStr (js "t1")); (js "_rev", JStr (js "2-x"));
                           (js "title", JStr (js "call"))])
  /\ List.length (errorCalls (trace (fst outcome))) = 1%nat.
Proof. split; vm_compute; reflexivity. Qed.

(** *** C10 *)

Lemma records_without_payload_witness :
  let this := Demo.pouch Demo.documents Demo.fullListener in
  let change := {| change_id := js "notes_empty"; change_deleted := false;
                   change_doc := Some Demo.empty |} in
  hasPayload Demo.empty = false
  /\ trace (fst (handleChange Demo.parse this change newWorld))
     = [called_onDelete [{| table := js "notes";
                            docs := [[(js "_id", JStr (js "empty"))]] |}]]
  /\ forEach (map Demo.row [Demo.lunch; Demo.empty; Demo.t1]) (loadAll_row Demo.parse this)
       (newWorld, noLocals)
     = forEach (map Demo.row [Demo.lunch; Demo.t1]) (loadAll_row Demo.parse this)
         (newWorld, noLocals).
Proof.
  intros this change.
  assert (Hp : hasPayload Demo.empty = false) by reflexivity.
  split; [exact Hp|].
  destruct (records_without_payload Demo.parse this Demo.empty Hp) as (S & L).
  split.
  - rewrite (L change newWorld eq_refl eq_refl). reflexivity.
  - exact (proj1 (S (Demo.row Demo.empty) [Demo.row Demo.lunch] [Demo.row Demo.t1]
                    (newWorld, noLocals) None eq_refl)).
Defined.

(** C10 as stated fails in the live feed on a record whose identifier has
    no separator: no callback is called. *)
Lemma no_delete_without_separator :
  let this := Demo.pouch Demo.documents Demo.fullListener in
  let record := Demo.stored "config" "1-a" None None in
  let change := {| change_id := js "config"; change_deleted := false;
                   change_doc := Some record |} in
  hasPayload record = false
  /\ isDesign (change_id change) = false
  /\ handleChange Demo.parse this change newWorld = (newWorld, inr tt).
Proof. repeat split. Qed.

(* ================================================================= *)
(** ** The chain of live changes *)

Module EventLoopFacts.
Import EventLoop.
Local Open Scope nat_scope.

Lemma serial_extend changes change tr ph :
  serial changes tr ph -> serial (changes ++ [change]) tr ph.
Proof.
  induction 1; try (now constructor).
  constructor; [assumption|].
  rewrite nth_error_app1; [assumption|]. apply nth_error_Some. congruence.
Qed.

Lemma thenReaction_inj k c k' c' :
  thenReaction k c = thenReaction k' c' -> k = k' /\ c = c'.
Proof. unfold thenReaction. intros E. injection E as E1 E2 E3 E4. split; [lia | congruence]. Qed.

Lemma catchReaction_inj k k' : catchReaction k = catchReaction k' -> k = k'.
Proof. unfold catchReaction. intros E. injection E as E1 E2. lia. Qed.

Lemma then_not_catch k c k' : thenReaction k c <> catchReaction k'.
Proof. unfold thenReaction, catchReaction. intros E. discriminate. Qed.

Ltac clash :=
  match goal with
  | E : thenReaction _ _ = catchReaction _ |- _ => exfalso; exact (then_not_catch _ _ _ E)
  | E : catchReaction _ = thenReaction _ _ |- _ =>
      exfalso; exact (then_not_catch _ _ _ (eq_sym E))
  end.

Lemma NoDup_without {A} (before after : list A) (x y : A) :
  NoDup (before ++ x :: after) ->
  (In y (before ++ after) <-> In y (before ++ x :: after) /\ y <> x).
Proof.
  intros Hnd. pose proof (NoDup_remove_2 _ _ _ Hnd) as Hx.
  rewrite !in_app_iff in *. cbn [In]. split.
  - intros [H|H]; (split; [tauto|]); intros ->; tauto.
  - intros [[H|[H|H]] Hne]; [tauto | congruence | tauto].
Qed.

Lemma invariant_start : invariant [] (Ready 0) start.
Proof.
  constructor; cbn [unfired frontier phaseOf start fresh processingChain emitted reactions
                    promises invocations observed List.length].
  - lia.
  - reflexivity.
  - reflexivity.
  - reflexivity.
  - intros r. split; [intros []|].
    intros [(k & c & _ & H & _)|(k & H & _)]; [now destruct k | lia].
  - constructor.
  - intros k. destruct k; [reflexivity|].
    replace (2 * S k) with (S (S (2 * k))) by lia. reflexivity.
  - intros k Hk. lia.
  - reflexivity.
  - intros k Hk. replace (2 * k + 1) with (S (2 * k)) by lia. reflexivity.
  - reflexivity.
  - constructor.
Qed.

Lemma invariant_emit changes st l change :
  invariant changes st l -> invariant (changes ++ [change]) st (onChangeEvent change l).
Proof.
  intros I. destruct I.
  assert (A : reactions (onChangeEvent change l)
              = reactions l ++ [thenReaction (List.length changes) change]
                  ++ [catchReaction (List.length changes)]).
  { unfold onChangeEvent, then_, catch_, register. cbn.
    rewrite inv_chain0, inv_fresh0, inv_emitted0, <- app_assoc.
    unfold thenReaction, catchReaction. cbn [app].
    do 4 f_equal; f_equal; lia. }
  assert (Hfront : frontier st <= List.length changes) by (destruct st; cbn in *; lia).
  constructor; rewrite ?length_app; cbn [List.length].
  - lia.
  - cbn. lia.
  - cbn. lia.
  - cbn. lia.
  - intros r. rewrite A, !in_app_iff, inv_reactions0. cbn [In]. split.
    + intros [[(k & c & Hk & Hn & ->)|(k & Hk & ->)]|[[<-|[]]|[<-|[]]]].
      * left. exists k, c. repeat split; auto.
        rewrite nth_error_app1; [assumption|]. apply nth_error_Some. congruence.
      * right. exists k. split; [lia | reflexivity].
      * left. exists (List.length changes), change. repeat split; [lia|].
        rewrite nth_error_app2, Nat.sub_diag by lia. reflexivity.
      * right. exists (List.length changes). split; [lia | reflexivity].
    + intros [(k & c & Hk & Hn & ->)|(k & Hk & ->)].
      * destruct (Nat.lt_ge_cases k (List.length changes)) as [Hlt|Hge].
        -- left. left. exists k, c. repeat split; auto.
           now rewrite nth_error_app1 in Hn.
        -- assert (k = List.length changes).
           { apply Nat.le_antisymm; [|assumption].
             assert (k < List.length (changes ++ [change])) by (apply nth_error_Some; congruence).
             rewrite length_app in *. cbn in *. lia. }
           subst k. rewrite nth_error_app2, Nat.sub_diag in Hn by lia.
           injection Hn as <-. right. left. now left.
      * destruct (Nat.lt_ge_cases k (List.length changes)) as [Hlt|Hge].
        -- left. right. exists k. split; [lia | reflexivity].
        -- assert (k = List.length changes) by lia. subst k. right. right. now left.
  - rewrite A. apply NoDup_app; [assumption| |].
    + repeat constructor; cbn; [|tauto]. intros [E|[]]. clash.
    + intros r Hr [<-|[<-|[]]]; apply inv_reactions0 in Hr;
        destruct Hr as [(k & c & Hk & Hn & E)|(k & Hk & E)].
      * apply thenReaction_inj in E as [<- _].
        assert (List.length changes < List.length changes) by (apply nth_error_Some; congruence).
        lia.
      * clash.
      * clash.
      * apply catchReaction_inj in E. lia.
  - intros k. cbn. apply inv_even0.
  - intros k Hk. cbn. now apply inv_odd0.
  - cbn. apply inv_current0.
  - intros k Hk. cbn. now apply inv_later0.
  - cbn. rewrite inv_invocations0. destruct st; try reflexivity.
    cbn in inv_frontier0.
    rewrite nth_error_app1 by lia. reflexivity.
  - cbn. now apply serial_extend.
Qed.



Ltac settle_eqb :=
  repeat match goal with
         | |- context [Nat.eqb ?a ?b] => destruct (Nat.eqb_spec a b); try lia
         end.

Lemma invariant_step changes st l l1 :
  invariant changes st l -> step l l1 -> exists st1, invariant changes st1 l1.
Proof.
  intros I S. destruct I. destruct S as [l before r after s Hr Hs | l i Hi | l before i after s Hi].
  - (* a reaction fires *)
    assert (Hin : In r (reactions l)) by (rewrite Hr; apply in_elt).
    assert (Hrest : forall x, In x (before ++ after) <-> In x (reactions l) /\ x <> r).
    { intros x. rewrite Hr. apply NoDup_without. now rewrite <- Hr. }
    assert (Hnd : NoDup (before ++ after)).
    { rewrite Hr in inv_nodup0. now apply NoDup_remove_1 in inv_nodup0. }
    apply inv_reactions0 in Hin.
    destruct Hin as [(k & c & Hk & Hn & ->)|(k & Hk & ->)].
    + (* the [then] reaction of the change at the frontier *)
      cbn [thenReaction source] in Hs. rewrite inv_even0 in Hs.
      destruct (Nat.leb_spec k (frontier st)); [|discriminate]. injection Hs as <-.
      destruct st as [n|n|n s0]; cbn [unfired frontier] in *; try lia.
      assert (k = n) by lia. subst k.
      assert (Hlt : n < List.length changes) by (apply nth_error_Some; congruence).
      exists (Running n).
      constructor; cbn [fire thenReaction onFulfilled derived runCallback observe
                        with_invocations with_reactions unfired frontier phaseOf fresh
                        processingChain emitted reactions promises invocations observed];
        try assumption.
      * intros x. rewrite Hrest, inv_reactions0. split.
        -- intros [[(k & c' & Hk' & Hn' & ->)|(k & Hk' & ->)] Hne].
           ++ left. exists k, c'. repeat split; auto.
              destruct (Nat.eq_dec k n) as [->|]; [|lia].
              exfalso. apply Hne. congruence.
           ++ right. exists k. split; [lia | reflexivity].
        -- intros [(k & c' & Hk' & Hn' & ->)|(k & Hk' & ->)].
           ++ split; [left; exists k, c'; repeat split; auto; lia|].
              intros E. apply thenReaction_inj in E as [-> _]. lia.
           ++ split; [right; exists k; split; [lia | reflexivity]|].
              intros E. clash.
      * rewrite inv_invocations0, Hn. reflexivity.
      * now constructor.
    + (* the [catch] reaction of the change that ended *)
      cbn [catchReaction source] in Hs.
      destruct (Nat.eq_dec k (frontier st)) as [->|Hne];
        [|rewrite inv_later0 in Hs by lia; discriminate].
      rewrite inv_current0 in Hs.
      destruct st as [n|n|n s0]; try discriminate. injection Hs as ->.
      cbn [unfired frontier] in *.
      exists (Ready (S n)).
      assert (Hp : forall x, promises (fire (catchReaction n) s (with_reactions (before ++ after) l)) x
                            = if Nat.eqb x (2 * n + 2) then Some fulfilled else promises l x).
      { intros x. destruct s; reflexivity. }
      assert (Hsame : fresh (fire (catchReaction n) s (with_reactions (before ++ after) l))
                      = fresh l
                      /\ processingChain (fire (catchReaction n) s
                                            (with_reactions (before ++ after) l))
                         = processingChain l
                      /\ emitted (fire (catchReaction n) s (with_reactions (before ++ after) l))
                         = emitted l)
        by (destruct s; repeat split; reflexivity).
      destruct Hsame as (Hs1 & Hs2 & Hs3).
      constructor; cbn [unfired frontier phaseOf].
      * lia.
      * rewrite Hs1. assumption.
      * rewrite Hs2. assumption.
      * rewrite Hs3. assumption.
      * intros x.
        replace (reactions (fire (catchReaction n) s (with_reactions (before ++ after) l)))
          with (before ++ after) by (destruct s; reflexivity).
        rewrite Hrest, inv_reactions0. split.
        -- intros [[(k & c' & Hk' & Hn' & ->)|(k & Hk' & ->)] Hne].
           ++ left. exists k, c'. repeat split; auto.
           ++ right. exists k. split; [|reflexivity].
              destruct (Nat.eq_dec k n) as [->|]; [|lia]. exfalso. now apply Hne.
        -- intros [(k & c' & Hk' & Hn' & ->)|(k & Hk' & ->)].
           ++ split; [left; exists k, c'; repeat split; auto|].
              intros E. clash.
           ++ split; [right; exists k; split; [lia | reflexivity]|].
              intros E. apply catchReaction_inj in E. lia.
      * replace (reactions (fire (catchReaction n) s (with_reactions (before ++ after) l)))
          with (before ++ after) by (destruct s; reflexivity).
        assumption.
      * intros k. rewrite Hp, inv_even0. cbn [frontier].
        settle_eqb; destruct (Nat.leb_spec k n), (Nat.leb_spec k (S n)); try lia; reflexivity.
      * intros k Hlt. rewrite Hp. settle_eqb.
        destruct (Nat.eq_dec k n) as [->|]; [eauto|]. apply inv_odd0. lia.
      * rewrite Hp. settle_eqb. apply inv_later0. lia.
      * intros k Hlt. rewrite Hp. settle_eqb. apply inv_later0. lia.
      * replace (invocations (fire (catchReaction n) s (with_reactions (before ++ after) l)))
          with (invocations l) by (destruct s; reflexivity).
        assumption.
      * destruct s as [|reason]; cbn [phaseOf] in inv_serial0.
        -- exact inv_serial0.
        -- cbn. now constructor.
  - (* the call works *)
    exists st. rewrite inv_invocations0 in Hi.
    destruct st as [n|n|n s0]; try (now destruct Hi).
    destruct (nth_error changes n) as [c|] eqn:Hn; [|now destruct Hi].
    destruct Hi as [<-|[]].
    constructor; cbn [observe inv_index unfired frontier phaseOf fresh processingChain emitted
                      reactions promises invocations observed]; try assumption.
    + now rewrite Hn.
    + now constructor.
  - (* the call ends *)
    rewrite inv_invocations0 in Hi.
    destruct st as [n|n|n s0]; try (now destruct before).
    destruct (nth_error changes n) as [c|] eqn:Hn; [|now destruct before].
    destruct before as [|b before]; [|destruct before; discriminate].
    injection Hi as <- <-.
    exists (Settled n s).
    cbn [unfired frontier] in *.
    constructor; cbn [settle observe with_invocations inv_index inv_promise unfired frontier
                      phaseOf fresh processingChain emitted reactions promises invocations
                      observed app]; try assumption.
    + intros k. rewrite <- inv_even0. settle_eqb. reflexivity.
    + intros k Hlt. settle_eqb. now apply inv_odd0.
    + settle_eqb. reflexivity.
    + intros k Hlt. settle_eqb. now apply inv_later0.
    + reflexivity.
    + destruct s; cbn [phaseOf]; now constructor.
Qed.

Lemma run_invariant changes l : run changes l -> exists st, invariant changes st l.
Proof.
  induction 1 as [|changes l change _ [st I]|changes l l1 _ [st I] S].
  - exists (Ready 0). apply invariant_start.
  - exists st. now apply invariant_emit.
  - exact (invariant_step _ _ _ _ I S).
Qed.




Lemma steps_trans l l1 l2 : steps l l1 -> steps l1 l2 -> steps l l2.
Proof. induction 1; [auto|]. intros. econstructor; eauto. Qed.

Lemma steps_one l l1 : step l l1 -> steps l l1.
Proof. intros. econstructor; [eassumption | constructor]. Qed.

Lemma backlog_fire l before r after s :
  reactions l = before ++ r :: after ->
  backlog (fire r s (with_reactions (before ++ after) l)) < backlog l.
Proof.
  intros Hr. unfold backlog, fire. rewrite Hr.
  destruct (match s with fulfilled => onFulfilled r | rejected _ => onRejected r end)
    as [[index change|]|]; cbn [runCallback settle observe with_reactions
                                with_invocations reactions invocations];
    rewrite !length_app; cbn [List.length]; lia.
Qed.

Lemma backlog_end l before i after s :
  invocations l = before ++ i :: after ->
  backlog (settle (inv_promise i) s
             (observe (ended (inv_index i) s)
                (with_invocations (before ++ after) l))) < backlog l.
Proof.
  intros Hv. unfold backlog. rewrite Hv.
  cbn [settle observe with_invocations reactions invocations].
  rewrite !length_app; cbn [List.length]; lia.
Qed.

(** From every stage the loop can go on until every emitted change has
    been handled, whatever the outcome [outcome k] of each remaining
    call. *)
Lemma invariant_progress (outcome : nat -> settled) changes :
  forall b st l,
    backlog l <= b ->
    invariant changes st l ->
    exists l1,
      steps l l1
      /\ invariant changes (Ready (List.length changes)) l1
      /\ (forall k s, In (ended k s) (observed l1) ->
                      In (ended k s) (observed l) \/ s = outcome k).
Proof.
  induction b as [|b IH]; intros st l Hb I.
  - (* nothing registered: the stage is [Ready] at the end *)
    unfold backlog in Hb.
    assert (Hr : reactions l = []) by (destruct (reactions l); [reflexivity | cbn in Hb; lia]).
    assert (Hi : invocations l = []) by (destruct (invocations l); [reflexivity | cbn in Hb; lia]).
    exists l. split; [constructor|]. split; [|auto].
    destruct st as [n|n|n s].
    + destruct (Nat.eq_dec n (List.length changes)) as [->|Hne]; [exact I|].
      exfalso. pose proof (inv_frontier _ _ _ I) as Hf. cbn in Hf.
      assert (In (catchReaction n) (reactions l)).
      { apply (inv_reactions _ _ _ I). right. exists n. cbn. split; [lia | reflexivity]. }
      rewrite Hr in H. destruct H.
    + exfalso. pose proof (inv_frontier _ _ _ I) as Hf. cbn in Hf.
      pose proof (inv_invocations _ _ _ I) as Hv. cbn in Hv.
      destruct (nth_error changes n) eqn:Hn; [rewrite Hi in Hv; discriminate|].
      apply nth_error_None in Hn. lia.
    + exfalso. pose proof (inv_frontier _ _ _ I) as Hf. cbn in Hf.
      assert (In (catchReaction n) (reactions l)).
      { apply (inv_reactions _ _ _ I). right. exists n. cbn. split; [lia | reflexivity]. }
      rewrite Hr in H. destruct H.
  - destruct st as [n|n|n s].
    + destruct (Nat.eq_dec n (List.length changes)) as [->|Hne].
      { exists l. split; [constructor|]. split; [exact I | auto]. }
      pose proof (inv_frontier _ _ _ I) as Hf. cbn in Hf.
      destruct (nth_error changes n) as [c|] eqn:Hn; [|apply nth_error_None in Hn; lia].
      assert (Hin : In (thenReaction n c) (reactions l)).
      { apply (inv_reactions _ _ _ I). left. exists n, c. cbn. auto. }
      apply in_split in Hin as (before & after & Hr).
      assert (Hs : promises l (source (thenReaction n c)) = Some fulfilled).
      { cbn [thenReaction source]. rewrite (inv_even _ _ _ I). cbn [frontier].
        now rewrite Nat.leb_refl. }
      pose proof (step_fire l before _ after fulfilled Hr Hs) as S.
      destruct (invariant_step _ _ _ _ I S) as [st1 I1].
      pose proof (backlog_fire l _ _ _ fulfilled Hr) as Hlt.
      destruct (IH st1 _ (proj1 (Nat.lt_succ_r _ _) (Nat.lt_le_trans _ _ _ Hlt Hb)) I1)
        as (l1 & S1 & J1 & E1).
      exists l1. split; [econstructor; eassumption|]. split; [exact J1|].
      intros k s Hk. destruct (E1 k s Hk) as [H|H]; [|auto].
      cbn in H. apply in_app_or in H as [H|[H|[]]]; [auto | discriminate].
    + pose proof (inv_frontier _ _ _ I) as Hf. cbn in Hf.
      pose proof (inv_invocations _ _ _ I) as Hv. cbn in Hv.
      destruct (nth_error changes n) as [c|] eqn:Hn; [|apply nth_error_None in Hn; lia].
      pose proof (step_end l [] _ [] (outcome n) Hv) as S.
      destruct (invariant_step _ _ _ _ I S) as [st1 I1].
      pose proof (backlog_end l [] _ [] (outcome n) Hv) as Hlt.
      destruct (IH st1 _ (proj1 (Nat.lt_succ_r _ _) (Nat.lt_le_trans _ _ _ Hlt Hb)) I1)
        as (l1 & S1 & J1 & E1).
      exists l1. split; [econstructor; eassumption|]. split; [exact J1|].
      intros k s Hk. destruct (E1 k s Hk) as [H|H]; [|auto].
      cbn in H. apply in_app_or in H as [H|[H|[]]]; [auto|].
      injection H as <- <-. now right.
    + pose proof (inv_frontier _ _ _ I) as Hf. cbn in Hf.
      assert (Hin : In (catchReaction n) (reactions l)).
      { apply (inv_reactions _ _ _ I). right. exists n. cbn. split; [lia | reflexivity]. }
      apply in_split in Hin as (before & after & Hr).
      assert (Hs : promises l (source (catchReaction n)) = Some s).
      { cbn [catchReaction source]. exact (inv_current _ _ _ I). }
      pose proof (step_fire l before _ after s Hr Hs) as S.
      destruct (invariant_step _ _ _ _ I S) as [st1 I1].
      pose proof (backlog_fire l _ _ _ s Hr) as Hlt.
      destruct (IH st1 _ (proj1 (Nat.lt_succ_r _ _) (Nat.lt_le_trans _ _ _ Hlt Hb)) I1)
        as (l1 & S1 & J1 & E1).
      exists l1. split; [econstructor; eassumption|]. split; [exact J1|].
      intros k s' Hk. destruct (E1 k s' Hk) as [H|H]; [|auto].
      destruct s; cbn in H; [auto|].
      apply in_app_or in H as [H|[H|[]]]; [auto | discriminate].
Qed.

(** C5.  Whatever changes the store emits and whenever, and however long
    the calls of [handleChange] take: what is observed is serial -- the
    calls begin in the order of emission, none begins before the one
    before has ended and, if it was rejected, before its error was logged
    -- and from there the loop can go on until every emitted change has
    been handled, whatever the calls still to end do, fulfil or reject. *)
Theorem live_changes_are_serialized changes l :
  run changes l ->
  (exists ph, serial changes (observed l) ph)
  /\ (forall outcome : nat -> settled,
        exists l1,
          steps l l1
          /\ serial changes (observed l1) (Idle (List.length changes))
          /\ (forall k s, In (ended k s) (observed l1) ->
                          In (ended k s) (observed l) \/ s = outcome k)).
Proof.
  intros R. destruct (run_invariant _ _ R) as [st I]. split.
  - eexists. exact (inv_serial _ _ _ I).
  - intros outcome.
    destruct (invariant_progress outcome changes (backlog l) st l (Nat.le_refl _) I)
      as (l1 & S & J & E).
    exists l1. split; [exact S|]. split; [exact (inv_serial _ _ _ J) | exact E].
Qed.


Lemma live_changes_are_serialized_witness :
  run Demo.liveChanges Demo.firstRejected
  /\ ((exists ph, serial Demo.liveChanges (observed Demo.firstRejected) ph)
      /\ (forall outcome : nat -> settled,
            exists l1,
              steps Demo.firstRejected l1
              /\ serial Demo.liveChanges (observed l1) (Idle 2)
              /\ (forall k s, In (ended k s) (observed l1) ->
                              In (ended k s) (observed Demo.firstRejected)
                              \/ s = outcome k))).
Proof.
  assert (R : run Demo.liveChanges Demo.firstRejected).
  { eapply run_step.
    - apply (run_emit [Demo.changed Demo.bad] Demo.firstBegun).
      eapply run_step.
      + exact (run_emit [] start (Demo.changed Demo.bad) run_start).
      + exact (step_fire Demo.firstEmitted [] _ [catchReaction 0] fulfilled
                 eq_refl eq_refl).
    - exact (step_end Demo.secondEmitted []
               {| inv_index := 0; inv_change := Demo.changed Demo.bad;
                  inv_promise := 1 |} [] (rejected Demo.unavailable) eq_refl). }
  split; [exact R|].
  exact (live_changes_are_serialized Demo.liveChanges Demo.firstRejected R).
Defined.

End EventLoopFacts.

(* ================================================================= *)
(** ** More of [encryption.ts] *)

Lemma toHexString_length (bs : bytes) :
  List.length (toHexString bs) = (2 * List.length bs)%nat.
Proof.
  rewrite toHexString_flat_map. induction bs as [|b bs IH]; [reflexivity|].
  cbn [flat_map]. destruct (hexPair_shape b) as (c1 & c2 & -> & _ & _).
  cbn [app List.length]. rewrite IH. lia.
Qed.

(** X1.  [toHexString] writes two lower-case hexadecimal digits for each
    byte, and [fromHexString] reads back the array from them -- unless the
    array is empty: the empty string has no match, and [fromHexString]
    throws a [TypeError]. *)
Theorem hex_round_trip (bs : bytes) :
  List.length (toHexString bs) = (2 * List.length bs)%nat
  /\ Forall (fun c => isHexChar c = true) (toHexString bs)
  /\ fromHexString (toHexString bs)
     = match bs with
       | [] => inl (TypeError (js "Cannot read properties of null (reading 'map')"))
       | _ :: _ => inr bs
       end.
Proof.
  split; [apply toHexString_length|]. split; [apply toHexString_hex|].
  destruct bs as [|b bs]; [reflexivity|].
  now apply fromHexString_toHexString.
Qed.

Lemma dot_1_2_matches_none (s : jsstring) :
  (forall c, In c s -> JS.isLineTerminator c = true) -> JS.dot_1_2_matches s = [].
Proof.
  induction s as [|c s IH]; intros H; [reflexivity|].
  cbn [JS.dot_1_2_matches]. rewrite (H c (or_introl eq_refl)).
  apply IH. intros c' Hc'. apply H. now right.
Qed.

Lemma dot_1_2_matches_some (s : jsstring) c :
  In c s -> JS.isLineTerminator c = false -> JS.dot_1_2_matches s <> [].
Proof.
  induction s as [|c0 s IH]; intros Hin Hc; [destruct Hin|].
  cbn [JS.dot_1_2_matches].
  destruct (JS.isLineTerminator c0) eqn:E0.
  - destruct Hin as [->|Hin]; [congruence | now apply IH].
  - destruct s as [|c2 r]; [discriminate|].
    destruct (JS.isLineTerminator c2); discriminate.
Qed.

Lemma dot_1_2_matches_count (s : jsstring) :
  Forall (fun c => JS.isLineTerminator c = false) s ->
  List.length (JS.dot_1_2_matches s) = Nat.div2 (S (List.length s)).
Proof.
  enough (G : forall n s, (List.length s <= n)%nat ->
                          Forall (fun c => JS.isLineTerminator c = false) s ->
                          List.length (JS.dot_1_2_matches s) = Nat.div2 (S (List.length s)))
    by exact (G (List.length s) s (Nat.le_refl _)).
  clear s. induction n as [|n IH]; intros s Hn H.
  - destruct s; [reflexivity | cbn in Hn; lia].
  - destruct s as [|c [|c2 r]]; [reflexivity| |].
    + inversion H; subst. cbn [JS.dot_1_2_matches]. now rewrite H2.
    + inversion H as [|? ? H1 H']; subst. inversion H' as [|? ? H2 H'']; subst.
      cbn [JS.dot_1_2_matches]. rewrite H1, H2. cbn [List.length Nat.div2].
      rewrite (IH r); [reflexivity | cbn in Hn; lia | assumption].
Qed.

Lemma dot_1_2_matches_bound (s : jsstring) :
  (List.length (JS.dot_1_2_matches s) <= Nat.div2 (S (List.length s)))%nat.
Proof.
  enough (G : forall n s, (List.length s <= n)%nat ->
                          (List.length (JS.dot_1_2_matches s)
                           <= Nat.div2 (S (List.length s)))%nat)
    by exact (G (List.length s) s (Nat.le_refl _)).
  clear s. induction n as [|n IH]; intros s Hn.
  - destruct s; [cbn; lia | cbn in Hn; lia].
  - destruct s as [|c t]; [cbn; lia|].
    assert (Ht : (List.length (JS.dot_1_2_matches t) <= Nat.div2 (S (List.length t)))%nat)
      by (apply IH; cbn in Hn; lia).
    cbn [JS.dot_1_2_matches].
    destruct (JS.isLineTerminator c).
    + cbn [List.length]. rewrite Nat.div2_div in *.
      assert (S (List.length t) / 2 <= S (S (List.length t)) / 2)%nat
        by (apply Nat.Div0.div_le_mono; lia).
      lia.
    + destruct t as [|c2 r]; [cbn; lia|].
      assert (Hr : (List.length (JS.dot_1_2_matches r) <= Nat.div2 (S (List.length r)))%nat)
        by (apply IH; cbn in Hn; lia).
      destruct (JS.isLineTerminator c2) eqn:E2.
      * cbn [JS.dot_1_2_matches]. rewrite E2. cbn [List.length].
        change (Nat.div2 (S (S (S (List.length r)))))
          with (S (Nat.div2 (S (List.length r)))).
        lia.
      * cbn [List.length].
        change (Nat.div2 (S (S (S (List.length r)))))
          with (S (Nat.div2 (S (List.length r)))).
        lia.
Qed.

(** X2.  [fromHexString] checks nothing: it throws only when the string
    has no character for [/.{1,2}/g] to match (it is empty, or made of
    line terminators), and then a [TypeError]; on every other string it
    returns an array that is not empty, of at most one byte for every
    two characters -- exactly that many when the string has no line
    terminator, which the dot of the expression skips -- and a pair that
    starts with a character [parseInt] cannot read gives the byte 0. *)
Theorem fromHexString_checks_nothing (s : jsstring) :
  ((forall c, In c s -> JS.isLineTerminator c = true) ->
   fromHexString s = inl (TypeError (js "Cannot read properties of null (reading 'map')")))
  /\ (forall c, In c s -> JS.isLineTerminator c = false ->
      exists bs, fromHexString s = inr bs /\ bs <> [])
  /\ (Forall (fun c => JS.isLineTerminator c = false) s ->
      forall bs, fromHexString s = inr bs ->
                 List.length bs = Nat.div2 (S (List.length s)))
  /\ (forall bs, fromHexString s = inr bs ->
                 (List.length bs <= Nat.div2 (S (List.length s)))%nat)
  /\ (forall c1 c2,
        JS.hexDigitValue c1 = None -> JS.isStrWhiteSpace c1 = false ->
        c1 <> 0x2D -> c1 <> 0x2B -> JS.isLineTerminator c2 = false ->
        fromHexString [c1; c2] = inr [x00]).
Proof.
  unfold fromHexString, JS.match_dot_1_2. split; [|split; [|split; [|split]]].
  - intros H. now rewrite dot_1_2_matches_none.
  - intros c Hin Hc. pose proof (dot_1_2_matches_some s c Hin Hc) as Hne.
    destruct (JS.dot_1_2_matches s) as [|m ms]; [congruence|].
    eexists. split; [reflexivity | discriminate].
  - intros H bs. pose proof (dot_1_2_matches_count s H) as L.
    destruct (JS.dot_1_2_matches s) as [|m ms]; [discriminate|].
    intros [= <-]. rewrite <- L. cbn [map List.length]. now rewrite length_map.
  - intros bs. pose proof (dot_1_2_matches_bound s) as L.
    destruct (JS.dot_1_2_matches s) as [|m ms]; [discriminate|].
    intros [= <-]. cbn [map List.length] in *. now rewrite length_map.
  - intros c1 c2 Hd Hw Hm Hp Hl.
    assert (L1 : JS.isLineTerminator c1 = false).
    { unfold JS.isStrWhiteSpace in Hw. repeat (apply orb_false_iff in Hw as [Hw ?]). assumption. }
    cbn [JS.dot_1_2_matches]. rewrite L1, Hl. cbn [map].
    unfold JS.parseInt16. cbn [JS.trimStart]. rewrite Hw.
    assert (E : (match c1 :: [c2] with
                 | 0x2D :: t => ((-1)%Z, t)
                 | 0x2B :: t => (1%Z, t)
                 | _ => (1%Z, c1 :: [c2])
                 end) = (1%Z, [c1; c2])).
    { destruct c1 as [|p]; [reflexivity|].
      do 6 (destruct p as [p|p|]; try reflexivity); congruence. }
    rewrite E.
    assert (E2 : (match [c1; c2] with
                  | 0x30 :: 0x78 :: t => t
                  | 0x30 :: 0x58 :: t => t
                  | _ => [c1; c2]
                  end) = [c1; c2]).
    { destruct c1 as [|p]; [reflexivity|].
      do 6 (destruct p as [p|p|]; try reflexivity); vm_compute in Hd; discriminate. }
    rewrite E2. cbn [JS.hexDigits]. rewrite Hd. reflexivity.
Qed.

Lemma fromHexString_checks_nothing_witness :
  (exists bs, fromHexString (js "zz|no") = inr bs /\ bs <> [])
  /\ (exists bs, fromHexString [0x0A; 0x61; 0x62] = inr bs
                 /\ (List.length bs <= 2)%nat /\ List.length bs = 1%nat).
Proof.
  split.
  - apply (proj1 (proj2 (fromHexString_checks_nothing (js "zz|no"))) 0x7A).
    + left. reflexivity.
    + reflexivity.
  - exists [xab]. split; [reflexivity|]. split; [|reflexivity].
    exact (proj1 (proj2 (proj2 (proj2 (fromHexString_checks_nothing [0x0A; 0x61; 0x62]))))
             [xab] eq_refl).
Defined.

(** X3.  What [encrypt] resolves with has exactly one separator: before
    it the digits of the initialisation vector, which is the next draw of
    [getRandomValues], and after it the digits of what the cipher gave. *)
Theorem encrypt_output_format h key data st ct :
  deriveKey h = inr key -> keyCached h st ->
  List.length (getRandomValues (crypto h) (draws st) 12) = 12%nat ->
  subtle_encrypt (crypto h) (getRandomValues (crypto h) (draws st) 12) key
    (JS.TextEncoder_encode data) = inr ct ->
  exists c st1,
    encrypt h data st = (st1, inr c)
    /\ draws st1 = S (draws st)
    /\ JS.split 0x7C c
       = [toHexString (getRandomValues (crypto h) (draws st) 12); toHexString ct]
    /\ nth_error c 24 = Some 0x7C
    /\ List.length c = (25 + 2 * List.length ct)%nat.
Proof.
  intros Hk Hc Hlen He.
  set (iv := getRandomValues (crypto h) (draws st) 12) in *.
  exists (toHexString iv ++ js "|" ++ toHexString ct),
    {| keyPromise := Some (inr key); draws := S (draws st) |}.
  split; [|split; [reflexivity|split; [|split]]].
  - unfold encrypt, bind. rewrite (getKey_cached h key st Hk Hc).
    unfold randomBytes, await, ret. cbn [keyPromise draws]. fold iv. now rewrite He.
  - change (js "|" ++ toHexString ct) with (0x7C :: toHexString ct).
    apply split_two; apply toHexString_no_bar.
  - rewrite nth_error_app2 by (rewrite toHexString_length, Hlen; lia).
    rewrite toHexString_length, Hlen. reflexivity.
  - rewrite length_app, toHexString_length, Hlen. cbn [js app List.length map list_ascii_of_string].
    rewrite toHexString_length. lia.
Qed.

Lemma encrypt_output_format_witness :
  deriveKey Demo.helper = inr Demo.key
  /\ keyCached Demo.helper newHelperState
  /\ subtle_encrypt (crypto Demo.helper) (getRandomValues (crypto Demo.helper) 0 12) Demo.key
       (JS.TextEncoder_encode (js "hi")) = inr Demo.sealed
  /\ exists c st1,
       encrypt Demo.helper (js "hi") newHelperState = (st1, inr c)
       /\ JS.split 0x7C c = [js "000102030405060708090a0b"; js "babbc0"]
       /\ nth_error c 24 = Some 0x7C.
Proof.
  assert (Hk : deriveKey Demo.helper = inr Demo.key) by (vm_compute; reflexivity).
  assert (Hc : keyCached Demo.helper newHelperState) by (left; reflexivity).
  assert (He : subtle_encrypt (crypto Demo.helper) (getRandomValues (crypto Demo.helper) 0 12)
                 Demo.key (JS.TextEncoder_encode (js "hi")) = inr Demo.sealed)
    by (vm_compute; reflexivity).
  repeat (split; [assumption|]).
  destruct (encrypt_output_format Demo.helper Demo.key (js "hi") newHelperState Demo.sealed
              Hk Hc eq_refl He) as (c & st1 & E & _ & S & N & _).
  exists c, st1. split; [exact E|]. split; [|exact N].
  rewrite S. vm_compute. reflexivity.
Defined.

(** X4.  [encrypt] rejects with the very error of what failed, the
    derivation of the key or the cipher, and with nothing else; unlike
    [decrypt], it wraps nothing.  When the key cannot be derived, no
    initialisation vector is drawn. *)
Theorem encrypt_rejects_with_the_cause h data st e :
  keyCached h st ->
  (snd (encrypt h data st) = inl e <->
   deriveKey h = inl e
   \/ exists key,
        deriveKey h = inr key
        /\ subtle_encrypt (crypto h) (getRandomValues (crypto h) (draws st) 12) key
             (JS.TextEncoder_encode data) = inl e)
  /\ (deriveKey h = inl e -> draws (fst (encrypt h data st)) = draws st).
Proof.
  intros Hc. unfold encrypt, bind. rewrite (getKey_run h st Hc).
  destruct (deriveKey h) as [e0|key] eqn:Hk.
  - cbn [fst snd cacheKey draws]. split; [|reflexivity]. split.
    + intros [= <-]. now left.
    + intros [[= <-]|(key & [=] & _)]. reflexivity.
  - unfold randomBytes, await, ret. cbn [cacheKey keyPromise draws].
    destruct (subtle_encrypt (crypto h) (getRandomValues (crypto h) (draws st) 12) key
                (JS.TextEncoder_encode data)) as [e1|ct] eqn:He; cbn [fst snd].
    + split; [|discriminate]. split.
      * intros [= <-]. right. now exists key.
      * intros [[=]|(key' & [= <-] & He')]. congruence.
    + split; [|discriminate]. split; [discriminate|].
      intros [[=]|(key' & [= <-] & He')]. congruence.
Qed.

Lemma encrypt_rejects_with_the_cause_witness :
  keyCached Demo.keyless newHelperState
  /\ deriveKey Demo.keyless = inl Demo.noKey
  /\ snd (encrypt Demo.keyless (js "hi") newHelperState) = inl Demo.noKey
  /\ draws (fst (encrypt Demo.keyless (js "hi") newHelperState)) = 0%nat.
Proof.
  assert (Hc : keyCached Demo.keyless newHelperState) by (left; reflexivity).
  assert (Hk : deriveKey Demo.keyless = inl Demo.noKey) by reflexivity.
  split; [exact Hc|]. split; [exact Hk|].
  destruct (encrypt_rejects_with_the_cause Demo.keyless (js "hi") newHelperState Demo.noKey Hc)
    as [[_ R] D].
  split; [exact (R (or_introl Hk)) | exact (D Hk)].
Defined.

(** X5.  The promise of the key is made once and kept, also when it is
    rejected: the first call that needs the key stores the rejection, and
    from then on [encrypt] rejects with the same error and [decrypt] with
    the [DecryptionError] made of it, without asking the platform again
    and without drawing an initialisation vector. *)
Theorem rejected_key_is_kept h data e :
  (forall st, keyPromise st = None -> deriveKey h = inl e ->
              keyPromise (fst (encrypt h data st)) = Some (inl e)
              /\ keyPromise (fst (decrypt h data st)) = Some (inl e))
  /\ (forall st, keyPromise st = Some (inl e) ->
                 encrypt h data st = (st, inl e)
                 /\ decrypt h data st
                    = (st, inl (DecryptionError (js "Could not decrypt: " ++ describe e)))).
Proof.
  split.
  - intros st Hn Hk. unfold encrypt, decrypt, try_catch, bind, getKey, throw.
    rewrite Hn, Hk. split; reflexivity.
  - intros st Hs. unfold encrypt, decrypt, try_catch, bind, getKey, throw.
    rewrite Hs. split; reflexivity.
Qed.

Lemma rejected_key_is_kept_witness :
  let st := {| keyPromise := Some (inl Demo.noKey); draws := 3 |} in
  keyPromise st = Some (inl Demo.noKey)
  /\ encrypt Demo.helper (js "hi") st = (st, inl Demo.noKey)
  /\ (exists c, snd (encrypt Demo.helper (js "hi") newHelperState) = inr c).
Proof.
  intros st. split; [reflexivity|]. split.
  - exact (proj1 (proj2 (rejected_key_is_kept Demo.helper (js "hi") Demo.noKey) st eq_refl)).
  - eexists. vm_compute. reflexivity.
Defined.

(** X6.  A ciphertext made on one instance decrypts on every instance
    of the same passphrase, mode and platform, whatever either did
    before: the key comes from the passphrase alone. *)
Theorem decrypt_on_another_instance h key data st st' :
  cipherWorks h key -> keyCached h st -> keyCached h st' ->
  isWellFormed data = true -> startsWithBOM data = false ->
  exists c, snd (encrypt h data st) = inr c /\ snd (decrypt h c st') = inr data.
Proof.
  intros Hw Hc Hc' Hwf Hbom.
  destruct (encrypt_result h key data st Hw Hc) as (ct & He & Hne & Hiv & Hd & Henc).
  cbn zeta in *. destruct Hw as (Hk & _).
  eexists. split; [rewrite Henc; reflexivity|].
  rewrite (decrypt_hex h key _ ct st' Hk Hc' Hiv Hne), Hd.
  now rewrite TextDecoder_TextEncoder.
Qed.

Lemma decrypt_on_another_instance_witness :
  let h := Toy.helper "p1" raw in
  let busy := fst (encrypt h (js "other") (fst (encrypt h (js "more") newHelperState))) in
  (exists key, cipherWorks h key)
  /\ keyCached h newHelperState /\ keyCached h busy
  /\ exists c, snd (encrypt h (js "hi") busy) = inr c
               /\ snd (decrypt h c newHelperState) = inr (js "hi").
Proof.
  intros h busy.
  assert (H1 : keyCached h newHelperState) by (left; reflexivity).
  assert (H2 : keyCached h busy) by (right; vm_compute; reflexivity).
  split; [exact (Toy_cipherWorks "p1" raw)|]. split; [exact H1|]. split; [exact H2|].
  destruct (Toy_cipherWorks "p1" raw) as [key Hw].
  exact (decrypt_on_another_instance h key (js "hi") busy newHelperState Hw H2 H1
           eq_refl eq_refl).
Defined.

Lemma toHexString_injective a b : toHexString a = toHexString b -> a = b.
Proof.
  intros E. destruct a as [|x a], b as [|y b]; [reflexivity| | |].
  - apply (f_equal (@List.length N)) in E. rewrite !toHexString_length in E. discriminate.
  - apply (f_equal (@List.length N)) in E. rewrite !toHexString_length in E. discriminate.
  - pose proof (fromHexString_toHexString (x :: a) ltac:(discriminate)) as A.
    pose proof (fromHexString_toHexString (y :: b) ltac:(discriminate)) as B.
    rewrite E in A. congruence.
Qed.

(** X7.  Two encryptions on one instance, one after the other, use
    two draws of [getRandomValues], one after the other; when the draws
    differ the ciphertexts differ, also for the same plaintext. *)
Theorem another_draw_another_ciphertext h key data data' st c1 st1 c2 st2 :
  cipherWorks h key -> keyCached h st ->
  encrypt h data st = (st1, inr c1) ->
  encrypt h data' st1 = (st2, inr c2) ->
  getRandomValues (crypto h) (draws st) 12 <> getRandomValues (crypto h) (S (draws st)) 12 ->
  c1 <> c2.
Proof.
  intros Hw Hc E1 E2 Hrand.
  destruct (encrypt_result h key data st Hw Hc) as (ct1 & _ & _ & _ & _ & R1).
  cbn zeta in R1. rewrite R1 in E1. injection E1 as <- <-.
  destruct (encrypt_result h key data' {| keyPromise := Some (inr key); draws := S (draws st) |}
              Hw (keyCached_after h key _ (proj1 Hw))) as (ct2 & _ & _ & _ & _ & R2).
  cbn zeta in R2. cbn [draws] in R2. rewrite R2 in E2. injection E2 as <- <-.
  intros E. apply (f_equal (JS.split 0x7C)) in E.
  change (js "|" ++ toHexString ct1) with (0x7C :: toHexString ct1) in E.
  change (js "|" ++ toHexString ct2) with (0x7C :: toHexString ct2) in E.
  rewrite !split_two in E by apply toHexString_no_bar.
  injection E as E _. apply Hrand. now apply toHexString_injective.
Qed.

Lemma another_draw_another_ciphertext_witness :
  let h := Toy.helper "p1" derive in
  (exists key, cipherWorks h key)
  /\ keyCached h newHelperState
  /\ getRandomValues (crypto h) 0 12 <> getRandomValues (crypto h) 1 12
  /\ snd (encrypt h (js "hi") newHelperState)
     <> snd (encrypt h (js "hi") (fst (encrypt h (js "hi") newHelperState))).
Proof.
  intros h.
  assert (H1 : keyCached h newHelperState) by (left; reflexivity).
  assert (H2 : getRandomValues (crypto h) 0 12 <> getRandomValues (crypto h) 1 12)
    by (vm_compute; discriminate).
  split; [exact (Toy_cipherWorks "p1" derive)|]. split; [exact H1|]. split; [exact H2|].
  destruct (Toy_cipherWorks "p1" derive) as [key Hw].
  destruct (encrypt h (js "hi") newHelperState) as [st1 [e|c1]] eqn:E1;
    [vm_compute in E1; discriminate|].
  cbn [fst snd].
  destruct (encrypt h (js "hi") st1) as [st2 [e|c2]] eqn:E2; [discriminate|].
  cbn [snd]. intros [= E].
  exact (another_draw_another_ciphertext h key _ _ newHelperState c1 st1 c2 st2 Hw H1 E1 E2
           H2 E).
Defined.

(* ================================================================= *)
(** ** Identifiers: [table_id] and [parseFullId] *)

Lemma indexOf_None c s : JS.indexOf c s = None <-> ~ In c s.
Proof.
  induction s as [|x s IH]; cbn [JS.indexOf In]; [tauto|].
  destruct (N.eqb_spec x c) as [->|Hne].
  - split; [discriminate | intros H; exfalso; apply H; now left].
  - destruct (JS.indexOf c s).
    + split; [discriminate|]. intros H. exfalso.
      destruct IH as [_ IH]. discriminate IH. tauto.
    + split; [|reflexivity]. intros _ [E|I]; [congruence|]. now apply (proj1 IH).
Qed.

Lemma indexOf_app c a b : ~ In c a -> JS.indexOf c (a ++ c :: b) = Some (List.length a).
Proof.
  induction a as [|x a IH]; intros Hn; cbn [app JS.indexOf List.length].
  - now rewrite N.eqb_refl.
  - destruct (N.eqb_spec x c) as [->|Hne]; [exfalso; apply Hn; now left|].
    rewrite IH; [reflexivity|]. intros H. apply Hn. now right.
Qed.

Lemma indexOf_split c s i :
  JS.indexOf c s = Some i ->
  s = firstn i s ++ c :: skipn (S i) s /\ ~ In c (firstn i s).
Proof.
  revert i. induction s as [|x s IH]; intros i; cbn [JS.indexOf]; [discriminate|].
  destruct (N.eqb_spec x c) as [->|Hne].
  - intros [= <-]. cbn. split; [reflexivity | tauto].
  - destruct (JS.indexOf c s) as [j|]; [|discriminate]. intros [= <-].
    destruct (IH j eq_refl) as [E N]. cbn [firstn skipn app In]. split.
    + f_equal. exact E.
    + intros [H|H]; [congruence | contradiction].
Qed.

Lemma parseFullId_joined tbl id :
  ~ In 0x5F tbl ->
  parseFullId (tbl ++ js "_" ++ id) = Some {| parsed_table := tbl; parsed_id := id |}.
Proof.
  intros Hn. unfold parseFullId. change (js "_" ++ id) with (0x5F :: id).
  rewrite (indexOf_app _ _ _ Hn). unfold JS.slice.
  rewrite Nat.sub_0_r, Nat.add_1_r. cbn [skipn].
  rewrite firstn_app, Nat.sub_diag, firstn_all. cbn [firstn]. rewrite app_nil_r.
  f_equal. f_equal.
  change (skipn (S (List.length tbl)) (tbl ++ 0x5F :: id)) with
    (match tbl ++ 0x5F :: id with [] => [] | _ :: l => skipn (List.length tbl) l end).
  replace id with (skipn (S (List.length tbl)) (tbl ++ 0x5F :: id)) at 2; [reflexivity|].
  rewrite skipn_app. rewrite skipn_all2 by lia.
  replace (S (List.length tbl) - List.length tbl)%nat with 1%nat by lia. reflexivity.
Qed.

Lemma parseFullId_parts fullId p :
  parseFullId fullId = Some p ->
  fullId = parsed_table p ++ js "_" ++ parsed_id p /\ ~ In 0x5F (parsed_table p).
Proof.
  unfold parseFullId. destruct (JS.indexOf 0x5F fullId) as [idx|] eqn:E; [|discriminate].
  intros [= <-]. cbn [parsed_table parsed_id]. unfold JS.slice.
  rewrite Nat.sub_0_r, Nat.add_1_r. cbn [skipn].
  change (match fullId with [] => [] | _ :: l => skipn idx l end) with (skipn (S idx) fullId).
  exact (indexOf_split _ _ _ E).
Qed.

(** X8.  [parseFullId] splits at the first underscore: it gives [null]
    exactly on the strings without one, and otherwise the only table
    without underscore and the only rest that, joined by an underscore,
    give the string.  So the identifier [table_id] that [put], [get] and
    [delete] form is read back as [table] and [id] exactly when the name
    of the table has no underscore; with one, the table read back is the
    name up to its first underscore. *)
Theorem parseFullId_splits_at_first_underscore :
  (forall fullId, parseFullId fullId = None <-> ~ In 0x5F fullId)
  /\ (forall fullId p,
        parseFullId fullId = Some p <->
        fullId = parsed_table p ++ js "_" ++ parsed_id p /\ ~ In 0x5F (parsed_table p))
  /\ (forall tbl id,
        parseFullId (tbl ++ js "_" ++ id) = Some {| parsed_table := tbl; parsed_id := id |}
        <-> ~ In 0x5F tbl)
  /\ (forall a b id,
        ~ In 0x5F a ->
        parseFullId ((a ++ js "_" ++ b) ++ js "_" ++ id)
        = Some {| parsed_table := a; parsed_id := b ++ js "_" ++ id |}).
Proof.
  split; [|split; [|split]].
  - intros fullId. unfold parseFullId. rewrite <- indexOf_None.
    destruct (JS.indexOf 0x5F fullId); [split; discriminate | tauto].
  - intros fullId p. split; [apply parseFullId_parts|].
    intros [-> Hn]. rewrite (parseFullId_joined _ _ Hn). now destruct p.
  - intros tbl id. split; [|apply parseFullId_joined].
    intros H. exact (proj2 (parseFullId_parts _ _ H)).
  - intros a b id Hn. rewrite <- !app_assoc. now apply parseFullId_joined.
Qed.

Lemma parseFullId_splits_at_first_underscore_witness :
  ~ In 0x5F (js "my")
  /\ parseFullId (js "my_table" ++ js "_" ++ js "x")
     = Some {| parsed_table := js "my"; parsed_id := js "table_x" |}
  /\ parseFullId (js "expenses" ++ js "_" ++ js "a_b")
     = Some {| parsed_table := js "expenses"; parsed_id := js "a_b" |}.
Proof.
  assert (H1 : ~ In 0x5F (js "my")).
  { cbn. intros H. repeat (destruct H as [H|H]; [discriminate|]). exact H. }
  assert (H2 : ~ In 0x5F (js "expenses")).
  { cbn. intros H. repeat (destruct H as [H|H]; [discriminate|]). exact H. }
  destruct parseFullId_splits_at_first_underscore as (_ & _ & J & S).
  split; [exact H1|]. split.
  - exact (S (js "my") (js "table") (js "x") H1).
  - exact (proj2 (J (js "expenses") (js "a_b")) H2).
Defined.

(* ================================================================= *)
(** ** Documents: [encryptDoc], [decryptDoc], [put] *)

Lemma getProp_spread props :
  NoDup (map fst props) ->
  forall o k,
    getProp k (spread o (JObj props))
    = match getProp k props with
      | Some v => Some v
      | None => getProp k o
      end.
Proof.
  unfold spread. cbn [ownProperties].
  induction props as [|[k0 v0] props IH]; intros Hnd o k; [reflexivity|].
  inversion Hnd as [|? ? Hnin Hnd']; subst. cbn [fold_left getProp].
  rewrite (IH Hnd').
  destruct (jsstring_eqb_spec k k0) as [->|Hne].
  - rewrite (proj2 (getProp_None_iff k0 props) Hnin). apply getProp_defineProp_eq.
  - destruct (getProp k props); [reflexivity|].
    apply getProp_defineProp_ne. congruence.
Qed.

Lemma NoDup_setProp k v o : NoDup (map fst o) -> NoDup (map fst (setProp k v o)).
Proof.
  intros H. unfold setProp. destruct (jsstring_eqb k (js "__proto__")); [exact H|].
  now apply NoDup_defineProp.
Qed.

Lemma NoDup_partition l data0 root0 :
  NoDup (map fst data0) ->
  NoDup (map fst (fst (fold_left partitionStep l (data0, root0)))).
Proof.
  revert data0 root0. induction l as [|[k0 v0] l IH]; intros data0 root0 H; [exact H|].
  cbn [fold_left]. unfold partitionStep at 2.
  destruct (jsstring_eqb k0 (js "_id") || jsstring_eqb k0 (js "_rev")); [now apply IH|].
  destruct (JS.startsWith k0 (js "_")); apply IH; [exact H | now apply NoDup_setProp].
Qed.

Lemma NoDup_userData doc : NoDup (map fst (userData doc)).
Proof. apply NoDup_partition. constructor. Qed.

Section Documents.

Variable JSON_parse : jsstring -> result jsvalue.
Variable JSON_stringify : jsvalue -> jsstring.
Variable generateId : nat -> jsstring.
Variable this : EncryptedPouch.

Let h := encryptionHelper this.

(** X9.  What [encryptDoc] makes of a document, stored under [table_id]
    and read back, [decryptDoc] turns into a document again: its [_id] is
    [id], its [_rev] the revision of the stored record, and its other
    fields are the fields of the document whose names do not start with
    an underscore, with their values ([JSON.parse] undoing
    [JSON.stringify] on them).  The fields passed through in cleartext
    are not given back. *)
Theorem decryptDoc_after_encryptDoc doc tbl id rev conflictRevs key w :
  cipherWorks h key ->
  keyCached h (helperState w) ->
  NoDup (map fst doc) ->
  isWellFormed (JSON_stringify (JObj (userData doc))) = true ->
  startsWithBOM (JSON_stringify (JObj (userData doc))) = false ->
  JSON_parse (JSON_stringify (JObj (userData doc))) = inr (JObj (userData doc)) ->
  ~ In 0x5F tbl ->
  exists record payload w1 out w2,
    encryptDoc JSON_stringify this doc (tbl ++ js "_" ++ id) w = (w1, inr record)
    /\ getProp (js "d") record = Some (JStr payload)
    /\ decryptDoc JSON_parse this
         {| _id := tbl ++ js "_" ++ id; _rev := rev; d := Some payload;
            _conflicts := conflictRevs |} w1
       = (w2, inr out)
    /\ getProp (js "_id") out = Some (JStr id)
    /\ getProp (js "_rev") out = Some (optString rev)
    /\ (forall k, isUserKey k = true -> getProp k out = getProp k doc)
    /\ (forall k, isUserKey k = false -> k <> js "_id" -> k <> js "_rev" ->
                  getProp k out = None).
Proof.
  intros Hw Hk Hnd Hwf Hbom Hjson Htbl.
  set (fullId := tbl ++ js "_" ++ id).
  pose proof (partition_data_independent doc fullId) as Hdata.
  destruct (partitionFields doc fullId) as [data rootFields] eqn:P. cbn [fst] in Hdata. subst data.
  destruct (encrypt_run this key (JSON_stringify (JObj (userData doc))) (helperState w) Hw Hk)
    as (payload & st1 & He & Hk1 & Hd).
  rewrite TextDecoder_TextEncoder in Hd by assumption.
  set (w1 := set_helperState (fun _ => st1) w).
  set (stored := {| _id := fullId; _rev := rev; d := Some payload; _conflicts := conflictRevs |}).
  destruct (decryptDoc_run JSON_parse this stored w1 Hk1) as (w2 & E2 & _).
  assert (O : decryptDocOutcome JSON_parse this stored
              = inr (spread [(js "_id", JStr id); (js "_rev", optString rev)]
                       (JObj (userData doc)))).
  { unfold decryptDocOutcome. cbn [stored _id d _rev]. unfold fullId.
    rewrite (parseFullId_joined _ _ Htbl). cbn [decryptFieldOutcome parsed_id].
    rewrite Hd. cbn [bindR]. now rewrite Hjson. }
  rewrite O in E2.
  pose proof (partition_fold doc [] [(js "_id", JStr fullId)] Hnd) as F.
  exists (setProp (js "d") (JStr payload) rootFields), payload, w1,
    (spread [(js "_id", JStr id); (js "_rev", optString rev)] (JObj (userData doc))), w2.
  split; [|split; [|split; [exact E2|]]].
  - unfold encryptDoc. fold fullId. rewrite P. unfold bind, onHelper. rewrite He.
    reflexivity.
  - unfold setProp.
    replace (jsstring_eqb (js "d") (js "__proto__")) with false by reflexivity.
    apply getProp_defineProp_eq.
  - assert (U : forall k, getProp k (userData doc)
                          = if isUserKey k then getProp k doc else None).
    { intros k. unfold userData, partitionFields.
      rewrite (partition_data_fold doc [] _ [(js "_id", JStr fullId)]).
      rewrite (proj1 (F k)). destruct (isUserKey k); [|reflexivity].
      now destruct (getProp k doc). }
    split; [|split; [|split]].
    + rewrite getProp_spread by apply NoDup_userData. rewrite U. reflexivity.
    + rewrite getProp_spread by apply NoDup_userData. rewrite U. reflexivity.
    + intros k Hu. rewrite getProp_spread by apply NoDup_userData. rewrite U, Hu.
      destruct (getProp k doc) eqn:G; [reflexivity|].
      destruct (userKey_facts _ Hu) as (A & B & _). cbn [getProp]. now rewrite A, B.
    + intros k Hu Hid Hrev. rewrite getProp_spread by apply NoDup_userData. rewrite U, Hu.
      cbn [getProp].
      destruct (jsstring_eqb_spec k (js "_id")); [contradiction|].
      destruct (jsstring_eqb_spec k (js "_rev")); [contradiction|]. reflexivity.
Qed.


Lemma put_run tbl doc w :
  let idValue := if truthy (propValue (js "_id") doc) then propValue (js "_id") doc
                 else JStr (generateId (generated w)) in
  let doc1 := if truthy (propValue (js "_id") doc) then doc
              else setProp (js "_id") (JStr (generateId (generated w))) doc in
  let w0 := if truthy (propValue (js "_id") doc) then w
            else set_generated (S (generated w)) w in
  let fullId := tbl ++ js "_" ++ ToString idValue in
  put JSON_stringify generateId this tbl doc w
  = match encrypt h (JSON_stringify (JObj (userData doc))) (helperState w) with
    | (st1, inl e) => (set_helperState (fun _ => st1) w0, inl e)
    | (st1, inr payload) =>
        let record0 := setProp (js "d") (JStr payload) (snd (partitionFields doc fullId)) in
        let record := if hasProp (js "_rev") doc && truthy (propValue (js "_rev") doc)
                      then setProp (js "_rev") (propValue (js "_rev") doc) record0
                      else record0 in
        (log (store_put record) (set_helperState (fun _ => st1) w0),
         match db_put (db this) record with
         | inl e => inl e
         | inr rev =>
             inr (defineProp (js "_rev") (JStr rev) (defineProp (js "_id") idValue doc1))
         end)
    end.
Proof.
  intros idValue doc1 w0 fullId.
  assert (Hid : propValue (js "_id") doc1 = idValue).
  { unfold doc1, idValue. destruct (truthy (propValue (js "_id") doc)); [reflexivity|].
    unfold propValue, setProp.
    replace (jsstring_eqb (js "_id") (js "__proto__")) with false by reflexivity.
    now rewrite getProp_defineProp_eq. }
  assert (Hrev : getProp (js "_rev") doc1 = getProp (js "_rev") doc).
  { unfold doc1. destruct (truthy (propValue (js "_id") doc)); [reflexivity|].
    unfold setProp. replace (jsstring_eqb (js "_id") (js "__proto__")) with false by reflexivity.
    apply getProp_defineProp_ne. discriminate. }
  assert (Hpart : partitionFields doc1 fullId = partitionFields doc fullId).
  { unfold doc1. destruct (truthy (propValue (js "_id") doc)); [reflexivity|].
    unfold setProp. replace (jsstring_eqb (js "_id") (js "__proto__")) with false by reflexivity.
    apply partition_ignores_id. }
  assert (Hh : helperState w0 = helperState w).
  { unfold w0. now destruct (truthy (propValue (js "_id") doc)). }
  pose proof (partition_data_independent doc fullId) as Hdata.
  unfold put. unfold bind at 1.
  replace ((if negb (truthy (propValue (js "_id") doc))
            then id <- freshId generateId ;; ret (setProp (js "_id") (JStr id) doc)
            else ret doc) w) with (w0, @inr exn _ doc1)
    by (unfold w0, doc1; destruct (truthy (propValue (js "_id") doc)); reflexivity).
  rewrite Hid. fold fullId.
  unfold bind at 1. unfold encryptDoc. rewrite Hpart.
  destruct (partitionFields doc fullId) as [data rootFields] eqn:P.
  cbn [fst snd] in Hdata |- *. subst data.
  unfold bind at 1. unfold onHelper. rewrite Hh. fold h.
  destruct (encrypt h (JSON_stringify (JObj (userData doc))) (helperState w)) as [st1 [e|payload]];
    [reflexivity|].
  unfold ret at 1. cbv beta iota zeta.
  unfold hasProp, propValue. rewrite Hrev.
  unfold bind, emit, modify, await, ret.
  match goal with |- context [db_put (db this) ?r] => destruct (db_put (db this) r) end;
    reflexivity.
Qed.

(** X10.  [put] rejects with the error of [encrypt] before the store is
    called, and with the error of the store (a conflict of revisions,
    say) when the store rejects; neither is wrapped or swallowed.
    Otherwise it resolves with the fields of the document given, its
    [_id] -- the one given or, when that is missing or falsy, the next
    identifier generated -- and the [_rev] of the answer of the store.
    An identifier is generated only when it is needed. *)
Theorem put_outcome tbl doc w :
  let idValue := if truthy (propValue (js "_id") doc) then propValue (js "_id") doc
                 else JStr (generateId (generated w)) in
  let text := JSON_stringify (JObj (userData doc)) in
  let result := put JSON_stringify generateId this tbl doc w in
  generated (fst result)
  = (if truthy (propValue (js "_id") doc) then generated w else S (generated w))
  /\ (forall e, snd (encrypt h text (helperState w)) = inl e ->
                snd result = inl e /\ trace (fst result) = trace w)
  /\ (forall payload,
        snd (encrypt h text (helperState w)) = inr payload ->
        exists record,
          trace (fst result) = trace w ++ [store_put record]
          /\ getProp (js "d") record = Some (JStr payload)
          /\ match db_put (db this) record with
             | inl e => snd result = inl e
             | inr rev =>
                 exists out,
                   snd result = inr out
                   /\ getProp (js "_id") out = Some idValue
                   /\ getProp (js "_rev") out = Some (JStr rev)
                   /\ forall k, k <> js "_id" -> k <> js "_rev" ->
                                getProp k out = getProp k doc
             end).
Proof.
  intros idValue text result. unfold result. rewrite put_run. fold idValue. fold text.
  set (w0 := if truthy (propValue (js "_id") doc) then w
             else set_generated (S (generated w)) w).
  assert (G : generated w0
              = if truthy (propValue (js "_id") doc) then generated w else S (generated w)).
  { unfold w0. now destruct (truthy (propValue (js "_id") doc)). }
  assert (T : trace w0 = trace w).
  { unfold w0. now destruct (truthy (propValue (js "_id") doc)). }
  destruct (encrypt h text (helperState w)) as [st1 [e|payload]]; cbn [fst snd].
  - split; [exact G|]. split; [|discriminate].
    intros e' [= <-]. split; [reflexivity | exact T].
  - cbv zeta. split; [cbn; exact G|]. split; [discriminate|].
    intros payload' [= <-].
    match goal with |- context [store_put ?r] => set (record := r) end.
    exists record. split; [cbn; now rewrite T|]. split.
    + unfold record.
      destruct (hasProp (js "_rev") doc && truthy (propValue (js "_rev") doc)).
      * unfold setProp at 1.
        replace (jsstring_eqb (js "_rev") (js "__proto__")) with false by reflexivity.
        rewrite getProp_defineProp_ne by discriminate. unfold setProp.
        replace (jsstring_eqb (js "d") (js "__proto__")) with false by reflexivity.
        apply getProp_defineProp_eq.
      * unfold setProp.
        replace (jsstring_eqb (js "d") (js "__proto__")) with false by reflexivity.
        apply getProp_defineProp_eq.
    + destruct (db_put (db this) record) as [e|rev]; [reflexivity|].
      eexists. split; [reflexivity|]. split; [|split].
      * rewrite getProp_defineProp_ne by discriminate. apply getProp_defineProp_eq.
      * apply getProp_defineProp_eq.
      * intros k Hid Hrev. rewrite !getProp_defineProp_ne by congruence.
        destruct (truthy (propValue (js "_id") doc)); [reflexivity|].
        unfold setProp.
        replace (jsstring_eqb (js "_id") (js "__proto__")) with false by reflexivity.
        apply getProp_defineProp_ne. congruence.
Qed.

End Documents.

Lemma decryptDoc_after_encryptDoc_witness :
  let doc := [(js "_id", JStr (js "x")); (js "amount", JNum 15);
              (js "_deleted", JBool false)] in
  let this := Demo.pouch [] defaultListener in
  NoDup (map fst doc)
  /\ Demo.parse (Demo.stringify (JObj (userData doc))) = inr (JObj (userData doc))
  /\ ~ In 0x5F (js "expenses")
  /\ exists record payload w1 out w2,
       encryptDoc Demo.stringify this doc (js "expenses" ++ js "_" ++ js "x") newWorld
       = (w1, inr record)
       /\ getProp (js "d") record = Some (JStr payload)
       /\ decryptDoc Demo.parse this
            {| _id := js "expenses" ++ js "_" ++ js "x"; _rev := Some (js "1-a");
               d := Some payload; _conflicts := None |} w1
          = (w2, inr out)
       /\ getProp (js "_id") out = Some (JStr (js "x"))
       /\ getProp (js "amount") out = Some (JNum 15)
       /\ getProp (js "_deleted") out = None.
Proof.
  intros doc this.
  assert (Hnd : NoDup (map fst doc)).
  { repeat constructor; cbn; intros H; repeat (destruct H as [H|H]; [discriminate|]); exact H. }
  assert (Hj : Demo.parse (Demo.stringify (JObj (userData doc))) = inr (JObj (userData doc)))
    by (vm_compute; reflexivity).
  assert (Ht : ~ In 0x5F (js "expenses")).
  { cbn. intros H. repeat (destruct H as [H|H]; [discriminate|]). exact H. }
  repeat (split; [assumption|]).
  destruct Demo_cipherWorks as [key Hw].
  destruct (decryptDoc_after_encryptDoc Demo.parse Demo.stringify this doc (js "expenses")
              (js "x") (Some (js "1-a")) None key newWorld Hw Demo_keyCached Hnd
              eq_refl eq_refl Hj Ht)
    as (record & payload & w1 & out & w2 & E1 & D & E2 & I & _ & U & P).
  exists record, payload, w1, out, w2.
  split; [exact E1|]. split; [exact D|]. split; [exact E2|]. split; [exact I|]. split.
  - rewrite U by reflexivity. reflexivity.
  - apply P; [reflexivity | discriminate | discriminate].
Defined.

Lemma put_outcome_witness :
  let doc := [(js "amount", JNum 15)] in
  let this := Demo.pouch [] defaultListener in
  exists payload out,
    snd (encrypt Demo.helper (Demo.stringify (JObj (userData doc))) (helperState newWorld))
    = inr payload
    /\ put Demo.stringify Demo.generateId this (js "expenses") doc newWorld
       = (fst (put Demo.stringify Demo.generateId this (js "expenses") doc newWorld), inr out)
    /\ getProp (js "_id") out = Some (JStr (js "id-0"))
    /\ getProp (js "_rev") out = Some (JStr (js "1-new"))
    /\ getProp (js "amount") out = Some (JNum 15)
    /\ generated (fst (put Demo.stringify Demo.generateId this (js "expenses") doc newWorld))
       = 1%nat.
Proof.
  intros doc this.
  destruct (put_outcome Demo.stringify Demo.generateId this (js "expenses") doc newWorld)
    as (G & _ & R).
  destruct (snd (encrypt Demo.helper (Demo.stringify (JObj (userData doc)))
                   (helperState newWorld))) as [e|payload] eqn:E;
    [vm_compute in E; discriminate|].
  destruct (R payload E) as (record & _ & _ & S).
  change (db_put (db this) record) with (@inr exn jsstring (js "1-new")) in S.
  destruct S as (out & O & I & V & K).
  exists payload, out. split; [reflexivity|]. split.
  - rewrite <- O. now destruct (put Demo.stringify Demo.generateId this (js "expenses") doc newWorld).
  - split; [exact I|]. split; [exact V|]. split; [|exact G].
    rewrite K by discriminate. reflexivity.
Defined.

(* ================================================================= *)
(** ** Scans and live changes: what reaches the listener *)

Section Scans.

Variable JSON_parse : jsstring -> result jsvalue.
Variable this : EncryptedPouch.

Let h := encryptionHelper this.

Lemma reportErrors_returns errs w :
  onErrorReturns (listener this) -> keyCached h (helperState w) ->
  exists w1, reportErrors this errs w = (w1, inr tt)
             /\ reaches this w (errorNotice this errs) w1.
Proof.
  intros Herr Hk. unfold reportErrors, errorNotice.
  destruct (onError (listener this)) as [callback|] eqn:E.
  - destruct errs as [|e errs]; cbn [nonEmpty].
    + exists w. split; [reflexivity | now apply reaches_refl].
    + rewrite (Herr callback E). eexists. apply call_returns, Hk.
  - exists w. split; [reflexivity | now apply reaches_refl].
Qed.

Lemma reportConflicts_returns cs w :
  onConflictReturns (listener this) -> keyCached h (helperState w) ->
  exists w1, reportConflicts this cs w = (w1, inr tt)
             /\ reaches this w (conflictNotice this cs) w1.
Proof.
  intros Hc Hk. unfold reportConflicts, conflictNotice.
  destruct (onConflict (listener this)) as [callback|] eqn:E.
  - destruct cs as [|c cs]; cbn [nonEmpty].
    + exists w. split; [reflexivity | now apply reaches_refl].
    + rewrite (Hc callback E). eexists. apply call_returns, Hk.
  - exists w. split; [reflexivity | now apply reaches_refl].
Qed.

Lemma buildConflictInfo_returns encryptedDoc parsed winnerDoc w :
  parseFullId (_id encryptedDoc) = Some parsed ->
  onErrorReturns (listener this) ->
  keyCached h (helperState w) ->
  exists w1,
    buildConflictInfo JSON_parse this (_id encryptedDoc) (_rev encryptedDoc)
      (conflictsOf (_conflicts encryptedDoc)) winnerDoc w
    = (w1, inr (conflictInfoOf JSON_parse this encryptedDoc parsed winnerDoc))
    /\ reaches this w
         (errorNotice this (lostRevisions JSON_parse this (_id encryptedDoc)
                              (conflictsOf (_conflicts encryptedDoc)))) w1.
Proof.
  intros Hp Hl Hk. unfold buildConflictInfo. rewrite Hp.
  destruct (conflictLoop_run JSON_parse this (_id encryptedDoc)
              (conflictsOf (_conflicts encryptedDoc)) w noLocals Hk) as (w1 & E1 & R1).
  destruct (conflictStep_fold JSON_parse this (_id encryptedDoc)
              (conflictsOf (_conflicts encryptedDoc)) noLocals) as (F & E & _ & _).
  cbn zeta in F, E. cbn [noLocals found errors app] in F, E.
  destruct (reportErrors_returns (lostRevisions JSON_parse this (_id encryptedDoc)
              (conflictsOf (_conflicts encryptedDoc))) w1 Hl (reaches_keyCached _ _ _ _ R1))
    as (w2 & E2 & R2).
  exists w2. split.
  - unfold bind at 1. unfold withLocals.
    rewrite E1. rewrite E. unfold bind. rewrite E2. unfold ret, conflictInfoOf. now rewrite F.
  - exact (reaches_trans _ _ _ _ _ _ R1 R2).
Qed.

(** *** [getAll] *)

Lemma getAll_row_run tbl row w l :
  keyCached h (helperState w) ->
  exists w1, getAll_row JSON_parse this tbl row (w, l)
             = ((w1, getStep JSON_parse this tbl l row), inr tt)
             /\ reaches this w [] w1.
Proof.
  intros Hk. unfold getAll_row, getStep, scanned.
  destruct (row_doc row) as [encryptedDoc|];
    [|exists w; split; [reflexivity | now apply reaches_refl]].
  destruct (isDesign (row_id row));
    [exists w; split; [reflexivity | now apply reaches_refl]|].
  destruct (hasPayload encryptedDoc);
    [|exists w; split; [reflexivity | now apply reaches_refl]].
  destruct (decryptDoc_run JSON_parse this encryptedDoc w Hk) as (w1 & E1 & R1).
  exists w1. split; [|exact R1].
  unfold try_catch, bind. rewrite (onWorld_run _ _ _ _ _ E1).
  destruct (decryptDocOutcome JSON_parse this encryptedDoc) as [e|doc]; [reflexivity|].
  destruct (parseFullId (_id encryptedDoc)) as [parsed|]; [|reflexivity].
  unfold wanted. destruct tbl as [[|c t]|]; try reflexivity.
  destruct (jsstring_eqb (parsed_table parsed) (c :: t)); reflexivity.
Qed.

Lemma getAll_loop_run tbl rows w l :
  keyCached h (helperState w) ->
  exists w1, forEach rows (getAll_row JSON_parse this tbl) (w, l)
             = ((w1, fold_left (getStep JSON_parse this tbl) rows l), inr tt)
             /\ reaches this w [] w1.
Proof.
  revert w l. induction rows as [|row rows IH]; intros w l Hk.
  - exists w. split; [reflexivity | now apply reaches_refl].
  - destruct (getAll_row_run tbl row w l Hk) as (w1 & E1 & R1).
    destruct (IH w1 (getStep JSON_parse this tbl l row) (reaches_keyCached _ _ _ _ R1))
      as (w2 & E2 & R2).
    exists w2. split.
    + cbn [forEach fold_left]. now rewrite (bind_ok _ _ _ _ _ E1).
    + exact (reaches_trans _ _ _ _ _ _ R1 R2).
Qed.

Lemma getStep_fold tbl rows l :
  let l' := fold_left (getStep JSON_parse this tbl) rows l in
  found l' = found l
             ++ map snd (filter (fun p => wanted tbl (fst p))
                           (flat_map (decryptable JSON_parse this) rows))
  /\ errors l' = errors l ++ flat_map (undecryptable JSON_parse this) rows.
Proof.
  revert l. induction rows as [|row rows IH]; intros l; cbn zeta.
  - cbn. now rewrite !app_nil_r.
  - cbn [fold_left flat_map].
    destruct (IH (getStep JSON_parse this tbl l row)) as (F & E).
    cbn zeta in *. rewrite F, E. rewrite filter_app, map_app.
    unfold getStep, decryptable, undecryptable.
    destruct (scanned row) as [encryptedDoc|]; [|cbn; rewrite ?app_nil_r; auto].
    destruct (decryptDocOutcome JSON_parse this encryptedDoc) as [e|doc] eqn:O.
    + cbn. rewrite <- ?app_assoc, ?app_nil_r. auto.
    + destruct (decryptDocOutcome_parsed _ _ _ _ O) as [parsed Hp]. rewrite Hp.
      cbn [filter fst]. destruct (wanted tbl (parsed_table parsed)); cbn;
        rewrite <- ?app_assoc, ?app_nil_r; auto.
Qed.

(** X12.  [getAll] rejects when [allDocs] does, with the same error:
    unlike [loadAll] it has no [try] around the scan.  Otherwise the
    records that do not decrypt are the argument of one call of
    [onError], made when there is one and the callback is registered; no
    other callback is called.  When that call throws, [getAll] rejects
    with what it threw: the call is outside any [try].  When it is not
    made or returns, [getAll] resolves with the documents of the store
    that decrypt, in the order of the store, those of the table asked
    for or, without a table or with the empty string for it, of every
    table. *)
Theorem getAll_returns_what_decrypts tbl w :
  (forall e, db_allDocs (db this) true = inl e ->
             getAll JSON_parse this tbl w = (w, inl e))
  /\ (forall rows,
        db_allDocs (db this) true = inr rows ->
        keyCached h (helperState w) ->
        let failed := flat_map (undecryptable JSON_parse this) rows in
        exists w1,
          getAll JSON_parse this tbl w
          = (w1, match reportThrows this failed with
                 | None =>
                     inr (map snd (filter (fun p => wanted tbl (fst p))
                                     (flat_map (decryptable JSON_parse this) rows)))
                 | Some e => inl e
                 end)
          /\ trace w1 = trace w ++ errorNotice this failed)
  /\ getAll JSON_parse this (Some []) w = getAll JSON_parse this None w.
Proof.
  split; [|split; [|reflexivity]].
  - intros e He. unfold getAll, bind, await. now rewrite He.
  - intros rows Hrows Hk failed.
    destruct (getAll_loop_run tbl rows w noLocals Hk) as (w1 & E1 & R1).
    destruct (getStep_fold tbl rows noLocals) as (F & E). cbn zeta in F, E.
    cbn [noLocals found errors app] in F, E.
    destruct (reportErrors_outcome this failed w1 (reaches_keyCached _ _ _ _ R1))
      as (w2 & E2 & R2).
    exists w2. split.
    + unfold getAll. unfold bind at 1. unfold await. rewrite Hrows.
      unfold bind at 1. unfold withLocals. rewrite E1. rewrite E. fold failed.
      unfold bind. rewrite E2.
      destruct (reportThrows this failed); [reflexivity|].
      unfold ret. now rewrite F.
    + destruct (reaches_trans _ _ _ _ _ _ R1 R2) as (T & _). exact T.
Qed.

(** *** [handleChange] *)

(** X13.  [handleChange] rejects only with what [onDelete], [onError] or
    [onConflict] throw: when these return it resolves, whatever the
    change, the store, the cipher and [onChange] do. *)
Theorem handleChange_resolves change w :
  (forall x, onDelete (listener this) x = None) ->
  onErrorReturns (listener this) ->
  onConflictReturns (listener this) ->
  snd (handleChange JSON_parse this change w) = inr tt.
Proof.
  intros Hd Herr Hc.
  assert (R : forall errs w0, snd (reportErrors this errs w0) = inr tt).
  { intros errs w0. unfold reportErrors.
    destruct (onError (listener this)) as [cb|] eqn:E; [|reflexivity].
    destruct (nonEmpty errs); [|reflexivity]. now rewrite (Herr cb E). }
  assert (C : forall cs w0, snd (reportConflicts this cs w0) = inr tt).
  { intros cs w0. unfold reportConflicts.
    destruct (onConflict (listener this)) as [cb|] eqn:E; [|reflexivity].
    destruct (nonEmpty cs); [|reflexivity]. now rewrite (Hc cb E). }
  assert (F : forall l w0,
             snd ((reportErrors this (errors l) ;; reportConflicts this (conflicts l)) w0)
             = inr tt).
  { intros l w0. unfold bind. pose proof (R (errors l) w0) as R1.
    destruct (reportErrors this (errors l) w0) as [w2 r2]. cbn [snd] in R1. subst r2.
    apply C. }
  unfold handleChange.
  destruct (isDesign (change_id change)); [reflexivity|].
  destruct (upserted change) as [encryptedDoc|].
  - unfold bind at 1. unfold withLocals, try_catch.
    match goal with |- context [match ?m (w, noLocals) with _ => _ end] =>
      destruct (m (w, noLocals)) as [[w1 l1] [e|[]]] end; cbn [onLocals fst snd]; apply F.
  - destruct (parseFullId (change_id change)); [|reflexivity].
    now rewrite Hd.
Qed.


Lemma errorNotice_nil : errorNotice this [] = [].
Proof. unfold errorNotice. now destruct (onError (listener this)). Qed.

Lemma conflictNotice_nil : conflictNotice this [] = [].
Proof. unfold conflictNotice. now destruct (onConflict (listener this)). Qed.

(** The [try] block of [handleChange] with its [catch], on a record that
    decrypts. *)
Lemma handleChange_try encryptedDoc doc parsed w :
  decryptDocOutcome JSON_parse this encryptedDoc = inr doc ->
  parseFullId (_id encryptedDoc) = Some parsed ->
  keyCached h (helperState w) ->
  onErrorReturns (listener this) ->
  let batch := [{| table := parsed_table parsed; docs := [doc] |}] in
  let info := conflictInfoOf JSON_parse this encryptedDoc parsed doc in
  exists w1,
    try_catch
      (doc <- onWorld (decryptDoc JSON_parse this encryptedDoc) ;;
       (if hasConflicts (_conflicts encryptedDoc) then
          conflictInfo <- onWorld (buildConflictInfo JSON_parse this (_id encryptedDoc)
                                     (_rev encryptedDoc)
                                     (conflictsOf (_conflicts encryptedDoc)) doc) ;;
          onLocals (push_conflicts conflictInfo)
        else ret tt) ;;
       match parseFullId (_id encryptedDoc) with
       | Some parsed =>
           let changes := [{| table := parsed_table parsed; docs := [doc] |}] in
           onWorld (call (called_onChange changes) (onChange (listener this) changes))
       | None => ret tt
       end)
      (fun error => onLocals (push_errors (errorEvent encryptedDoc error))) (w, noLocals)
    = ((w1, {| docsByTable := []; found := [];
               errors := match onChange (listener this) batch with
                         | Some e => [errorEvent encryptedDoc e]
                         | None => []
                         end;
               conflicts := if hasConflicts (_conflicts encryptedDoc) then [info] else [] |}),
       inr tt)
    /\ reaches this w
         ((if hasConflicts (_conflicts encryptedDoc)
           then errorNotice this (lostRevisions JSON_parse this (_id encryptedDoc)
                                    (conflictsOf (_conflicts encryptedDoc)))
           else [])
          ++ [called_onChange batch]) w1.
Proof.
  intros Hd Hp Hk Herr batch info.
  destruct (decryptDoc_run JSON_parse this encryptedDoc w Hk) as (w1 & E1 & R1).
  rewrite Hd in E1. rewrite Hp.
  assert (exists w2,
             (if hasConflicts (_conflicts encryptedDoc) then
                conflictInfo <- onWorld (buildConflictInfo JSON_parse this (_id encryptedDoc)
                                           (_rev encryptedDoc)
                                           (conflictsOf (_conflicts encryptedDoc)) doc) ;;
                onLocals (push_conflicts conflictInfo)
              else ret tt) (w1, noLocals)
             = ((w2, {| docsByTable := []; found := []; errors := [];
                        conflicts := if hasConflicts (_conflicts encryptedDoc)
                                     then [info] else [] |}), inr tt)
             /\ reaches this w1
                  (if hasConflicts (_conflicts encryptedDoc)
                   then errorNotice this (lostRevisions JSON_parse this (_id encryptedDoc)
                                            (conflictsOf (_conflicts encryptedDoc)))
                   else []) w2) as (w2 & E2 & R2).
  { destruct (hasConflicts (_conflicts encryptedDoc)).
    - destruct (buildConflictInfo_returns encryptedDoc parsed doc w1 Hp Herr
                  (reaches_keyCached _ _ _ _ R1)) as (w2 & E2 & R2).
      exists w2. split; [|exact R2].
      unfold bind. rewrite (onWorld_run _ _ _ _ _ E2). reflexivity.
    - exists w1. split; [reflexivity|]. apply reaches_refl.
      exact (reaches_keyCached _ _ _ _ R1). }
  exists (log (called_onChange batch) w2). split.
  - unfold try_catch. unfold bind at 1. rewrite (onWorld_run _ _ _ _ _ E1).
    unfold bind at 1. rewrite E2. cbv zeta. fold batch.
    unfold onWorld, call, bind, emit, modify. cbn [fst snd].
    destruct (onChange (listener this) batch); reflexivity.
  - pose proof (reaches_log this w2 (called_onChange batch) (reaches_keyCached _ _ _ _ R2)) as R3.
    exact (reaches_trans _ _ _ _ _ _ R1 (reaches_trans _ _ _ _ _ _ R2 R3)).
Qed.

(** X14.  What a live change of a record with a payload makes
    [handleChange] call, [onError] and [onConflict] returning.  If the
    record does not decrypt: [onError], with the record and the error,
    and nothing else.  If it decrypts: first [onError] for the competing
    revisions that do not decrypt, if it has conflicts; then [onChange]
    with the document in the batch of its table; then, if [onChange]
    threw, [onError] with the record and what [onChange] threw, as if the
    record had not decrypted; then [onConflict], if it has conflicts.  In
    each case a callback that is not registered is not called, and
    [handleChange] resolves. *)
Theorem handleChange_notifications change encryptedDoc w :
  isDesign (change_id change) = false ->
  upserted change = Some encryptedDoc ->
  keyCached h (helperState w) ->
  onErrorReturns (listener this) ->
  onConflictReturns (listener this) ->
  exists w1,
    handleChange JSON_parse this change w = (w1, inr tt)
    /\ trace w1
       = trace w
         ++ match decryptDocOutcome JSON_parse this encryptedDoc,
                  parseFullId (_id encryptedDoc) with
            | inr doc, Some parsed =>
                let batch := [{| table := parsed_table parsed; docs := [doc] |}] in
                (if hasConflicts (_conflicts encryptedDoc)
                 then errorNotice this (lostRevisions JSON_parse this (_id encryptedDoc)
                                          (conflictsOf (_conflicts encryptedDoc)))
                 else [])
                ++ [called_onChange batch]
                ++ match onChange (listener this) batch with
                   | Some e => errorNotice this [errorEvent encryptedDoc e]
                   | None => []
                   end
                ++ (if hasConflicts (_conflicts encryptedDoc)
                    then conflictNotice this
                           [conflictInfoOf JSON_parse this encryptedDoc parsed doc]
                    else [])
            | inl e, _ => errorNotice this [errorEvent encryptedDoc e]
            | inr _, None => []
            end.
Proof.
  intros Hdes Hup Hk Herr Hc. unfold handleChange. rewrite Hdes, Hup.
  destruct (decryptDocOutcome JSON_parse this encryptedDoc) as [e|doc] eqn:O.
  - destruct (decryptDoc_run JSON_parse this encryptedDoc w Hk) as (w1 & E1 & R1).
    rewrite O in E1.
    destruct (reportErrors_returns [errorEvent encryptedDoc e] w1 Herr
                (reaches_keyCached _ _ _ _ R1)) as (w2 & E2 & R2).
    destruct (reportConflicts_returns [] w2 Hc (reaches_keyCached _ _ _ _ R2))
      as (w3 & E3 & R3).
    exists w3. split.
    + unfold bind at 1. unfold withLocals, try_catch. unfold bind at 1.
      rewrite (onWorld_run _ _ _ _ _ E1). cbn [onLocals fst snd push_errors noLocals errors
                                               conflicts app].
      unfold bind. rewrite E2. exact E3.
    + destruct (reaches_trans _ _ _ _ _ _ R1 (reaches_trans _ _ _ _ _ _ R2 R3)) as (T & _).
      rewrite T, conflictNotice_nil, app_nil_r. reflexivity.
  - destruct (decryptDocOutcome_parsed _ _ _ _ O) as [parsed Hp]. rewrite Hp.
    destruct (handleChange_try encryptedDoc doc parsed w O Hp Hk Herr) as (w1 & E1 & R1).
    cbv zeta in E1, R1 |- *.
    set (batch := [{| table := parsed_table parsed; docs := [doc] |}]) in *.
    set (errs := match onChange (listener this) batch with
                 | Some e => [errorEvent encryptedDoc e]
                 | None => []
                 end) in *.
    set (cs := if hasConflicts (_conflicts encryptedDoc)
               then [conflictInfoOf JSON_parse this encryptedDoc parsed doc] else []) in *.
    destruct (reportErrors_returns errs w1 Herr (reaches_keyCached _ _ _ _ R1))
      as (w2 & E2 & R2).
    destruct (reportConflicts_returns cs w2 Hc (reaches_keyCached _ _ _ _ R2))
      as (w3 & E3 & R3).
    exists w3. split.
    + unfold bind at 1. unfold withLocals. rewrite Hp in E1. rewrite E1.
      cbn [errors conflicts]. unfold bind. rewrite E2. exact E3.
    + destruct (reaches_trans _ _ _ _ _ _ R1 (reaches_trans _ _ _ _ _ _ R2 R3)) as (T & _).
      rewrite T. rewrite <- !app_assoc. f_equal. f_equal. cbn [app]. f_equal. f_equal.
      * unfold errs. destruct (onChange (listener this) batch); [reflexivity|].
        apply errorNotice_nil.
      * unfold cs. destruct (hasConflicts (_conflicts encryptedDoc)); [reflexivity|].
        apply conflictNotice_nil.
Qed.


(** *** [loadAll] *)

Lemma loadAll_row_returns row w l :
  onErrorReturns (listener this) ->
  keyCached h (helperState w) ->
  exists w1, loadAll_row JSON_parse this row (w, l)
             = ((w1, loadStep JSON_parse this l row), inr tt)
             /\ reaches this w (loadEvents JSON_parse this row) w1.
Proof.
  intros Hl Hk. unfold loadAll_row, loadStep, loadEvents, scanned.
  destruct (row_doc row) as [encryptedDoc|];
    [|exists w; split; [reflexivity | now apply reaches_refl]].
  destruct (isDesign (row_id row));
    [exists w; split; [reflexivity | now apply reaches_refl]|].
  destruct (hasPayload encryptedDoc);
    [|exists w; split; [reflexivity | now apply reaches_refl]].
  destruct (decryptDoc_run JSON_parse this encryptedDoc w Hk) as (w1 & E1 & R1).
  destruct (decryptDocOutcome JSON_parse this encryptedDoc) as [e|doc] eqn:O.
  - exists w1. split; [|exact R1].
    unfold try_catch, bind. rewrite (onWorld_run _ _ _ _ _ E1). reflexivity.
  - destruct (decryptDocOutcome_parsed _ _ _ _ O) as [parsed Hp]. rewrite Hp.
    destruct (hasConflicts (_conflicts encryptedDoc)).
    + destruct (buildConflictInfo_returns encryptedDoc parsed doc w1 Hp Hl
                  (reaches_keyCached _ _ _ _ R1)) as (w2 & E2 & R2).
      exists w2. split; [|exact (reaches_trans _ _ _ _ _ _ R1 R2)].
      unfold try_catch, bind. rewrite (onWorld_run _ _ _ _ _ E1).
      unfold onLocals at 1. cbn [fst snd].
      rewrite (onWorld_run _ _ _ _ _ E2). reflexivity.
    + exists w1. split; [|exact R1].
      unfold try_catch, bind. rewrite (onWorld_run _ _ _ _ _ E1). reflexivity.
Qed.

Lemma loadAll_loop_returns rows w l :
  onErrorReturns (listener this) ->
  keyCached h (helperState w) ->
  exists w1, forEach rows (loadAll_row JSON_parse this) (w, l)
             = ((w1, fold_left (loadStep JSON_parse this) rows l), inr tt)
             /\ reaches this w (flat_map (loadEvents JSON_parse this) rows) w1.
Proof.
  intros Hl. revert w l. induction rows as [|row rows IH]; intros w l Hk.
  - exists w. split; [reflexivity | now apply reaches_refl].
  - destruct (loadAll_row_returns row w l Hl Hk) as (w1 & E1 & R1).
    destruct (IH w1 (loadStep JSON_parse this l row) (reaches_keyCached _ _ _ _ R1))
      as (w2 & E2 & R2).
    exists w2. split.
    + cbn [forEach fold_left]. now rewrite (bind_ok _ _ _ _ _ E1).
    + exact (reaches_trans _ _ _ _ _ _ R1 R2).
Qed.

Lemma nonEmpty_true {A} (l : list A) : l <> [] -> nonEmpty l = true.
Proof. destruct l; [congruence | reflexivity]. Qed.

(** X15.  When [onChange] throws in [loadAll], the error is written to
    the console as a failure of [loadAll], and the two calls that would
    follow are not made: the records that did not decrypt are not
    reported to [onError], and the conflicts found are not reported to
    [onConflict].  [loadAll] still resolves and opens the subscription. *)
Theorem loadAll_stops_reporting_when_onChange_throws rows e w :
  db_allDocs (db this) true = inr rows ->
  keyCached h (helperState w) ->
  onErrorReturns (listener this) ->
  let batches := fold_left pushPair (flat_map (decryptable JSON_parse this) rows) [] in
  batches <> [] ->
  onChange (listener this) batches = Some e ->
  exists w1,
    loadAll JSON_parse this w = (w1, inr tt)
    /\ trace w1
       = trace w
         ++ flat_map (loadEvents JSON_parse this) rows
         ++ [called_onChange batches;
             console_error (js "[EncryptedPouch] loadAll failed:") e;
             store_changes (handles w)]
    /\ conflictCalls (trace w1) = conflictCalls (trace w)
    /\ errorCalls (trace w1)
       = errorCalls (trace w)
         ++ flat_map (fun row => errorCalls (loadEvents JSON_parse this row)) rows.
Proof.
  intros Hrows Hk Herr batches Hne Hthrow.
  destruct (loadAll_loop_returns rows w noLocals Herr Hk) as (w1 & E1 & R1).
  destruct (loadStep_fold JSON_parse this rows noLocals) as (D & _).
  cbn zeta in D. cbn [noLocals docsByTable] in D. fold batches in D.
  destruct R1 as (T & _ & _ & _ & _ & _ & Hh).
  eexists. split; [|split; [|split]].
  - unfold loadAll. unfold bind at 1.
    erewrite try_catch_throws.
    2:{ unfold bind at 1. unfold await. rewrite Hrows.
        unfold bind at 1. unfold withLocals. rewrite E1. rewrite D.
        unfold bind at 1. rewrite (nonEmpty_true _ Hne).
        rewrite Hthrow. unfold call, bind, emit, modify, throw. reflexivity. }
    reflexivity.
  - cbn. rewrite T, Hh. rewrite <- !app_assoc. reflexivity.
  - cbn. rewrite T. rewrite !conflictCalls_app.
    rewrite (proj2 (loadEvents_calls JSON_parse this rows)). cbn. now rewrite !app_nil_r.
  - cbn. rewrite T. rewrite !errorCalls_app, errorCalls_flat_map. cbn.
    now rewrite !app_nil_r.
Qed.

(** *** The fields of a [ConflictInfo] *)

(** X16.  The [ConflictInfo] that [buildConflictInfo] makes names the
    document ([docId], and [table] and [id] as [parseFullId] reads
    them) and its current revision; its losers are the competing
    revisions that can be fetched and decrypted, in the order of
    [conflictRevs]; and the others are reported to [onError] in the same
    order, each under [docId@rev] with its error and the stub
    [{ _id, _rev }] for [rawDoc]. *)
Theorem conflict_info_keeps_the_order encryptedDoc parsed winnerDoc w :
  parseFullId (_id encryptedDoc) = Some parsed ->
  onErrorReturns (listener this) ->
  keyCached h (helperState w) ->
  let fullId := _id encryptedDoc in
  let revs := conflictsOf (_conflicts encryptedDoc) in
  exists info lost w1,
    buildConflictInfo JSON_parse this fullId (_rev encryptedDoc) revs winnerDoc w
    = (w1, inr info)
    /\ trace w1 = trace w ++ errorNotice this lost
    /\ ci_docId info = fullId
    /\ ci_table info ++ js "_" ++ ci_id info = fullId
    /\ ci_currentRev info = _rev encryptedDoc
    /\ Forall2 (fun rev loser => revisionOutcome JSON_parse this fullId rev = inr loser)
         (filter (revisionDecrypts JSON_parse this fullId) revs) (ci_losers info)
    /\ Forall2 (fun rev ev =>
                  exists e, revisionOutcome JSON_parse this fullId rev = inl e
                            /\ ev = {| ev_docId := fullId ++ js "@" ++ rev;
                                       ev_error := toError e;
                                       ev_rawDoc := {| _id := fullId; _rev := Some rev;
                                                       d := None; _conflicts := None |} |})
         (filter (fun rev => negb (revisionDecrypts JSON_parse this fullId rev)) revs) lost.
Proof.
  intros Hp Herr Hk fullId revs.
  destruct (buildConflictInfo_returns encryptedDoc parsed winnerDoc w Hp Herr Hk)
    as (w1 & E1 & R1).
  destruct (losers_in_order JSON_parse this fullId revs) as [L1 L2].
  exists (conflictInfoOf JSON_parse this encryptedDoc parsed winnerDoc),
    (lostRevisions JSON_parse this fullId revs), w1.
  split; [exact E1|]. split; [apply R1|]. split; [reflexivity|].
  split; [symmetry; exact (proj1 (parseFullId_parts _ _ Hp))|].
  split; [reflexivity|]. split; [exact L1 | exact L2].
Qed.


(** *** The batches of [loadAll] *)

Lemma docsOf_pushByTable t t' doc m :
  docsOf t (pushByTable t' doc m)
  = if jsstring_eqb t t' then docsOf t m ++ [doc] else docsOf t m.
Proof.
  unfold docsOf. induction m as [|b m IH]; cbn [pushByTable find table docs].
  - destruct (jsstring_eqb t t'); reflexivity.
  - destruct (jsstring_eqb_spec t' (table b)) as [->|Hne]; cbn [find table docs].
    + destruct (jsstring_eqb t (table b)); reflexivity.
    + destruct (jsstring_eqb_spec t (table b)) as [->|Hne'].
      * destruct (jsstring_eqb_spec (table b) t'); [congruence | reflexivity].
      * exact IH.
Qed.

Lemma docsOf_fold t xs m0 :
  docsOf t (fold_left pushPair xs m0)
  = docsOf t m0 ++ map snd (filter (fun p => jsstring_eqb t (fst p)) xs).
Proof.
  revert m0. induction xs as [|[t' doc] xs IH]; intros m0; cbn [fold_left filter map].
  - now rewrite app_nil_r.
  - rewrite IH. unfold pushPair at 1. cbn [fst snd]. rewrite docsOf_pushByTable.
    destruct (jsstring_eqb t t'); cbn [map snd]; now rewrite <- ?app_assoc.
Qed.

Lemma docsOf_In b m : NoDup (map table m) -> In b m -> docsOf (table b) m = docs b.
Proof.
  unfold docsOf. induction m as [|b0 m IH]; intros Hnd Hin; [destruct Hin|].
  inversion Hnd as [|? ? Hnin Hnd']; subst. cbn [find].
  destruct Hin as [->|Hin]; [now rewrite jsstring_eqb_refl|].
  destruct (jsstring_eqb_spec (table b) (table b0)) as [E|Hne]; [|now apply IH].
  exfalso. apply Hnin. rewrite <- E. now apply in_map.
Qed.

Lemma existsb_table t ts : existsb (jsstring_eqb t) ts = true <-> In t ts.
Proof.
  rewrite existsb_exists. split.
  - intros (x & Hx & E). now destruct (jsstring_eqb_spec t x); [subst|].
  - intros H. exists t. split; [exact H | apply jsstring_eqb_refl].
Qed.

Lemma tables_fold xs m0 :
  map table (fold_left pushPair xs m0)
  = fold_left (fun acc t => if existsb (jsstring_eqb t) acc then acc else acc ++ [t])
      (map fst xs) (map table m0).
Proof.
  revert m0. induction xs as [|[t doc] xs IH]; intros m0; [reflexivity|].
  cbn [fold_left map fst]. rewrite IH. f_equal. unfold pushPair. cbn [fst snd].
  destruct (existsb (jsstring_eqb t) (map table m0)) eqn:E.
  - apply pushByTable_old. now apply existsb_table.
  - apply pushByTable_new. intros H. apply existsb_table in H. congruence.
Qed.

(** X17.  The one call of [onChange] that [loadAll] makes has the tables
    in the order in which the store first shows a decryptable document
    of each, every table once, and in the batch of a table the
    decryptable documents of that table, all of them, in the order of
    the store. *)
Theorem loadAll_batches_in_store_order rows w :
  db_allDocs (db this) true = inr rows ->
  listenerReturns (listener this) ->
  keyCached h (helperState w) ->
  let loaded := flat_map (decryptable JSON_parse this) rows in
  loaded <> [] ->
  exists w1 evs batches,
    loadAll JSON_parse this w = (w1, inr tt)
    /\ trace w1 = trace w ++ evs
    /\ changeCalls evs = [batches]
    /\ map table batches = firstSeen (map fst loaded)
    /\ NoDup (map table batches)
    /\ forall b, In b batches ->
                 docs b = map snd (filter (fun p => jsstring_eqb (table b) (fst p)) loaded).
Proof.
  intros Hrows Hl Hk loaded Hne.
  destruct (loadAll_run JSON_parse this rows w Hrows Hl Hk) as (w1 & E & _ & T).
  cbn zeta in T.
  destruct (loadStep_fold JSON_parse this rows noLocals) as (D & Er & C & _).
  cbn zeta in D, Er, C. cbn [noLocals docsByTable errors conflicts app] in D, Er, C.
  rewrite D, Er, C in T. fold loaded in T.
  destruct (pushPair_fold loaded [] (NoDup_nil _)) as (Hnd & _). cbn zeta in Hnd.
  destruct (batches_of loaded) as (_ & _ & _ & B4). cbn zeta in B4.
  set (batches := fold_left pushPair loaded []) in *.
  assert (Hb : batches <> []) by (intros H; apply Hne; now apply B4).
  eexists w1, _, batches. split; [exact E|]. split; [rewrite <- app_assoc in T; exact T|].
  split; [|split; [|split]].
  - destruct (loadEvents_calls JSON_parse this rows) as (L1 & _).
    destruct (errorNotice_calls this (flat_map (undecryptable JSON_parse this) rows))
      as (N1 & _).
    destruct (conflictNotice_calls this (flat_map (conflicted JSON_parse this) rows))
      as (M1 & _).
    destruct (changeNotice_calls batches) as (_ & _ & P3).
    rewrite !changeCalls_app, L1, N1, M1, P3, (nonEmpty_true _ Hb). reflexivity.
  - unfold batches. rewrite tables_fold. reflexivity.
  - exact Hnd.
  - intros b Hin. rewrite <- (docsOf_In b batches Hnd Hin).
    unfold batches. rewrite docsOf_fold. reflexivity.
Qed.


Lemma loadAll_changeCalls rows w :
  db_allDocs (db this) true = inr rows ->
  listenerReturns (listener this) ->
  keyCached h (helperState w) ->
  let batches := fold_left pushPair (flat_map (decryptable JSON_parse this) rows) [] in
  exists w1 evs,
    loadAll JSON_parse this w = (w1, inr tt)
    /\ trace w1 = trace w ++ evs
    /\ changeCalls evs = if nonEmpty batches then [batches] else [].
Proof.
  intros Hrows Hl Hk batches.
  destruct (loadAll_run JSON_parse this rows w Hrows Hl Hk) as (w1 & E & _ & T).
  cbn zeta in T.
  destruct (loadStep_fold JSON_parse this rows noLocals) as (D & Er & C & _).
  cbn zeta in D, Er, C. cbn [noLocals docsByTable errors conflicts app] in D, Er, C.
  rewrite D, Er, C in T. fold batches in T.
  eexists w1, _. split; [exact E|]. split; [rewrite <- app_assoc in T; exact T|].
  destruct (loadEvents_calls JSON_parse this rows) as (L1 & _).
  destruct (errorNotice_calls this (flat_map (undecryptable JSON_parse this) rows))
    as (N1 & _).
  destruct (conflictNotice_calls this (flat_map (conflicted JSON_parse this) rows))
    as (M1 & _).
  destruct (changeNotice_calls batches) as (_ & _ & P3).
  rewrite !changeCalls_app, L1, N1, M1, P3. cbn. now rewrite !app_nil_r.
Qed.

Lemma filter_all_wanted (l : list (jsstring * object)) :
  filter (fun p => wanted None (fst p)) l = l.
Proof.
  induction l as [|p l IH]; [reflexivity|].
  change (filter (fun p => wanted None (fst p)) (p :: l))
    with (p :: filter (fun p => wanted None (fst p)) l).
  now rewrite IH.
Qed.

(** X18.  [loadAll] and [getAll] agree: the documents that [getAll]
    resolves with, no table being asked for, are the documents that
    [loadAll] hands to [onChange], in one batch or another. *)
Theorem loadAll_and_getAll_agree rows w w' :
  db_allDocs (db this) true = inr rows ->
  listenerReturns (listener this) ->
  keyCached h (helperState w) ->
  keyCached h (helperState w') ->
  exists all evs,
    snd (getAll JSON_parse this None w') = inr all
    /\ trace (fst (loadAll JSON_parse this w)) = trace w ++ evs
    /\ List.length all = list_sum (map documentCount (changeCalls evs))
    /\ forall doc,
         In doc all
         <-> exists batches t, In batches (changeCalls evs) /\ delivered t doc batches.
Proof.
  intros Hrows Hl Hk Hk'.
  set (loaded := flat_map (decryptable JSON_parse this) rows).
  destruct (getAll_loop_run None rows w' noLocals Hk') as (v1 & G1 & R1).
  destruct (getStep_fold None rows noLocals) as (F & Er). cbn zeta in F, Er.
  cbn [noLocals found errors app] in F, Er. fold loaded in F.
  assert (Hall : map snd (filter (fun p => wanted None (fst p)) loaded) = map snd loaded).
  { f_equal. apply filter_all_wanted. }
  rewrite Hall in F.
  destruct Hl as (Hc & Hd & Hcf & Herr).
  destruct (reportErrors_returns (flat_map (undecryptable JSON_parse this) rows) v1 Herr
              (reaches_keyCached _ _ _ _ R1)) as (v2 & G2 & _).
  destruct (loadAll_changeCalls rows w Hrows (conj Hc (conj Hd (conj Hcf Herr))) Hk)
    as (w1 & evs & E & T & C). cbn zeta in C. fold loaded in C.
  destruct (batches_of loaded) as (_ & B2 & B3 & B4). cbn zeta in B2, B3, B4.
  destruct (pushPair_fold loaded [] (NoDup_nil _)) as (Hnd & _). cbn zeta in Hnd.
  set (batches := fold_left pushPair loaded []) in *.
  exists (map snd loaded), evs. split; [|split; [|split]].
  - unfold getAll. unfold bind at 1. unfold await. rewrite Hrows.
    unfold bind at 1. unfold withLocals. rewrite G1. rewrite Er.
    unfold bind. rewrite G2. unfold ret. cbn [snd]. now rewrite F.
  - now rewrite E.
  - rewrite C, length_map. destruct (nonEmpty batches) eqn:NE.
    + change (list_sum (map documentCount [batches])) with (documentCount batches + 0)%nat.
      rewrite B2. lia.
    + assert (Hnil : loaded = []) by (apply B4; now destruct batches).
      now rewrite Hnil.
  - intros doc. split.
    + intros Hin. apply in_map_iff in Hin as ([t doc'] & <- & Hin). cbn [snd].
      exists batches, t. split; [|now apply B3].
      rewrite C. destruct (nonEmpty batches) eqn:NE; [now left|].
      assert (Hnil : loaded = []) by (apply B4; now destruct batches).
      rewrite Hnil in Hin. destruct Hin.
    + intros (bs & t & Hbs & (b & Hb & Ht & Hdoc)).
      rewrite C in Hbs. destruct (nonEmpty batches); [|destruct Hbs].
      destruct Hbs as [<-|[]].
      rewrite <- (docsOf_In b batches Hnd Hb) in Hdoc.
      unfold batches in Hdoc. rewrite docsOf_fold in Hdoc. cbn [docsOf find app] in Hdoc.
      apply in_map_iff in Hdoc as (p & <- & Hp). apply filter_In in Hp as [Hp _].
      now apply in_map.
Qed.

(** *** [decryptDoc] *)

(** X11.  [decryptDoc], the identifier having its underscore and the
    payload being decrypted: when the plaintext is not JSON it rejects
    with the error of [JSON.parse], which is not a [DecryptionError];
    when it is an object, the fields of the object come on top of the
    [_id] and [_rev] of the record, so that a field of the payload
    named [_id] or [_rev] replaces them; and when it has no property of
    its own to copy (a number, a boolean, [null]) the document has [_id]
    and [_rev] and nothing else. *)
Theorem decryptDoc_spreads_the_payload encryptedDoc parsed plaintext w :
  keyCached h (helperState w) ->
  parseFullId (_id encryptedDoc) = Some parsed ->
  decryptFieldOutcome h (d encryptedDoc) = inr plaintext ->
  let own := [(js "_id", JStr (parsed_id parsed));
              (js "_rev", optString (_rev encryptedDoc))] in
  (forall e, JSON_parse plaintext = inl e ->
             snd (decryptDoc JSON_parse this encryptedDoc w) = inl e)
  /\ (forall props,
        JSON_parse plaintext = inr (JObj props) ->
        NoDup (map fst props) ->
        exists out,
          snd (decryptDoc JSON_parse this encryptedDoc w) = inr out
          /\ forall k, getProp k out = match getProp k props with
                                       | Some v => Some v
                                       | None => getProp k own
                                       end)
  /\ (forall v,
        JSON_parse plaintext = inr v ->
        ownProperties v = [] ->
        snd (decryptDoc JSON_parse this encryptedDoc w) = inr own).
Proof.
  intros Hk Hp Hd own.
  destruct (decryptDoc_run JSON_parse this encryptedDoc w Hk) as (w1 & E & _).
  rewrite E. cbn [snd]. unfold decryptDocOutcome. rewrite Hp. fold h. rewrite Hd.
  cbn [bindR]. fold own. split; [|split].
  - intros e ->. reflexivity.
  - intros props -> Hnd. eexists. split; [reflexivity|].
    intros k. now apply getProp_spread.
  - intros v -> Hv. cbn [bindR]. unfold spread. now rewrite Hv.
Qed.

End Scans.

(** *** On the stand-in instance *)

Lemma fullListener_onError_returns : onErrorReturns Demo.fullListener.
Proof. intros callback E x. injection E as <-. reflexivity. Defined.

Lemma fullListener_onConflict_returns : onConflictReturns Demo.fullListener.
Proof. intros callback E x. injection E as <-. reflexivity. Defined.

Lemma throwingListener_onError_returns : onErrorReturns Demo.throwingListener.
Proof. intros callback E x. injection E as <-. reflexivity. Defined.

Lemma throwingListener_onConflict_returns : onConflictReturns Demo.throwingListener.
Proof. intros callback E x. injection E as <-. reflexivity. Defined.

Lemma getAll_returns_what_decrypts_witness :
  let this := Demo.pouch Demo.documents Demo.fullListener in
  let that := Demo.pouch Demo.documents Demo.errorThrowingListener in
  db_allDocs (db this) true = inr (map Demo.row Demo.documents)
  /\ keyCached (encryptionHelper this) (helperState newWorld)
  /\ (exists w1,
        getAll Demo.parse this (Some (js "expenses")) newWorld
        = (w1, inr [[(js "_id", JStr (js "lunch")); (js "_rev", JStr (js "1-a"));
                     (js "amount", JNum 15)];
                    [(js "_id", JStr (js "dinner")); (js "_rev", JStr (js "2-a"));
                     (js "amount", JNum 40)]])
        /\ List.length (errorCalls (trace w1)) = 1%nat
        /\ changeCalls (trace w1) = [])
  /\ (exists w1,
        getAll Demo.parse that (Some (js "expenses")) newWorld = (w1, inl Demo.thrown)
        /\ List.length (errorCalls (trace w1)) = 1%nat).
Proof.
  intros this that.
  assert (H1 : db_allDocs (db this) true = inr (map Demo.row Demo.documents)) by reflexivity.
  split; [exact H1|]. split; [exact Demo_keyCached|]. split.
  - destruct (getAll_returns_what_decrypts Demo.parse this (Some (js "expenses")) newWorld)
      as (_ & G & _).
    destruct (G _ H1 Demo_keyCached) as (w1 & E & T).
    exists w1. split; [rewrite E; vm_compute; reflexivity|].
    rewrite T. split; vm_compute; reflexivity.
  - destruct (getAll_returns_what_decrypts Demo.parse that (Some (js "expenses")) newWorld)
      as (_ & G & _).
    destruct (G _ H1 Demo_keyCached) as (w1 & E & T).
    exists w1. split; [rewrite E; vm_compute; reflexivity|].
    rewrite T. vm_compute. reflexivity.
Defined.

Lemma handleChange_resolves_witness :
  let this := Demo.pouch Demo.documents Demo.throwingListener in
  (forall x, onDelete (listener this) x = None)
  /\ onErrorReturns (listener this)
  /\ onConflictReturns (listener this)
  /\ snd (handleChange Demo.parse this (Demo.changed Demo.bad) newWorld) = inr tt
  /\ snd (handleChange Demo.parse this (Demo.changed Demo.dinner) newWorld) = inr tt.
Proof.
  intros this.
  assert (Hd : forall x, onDelete (listener this) x = None) by reflexivity.
  split; [exact Hd|]. split; [exact throwingListener_onError_returns|].
  split; [exact throwingListener_onConflict_returns|].
  split; apply (handleChange_resolves Demo.parse this _ newWorld Hd
                  throwingListener_onError_returns throwingListener_onConflict_returns).
Defined.

Lemma handleChange_notifications_witness :
  let this := Demo.pouch Demo.documents Demo.throwingListener in
  let doc := [(js "_id", JStr (js "lunch")); (js "_rev", JStr (js "1-a"));
              (js "amount", JNum 15)] in
  isDesign (change_id (Demo.changed Demo.lunch)) = false
  /\ upserted (Demo.changed Demo.lunch) = Some Demo.lunch
  /\ keyCached (encryptionHelper this) (helperState newWorld)
  /\ onErrorReturns (listener this)
  /\ onConflictReturns (listener this)
  /\ exists w1,
       handleChange Demo.parse this (Demo.changed Demo.lunch) newWorld = (w1, inr tt)
       /\ trace w1
          = [called_onChange [{| table := js "expenses"; docs := [doc] |}];
             called_onError [{| ev_docId := js "expenses_lunch"; ev_error := Demo.thrown;
                                ev_rawDoc := Demo.lunch |}]].
Proof.
  intros this doc.
  assert (H1 : isDesign (change_id (Demo.changed Demo.lunch)) = false) by reflexivity.
  assert (H2 : upserted (Demo.changed Demo.lunch) = Some Demo.lunch) by reflexivity.
  split; [exact H1|]. split; [exact H2|]. split; [exact Demo_keyCached|].
  split; [exact throwingListener_onError_returns|].
  split; [exact throwingListener_onConflict_returns|].
  destruct (handleChange_notifications Demo.parse this (Demo.changed Demo.lunch) Demo.lunch
              newWorld H1 H2 Demo_keyCached throwingListener_onError_returns
              throwingListener_onConflict_returns) as (w1 & E & T).
  exists w1. split; [exact E|]. rewrite T. vm_compute. reflexivity.
Defined.

Lemma loadAll_stops_reporting_when_onChange_throws_witness :
  let this := Demo.pouch Demo.documents Demo.throwingListener in
  let rows := map Demo.row Demo.documents in
  db_allDocs (db this) true = inr rows
  /\ keyCached (encryptionHelper this) (helperState newWorld)
  /\ onErrorReturns (listener this)
  /\ flat_map (undecryptable Demo.parse this) rows <> []
  /\ flat_map (conflicted Demo.parse this) rows <> []
  /\ exists w1,
       loadAll Demo.parse this newWorld = (w1, inr tt)
       /\ conflictCalls (trace w1) = []
       /\ List.length (errorCalls (trace w1)) = 2%nat.
Proof.
  intros this rows.
  assert (H1 : db_allDocs (db this) true = inr rows) by reflexivity.
  split; [exact H1|]. split; [exact Demo_keyCached|].
  split; [exact throwingListener_onError_returns|].
  split; [vm_compute; discriminate|]. split; [vm_compute; discriminate|].
  destruct (loadAll_stops_reporting_when_onChange_throws Demo.parse this rows Demo.thrown
              newWorld H1 Demo_keyCached throwingListener_onError_returns)
    as (w1 & E & _ & C & Er); [vm_compute; discriminate | reflexivity|].
  exists w1. split; [exact E|]. split; [exact C|].
  rewrite Er. vm_compute. reflexivity.
Defined.

Lemma conflict_info_keeps_the_order_witness :
  let this := Demo.pouch Demo.documents Demo.fullListener in
  let parsed := {| parsed_table := js "expenses"; parsed_id := js "dinner" |} in
  parseFullId (_id Demo.dinner) = Some parsed
  /\ onErrorReturns (listener this)
  /\ keyCached (encryptionHelper this) (helperState newWorld)
  /\ exists info lost,
       snd (buildConflictInfo Demo.parse this (_id Demo.dinner) (_rev Demo.dinner)
              (conflictsOf (_conflicts Demo.dinner)) [] newWorld) = inr info
       /\ List.length (ci_losers info) = 1%nat
       /\ map ev_docId lost = [js "expenses_dinner@2-c"].
Proof.
  intros this parsed.
  assert (H1 : parseFullId (_id Demo.dinner) = Some parsed) by reflexivity.
  split; [exact H1|]. split; [exact fullListener_onError_returns|].
  split; [exact Demo_keyCached|].
  destruct (conflict_info_keeps_the_order Demo.parse this Demo.dinner parsed [] newWorld H1
              fullListener_onError_returns Demo_keyCached)
    as (info & lost & w1 & E & _ & _ & _ & _ & L1 & L2).
  exists info, lost. split; [cbv zeta in E; rewrite E; reflexivity|]. split.
  - apply Forall2_length in L1. rewrite <- L1. vm_compute. reflexivity.
  - cbv zeta in L2.
    change (filter _ (conflictsOf (_conflicts Demo.dinner))) with [js "2-c"] in L2.
    inversion L2 as [|? ev ? rest (e & _ & Hev) Hrest]; subst.
    inversion Hrest; subst. reflexivity.
Defined.

Lemma loadAll_batches_in_store_order_witness :
  let this := Demo.pouch Demo.documents Demo.fullListener in
  let rows := map Demo.row Demo.documents in
  db_allDocs (db this) true = inr rows
  /\ listenerReturns (listener this)
  /\ keyCached (encryptionHelper this) (helperState newWorld)
  /\ exists w1 evs batches,
       loadAll Demo.parse this newWorld = (w1, inr tt)
       /\ trace w1 = evs
       /\ changeCalls evs = [batches]
       /\ map table batches = [js "expenses"; js "tasks"].
Proof.
  intros this rows.
  assert (H1 : db_allDocs (db this) true = inr rows) by reflexivity.
  split; [exact H1|]. split; [exact fullListener_returns|]. split; [exact Demo_keyCached|].
  destruct (loadAll_batches_in_store_order Demo.parse this rows newWorld H1
              fullListener_returns Demo_keyCached) as (w1 & evs & batches & E & T & C & M & _);
    [vm_compute; discriminate|].
  exists w1, evs, batches. split; [exact E|]. split; [exact T|]. split; [exact C|].
  rewrite M. vm_compute. reflexivity.
Defined.

Lemma loadAll_and_getAll_agree_witness :
  let this := Demo.pouch Demo.documents Demo.fullListener in
  db_allDocs (db this) true = inr (map Demo.row Demo.documents)
  /\ listenerReturns (listener this)
  /\ keyCached (encryptionHelper this) (helperState newWorld)
  /\ exists all evs,
       snd (getAll Demo.parse this None newWorld) = inr all
       /\ trace (fst (loadAll Demo.parse this newWorld)) = evs
       /\ List.length all = 3%nat
       /\ list_sum (map documentCount (changeCalls evs)) = 3%nat.
Proof.
  intros this.
  assert (H1 : db_allDocs (db this) true = inr (map Demo.row Demo.documents)) by reflexivity.
  split; [exact H1|]. split; [exact fullListener_returns|]. split; [exact Demo_keyCached|].
  destruct (loadAll_and_getAll_agree Demo.parse this _ newWorld newWorld H1
              fullListener_returns Demo_keyCached Demo_keyCached)
    as (all & evs & G & T & L & _).
  exists all, evs. split; [exact G|]. split; [exact T|].
  assert (A : List.length all = 3%nat).
  { pose proof G as G'. vm_compute in G'. injection G' as <-. reflexivity. }
  split; [exact A | now rewrite <- L].
Defined.

Lemma decryptDoc_spreads_the_payload_witness :
  let this := Demo.pouch Demo.documents Demo.fullListener in
  keyCached (encryptionHelper this) (helperState newWorld)
  /\ (exists plaintext, decryptFieldOutcome (encryptionHelper this) (d Demo.lunch)
                        = inr plaintext
                        /\ Demo.parse plaintext = inr (JObj [(js "amount", JNum 15)]))
  /\ exists out,
       snd (decryptDoc Demo.parse this Demo.lunch newWorld) = inr out
       /\ getProp (js "amount") out = Some (JNum 15)
       /\ getProp (js "_id") out = Some (JStr (js "lunch")).
Proof.
  intros this.
  assert (H1 : decryptFieldOutcome (encryptionHelper this) (d Demo.lunch)
               = inr (Demo.stringify (JObj [(js "amount", JNum 15)])))
    by (vm_compute; reflexivity).
  assert (H2 : Demo.parse (Demo.stringify (JObj [(js "amount", JNum 15)]))
               = inr (JObj [(js "amount", JNum 15)])) by (vm_compute; reflexivity).
  split; [exact Demo_keyCached|]. split; [eexists; split; [exact H1 | exact H2]|].
  destruct (decryptDoc_spreads_the_payload Demo.parse this Demo.lunch
              {| parsed_table := js "expenses"; parsed_id := js "lunch" |} _ newWorld
              Demo_keyCached eq_refl H1) as (_ & R & _).
  destruct (R _ H2) as (out & E & K).
  { repeat constructor. intros []. }
  exists out. split; [exact E|]. split; rewrite K; reflexivity.
Defined.

(* ================================================================= *)
(** ** Sync: what the methods wait for *)

Section Sync.

Variable this : EncryptedPouch.

Lemma syncNotice_app a b :
  syncNotice this (a ++ b) = syncNotice this a ++ syncNotice this b.
Proof.
  unfold syncNotice. destruct (onSync (listener this)); [|reflexivity].
  apply flat_map_app.
Qed.

Lemma connectWait_changes pre rest w :
  forallb isChangeEvent pre = true ->
  connectWait this (pre ++ rest) w
  = connectWait this rest
      (fold_left (fun w0 e => log e w0) (syncNotice this pre) w).
Proof.
  revert w. induction pre as [|ev pre IH]; intros w H.
  - unfold syncNotice. cbn. now destruct (onSync (listener this)).
  - destruct ev as [|info|err]; try discriminate. cbn [forallb isChangeEvent andb] in H.
    cbn [app connectWait]. unfold bind at 1. rewrite handled_notifySync.
    rewrite (IH _ H). f_equal.
    change (sync_change info :: pre) with ([sync_change info] ++ pre).
    now rewrite syncNotice_app, fold_left_app.
Qed.

Lemma trace_fold_log evs w :
  trace (fold_left (fun w0 e => log e w0) evs w) = trace w ++ evs
  /\ syncHandler (fold_left (fun w0 e => log e w0) evs w) = syncHandler w
  /\ remoteUrl (fold_left (fun w0 e => log e w0) evs w) = remoteUrl w
  /\ handles (fold_left (fun w0 e => log e w0) evs w) = handles w.
Proof.
  revert w. induction evs as [|e evs IH]; intros w; cbn [fold_left].
  - now rewrite app_nil_r.
  - destruct (IH (log e w)) as (T & A & B & C). rewrite T, A, B, C. cbn.
    now rewrite <- app_assoc.
Qed.

Lemma connecting_trace url live retry w :
  trace (connecting url live retry w)
  = trace w ++ cancelNotice w ++ [store_sync url live retry (handles w)]
  /\ syncHandler (connecting url live retry w) = Some (handles w)
  /\ remoteUrl (connecting url live retry w) = Some url.
Proof.
  unfold connecting, disconnectRemote, cancelNotice.
  destruct (syncHandler w); cbn; rewrite <- ?app_assoc; auto.
Qed.

(** X19.  [connectRemote] first cancels the handle it had, if any, then
    opens a sync to the address given.  It resolves when the handle
    becomes active, and also when nothing but changes comes before the
    five seconds are over: a remote that does not answer is connected.
    It rejects with the error of the handle when that comes first; the
    handle and the address stay.  The changes that come while it waits
    reach [onSync], and the error the console, when [onSync] is
    registered. *)
Theorem connectRemote_outcome url live retry w :
  let events := db_sync_events (db this) url in
  let opened := cancelNotice w ++ [store_sync url live retry (handles w)] in
  (forall pre rest,
     events = pre ++ rest ->
     forallb isChangeEvent pre = true ->
     rest = [] \/ (exists later, rest = sync_active :: later) ->
     exists w1,
       connectRemote this url live retry w = (w1, inr tt)
       /\ trace w1 = trace w ++ opened ++ syncNotice this pre)
  /\ (forall pre err rest,
        events = pre ++ sync_error err :: rest ->
        forallb isChangeEvent pre = true ->
        exists w1,
          connectRemote this url live retry w = (w1, inl err)
          /\ trace w1 = trace w ++ opened ++ syncNotice this pre ++ syncErrorNotice this err
          /\ syncHandler w1 = Some (handles w)
          /\ remoteUrl w1 = Some url).
Proof.
  intros events opened.
  destruct (connecting_trace url live retry w) as (T0 & S0 & U0).
  split.
  - intros pre rest Hev Hpre Hrest. rewrite connectRemote_waits. fold events. rewrite Hev.
    rewrite (connectWait_changes _ _ _ Hpre).
    destruct (trace_fold_log (syncNotice this pre) (connecting url live retry w)) as (T & _).
    eexists. split.
    + destruct Hrest as [->|(later & ->)]; reflexivity.
    + rewrite T, T0. unfold opened. now rewrite <- !app_assoc.
  - intros pre err rest Hev Hpre. rewrite connectRemote_waits. fold events. rewrite Hev.
    rewrite (connectWait_changes _ _ _ Hpre).
    destruct (trace_fold_log (syncNotice this pre) (connecting url live retry w))
      as (T & A & B & _).
    cbn [connectWait]. unfold bind, syncErrorNotice.
    destruct (onSync (listener this)); unfold emit, modify, ret, throw;
      eexists; (split; [reflexivity|]); cbn [log trace syncHandler remoteUrl];
      rewrite ?T, ?T0, ?A, ?B, ?S0, ?U0; unfold opened; rewrite <- ?app_assoc, ?app_nil_r;
      auto.
Qed.

Lemma notifyComplete_run dir stats w :
  notifyComplete this dir stats w
  = (fold_left (fun w0 e => log e w0) (completeNotice this dir stats) w,
     match completeThrows this dir stats with
     | None => inr tt
     | Some e => inl e
     end).
Proof.
  unfold notifyComplete, completeNotice, completeThrows, notifySync.
  destruct stats as [st|]; [|now destruct (onSync (listener this))].
  destruct (onSync (listener this)) as [callback|];
    [|now destruct (docs_written st)].
  destruct (docs_written st); [|reflexivity].
  unfold call, bind, emit, modify.
  destruct (callback {| direction := dir; change := st |}); reflexivity.
Qed.

Lemma syncNow_run url w :
  remoteUrl w = Some url -> url <> [] ->
  let w0 := log (store_sync url false false (handles w)) (set_handles (S (handles w)) w) in
  syncNow this w
  = match db_sync_once (db this) url with
    | inr info =>
        let w1 := fold_left (fun w0 e => log e w0)
                    (completeNotice this push (complete_push info)) w0 in
        match completeThrows this push (complete_push info) with
        | Some _ => (w1, inr pending)
        | None =>
            (fold_left (fun w0 e => log e w0)
               (completeNotice this pull (complete_pull info)) w1,
             inr match completeThrows this pull (complete_pull info) with
                 | None => fulfilled
                 | Some _ => pending
                 end)
        end
    | inl err => (log (console_error (js "[EncryptedPouch] syncNow error:") err) w0, inl err)
    end.
Proof.
  intros Hu Hne w0. unfold syncNow. unfold bind at 1. unfold gets. rewrite Hu.
  destruct url as [|c url]; [congruence|].
  unfold bind at 1. unfold newHandle. unfold bind at 1. unfold emit at 1. unfold modify at 1.
  fold w0. destruct (db_sync_once (db this) (c :: url)) as [err|info]; [reflexivity|].
  unfold handled, try_catch, bind. rewrite notifyComplete_run. cbn zeta.
  destruct (completeThrows this push (complete_push info)); [reflexivity|].
  rewrite notifyComplete_run.
  destruct (completeThrows this pull (complete_pull info)); reflexivity.
Qed.

(** X20.  [syncNow], an address being set by [connectRemote], runs one
    sync to it that is neither live nor retried, whatever [connectRemote]
    was asked.  When the sync completes it calls [onSync] for the push
    and then for the pull, each call made only if the callback is
    registered and the completion names the documents written in that
    direction, and resolves -- if these calls return.  When one of them
    throws, the handler of ["complete"] ends there: a later call is not
    made, [resolve()] is not reached, and the promise stays pending.
    When the sync fails it writes the error to the console and rejects
    with it.  It leaves the handle and the address of [connectRemote] as
    they are. *)
Theorem syncNow_outcome url w :
  remoteUrl w = Some url -> url <> [] ->
  let started := [store_sync url false false (handles w)] in
  (forall info,
     db_sync_once (db this) url = inr info ->
     let first := completeNotice this push (complete_push info) in
     let second := completeNotice this pull (complete_pull info) in
     exists w1,
       syncHandler w1 = syncHandler w /\ remoteUrl w1 = remoteUrl w
       /\ match completeThrows this push (complete_push info),
                completeThrows this pull (complete_pull info) with
          | None, None =>
              syncNow this w = (w1, inr fulfilled)
              /\ trace w1 = trace w ++ started ++ first ++ second
          | None, Some _ =>
              syncNow this w = (w1, inr pending)
              /\ trace w1 = trace w ++ started ++ first ++ second
          | Some _, _ =>
              syncNow this w = (w1, inr pending)
              /\ trace w1 = trace w ++ started ++ first
          end)
  /\ (forall err,
        db_sync_once (db this) url = inl err ->
        exists w1,
          syncNow this w = (w1, inl err)
          /\ trace w1 = trace w ++ started
                        ++ [console_error (js "[EncryptedPouch] syncNow error:") err]
          /\ syncHandler w1 = syncHandler w /\ remoteUrl w1 = remoteUrl w).
Proof.
  intros Hu Hne started.
  pose proof (syncNow_run url w Hu Hne) as R. cbn zeta in R.
  set (w0 := log (store_sync url false false (handles w)) (set_handles (S (handles w)) w)) in R.
  split.
  - intros info E first second. rewrite E in R. fold first second in R. rewrite R.
    destruct (trace_fold_log first w0) as (T1 & S1 & U1 & _).
    destruct (trace_fold_log second (fold_left (fun w0 e => log e w0) first w0))
      as (T2 & S2 & U2 & _).
    destruct (completeThrows this push (complete_push info)) as [e|].
    + eexists. split; [|split; [|split; [reflexivity|]]].
      * rewrite S1. reflexivity.
      * rewrite U1. reflexivity.
      * rewrite T1. unfold w0, started. cbn [log trace set_handles].
        now rewrite <- app_assoc.
    + destruct (completeThrows this pull (complete_pull info)) as [e|];
        (eexists; split; [|split; [|split; [reflexivity|]]];
         [ rewrite S2, S1; reflexivity
         | rewrite U2, U1; reflexivity
         | rewrite T2, T1; unfold w0, started; cbn [log trace set_handles];
           now rewrite <- !app_assoc ]).
  - intros err E. rewrite E in R. rewrite R.
    eexists. split; [reflexivity|]. unfold w0, started. cbn. rewrite <- !app_assoc. auto.
Qed.

(** X21.  [deleteAllLocal] first disconnects, then asks the store for its
    rows and deletes, in one call of [bulkDocs], every row that is not a
    design document, with its revision -- also the rows that this class
    did not write -- and resolves or rejects as [bulkDocs] does.  With
    nothing to delete it does not call [bulkDocs].  When [allDocs]
    rejects it rejects with the same error, disconnected already. *)
Theorem deleteAllLocal_outcome w :
  (forall e,
     db_allDocs (db this) false = inl e ->
     exists w1,
       deleteAllLocal this w = (w1, inl e)
       /\ trace w1 = trace w ++ cancelNotice w
       /\ neverConnected w1)
  /\ (forall rows,
        db_allDocs (db this) false = inr rows ->
        let deletions := docsToDelete rows in
        (forall id rev,
           In (id, rev) deletions
           <-> exists row, In row rows /\ row_id row = id /\ row_rev row = rev
                           /\ isDesign id = false)
        /\ exists w1,
             deleteAllLocal this w
             = (w1, match deletions with
                    | [] => inr tt
                    | _ :: _ => db_bulkDocs (db this) deletions
                    end)
             /\ trace w1 = trace w ++ cancelNotice w
                           ++ match deletions with
                              | [] => []
                              | _ :: _ => [store_bulkDocs deletions]
                              end).
Proof.
  assert (D : exists w0, disconnectRemote w = (w0, inr tt)
                         /\ trace w0 = trace w ++ cancelNotice w /\ neverConnected w0).
  { unfold disconnectRemote, cancelNotice, neverConnected.
    destruct (syncHandler w) eqn:S; eexists; (split; [reflexivity|]); repeat split; cbn;
      rewrite ?app_nil_r; auto. }
  destruct D as (w0 & E0 & T0 & N0).
  split.
  - intros e He. exists w0. unfold deleteAllLocal. unfold bind at 1. rewrite E0.
    unfold bind, await. rewrite He. auto.
  - intros rows Hrows deletions. split.
    + intros id rev. unfold deletions, docsToDelete. rewrite in_map_iff. split.
      * intros (row & [= <- <-] & Hin). apply filter_In in Hin as [Hin Hd].
        exists row. repeat split; try assumption. now apply negb_true_iff.
      * intros (row & Hin & <- & <- & Hd). exists row. split; [reflexivity|].
        apply filter_In. split; [exact Hin | now rewrite Hd].
    + unfold deleteAllLocal. unfold bind at 1. rewrite E0.
      unfold bind at 1. unfold await. rewrite Hrows. fold deletions.
      destruct deletions as [|p l].
      * exists w0. split; [reflexivity|]. now rewrite T0, app_nil_r.
      * unfold bind, emit, modify, await. eexists. split; [reflexivity|].
        cbn. rewrite T0. now rewrite <- app_assoc.
Qed.

Lemma pushed_mono events count : count <= pushed count events.
Proof.
  revert count. induction events as [|ev events IH]; intros count; cbn [pushed fold_left].
  - apply N.le_refl.
  - etransitivity; [|apply IH].
    destruct ev as [|info|err]; try apply N.le_refl.
    destruct (direction info); try apply N.le_refl. lia.
Qed.

Lemma pushed_app count a b : pushed count (a ++ b) = pushed (pushed count a) b.
Proof. unfold pushed. apply fold_left_app. Qed.

(** The wait of [deleteAllAndSync] while the count is short. *)
Lemma pushWait_short pre rest count total w :
  forallb (fun ev => negb (isErrorEvent ev)) pre = true ->
  pushed count (filter (heard this) pre) < N.of_nat total ->
  exists w1,
    pushWait this (pre ++ rest) count total w
    = pushWait this rest (pushed count (filter (heard this) pre)) total w1
    /\ trace w1 = trace w ++ syncNotice this pre.
Proof.
  revert count w. induction pre as [|ev pre IH]; intros count w Hne Hlt.
  - exists w. split; [reflexivity|]. unfold syncNotice.
    destruct (onSync (listener this)); cbn; now rewrite app_nil_r.
  - cbn [forallb] in Hne. apply andb_prop in Hne as [Hev Hne].
    change (ev :: pre) with ([ev] ++ pre). rewrite syncNotice_app.
    destruct ev as [|info|err]; [| |discriminate].
    + change (filter (heard this) ([sync_active] ++ pre))
        with (sync_active :: filter (heard this) pre) in Hlt |- *.
      change (pushed count (sync_active :: filter (heard this) pre))
        with (pushed count (filter (heard this) pre)) in Hlt |- *.
      cbn [app pushWait]. destruct (IH count w Hne Hlt) as (w1 & E & T).
      exists w1. split; [exact E|]. rewrite T. unfold syncNotice.
      now destruct (onSync (listener this)).
    + cbn [app pushWait]. unfold bind at 1. rewrite handled_notifySync.
      destruct (trace_fold_log (syncNotice this [sync_change info]) w) as (T0 & _).
      set (w0 := fold_left (fun w0 e => log e w0) (syncNotice this [sync_change info]) w) in *.
      cbn [filter] in Hlt |- *.
      destruct (heard this (sync_change info)).
      * change (pushed count (sync_change info :: filter (heard this) pre))
          with (pushed (match direction info with
                        | push => count + match docs_written (change info) with
                                          | Some k => k
                                          | None => 0
                                          end
                        | _ => count
                        end) (filter (heard this) pre)) in Hlt |- *.
        destruct (direction info).
        -- set (count' := count + match docs_written (change info) with
                                   | Some k => k
                                   | None => 0
                                   end) in *.
           pose proof (pushed_mono (filter (heard this) pre) count') as M.
           destruct (N.leb_spec (N.of_nat total) count') as [Hle|_]; [lia|].
           destruct (IH count' w0 Hne Hlt) as (w1 & E & T).
           exists w1. split; [exact E|]. rewrite T, T0. now rewrite <- app_assoc.
        -- destruct (IH count w0 Hne Hlt) as (w1 & E & T).
           exists w1. split; [exact E|]. rewrite T, T0. now rewrite <- app_assoc.
        -- destruct (IH count w0 Hne Hlt) as (w1 & E & T).
           exists w1. split; [exact E|]. rewrite T, T0. now rewrite <- app_assoc.
      * destruct (IH count w0 Hne Hlt) as (w1 & E & T).
        exists w1. split; [exact E|]. rewrite T, T0. now rewrite <- app_assoc.
Qed.

(** X22.  [deleteAllAndSync], connected and with something to delete:
    when [bulkDocs] rejects it rejects with that error, without waiting.
    Otherwise it waits for the handle.  A change counts when it is a
    push and reaches [changeHandler]: the handler of [connectRemote]
    comes first on every change, and the change on which [onSync]
    throws there is not counted.  It resolves at the first push that
    brings the documents written by the pushes that count, from the
    deletion on, to the number of rows deleted; changes pulled do not
    count.  It rejects with the error of the handle if one comes before
    that, and with the timeout error if the thirty seconds end before
    that. *)
Theorem deleteAllAndSync_waits_for_the_pushes handler rows w :
  syncHandler w = Some handler ->
  db_allDocs (db this) false = inr rows ->
  docsToDelete rows <> [] ->
  let total := N.of_nat (List.length (docsToDelete rows)) in
  let events := db_push_events (db this) in
  let quiet := forallb (fun ev => negb (isErrorEvent ev)) in
  let counted := fun evs => pushed 0 (filter (heard this) evs) in
  (forall e, db_bulkDocs (db this) (docsToDelete rows) = inl e ->
             deleteAllAndSync this w = (log (store_bulkDocs (docsToDelete rows)) w, inl e))
  /\ (db_bulkDocs (db this) (docsToDelete rows) = inr tt ->
      (forall pre info rest,
         events = pre ++ sync_change info :: rest ->
         quiet pre = true -> direction info = push ->
         heard this (sync_change info) = true ->
         counted pre < total <= counted (pre ++ [sync_change info]) ->
         exists w1, deleteAllAndSync this w = (w1, inr tt)
                    /\ trace w1 = trace w ++ [store_bulkDocs (docsToDelete rows)]
                                  ++ syncNotice this (pre ++ [sync_change info]))
      /\ (forall pre err rest,
            events = pre ++ sync_error err :: rest ->
            quiet pre = true -> counted pre < total ->
            snd (deleteAllAndSync this w) = inl err)
      /\ (quiet events = true -> counted events < total ->
          snd (deleteAllAndSync this w)
          = inl (Error (js "Timeout waiting for deletions to sync to remote")))).
Proof.
  intros Hh Hrows Hne total events quiet counted.
  assert (U : deleteAllAndSync this w
              = (emit (store_bulkDocs (docsToDelete rows)) ;;
                 await (db_bulkDocs (db this) (docsToDelete rows)) ;;
                 pushWait this events 0 (List.length (docsToDelete rows))) w).
  { unfold deleteAllAndSync. unfold bind at 1. unfold gets. rewrite Hh.
    unfold bind at 1. unfold await at 1. rewrite Hrows.
    destruct (docsToDelete rows); [congruence | reflexivity]. }
  rewrite U. split.
  - intros e He. unfold bind, emit, modify, await. now rewrite He.
  - intros Hb.
    assert (V : (emit (store_bulkDocs (docsToDelete rows)) ;;
                 await (db_bulkDocs (db this) (docsToDelete rows)) ;;
                 pushWait this events 0 (List.length (docsToDelete rows))) w
                = pushWait this events 0 (List.length (docsToDelete rows))
                    (log (store_bulkDocs (docsToDelete rows)) w)).
    { unfold bind, emit, modify, await. now rewrite Hb. }
    rewrite V. unfold counted. split; [|split].
    + intros pre info rest Hev Hq Hd Hheard [Hlt Hge]. rewrite Hev.
      destruct (pushWait_short pre (sync_change info :: rest) 0 _
                  (log (store_bulkDocs (docsToDelete rows)) w) Hq Hlt) as (w1 & E & T).
      rewrite E. cbn [pushWait]. unfold bind at 1. rewrite handled_notifySync.
      destruct (trace_fold_log (syncNotice this [sync_change info]) w1) as (T0 & _).
      rewrite Hheard, Hd.
      rewrite filter_app, pushed_app in Hge. cbn [filter] in Hge. rewrite Hheard in Hge.
      cbn [pushed fold_left] in Hge. rewrite Hd in Hge.
      fold (pushed 0 (filter (heard this) pre)) in Hge.
      match goal with |- context [N.leb ?a ?b] => replace (N.leb a b) with true end.
      2:{ symmetry. apply N.leb_le. exact Hge. }
      eexists. split; [reflexivity|]. rewrite T0, T. cbn [log trace].
      rewrite syncNotice_app. now rewrite <- !app_assoc.
    + intros pre err rest Hev Hq Hlt. rewrite Hev.
      destruct (pushWait_short pre (sync_error err :: rest) 0 _
                  (log (store_bulkDocs (docsToDelete rows)) w) Hq Hlt) as (w1 & E & T).
      rewrite E. cbn [pushWait]. unfold bind.
      destruct (onSync (listener this)); reflexivity.
    + intros Hq Hlt.
      destruct (pushWait_short events [] 0 _
                  (log (store_bulkDocs (docsToDelete rows)) w) Hq Hlt) as (w1 & E & T).
      rewrite app_nil_r in E. rewrite E. reflexivity.
Qed.

End Sync.

Lemma connectRemote_outcome_witness :
  (exists w1,
     connectRemote Demo.synced Demo.address true true newWorld = (w1, inr tt)
     /\ trace w1 = [store_sync Demo.address true true 0;
                    called_onSync {| direction := pull; change := Demo.stats 2 |}])
  /\ (exists w1,
        connectRemote (Demo.pouch [] defaultListener) Demo.address true true Demo.connected
        = (w1, inr tt)
        /\ trace w1 = trace Demo.connected
                      ++ [handle_cancel 0; store_sync Demo.address true true 1])
  /\ (exists w1,
        connectRemote Demo.refusing Demo.address true true newWorld = (w1, inl Demo.refused)
        /\ syncHandler w1 = Some 0%nat).
Proof.
  split; [|split].
  - destruct (connectRemote_outcome Demo.synced Demo.address true true newWorld) as (R & _).
    destruct (R [Demo.pullOf 2] [sync_active] eq_refl eq_refl
                (or_intror (ex_intro _ [] eq_refl))) as (w1 & E & T).
    exists w1. split; [exact E | exact T].
  - destruct (connectRemote_outcome (Demo.pouch [] defaultListener) Demo.address true true
                Demo.connected) as (R & _).
    destruct (R [] [] eq_refl eq_refl (or_introl eq_refl)) as (w1 & E & T).
    exists w1. split; [exact E|]. rewrite T. reflexivity.
  - destruct (connectRemote_outcome Demo.refusing Demo.address true true newWorld) as (_ & R).
    destruct (R [] Demo.refused [] eq_refl eq_refl) as (w1 & E & _ & S & _).
    exists w1. split; [exact E | exact S].
Defined.

Lemma syncNow_outcome_witness :
  remoteUrl Demo.connected = Some Demo.address
  /\ Demo.address <> []
  /\ (exists w1,
        syncNow Demo.synced Demo.connected = (w1, inr fulfilled)
        /\ trace w1 = trace Demo.connected
                      ++ [store_sync Demo.address false false 1;
                          called_onSync {| direction := push; change := Demo.stats 2 |}]
        /\ syncHandler w1 = Some 0%nat)
  /\ (exists w1,
        syncNow Demo.unheard Demo.connected = (w1, inr pending)
        /\ trace w1 = trace Demo.connected
                      ++ [store_sync Demo.address false false 1;
                          called_onSync {| direction := push; change := Demo.stats 2 |}]).
Proof.
  assert (H1 : remoteUrl Demo.connected = Some Demo.address) by reflexivity.
  assert (H2 : Demo.address <> []) by discriminate.
  split; [exact H1|]. split; [exact H2|]. split.
  - destruct (syncNow_outcome Demo.synced Demo.address Demo.connected H1 H2) as (R & _).
    destruct (R _ eq_refl) as (w1 & S & _ & E & T).
    exists w1. split; [exact E|]. split; [rewrite T; reflexivity | rewrite S; reflexivity].
  - destruct (syncNow_outcome Demo.unheard Demo.address Demo.connected H1 H2) as (R & _).
    destruct (R _ eq_refl) as (w1 & _ & _ & E & T).
    exists w1. split; [exact E|]. rewrite T. reflexivity.
Defined.

Lemma deleteAllLocal_outcome_witness :
  let this := Demo.pouch Demo.documents defaultListener in
  db_allDocs (db this) false
  = inr (map (fun doc => {| row_id := _id doc;
                            row_rev := match _rev doc with Some r => r | None => [] end;
                            row_doc := None |}) Demo.documents)
  /\ exists w1 deletions,
       deleteAllLocal this Demo.connected = (w1, inr tt)
       /\ trace w1 = trace Demo.connected ++ [handle_cancel 0; store_bulkDocs deletions]
       /\ map fst deletions
          = [js "expenses_lunch"; js "expenses_dinner"; js "tasks_t1"; js "tasks_bad";
             js "notes_empty"].
Proof.
  intros this. split; [reflexivity|].
  destruct (deleteAllLocal_outcome this Demo.connected) as (_ & R).
  destruct (R _ eq_refl) as (_ & w1 & E & T).
  exists w1, (docsToDelete (map (fun doc => {| row_id := _id doc;
                                               row_rev := match _rev doc with
                                                          | Some r => r
                                                          | None => []
                                                          end;
                                               row_doc := None |}) Demo.documents)).
  split; [exact E|]. split; [rewrite T; reflexivity | reflexivity].
Defined.

Lemma deleteAllAndSync_waits_for_the_pushes_witness :
  syncHandler Demo.connected = Some 0%nat
  /\ (exists rows, db_allDocs (db Demo.synced) false = inr rows
                   /\ List.length (docsToDelete rows) = 2%nat)
  /\ db_push_events (db Demo.synced)
     = [Demo.pullOf 5; Demo.pushOf 1] ++ Demo.pushOf 1 :: [sync_error Demo.refused]
  /\ (exists w1,
        deleteAllAndSync Demo.synced Demo.connected = (w1, inr tt)
        /\ List.length (trace w1) = (List.length (trace Demo.connected) + 4)%nat)
  /\ snd (deleteAllAndSync Demo.unheard Demo.connected) = inl Demo.refused.
Proof.
  assert (H1 : syncHandler Demo.connected = Some 0%nat) by reflexivity.
  split; [exact H1|]. split; [eexists; split; reflexivity|]. split; [reflexivity|]. split.
  - destruct (deleteAllAndSync_waits_for_the_pushes Demo.synced 0%nat _ Demo.connected H1
                eq_refl) as (_ & R); [discriminate|].
    destruct (R eq_refl) as (R1 & _).
    destruct (R1 [Demo.pullOf 5; Demo.pushOf 1] _ [sync_error Demo.refused]
                eq_refl eq_refl eq_refl eq_refl) as (w1 & E & T);
      [split; vm_compute; congruence|].
    exists w1. split; [exact E|]. rewrite T. rewrite !length_app. reflexivity.
  - destruct (deleteAllAndSync_waits_for_the_pushes Demo.unheard 0%nat _ Demo.connected H1
                eq_refl) as (_ & R); [discriminate|].
    destruct (R eq_refl) as (_ & R2 & _).
    apply (R2 [Demo.pullOf 5; Demo.pushOf 1; Demo.pushOf 1] Demo.refused [] eq_refl eq_refl).
    vm_compute. reflexivity.
Defined.

(* ================================================================= *)
(** ** [delete], [resolveConflict], [reconnect] *)

Section Removals.

Variable JSON_parse : jsstring -> result jsvalue.
Variable JSON_stringify : jsvalue -> jsstring.
Variable generateId : nat -> jsstring.
Variable this : EncryptedPouch.
Variable remover : Remover.

(** X23.  [delete] resolves, whatever the store answers.  It asks for the
    document and removes what it got; when the document is not there,
    [remove] is not called; and a failure, of [get] or of [remove], is a
    warning on the console and nothing more: the caller cannot tell a
    deletion from a failure. *)
Theorem delete_never_rejects tbl id (s : World * list Removal) :
  let fullId := tbl ++ js "_" ++ id in
  let warning := console_warn (js "[EncryptedPouch] Could not delete " ++ fullId ++ js ":") in
  delete remover tbl id s
  = ((fst s,
      snd s ++ match db_get_plain remover fullId with
               | inl e => [warning e]
               | inr doc =>
                   store_remove doc :: match db_remove remover doc with
                                       | inl e => [warning e]
                                       | inr _ => []
                                       end
               end),
     inr tt).
Proof.
  intros fullId warning. unfold delete. fold fullId. unfold try_catch, bind, await, note, onLocals.
  destruct s as [w l]. cbn [fst snd].
  destruct (db_get_plain remover fullId) as [e|doc]; [reflexivity|].
  cbn [fst snd]. destruct (db_remove remover doc) as [e|[]]; cbn [fst snd].
  - now rewrite <- app_assoc.
  - reflexivity.
Qed.

Lemma removeConflict_run fullId rev (s : World * list Removal) :
  removeConflict remover fullId rev s
  = ((fst s,
      snd s ++ store_remove_rev fullId rev
               :: match db_remove_rev remover fullId rev with
                  | inl e => [console_warn (js "Failed to remove conflict " ++ fullId
                                            ++ js "@" ++ rev ++ js ":") e]
                  | inr _ => []
                  end),
     inr tt).
Proof.
  unfold removeConflict, try_catch, bind, await, note, onLocals.
  destruct s as [w l]. cbn [fst snd].
  destruct (db_remove_rev remover fullId rev) as [e|[]]; cbn [fst snd];
    [now rewrite <- app_assoc | reflexivity].
Qed.

Lemma removeConflicts_run fullId revs (s : World * list Removal) :
  forEach revs (removeConflict remover fullId) s
  = ((fst s,
      snd s ++ flat_map
                 (fun rev =>
                    store_remove_rev fullId rev
                    :: match db_remove_rev remover fullId rev with
                       | inl e => [console_warn (js "Failed to remove conflict " ++ fullId
                                                 ++ js "@" ++ rev ++ js ":") e]
                       | inr _ => []
                       end) revs),
     inr tt).
Proof.
  revert s. induction revs as [|rev revs IH]; intros s; cbn [forEach flat_map].
  - destruct s. cbn. now rewrite app_nil_r.
  - unfold bind. rewrite removeConflict_run. rewrite IH. cbn [fst snd].
    now rewrite <- app_assoc.
Qed.

(** X24.  [resolveConflict] rejects, with nothing written or removed,
    when the document cannot be fetched (with the error of the store)
    and when it has no conflict (with an [Error] that names it).
    Otherwise it calls [put] with the table and the winning document --
    which is stored under the [_id] of that document, whatever [id] is --
    and rejects as [put] does, with nothing removed.  After [put], it
    asks the store to remove each competing revision, once, in the order
    of [_conflicts]; a removal that fails is a warning on the console, the
    others are still made, and [resolveConflict] resolves. *)
Theorem resolveConflict_outcome tbl id winningDoc w (removals : list Removal) :
  let fullId := tbl ++ js "_" ++ id in
  let run := resolveConflict JSON_stringify generateId this remover tbl id winningDoc
               (w, removals) in
  (forall e, db_get (db this) fullId None = inl e -> run = ((w, removals), inl e))
  /\ (forall doc,
        db_get (db this) fullId None = inr doc ->
        hasConflicts (_conflicts doc) = false ->
        run = ((w, removals), inl (Error (js "No conflicts found for " ++ fullId))))
  /\ (forall doc,
        db_get (db this) fullId None = inr doc ->
        hasConflicts (_conflicts doc) = true ->
        (forall w1 e,
           put JSON_stringify generateId this tbl winningDoc w = (w1, inl e) ->
           run = ((w1, removals), inl e))
        /\ (forall w1 saved,
              put JSON_stringify generateId this tbl winningDoc w = (w1, inr saved) ->
              run = ((w1,
                      removals
                      ++ flat_map
                           (fun rev =>
                              store_remove_rev fullId rev
                              :: match db_remove_rev remover fullId rev with
                                 | inl e =>
                                     [console_warn (js "Failed to remove conflict " ++ fullId
                                                    ++ js "@" ++ rev ++ js ":") e]
                                 | inr _ => []
                                 end) (conflictsOf (_conflicts doc))),
                     inr tt))).
Proof.
  intros fullId run. unfold run, resolveConflict. fold fullId.
  split; [|split].
  - intros e He. unfold bind, onWorld, await. cbn [fst snd]. now rewrite He.
  - intros doc Hd Hc. unfold bind at 1. unfold onWorld, await. cbn [fst snd].
    rewrite Hd, Hc. reflexivity.
  - intros doc Hd Hc. split.
    + intros w1 e Hp. unfold bind at 1. unfold onWorld at 1. unfold await. cbn [fst snd].
      rewrite Hd, Hc. cbn [negb]. unfold bind, onWorld. cbn [fst snd]. now rewrite Hp.
    + intros w1 saved Hp. unfold bind at 1. unfold onWorld at 1. unfold await. cbn [fst snd].
      rewrite Hd, Hc. cbn [negb]. unfold bind at 1. unfold onWorld. cbn [fst snd]. rewrite Hp.
      now rewrite removeConflicts_run.
Qed.

Lemma existsb_flat_map {A B} (p : B -> bool) (f : A -> list B) (xs : list A) :
  (forall x, existsb p (f x) = false) -> existsb p (flat_map f xs) = false.
Proof.
  intros H. induction xs as [|x xs IH]; [reflexivity|].
  cbn [flat_map]. now rewrite existsb_app, H, IH.
Qed.

Lemma errorNotice_no_cancel errs : existsb isCancel (errorNotice this errs) = false.
Proof.
  unfold errorNotice. destruct (onError (listener this)); [|reflexivity].
  now destruct (nonEmpty errs).
Qed.

Lemma conflictNotice_no_cancel cs : existsb isCancel (conflictNotice this cs) = false.
Proof.
  unfold conflictNotice. destruct (onConflict (listener this)); [|reflexivity].
  now destruct (nonEmpty cs).
Qed.

Lemma loadEvents_no_cancel row : existsb isCancel (loadEvents JSON_parse this row) = false.
Proof.
  unfold loadEvents. destruct (scanned row) as [encryptedDoc|]; [|reflexivity].
  destruct (decryptDocOutcome JSON_parse this encryptedDoc); [reflexivity|].
  destruct (hasConflicts (_conflicts encryptedDoc)); [|reflexivity].
  apply errorNotice_no_cancel.
Qed.

(** X25.  [reconnect] cancels the subscription that is open, if there is
    one, before it opens the new one.  [loadAll] does not: it opens a
    subscription and cancels nothing, so that the subscription of an
    earlier [loadAll] or [reconnect] stays open next to the new one. *)
Theorem reconnect_cancels_and_loadAll_does_not w :
  (exists w1,
     reconnect w = (w1, inr tt)
     /\ changesHandler w1 = Some (handles w)
     /\ trace w1 = trace w
                   ++ match changesHandler w with
                      | Some h => [handle_cancel h]
                      | None => []
                      end
                   ++ [store_changes (handles w)])
  /\ (forall rows,
        db_allDocs (db this) true = inr rows ->
        listenerReturns (listener this) ->
        keyCached (encryptionHelper this) (helperState w) ->
        exists w1 evs,
          loadAll JSON_parse this w = (w1, inr tt)
          /\ changesHandler w1 = Some (handles w)
          /\ trace w1 = trace w ++ evs ++ [store_changes (handles w)]
          /\ existsb isCancel evs = false).
Proof.
  split.
  - unfold reconnect, setupSubscription.
    destruct (changesHandler w); eexists; (split; [reflexivity|]); cbn;
      rewrite <- ?app_assoc; auto.
  - intros rows Hrows Hl Hk.
    destruct (loadAll_run JSON_parse this rows w Hrows Hl Hk) as (w1 & E & C & T).
    cbn zeta in T. eexists w1, _. split; [exact E|]. split; [exact C|]. split; [exact T|].
    rewrite !existsb_app, errorNotice_no_cancel, conflictNotice_no_cancel.
    rewrite (existsb_flat_map _ _ _ loadEvents_no_cancel).
    unfold changeNotice. now destruct (nonEmpty _).
Qed.

End Removals.

Lemma resolveConflict_outcome_witness :
  let this := Demo.pouch Demo.documents Demo.fullListener in
  let winner := [(js "_id", JStr (js "dinner")); (js "_rev", JStr (js "2-a"));
                 (js "amount", JNum 40)] in
  db_get (db this) (js "expenses" ++ js "_" ++ js "dinner") None = inr Demo.dinner
  /\ hasConflicts (_conflicts Demo.dinner) = true
  /\ (exists w1 saved, put Demo.stringify Demo.generateId this (js "expenses") winner newWorld
                       = (w1, inr saved))
  /\ exists w1,
       resolveConflict Demo.stringify Demo.generateId this Demo.remover (js "expenses")
         (js "dinner") winner (newWorld, [])
       = ((w1, [store_remove_rev (js "expenses_dinner") (js "2-b");
                store_remove_rev (js "expenses_dinner") (js "2-c");
                console_warn (js "Failed to remove conflict expenses_dinner@2-c:")
                  Demo.notFound]),
          inr tt).
Proof.
  intros this winner.
  assert (H1 : db_get (db this) (js "expenses" ++ js "_" ++ js "dinner") None = inr Demo.dinner)
    by reflexivity.
  assert (H2 : hasConflicts (_conflicts Demo.dinner) = true) by reflexivity.
  destruct (put Demo.stringify Demo.generateId this (js "expenses") winner newWorld)
    as [w1 [e|saved]] eqn:P; [vm_compute in P; discriminate|].
  split; [exact H1|]. split; [exact H2|]. split; [now exists w1, saved|].
  destruct (resolveConflict_outcome Demo.stringify Demo.generateId this Demo.remover
              (js "expenses") (js "dinner") winner newWorld []) as (_ & _ & R).
  destruct (R Demo.dinner H1 H2) as (_ & R2).
  exists w1. rewrite (R2 w1 saved P). reflexivity.
Defined.

Lemma reconnect_cancels_and_loadAll_does_not_witness :
  let this := Demo.pouch Demo.documents Demo.fullListener in
  let once := fst (loadAll Demo.parse this newWorld) in
  db_allDocs (db this) true = inr (map Demo.row Demo.documents)
  /\ listenerReturns (listener this)
  /\ keyCached (encryptionHelper this) (helperState once)
  /\ changesHandler once = Some 0%nat
  /\ (exists w1 evs,
        loadAll Demo.parse this once = (w1, inr tt)
        /\ changesHandler w1 = Some 1%nat
        /\ trace w1 = trace once ++ evs ++ [store_changes 1]
        /\ existsb isCancel evs = false)
  /\ exists w1,
       reconnect once = (w1, inr tt)
       /\ trace w1 = trace once ++ [handle_cancel 0; store_changes 1].
Proof.
  intros this once.
  assert (H1 : db_allDocs (db this) true = inr (map Demo.row Demo.documents)) by reflexivity.
  assert (H2 : keyCached (encryptionHelper this) (helperState once))
    by (right; vm_compute; reflexivity).
  assert (H3 : changesHandler once = Some 0%nat) by (vm_compute; reflexivity).
  assert (H4 : handles once = 1%nat) by (vm_compute; reflexivity).
  split; [exact H1|]. split; [exact fullListener_returns|]. split; [exact H2|].
  split; [exact H3|].
  destruct (reconnect_cancels_and_loadAll_does_not Demo.parse this once) as (R & L).
  split.
  - destruct (L _ H1 fullListener_returns H2) as (w1 & evs & E & C & T & N).
    exists w1, evs. rewrite H4 in C, T. auto.
  - destruct R as (w1 & E & _ & T). exists w1. split; [exact E|].
    rewrite T, H3, H4. reflexivity.
Defined.

(* ================================================================= *)
(** ** The chain of live changes: once each, and never broken *)

Module ChainFacts.
Import EventLoop EventLoopFacts Chain.
Local Open Scope nat_scope.

Lemma firstn_succ {A} (l : list A) n x :
  nth_error l n = Some x -> firstn (S n) l = firstn n l ++ [x].
Proof.
  revert n. induction l as [|y l IH]; intros [|n] H; try discriminate.
  - now injection H as ->.
  - cbn [firstn app]. f_equal. now apply IH.
Qed.

(** What a serial trace holds. *)
Lemma serial_counts changes tr ph :
  serial changes tr ph ->
  map fst (begun tr) = seq 0 (started ph)
  /\ map snd (begun tr) = firstn (started ph) changes
  /\ failures tr = logs tr ++ unlogged ph.
Proof.
  unfold begun, failures, logs.
  induction 1 as [|tr n change S (B1 & B2 & F) Hn|tr n S (B1 & B2 & F)|tr n S (B1 & B2 & F)
                  |tr n reason S (B1 & B2 & F)|tr n reason S (B1 & B2 & F)];
    rewrite ?flat_map_app, ?map_app; cbn [flat_map map app fst snd started unlogged] in *;
    rewrite ?app_nil_r in *.
  - auto.
  - rewrite B1, B2, F. split; [|split; [|reflexivity]].
    + now rewrite seq_S.
    + now rewrite (firstn_succ _ _ _ Hn).
  - auto.
  - auto.
  - rewrite F. auto.
  - rewrite F. auto.
Qed.

(** X26.  However the emissions, the calls and the microtasks
    interleave: the promise that [processingChain] holds is never
    rejected, so that no [then] is skipped; [handleChange] has begun for
    the first so many of the changes emitted, once for each, in the order
    of emission; and every rejection of a call is written to the console
    once, in the order of the calls, the last one possibly still to be
    written.  And the loop can go on until [handleChange] has been called
    for each change emitted and every rejection is written. *)
Theorem every_change_once_and_chain_unbroken changes l :
  run changes l ->
  (promises l (processingChain l) = None
   \/ promises l (processingChain l) = Some fulfilled)
  /\ (exists n reasons,
        map snd (begun (observed l)) = firstn n changes
        /\ map fst (begun (observed l)) = seq 0 n
        /\ failures (observed l) = logs (observed l) ++ reasons
        /\ List.length reasons <= 1)
  /\ (forall outcome : nat -> settled,
      exists l1,
        steps l l1
        /\ map snd (begun (observed l1)) = changes
        /\ failures (observed l1) = logs (observed l1)).
Proof.
  intros R. destruct (run_invariant _ _ R) as [st I]. split; [|split].
  - rewrite (inv_chain _ _ _ I), (inv_even _ _ _ I).
    destruct (List.length changes <=? frontier st); auto.
  - destruct (serial_counts _ _ _ (inv_serial _ _ _ I)) as (B1 & B2 & F).
    exists (started (phaseOf st)), (unlogged (phaseOf st)).
    split; [exact B2|]. split; [exact B1|]. split; [exact F|].
    destruct (phaseOf st); cbn; lia.
  - intros outcome.
    destruct (invariant_progress outcome changes (backlog l) st l
                (Nat.le_refl _) I) as (l1 & S & J & _).
    destruct (serial_counts _ _ _ (inv_serial _ _ _ J)) as (_ & B2 & F).
    cbn [phaseOf started unlogged] in B2, F.
    exists l1. split; [exact S|]. split.
    + now rewrite B2, firstn_all.
    + now rewrite F, app_nil_r.
Qed.

Lemma every_change_once_and_chain_unbroken_witness :
  run Demo.liveChanges Demo.firstRejected
  /\ failures (observed Demo.firstRejected) = [Demo.unavailable]
  /\ logs (observed Demo.firstRejected) = []
  /\ exists l1,
       steps Demo.firstRejected l1
       /\ map snd (begun (observed l1)) = Demo.liveChanges
       /\ failures (observed l1) = logs (observed l1).
Proof.
  assert (R : run Demo.liveChanges Demo.firstRejected).
  { eapply run_step.
    - apply (run_emit [Demo.changed Demo.bad] Demo.firstBegun).
      eapply run_step.
      + exact (run_emit [] start (Demo.changed Demo.bad) run_start).
      + exact (step_fire Demo.firstEmitted [] _ [catchReaction 0] fulfilled
                 eq_refl eq_refl).
    - exact (step_end Demo.secondEmitted []
               {| inv_index := 0; inv_change := Demo.changed Demo.bad;
                  inv_promise := 1 |} [] (rejected Demo.unavailable) eq_refl). }
  split; [exact R|]. split; [reflexivity|]. split; [reflexivity|].
  exact (proj2 (proj2 (every_change_once_and_chain_unbroken Demo.liveChanges
                         Demo.firstRejected R)) (fun _ => rejected Demo.unavailable)).
Defined.

End ChainFacts.

(* ================================================================= *)
(** ** The round trip, exactly *)

Lemma scalarValues_scalar s :
  Forall (fun c => c < 0x10000) s ->
  Forall (fun cp => isScalarValue cp = true) (JS.scalarValues s).
Proof.
  induction s as [| c | c d r IHr IHdr] using jsstring_pair_ind; intros H.
  - constructor.
  - inversion H as [|? ? Hc _]; subst. cbn [JS.scalarValues].
    destruct (JS.isHighSurrogate c) eqn:Hh; [repeat constructor|].
    destruct (JS.isLowSurrogate c) eqn:Hl; [repeat constructor|].
    constructor; [|constructor].
    apply (bmp_scalar c Hh Hl). now apply N.ltb_lt.
  - inversion H as [|? ? Hc H']; subst.
    remember (d :: r) as t eqn:Et. cbn [JS.scalarValues].
    destruct (JS.isHighSurrogate c) eqn:Hh.
    + subst t. destruct (JS.isLowSurrogate d) eqn:Hd.
      * constructor; [apply (pair_scalar c d Hh Hd)|].
        apply IHr. now inversion H'.
      * constructor; [reflexivity | now apply IHdr].
    + destruct (JS.isLowSurrogate c) eqn:Hl.
      * constructor; [reflexivity | now apply IHdr].
      * constructor; [|now apply IHdr].
        apply (bmp_scalar c Hh Hl). now apply N.ltb_lt.
Qed.

Lemma codeUnits_wellFormed cps :
  Forall (fun cp => isScalarValue cp = true) cps ->
  isWellFormed (flat_map JS.codeUnits cps) = true.
Proof.
  induction 1 as [|cp cps H _ IH]; [reflexivity|].
  cbn [flat_map]. unfold isScalarValue in H.
  apply andb_prop in H as [Hlt Hns]. apply N.ltb_lt in Hlt.
  apply negb_true_iff, andb_false_iff in Hns.
  assert (Hs : ~ (0xD800 <= cp <= 0xDFFF)).
  { intros [A B]. destruct Hns as [C|C]; apply N.leb_gt in C; lia. }
  unfold JS.codeUnits. destruct (N.ltb_spec cp 0x10000) as [Hb|Hb].
  - cbn [app isWellFormed]. unfold JS.isHighSurrogate, JS.isLowSurrogate.
    destruct (N.leb_spec 0xD800 cp); cbn [andb].
    + destruct (N.leb_spec cp 0xDBFF); [lia|].
      destruct (N.leb_spec 0xDC00 cp); cbn [andb negb].
      * destruct (N.leb_spec cp 0xDFFF); [lia|]. cbn [negb andb].
        replace (cp <? 0x10000) with true by (symmetry; apply N.ltb_lt; lia). exact IH.
      * replace (cp <? 0x10000) with true by (symmetry; apply N.ltb_lt; lia). exact IH.
    + destruct (N.leb_spec 0xDC00 cp); [lia|]. cbn [andb negb].
      replace (cp <? 0x10000) with true by (symmetry; apply N.ltb_lt; lia). exact IH.
  - cbn [app isWellFormed].
    replace (JS.isHighSurrogate (0xD800 + (cp - 0x10000) / 0x400)) with true.
    2:{ symmetry. unfold JS.isHighSurrogate. apply andb_true_iff.
        split; apply N.leb_le; lia. }
    replace (JS.isLowSurrogate (0xDC00 + (cp - 0x10000) mod 0x400)) with true.
    2:{ symmetry. unfold JS.isLowSurrogate. apply andb_true_iff.
        split; apply N.leb_le; lia. }
    exact IH.
Qed.

Lemma stripBOM_Forall (P : N -> Prop) cps : Forall P cps -> Forall P (JS.stripBOM cps).
Proof.
  intros H. unfold JS.stripBOM. destruct cps as [|c t]; [exact H|].
  inversion H; subst.
  destruct c as [|p]; [exact H|].
  repeat (destruct p as [p|p|]; try exact H). assumption.
Qed.

Lemma text_codec_wellFormed s :
  Forall (fun c => c < 0x10000) s ->
  isWellFormed (JS.TextDecoder_decode (JS.TextEncoder_encode s)) = true.
Proof.
  intros H. unfold JS.TextDecoder_decode, JS.TextEncoder_encode.
  pose proof (scalarValues_scalar s H) as F.
  rewrite utf8Decode_encode by exact F.
  apply codeUnits_wellFormed, stripBOM_Forall, F.
Qed.

Lemma text_codec_drops_BOM s :
  isWellFormed s = true -> startsWithBOM s = true ->
  JS.TextDecoder_decode (JS.TextEncoder_encode s) = tl s.
Proof.
  intros Hwf Hb. unfold JS.TextDecoder_decode, JS.TextEncoder_encode.
  destruct (wellFormed_text s Hwf) as [F E].
  rewrite utf8Decode_encode by exact F.
  destruct s as [|c t]; [discriminate|].
  assert (c = 0xFEFF) as ->.
  { unfold startsWithBOM in Hb. destruct c as [|p]; [discriminate|].
    repeat (destruct p as [p|p|]; try discriminate). reflexivity. }
  cbn [tl]. change (JS.scalarValues (0xFEFF :: t)) with (0xFEFF :: JS.scalarValues t) in *.
  cbn [JS.stripBOM]. cbn [flat_map] in E.
  change (JS.codeUnits 0xFEFF) with [0xFEFF] in E. now injection E.
Qed.

(** X27.  Over a working cipher, decrypting what [encrypt] made of a
    string never fails, always gives a well-formed string, and gives the
    string itself exactly when the string is well formed and does not
    start with U+FEFF: the round trip loses what the UTF-8 codec loses,
    and nothing else. *)
Theorem round_trip_exactly h key data st :
  cipherWorks h key -> keyCached h st ->
  Forall (fun c => c < 0x10000) data ->
  (exists out, snd (decrypt_encrypt h data st) = inr out /\ isWellFormed out = true)
  /\ (snd (decrypt_encrypt h data st) = inr data
      <-> isWellFormed data = true /\ startsWithBOM data = false).
Proof.
  intros Hw Hc Hu.
  rewrite (decrypt_encrypt_is_the_text_codec h key data st Hw Hc).
  pose proof (text_codec_wellFormed data Hu) as W.
  split; [eexists; split; [reflexivity | exact W]|].
  split.
  - intros [= E]. rewrite E in W. split; [exact W|].
    destruct (startsWithBOM data) eqn:B; [|reflexivity].
    rewrite (text_codec_drops_BOM data W B) in E.
    apply (f_equal (@List.length N)) in E. destruct data; [discriminate|].
    cbn in E. lia.
  - intros [Hwf Hb]. now rewrite TextDecoder_TextEncoder.
Qed.

Lemma round_trip_exactly_witness :
  let h := Toy.helper "p1" derive in
  (exists key, cipherWorks h key)
  /\ keyCached h newHelperState
  /\ Forall (fun c => c < 0x10000) [0xD83D; 0x61]
  /\ isWellFormed [0xD83D; 0x61] = false
  /\ snd (decrypt_encrypt h [0xD83D; 0x61] newHelperState) <> inr [0xD83D; 0x61]
  /\ exists out, snd (decrypt_encrypt h [0xD83D; 0x61] newHelperState) = inr out
                 /\ isWellFormed out = true.
Proof.
  intros h.
  assert (H1 : keyCached h newHelperState) by (left; reflexivity).
  assert (H2 : Forall (fun c => c < 0x10000) [0xD83D; 0x61]) by (repeat constructor).
  split; [exact (Toy_cipherWorks "p1" derive)|]. split; [exact H1|]. split; [exact H2|].
  split; [reflexivity|].
  destruct (Toy_cipherWorks "p1" derive) as [key Hw].
  destruct (round_trip_exactly h key [0xD83D; 0x61] newHelperState Hw H1 H2) as (E & I).
  split; [|exact E].
  intros R. apply I in R. destruct R as [R _]. discriminate R.
Defined.

(* ================================================================= *)
(** ** [get] and [getConflictInfo]: what makes them answer [null] *)

Section Lookups.

Variable JSON_parse : jsstring -> result jsvalue.
Variable this : EncryptedPouch.

Let h := encryptionHelper this.

(** X28.  [get] answers [null] for a document that is there and decrypts,
    when the document has conflicts and [onConflict] throws: the call is
    inside the [try], and what it throws is taken for a failure of the
    lookup.  The callback has been called, and so has [onError] for the
    competing revisions that do not decrypt. *)
Theorem get_null_when_onConflict_throws tbl id encryptedDoc doc parsed callback e w :
  keyCached h (helperState w) ->
  onErrorReturns (listener this) ->
  db_get (db this) (tbl ++ js "_" ++ id) None = inr encryptedDoc ->
  decryptDocOutcome JSON_parse this encryptedDoc = inr doc ->
  parseFullId (_id encryptedDoc) = Some parsed ->
  hasConflicts (_conflicts encryptedDoc) = true ->
  onConflict (listener this) = Some callback ->
  callback [conflictInfoOf JSON_parse this encryptedDoc parsed doc] = Some e ->
  exists w1,
    get JSON_parse this tbl id w = (w1, inr None)
    /\ trace w1
       = trace w
         ++ errorNotice this (lostRevisions JSON_parse this (_id encryptedDoc)
                                (conflictsOf (_conflicts encryptedDoc)))
         ++ [called_onConflict [conflictInfoOf JSON_parse this encryptedDoc parsed doc]].
Proof.
  intros Hk Herr Hg Hd Hp Hc Hcb Hthrow.
  destruct (decryptDoc_run JSON_parse this encryptedDoc w Hk) as (w1 & E1 & R1).
  rewrite Hd in E1.
  destruct (buildConflictInfo_returns JSON_parse this encryptedDoc parsed doc w1 Hp Herr
              (reaches_keyCached _ _ _ _ R1)) as (w2 & E2 & R2).
  eexists. split.
  - unfold get. cbn zeta. erewrite try_catch_throws; [reflexivity|].
    unfold bind at 1. unfold await. rewrite Hg.
    unfold bind at 1. rewrite E1. rewrite Hcb, Hc.
    unfold bind at 1. unfold bind at 1. rewrite E2. rewrite Hthrow.
    unfold call, bind, emit, modify, throw. reflexivity.
  - destruct (reaches_trans _ _ _ _ _ _ R1 R2) as (T & _). cbn [app] in T.
    cbn [log trace]. rewrite T. now rewrite <- app_assoc.
Qed.

(** X29.  [getConflictInfo] answers [null] when the document cannot be
    fetched and when it has no conflict -- then without deriving the key
    or decrypting anything -- and when it has conflicts but does not
    decrypt.  When it decrypts, the only callback that can be called is
    [onError], once, for the competing revisions that do not decrypt:
    [onConflict] and [onChange] are never called.  When that call
    throws, the answer is [null] again; when it is not made or returns,
    the answer is the [ConflictInfo]. *)
Theorem getConflictInfo_outcome tbl id w :
  let fullId := tbl ++ js "_" ++ id in
  (forall e, db_get (db this) fullId None = inl e ->
             getConflictInfo JSON_parse this tbl id w = (w, inr None))
  /\ (forall encryptedDoc,
        db_get (db this) fullId None = inr encryptedDoc ->
        hasConflicts (_conflicts encryptedDoc) = false ->
        getConflictInfo JSON_parse this tbl id w = (w, inr None))
  /\ (forall encryptedDoc,
        db_get (db this) fullId None = inr encryptedDoc ->
        hasConflicts (_conflicts encryptedDoc) = true ->
        keyCached h (helperState w) ->
        (forall e,
           decryptDocOutcome JSON_parse this encryptedDoc = inl e ->
           exists w1, getConflictInfo JSON_parse this tbl id w = (w1, inr None)
                      /\ trace w1 = trace w)
        /\ (forall doc parsed,
              decryptDocOutcome JSON_parse this encryptedDoc = inr doc ->
              parseFullId (_id encryptedDoc) = Some parsed ->
              let lost := lostRevisions JSON_parse this (_id encryptedDoc)
                            (conflictsOf (_conflicts encryptedDoc)) in
              exists w1,
                getConflictInfo JSON_parse this tbl id w
                = (w1, inr match reportThrows this lost with
                           | None => Some (conflictInfoOf JSON_parse this encryptedDoc
                                             parsed doc)
                           | Some _ => None
                           end)
                /\ trace w1 = trace w ++ errorNotice this lost
                /\ conflictCalls (errorNotice this lost) = []
                /\ changeCalls (errorNotice this lost) = [])).
Proof.
  intros fullId. unfold getConflictInfo. cbn zeta. fold fullId.
  split; [|split].
  - intros e He. unfold try_catch, bind, await. now rewrite He.
  - intros encryptedDoc Hg Hc. unfold try_catch, bind, await. now rewrite Hg, Hc.
  - intros encryptedDoc Hg Hc Hk.
    destruct (decryptDoc_run JSON_parse this encryptedDoc w Hk) as (w1 & E1 & R1).
    split.
    + intros e He. rewrite He in E1. exists w1. split.
      * erewrite try_catch_throws; [reflexivity|].
        unfold bind at 1. unfold await. rewrite Hg, Hc. cbn [negb].
        unfold bind. now rewrite E1.
      * destruct R1 as (T & _). now rewrite T, app_nil_r.
    + intros doc parsed Hd Hp. rewrite Hd in E1.
      set (lost := lostRevisions JSON_parse this (_id encryptedDoc)
                     (conflictsOf (_conflicts encryptedDoc))).
      destruct (buildConflictInfo_outcome JSON_parse this encryptedDoc parsed doc w1 Hp
                  (reaches_keyCached _ _ _ _ R1)) as (w2 & E2 & R2).
      cbn zeta in E2, R2. fold lost in E2, R2.
      exists w2. split; [|split].
      * destruct (reportThrows this lost) as [e|].
        -- erewrite try_catch_throws; [reflexivity|].
           unfold bind at 1. unfold await. rewrite Hg, Hc. cbn [negb].
           unfold bind at 1. rewrite E1. unfold bind. now rewrite E2.
        -- erewrite try_catch_ok; [reflexivity|].
           unfold bind at 1. unfold await. rewrite Hg, Hc. cbn [negb].
           unfold bind at 1. rewrite E1. unfold bind. now rewrite E2.
      * destruct (reaches_trans _ _ _ _ _ _ R1 R2) as (T & _). exact T.
      * destruct (errorNotice_calls this lost) as (A & B & _). auto.
Qed.

End Lookups.

Lemma get_null_when_onConflict_throws_witness :
  let this := Demo.pouch Demo.documents Demo.conflictThrowingListener in
  keyCached (encryptionHelper this) (helperState newWorld)
  /\ onErrorReturns (listener this)
  /\ (exists doc, decryptDocOutcome Demo.parse this Demo.dinner = inr doc)
  /\ exists w1,
       get Demo.parse this (js "expenses") (js "dinner") newWorld = (w1, inr None)
       /\ List.length (trace w1) = 2%nat.
Proof.
  intros this.
  assert (He : onErrorReturns (listener this)).
  { intros callback E x. injection E as <-. reflexivity. }
  assert (Hd : decryptDocOutcome Demo.parse this Demo.dinner
               = inr [(js "_id", JStr (js "dinner")); (js "_rev", JStr (js "2-a"));
                      (js "amount", JNum 40)]) by (vm_compute; reflexivity).
  split; [exact Demo_keyCached|]. split; [exact He|]. split; [eexists; exact Hd|].
  destruct (get_null_when_onConflict_throws Demo.parse this (js "expenses") (js "dinner")
              Demo.dinner _ {| parsed_table := js "expenses"; parsed_id := js "dinner" |}
              (fun _ => Some Demo.thrown) Demo.thrown newWorld
              Demo_keyCached He eq_refl Hd eq_refl eq_refl eq_refl eq_refl) as (w1 & E & T).
  exists w1. split; [exact E|]. rewrite T. vm_compute. reflexivity.
Defined.

Lemma getConflictInfo_outcome_witness :
  let this := Demo.pouch Demo.documents Demo.fullListener in
  let that := Demo.pouch Demo.documents Demo.errorThrowingListener in
  db_get (db this) (js "expenses" ++ js "_" ++ js "lunch") None = inr Demo.lunch
  /\ hasConflicts (_conflicts Demo.lunch) = false
  /\ getConflictInfo Demo.parse this (js "expenses") (js "lunch") newWorld
     = (newWorld, inr None)
  /\ getConflictInfo Demo.parse this (js "expenses") (js "none") newWorld
     = (newWorld, inr None)
  /\ (exists w1 info,
        getConflictInfo Demo.parse this (js "expenses") (js "dinner") newWorld
        = (w1, inr (Some info))
        /\ List.length (trace w1) = 1%nat)
  /\ (exists w1,
        getConflictInfo Demo.parse that (js "expenses") (js "dinner") newWorld
        = (w1, inr None)
        /\ List.length (trace w1) = 1%nat).
Proof.
  intros this that.
  destruct (getConflictInfo_outcome Demo.parse this (js "expenses") (js "lunch") newWorld)
    as (_ & N & _).
  destruct (getConflictInfo_outcome Demo.parse this (js "expenses") (js "none") newWorld)
    as (F & _).
  destruct (getConflictInfo_outcome Demo.parse this (js "expenses") (js "dinner") newWorld)
    as (_ & _ & D).
  destruct (getConflictInfo_outcome Demo.parse that (js "expenses") (js "dinner") newWorld)
    as (_ & _ & D').
  assert (Hd : decryptDocOutcome Demo.parse this Demo.dinner
               = inr [(js "_id", JStr (js "dinner")); (js "_rev", JStr (js "2-a"));
                      (js "amount", JNum 40)]) by (vm_compute; reflexivity).
  split; [reflexivity|]. split; [reflexivity|].
  split; [exact (N Demo.lunch eq_refl eq_refl)|].
  split; [exact (F Demo.notFound eq_refl)|]. split.
  - destruct (D Demo.dinner eq_refl eq_refl Demo_keyCached) as (_ & R).
    destruct (R _ {| parsed_table := js "expenses"; parsed_id := js "dinner" |} Hd eq_refl)
      as (w1 & E & T & _).
    exists w1. eexists. split; [exact E|]. rewrite T. vm_compute. reflexivity.
  - destruct (D' Demo.dinner eq_refl eq_refl Demo_keyCached) as (_ & R).
    destruct (R _ {| parsed_table := js "expenses"; parsed_id := js "dinner" |} Hd eq_refl)
      as (w1 & E & T & _).
    exists w1. split; [exact E|]. rewrite T. vm_compute. reflexivity.
Defined.
